(** * mysql-sync-pro: row-diff synchronisation and change detection

    A shallow embedding of [src/sync.py], [utils/change_detector.py] and
    the loop body of [examples/full_real_time_sync.py].  Databases, state
    files, the log and the list of issued statements live in an explicit
    world that every effectful function threads; an exception is a
    result of the computation. *)

From Stdlib Require Import ZArith Ascii String.
From stdpp Require Import gmap strings list sorting pretty.

Local Open Scope Z_scope.
Local Open Scope string_scope.
Local Open Scope list_scope.

(** ** Scalar values and primary-key tuples *)

(** A column value as the driver hands it to Python: [None], an [int]
    or a [str]. *)
Inductive value :=
  | VNull
  | VInt (n : Z)
  | VStr (s : string).

#[global] Instance value_eq_dec : EqDecision value.
Proof. solve_decision. Defined.

#[global] Instance value_countable : Countable value.
Proof.
  refine (inj_countable'
    (fun v => match v with
              | VNull => inl ()
              | VInt n => inr (inl n)
              | VStr s => inr (inr s)
              end)
    (fun x => match x with
              | inl _ => VNull
              | inr (inl n) => VInt n
              | inr (inr s) => VStr s
              end) _).
  by intros [].
Defined.

(** [PKTuple = Tuple[object, ...]] *)
Abbreviation PKTuple := (list value).

(** Python's [<=] on two values of one class: integers by magnitude,
    strings by code points.  Python refuses to order values of different
    classes; a key column is typed and NOT NULL, so the values of one
    column never mix classes, and the order below only extends Python's
    to a total one (None, then integers, then strings). *)
Definition value_leb (a b : value) : bool :=
  match a, b with
  | VNull, _ => true
  | VInt _, VNull => false
  | VInt x, VInt y => (x <=? y)%Z
  | VInt _, VStr _ => true
  | VStr s, VStr t => String.leb s t
  | VStr _, _ => false
  end.

(** Tuple comparison: the first position where the two tuples differ
    decides; a proper prefix is smaller. *)
Fixpoint tuple_leb (p q : PKTuple) : bool :=
  match p, q with
  | [], _ => true
  | _ :: _, [] => false
  | a :: p', b :: q' =>
      if decide (a = b) then tuple_leb p' q' else value_leb a b
  end.

Definition tuple_le (p q : PKTuple) : Prop := tuple_leb p q = true.

#[global] Instance tuple_le_dec p q : Decision (tuple_le p q).
Proof. unfold tuple_le. apply _. Defined.

(** [sorted(xs)]: Python's sort is a stable merge sort. *)
Definition sorted (xs : list PKTuple) : list PKTuple :=
  merge_sort tuple_le xs.

(** ** The per-table plan (sync_table, the three [sorted(list(...))] lines) *)

Record SyncPlan := mkPlan {
  to_insert : list PKTuple;
  to_delete : list PKTuple;
  overlap : list PKTuple
}.

Definition diff_keys (local_pks prod_pks : gset PKTuple) : SyncPlan :=
  {| to_insert := sorted (elements (local_pks ∖ prod_pks));
     to_delete := sorted (elements (prod_pks ∖ local_pks));
     overlap := sorted (elements (local_pks ∩ prod_pks)) |}.

(** ** Exceptions and results *)

Inductive exn :=
  | ValueError (msg : string)
  | KeyError (key : string)
  | OperationalError
  | ProgrammingError
  | IntegrityError
  | SystemExit (code : Z).

(** [except Exception] does not catch [SystemExit]. *)
Definition is_Exception (e : exn) : bool :=
  match e with
  | SystemExit _ => false
  | _ => true
  end.

Inductive Res (A : Type) :=
  | Ok (a : A)
  | Raise (e : exn).
Arguments Ok {A} a.
Arguments Raise {A} e.

(** ** Schema catalog *)

Record Column := mkColumn {
  col_name : string;
  computed : bool
}.

Record Table := mkTable {
  name : string;
  columns : list Column;
  primary_key : list string
}.

(** A row mapping, column name to value ([dict(row)]). *)
Abbreviation Row := (gmap string value).

(** ** The databases *)

Record TableData := mkTableData {
  td_schema : Table;
  td_rows : list Row
}.

(** What [SHOW MASTER STATUS] does on a server: it is refused, it
    returns no row, or it returns the log file and the position. *)
Inductive MasterStatus :=
  | StatusDenied
  | StatusNoRow
  | StatusRow (file_name : string) (position : Z).

Record Database := mkDatabase {
  db_tables : gmap string TableData;
  fk_checks : bool;
  master_status : MasterStatus
}.

(** ** Statements sent to a server *)

Inductive stmt :=
  | SelectPKs (t : string) (pk_cols : list string)
  | SelectRows (t : string) (pk_cols : list string) (pks : list PKTuple)
  | SelectHashes (t : string) (pk_cols data_cols : list string) (pks : list PKTuple)
  | InsertStmt (t : string) (ignore : bool) (rows : list Row)
  | UpsertStmt (t : string) (rows : list Row) (update_cols : list string)
  | DeleteStmt (t : string) (pk_cols : list string) (pks : list PKTuple)
  | SetForeignKeyChecks (enabled : bool)
  | ShowMasterStatus
  | SetGroupConcatMaxLen
  | SelectContentQueries
  | SelectContentBytes
  | SelectQuickFingerprint (t : string) (pk_cols : list string)
  | ReflectSchema.

(** A statement that changes rows. *)
Definition is_mutation (s : stmt) : bool :=
  match s with
  | InsertStmt _ _ _ | UpsertStmt _ _ _ | DeleteStmt _ _ _ => true
  | _ => false
  end.

Definition is_fk_toggle (s : stmt) : bool :=
  match s with
  | SetForeignKeyChecks _ => true
  | _ => false
  end.

(** One statement as a server received it; [ev_ok] is false when it
    raised. *)
Record Event := mkEvent {
  ev_url : string;
  ev_stmt : stmt;
  ev_ok : bool
}.

Inductive Level := DEBUG | INFO | WARNING | ERROR | PRINT.

Inductive log_arg :=
  | AStr (s : string)
  | AInt (n : Z)
  | AExn (e : exn).

Record LogRecord := mkLog {
  log_level : Level;
  log_format : string;
  log_args : list log_arg
}.

(** ** The world

    [dbs] maps a connection URL to its database (an engine is its URL, so
    two engines on one URL share the data); [files] maps a state-file
    path to its text; [trace] lists the statements in the order they
    were sent; [faults] schedules server failures: every statement takes
    the head, and raises when it is [true]. *)
Record World := mkWorld {
  dbs : gmap string Database;
  files : gmap string string;
  trace : list Event;
  logs : list LogRecord;
  faults : list bool
}.

Definition M (A : Type) : Type := World → Res A * World.

#[global] Instance M_ret : MRet M := λ A a w, (Ok a, w).

#[global] Instance M_bind : MBind M := λ A B f m w,
  match m w with
  | (Ok a, w') => f a w'
  | (Raise e, w') => (Raise e, w')
  end.

Definition raise {A} (e : exn) : M A := λ w, (Raise e, w).

(** [try: body  except Exception: handler] *)
Definition try_except {A} (body : M A) (handler : exn → M A) : M A := λ w,
  match body w with
  | (Ok a, w') => (Ok a, w')
  | (Raise e, w') => if is_Exception e then handler e w' else (Raise e, w')
  end.

(** [try: body  finally: fin]: [fin] runs on every exit of [body]; when
    [fin] itself raises, that exception replaces the outcome. *)
Definition try_finally {A} (body : M A) (fin : M unit) : M A := λ w,
  match body w with
  | (r, w') =>
      match fin w' with
      | (Ok _, w'') => (r, w'')
      | (Raise e, w'') => (Raise e, w'')
      end
  end.

Definition when (b : bool) (m : M unit) : M unit :=
  if b then m else mret tt.

(** [for x in xs: acc = body(acc, x)] *)
Fixpoint for_loop {A S} (xs : list A) (body : S → A → M S) (acc : S) : M S :=
  match xs with
  | [] => mret acc
  | x :: xs' => acc' ← body acc x; for_loop xs' body acc'
  end.

Definition logging (lvl : Level) (fmt : string) (args : list log_arg) : M unit := λ w,
  (Ok tt, mkWorld (dbs w) (files w) (trace w) (logs w ++ [mkLog lvl fmt args]) (faults w)).

Definition next_fault (fs : list bool) : bool * list bool :=
  match fs with
  | [] => (false, [])
  | f :: fs' => (f, fs')
  end.

(** [with engine.connect() as conn]: fails when nothing listens at the
    URL. *)
Definition connect (engine : string) : M unit := λ w,
  match dbs w !! engine with
  | None => (Raise OperationalError, w)
  | Some _ => (Ok tt, w)
  end.

(** [conn.execute(s)]: the statement is recorded; a scheduled fault or
    an error of the statement leaves the database as it was (each
    statement runs in its own transaction). *)
Definition execute {A} (engine : string) (s : stmt)
    (sem : Database → Res (A * Database)) : M A := λ w,
  match dbs w !! engine with
  | None => (Raise OperationalError, w)
  | Some db =>
      let '(faulty, rest) := next_fault (faults w) in
      let failed := mkWorld (dbs w) (files w)
                      (trace w ++ [mkEvent engine s false]) (logs w) rest in
      if faulty then (Raise OperationalError, failed)
      else match sem db with
           | Raise e => (Raise e, failed)
           | Ok (a, db') =>
               (Ok a, mkWorld (<[engine := db']> (dbs w)) (files w)
                        (trace w ++ [mkEvent engine s true]) (logs w) rest)
           end
  end.

(** ** Statement semantics *)

Definition row_val (r : Row) (c : string) : value := default VNull (r !! c).

(** The key of a row: [tuple(row[i] for i in range(len(pk_column_names)))],
    and [(row[0],)] for a single column. *)
Definition row_key (pk_cols : list string) (r : Row) : PKTuple :=
  map (row_val r) pk_cols.

Definition table_data (db : Database) (t : string) : Res TableData :=
  match db_tables db !! t with
  | Some td => Ok td
  | None => Raise ProgrammingError
  end.

(** The [WHERE] clause of the three by-key statements:
    [pk IN (pk[0] for pk in pk_values)] for one key column,
    [(pk1, .., pkn) IN pk_values] otherwise.  Values are compared as
    they are, which is what a server does for integer keys. *)
Definition in_condition (pk_cols : list string) (pk_values : list PKTuple)
    (r : Row) : bool :=
  match pk_cols with
  | [c] => bool_decide (Some (row_val r c) ∈ map head pk_values)
  | _ => bool_decide (row_key pk_cols r ∈ pk_values)
  end.

(** [select(table)]: a mapping with one entry per column of the
    reflected table. *)
Definition select_columns (cols : list Column) (r : Row) : Row :=
  list_to_map (map (λ c, (col_name c, row_val r (col_name c))) cols).

Definition set_rows (db : Database) (t : string) (td : TableData)
    (rows : list Row) : Database :=
  mkDatabase (<[t := mkTableData (td_schema td) rows]> (db_tables db))
    (fk_checks db) (master_status db).

Definition same_key (pk : list string) (p r : Row) : bool :=
  bool_decide (row_key pk r = row_key pk p).

(** A stored row conflicts with [p] when the table has a primary key and
    both rows carry the same key. *)
Definition conflicts (pk : list string) (p : Row) (rows : list Row) : bool :=
  match pk with
  | [] => false
  | _ => existsb (same_key pk p) rows
  end.

(** [INSERT [IGNORE] INTO t VALUES ...], row by row, on a table whose
    one unique index is the primary key: IGNORE skips a row that repeats
    a key, and the statement raises on it otherwise. *)
Fixpoint insert_all (pk : list string) (ignore : bool) (payload rows : list Row)
    : Res (list Row) :=
  match payload with
  | [] => Ok rows
  | p :: payload' =>
      if conflicts pk p rows then
        if ignore then insert_all pk ignore payload' rows
        else Raise IntegrityError
      else insert_all pk ignore payload' (rows ++ [p])
  end.

(** [ON DUPLICATE KEY UPDATE c = VALUES(c)] for the listed columns. *)
Definition update_row (update_cols : list string) (p r : Row) : Row :=
  foldr (λ c acc, <[c := row_val p c]> acc) r update_cols.

Fixpoint upsert_all (pk update_cols : list string) (payload rows : list Row)
    : list Row :=
  match payload with
  | [] => rows
  | p :: payload' =>
      if conflicts pk p rows then
        upsert_all pk update_cols payload'
          (map (λ r, if same_key pk p r then update_row update_cols p r else r) rows)
      else upsert_all pk update_cols payload' (rows ++ [p])
  end.

Definition sem_select_pks (t : string) (pk_cols : list string) (db : Database)
    : Res (list PKTuple * Database) :=
  match table_data db t with
  | Ok td => Ok (map (row_key pk_cols) (td_rows td), db)
  | Raise e => Raise e
  end.

Definition sem_select_rows (table : Table) (pk_cols : list string)
    (pk_values : list PKTuple) (db : Database) : Res (list Row * Database) :=
  match table_data db (name table) with
  | Ok td =>
      Ok (map (select_columns (columns table))
            (List.filter (in_condition pk_cols pk_values) (td_rows td)), db)
  | Raise e => Raise e
  end.

Definition sem_insert (t : string) (ignore : bool) (payload : list Row)
    (db : Database) : Res (unit * Database) :=
  match table_data db t with
  | Ok td =>
      match insert_all (primary_key (td_schema td)) ignore payload (td_rows td) with
      | Ok rows => Ok (tt, set_rows db t td rows)
      | Raise e => Raise e
      end
  | Raise e => Raise e
  end.

Definition sem_upsert (t : string) (update_cols : list string) (payload : list Row)
    (db : Database) : Res (unit * Database) :=
  match table_data db t with
  | Ok td =>
      Ok (tt, set_rows db t td
                (upsert_all (primary_key (td_schema td)) update_cols payload (td_rows td)))
  | Raise e => Raise e
  end.

(** [DELETE FROM t WHERE ...]; the result is [rowcount], for pymysql
    the number of rows removed. *)
Definition sem_delete (t : string) (pk_cols : list string) (pk_values : list PKTuple)
    (db : Database) : Res (Z * Database) :=
  match table_data db t with
  | Ok td =>
      let kept := List.filter (λ r, negb (in_condition pk_cols pk_values r)) (td_rows td) in
      Ok (Z.of_nat (length (td_rows td)) - Z.of_nat (length kept), set_rows db t td kept)
  | Raise e => Raise e
  end.

Definition sem_set_fk (enabled : bool) (db : Database) : Res (unit * Database) :=
  Ok (tt, mkDatabase (db_tables db) enabled (master_status db)).

(** ** Hex digests *)

Definition hex_digit (n : N) : ascii :=
  nth (N.to_nat n) (list_ascii_of_string "0123456789abcdef") "0"%char.

Definition hex_byte (b : ascii) : string :=
  String (hex_digit (N_of_ascii b / 16))
    (String (hex_digit (N_of_ascii b mod 16)) EmptyString).

Fixpoint hexdigest (d : list ascii) : string :=
  match d with
  | [] => EmptyString
  | b :: d' => hex_byte b +:+ hexdigest d'
  end.

(** [CAST(col AS CHAR)]; [None] is SQL NULL. *)
Definition cast_string (v : value) : option string :=
  match v with
  | VNull => None
  | VInt n => Some (pretty n)
  | VStr s => Some s
  end.

Definition COALESCE (o : option string) (dflt : string) : string := default dflt o.

Definition CONCAT_WS (sep : string) (parts : list string) : string :=
  String.concat sep parts.

(** [chunked(seq, size)]: [range(0, len(seq), size)] raises on a zero
    step and is empty for a negative one. *)
Definition chunked {A} (xs : list A) (size : Z) : Res (list (list A)) :=
  if decide (size = 0) then Raise (ValueError "range() arg 3 must not be zero")
  else if decide (size < 0) then Ok []
  else
    let sz := Z.to_nat size in
    Ok (map (λ j, take sz (drop (j * sz)%nat xs))
          (seq 0 (Nat.div (length xs + sz - 1) sz))).

(** [chunked_iterable(it, size)]: the loop takes [list(islice(iterator,
    size))] until that list is empty.  The iterator is the list of the
    items it has not handed out yet; [islice] refuses a negative [size]
    when the generator is first advanced.  A list of [n] items is
    exhausted after at most [n] batches, so [n + 1] rounds reach the
    [break]. *)
Fixpoint chunked_iterable_loop {A} (rounds : nat) (iterator : list A) (size : nat)
    : list (list A) :=
  match rounds with
  | O => []
  | S rounds' =>
      let batch := take size iterator in
      match batch with
      | [] => []
      | _ => batch :: chunked_iterable_loop rounds' (drop size iterator) size
      end
  end.

Definition chunked_iterable {A} (it : list A) (size : Z) : Res (list (list A)) :=
  if decide (size < 0) then
    Raise (ValueError
      "Stop argument for islice() must be None or an integer: 0 <= x <= sys.maxsize.")
  else Ok (chunked_iterable_loop (S (length it)) it (Z.to_nat size)).

Record SyncOptions := mkOptions {
  dry_run : bool;
  batch_size : Z;
  disable_fk_checks : bool;
  use_insert_ignore : bool
}.

(** ** Example data: the [orders] scenario

    Local ids 1, 2, 3, 4 and remote ids 2, 3, 5; row 2 is the same on
    both sides, row 3 differs in [qty]; [total] is a generated column. *)

(** A stand-in for MD5 in the examples: a text is its own digest. *)
Definition demo_md5 (s : string) : list ascii := list_ascii_of_string s.

(** A stand-in for CRC32: the length of the text. *)
Definition demo_crc32 (s : string) : Z := Z.of_nat (String.length s).

Definition orders : Table :=
  mkTable "orders"
    [mkColumn "id" false; mkColumn "qty" false; mkColumn "total" true] ["id"].

(** A table without a primary key. *)
Definition audit_log : Table := mkTable "audit_log" [mkColumn "line" false] [].

Definition order_row (id qty total : Z) : Row :=
  {[ "id" := VInt id; "qty" := VInt qty; "total" := VInt total ]}.

Definition demo_local : Database :=
  mkDatabase
    {[ "orders" :=
         mkTableData orders
           [order_row 1 1 10; order_row 2 2 20; order_row 3 3 30; order_row 4 4 40] ]}
    true StatusNoRow.

Definition demo_prod : Database :=
  mkDatabase
    {[ "orders" :=
         mkTableData orders [order_row 2 2 20; order_row 3 9 90; order_row 5 5 50] ]}
    true StatusNoRow.

Definition local_url : string := "mysql+pymysql://dev/shop".
Definition prod_url : string := "mysql+pymysql://prod/shop".

Definition demo_world : World :=
  mkWorld {[ local_url := demo_local; prod_url := demo_prod ]} ∅ [] [] [].

(** The same world when the server refuses the second statement it
    receives. *)
Definition flaky_world : World :=
  mkWorld {[ local_url := demo_local; prod_url := demo_prod ]} ∅ [] [] [false; true].

Definition demo_options : SyncOptions := mkOptions false 1000 true true.

(** The production database with the two values of row 3 exchanged:
    other rows, the same number of bytes. *)
Definition demo_prod_swapped : Database :=
  mkDatabase
    {[ "orders" :=
         mkTableData orders [order_row 2 2 20; order_row 3 90 9; order_row 5 5 50] ]}
    true StatusNoRow.

(** A server that holds one database. *)
Definition one_server (url : string) (db : Database) : World :=
  mkWorld {[ url := db ]} ∅ [] [] [].

(** A NULL on the local side against the text of the NULL token on the
    production side. *)
Definition null_row : Row := {[ "id" := VInt 1; "qty" := VNull; "total" := VNull ]}.
Definition token_row : Row := {[ "id" := VInt 1; "qty" := VStr "␀"; "total" := VNull ]}.

Definition null_world : World :=
  mkWorld
    {[ local_url := mkDatabase {[ "orders" := mkTableData orders [null_row] ]}
                      true StatusNoRow;
       prod_url := mkDatabase {[ "orders" := mkTableData orders [token_row] ]}
                     true StatusNoRow ]}
    ∅ [] [] [].

(** A second stand-in for MD5, the text backwards: the digests of the
    two URLs differ in their first bytes, so each URL has a state file
    of its own. *)
Definition tail_md5 (s : string) : list ascii := rev (list_ascii_of_string s).

(** The [orders] table as a server declares it that stores [total]
    instead of generating it. *)
Definition orders_plain : Table :=
  mkTable "orders"
    [mkColumn "id" false; mkColumn "qty" false; mkColumn "total" false] ["id"].

(** A local server that stores [total], a production server that
    generates it; row 3 differs in [qty]. *)
Definition plain_world : World :=
  mkWorld
    {[ local_url := mkDatabase {[ "orders" := mkTableData orders_plain [order_row 3 3 30] ]}
                      true StatusNoRow;
       prod_url := mkDatabase {[ "orders" := mkTableData orders [order_row 3 9 90] ]}
                     true StatusNoRow ]}
    ∅ [] [] [].

(** The [orders] scenario on servers that refuse the eighteenth
    statement: the seventeen statements of a sync pass go through, the
    first statement after them does not. *)
Definition refused_world : World :=
  mkWorld {[ local_url := demo_local; prod_url := demo_prod ]} ∅ [] []
    (replicate 17 false ++ [true]).

(** A second table, and the two servers holding both tables. *)
Definition customers : Table :=
  mkTable "customers" [mkColumn "id" false; mkColumn "city" false] ["id"].

Definition customer_row (id : Z) (city : string) : Row :=
  {[ "id" := VInt id; "city" := VStr city ]}.

Definition shop_world : World :=
  mkWorld
    {[ local_url :=
         mkDatabase
           {[ "orders" :=
                mkTableData orders
                  [order_row 1 1 10; order_row 2 2 20; order_row 3 3 30; order_row 4 4 40];
              "customers" := mkTableData customers [customer_row 1 "Oslo"] ]}
           true StatusNoRow;
       prod_url :=
         mkDatabase
           {[ "orders" :=
                mkTableData orders [order_row 2 2 20; order_row 3 9 90; order_row 5 5 50];
              "customers" :=
                mkTableData customers [customer_row 1 "Rome"; customer_row 2 "Bern"] ]}
           true StatusNoRow ]}
    ∅ [] [] [].

(** The options of a run with [--no-insert-ignore]. *)
Definition plain_insert_options : SyncOptions := mkOptions false 1000 true false.

(** ** src/sync.py *)

Section Sync.

(** [hashlib.md5(s.encode("utf-8")).digest()], and the server's [MD5()],
    which returns the same digest in hex. *)
Variable md5 : string → list ascii.

Definition MD5 (s : string) : string := hexdigest (md5 s).

(** [table.c[name]] for every listed name. *)
Definition table_c (table : Table) (names : list string) : M unit :=
  match List.find (λ n, negb (bool_decide (n ∈ map col_name (columns table)))) names with
  | Some n => raise (KeyError n)
  | None => mret tt
  end.

Definition get_primary_key_column_names (table : Table) : list string :=
  primary_key table.

Definition fetch_pk_values (engine : string) (table : Table)
    (pk_column_names : list string) : M (gset PKTuple) :=
  match pk_column_names with
  | [] => mret ∅
  | _ =>
      table_c table pk_column_names;;
      rows ← execute engine (SelectPKs (name table) pk_column_names)
                (sem_select_pks (name table) pk_column_names);
      mret (list_to_set rows)
  end.

Definition fetch_rows_by_pks (engine : string) (table : Table)
    (pk_column_names : list string) (pk_values : list PKTuple) : M (list Row) :=
  match pk_values with
  | [] => mret []
  | _ =>
      table_c table pk_column_names;;
      execute engine (SelectRows (name table) pk_column_names pk_values)
        (sem_select_rows table pk_column_names pk_values)
  end.

Definition allowed_cols (table : Table) : list string :=
  map col_name (List.filter (λ c, negb (computed c)) (columns table)).

Definition filter_row (table : Table) (row : Row) : Row :=
  filter (λ kv, kv.1 ∈ allowed_cols table) row.

Definition insert_rows (engine : string) (table : Table) (rows : list Row)
    (use_insert_ignore : bool) : M Z :=
  match rows with
  | [] => mret 0
  | _ =>
      let filtered_rows := map (filter_row table) rows in
      execute engine (InsertStmt (name table) use_insert_ignore filtered_rows)
        (sem_insert (name table) use_insert_ignore filtered_rows);;
      mret (Z.of_nat (length filtered_rows))
  end.

Definition delete_rows_by_pks (engine : string) (table : Table)
    (pk_column_names : list string) (pk_values : list PKTuple) : M Z :=
  match pk_values with
  | [] => mret 0
  | _ =>
      table_c table pk_column_names;;
      deleted ← execute engine (DeleteStmt (name table) pk_column_names pk_values)
                   (sem_delete (name table) pk_column_names pk_values);
      mret (if decide (deleted >= 0) then deleted else 0)
  end.

Definition get_computed_column_names (table : Table) : list string :=
  map col_name (List.filter computed (columns table)).

Definition get_updatable_column_names (table : Table) (pk_column_names : list string)
    : list string :=
  map col_name
    (List.filter
       (λ c, bool_decide (col_name c ∉ pk_column_names) &&
             bool_decide (col_name c ∉ get_computed_column_names table))
       (columns table)).

Definition candidates : list string :=
  ["updated_at"; "updatedAt"; "updated_on"; "modified_at"; "modifiedAt";
   "last_modified"; "updated"].

(** The first candidate that names a column of the table and is not
    generated. *)
Definition get_version_column_name (table : Table) : option string :=
  let computed := get_computed_column_names table in
  List.find
    (λ name, bool_decide (name ∈ map col_name (columns table)) &&
             bool_decide (name ∉ computed))
    candidates.

Definition null_token : string := "␀".

(** The value of [build_row_fingerprint_expr] on one row. *)
Definition row_fingerprint (data_column_names : list string) (r : Row) : string :=
  match data_column_names with
  | [] => MD5 ""
  | _ =>
      MD5 (CONCAT_WS "|"
             (map (λ c, COALESCE (cast_string (row_val r c)) null_token)
                data_column_names))
  end.

Definition sem_select_hashes (t : string) (pk_cols data_cols : list string)
    (pk_values : list PKTuple) (db : Database)
    : Res (list (PKTuple * string) * Database) :=
  match table_data db t with
  | Ok td =>
      Ok (map (λ r, (row_key pk_cols r, row_fingerprint data_cols r))
            (List.filter (in_condition pk_cols pk_values) (td_rows td)), db)
  | Raise e => Raise e
  end.

Definition fetch_hashes_for_pks (engine : string) (table : Table)
    (pk_column_names data_column_names : list string) (pk_values : list PKTuple)
    : M (gmap PKTuple string) :=
  match pk_values with
  | [] => mret ∅
  | _ =>
      table_c table pk_column_names;;
      table_c table data_column_names;;
      result ← execute engine
                 (SelectHashes (name table) pk_column_names data_column_names pk_values)
                 (sem_select_hashes (name table) pk_column_names data_column_names pk_values);
      mret (foldl (λ (hashes : gmap PKTuple string) kh, <[kh.1 := kh.2]> hashes) ∅ result)
  end.

Definition upsert_rows (engine : string) (table : Table) (rows : list Row)
    (update_column_names : list string) : M Z :=
  match rows with
  | [] => mret 0
  | _ =>
      table_c table update_column_names;;
      execute engine (UpsertStmt (name table) rows update_column_names)
        (sem_upsert (name table) update_column_names rows);;
      mret (Z.of_nat (length rows))
  end.

Definition set_foreign_key_checks (engine : string) (enabled : bool) : M unit :=
  execute engine (SetForeignKeyChecks enabled) (sem_set_fk enabled).

(** [for batch in chunked(seq, size)]: the generator raises when the
    loop asks for the first batch. *)
Definition for_chunks {S} (seq : list PKTuple) (size : Z)
    (body : S → list PKTuple → M S) (acc : S) : M S :=
  match chunked seq size with
  | Ok batches => for_loop batches body acc
  | Raise e => raise e
  end.

Definition is_empty {A} (xs : list A) : bool :=
  match xs with
  | [] => true
  | _ => false
  end.

Definition insert_batch (local_engine prod_engine : string)
    (local_table prod_table : Table) (pk_column_names : list string)
    (options : SyncOptions) (total_inserted : Z) (batch : list PKTuple) : M Z :=
  rows ← fetch_rows_by_pks local_engine local_table pk_column_names batch;
  inserted ← insert_rows prod_engine prod_table rows (use_insert_ignore options);
  mret (total_inserted + inserted).

(** [{k: v for (k, v) in row.items() if k not in computed_cols}] *)
Definition sanitize_row (local_table : Table) (row : Row) : Row :=
  filter (λ kv, kv.1 ∉ get_computed_column_names local_table) row.

Definition changed_pks (local_hashes prod_hashes : gmap PKTuple string)
    (batch : list PKTuple) : list PKTuple :=
  List.filter (λ pk, negb (bool_decide (local_hashes !! pk = prod_hashes !! pk))) batch.

Definition update_batch (local_engine prod_engine : string)
    (local_table prod_table : Table) (pk_column_names data_cols : list string)
    (total_updated : Z) (batch : list PKTuple) : M Z :=
  local_hashes ← fetch_hashes_for_pks local_engine local_table pk_column_names data_cols batch;
  prod_hashes ← fetch_hashes_for_pks prod_engine prod_table pk_column_names data_cols batch;
  let changed := changed_pks local_hashes prod_hashes batch in
  if is_empty changed then mret total_updated
  else
    changed_rows ← fetch_rows_by_pks local_engine local_table pk_column_names changed;
    let sanitized_rows := map (sanitize_row local_table) changed_rows in
    updated ← upsert_rows prod_engine prod_table sanitized_rows data_cols;
    mret (total_updated + updated).

Definition delete_batch (prod_engine : string) (prod_table : Table)
    (pk_column_names : list string) (total_deleted : Z) (batch : list PKTuple) : M Z :=
  deleted ← delete_rows_by_pks prod_engine prod_table pk_column_names batch;
  mret (total_deleted + deleted).

(** The body of the [try] block of [sync_table]. *)
Definition apply_plan (local_engine prod_engine : string)
    (local_table prod_table : Table) (pk_column_names : list string)
    (options : SyncOptions) (plan : SyncPlan) : M unit :=
  let table_name := name local_table in
  total_inserted ←
    (if is_empty (to_insert plan) then mret 0
     else
       logging INFO "[%s] Inserting rows in batches of %d..."
         [AStr table_name; AInt (batch_size options)];;
       for_chunks (to_insert plan) (batch_size options)
         (insert_batch local_engine prod_engine local_table prod_table
            pk_column_names options) 0);
  total_updated ←
    (if is_empty (overlap plan) then mret 0
     else
       let data_cols := get_updatable_column_names local_table pk_column_names in
       if is_empty data_cols then mret 0
       else
         logging INFO "[%s] Checking for updates in %d overlapping rows..."
           [AStr table_name; AInt (Z.of_nat (length (overlap plan)))];;
         for_chunks (overlap plan) (batch_size options)
           (update_batch local_engine prod_engine local_table prod_table
              pk_column_names data_cols) 0);
  total_deleted ←
    (if is_empty (to_delete plan) then mret 0
     else
       logging INFO "[%s] Deleting rows in batches of %d..."
         [AStr table_name; AInt (batch_size options)];;
       for_chunks (to_delete plan) (batch_size options)
         (delete_batch prod_engine prod_table pk_column_names) 0);
  logging INFO "[%s] Applied changes | inserted: %d, updated: %d, deleted: %d"
    [AStr table_name; AInt total_inserted; AInt total_updated; AInt total_deleted].

Definition sync_table (local_engine prod_engine : string)
    (local_table prod_table : Table) (options : SyncOptions) : M unit :=
  let table_name := name local_table in
  let pk_column_names := get_primary_key_column_names local_table in
  if is_empty pk_column_names then
    logging WARNING
      "Skipping table '%s' – no primary key defined; cannot safely diff rows."
      [AStr table_name]
  else
    logging INFO "[%s] Fetching primary keys from local and production..."
      [AStr table_name];;
    local_pks ← fetch_pk_values local_engine local_table pk_column_names;
    prod_pks ← fetch_pk_values prod_engine prod_table pk_column_names;
    let plan := diff_keys local_pks prod_pks in
    logging INFO "[%s] Planned changes | insert: %d, delete: %d"
      [AStr table_name; AInt (Z.of_nat (length (to_insert plan)));
       AInt (Z.of_nat (length (to_delete plan)))];;
    if dry_run options then mret tt
    else
      when (disable_fk_checks options) (set_foreign_key_checks prod_engine false);;
      try_finally
        (apply_plan local_engine prod_engine local_table prod_table
           pk_column_names options plan)
        (when (disable_fk_checks options) (set_foreign_key_checks prod_engine true)).

(** ** utils/change_detector.py *)

(** [hashlib.md5(database_url).hexdigest()[:20]] names the state file.
    The [.state] directory is created on the way; directories are not
    part of the world. *)
Definition get_state_file_for_database (database_url : string) : string :=
  let md5_hash := hexdigest (md5 database_url) in
  ".state/.sync_db_" +:+ substring 0 20 md5_hash +:+ ".state".

Definition sem_show_master_status (db : Database)
    : Res (option (string * Z) * Database) :=
  match master_status db with
  | StatusDenied => Raise OperationalError
  | StatusNoRow => Ok (None, db)
  | StatusRow file_name position => Ok (Some (file_name, position), db)
  end.

Definition get_binlog_signature (engine : string) : M string :=
  connect engine;;
  try_except
    (row ← execute engine ShowMasterStatus sem_show_master_status;
     match row with
     | None => mret ""
     | Some (file_name, position) =>
         mret ("binlog:" +:+ file_name +:+ ":" +:+ pretty position)
     end)
    (λ _, mret "").

(** The first query of [content_dynamic_signature] builds one
    [SELECT name, SUM(OCTET_LENGTH(CONCAT_WS('', COALESCE(col, ''), ..)))]
    per table of the schema; its text is kept as the list of tables with
    their columns.  It is NULL when the schema has no column. *)
Definition sem_content_queries (db : Database)
    : Res (option (list (string * list string)) * Database) :=
  let queries :=
    omap (λ '(t, td),
            match columns (td_schema td) with
            | [] => None
            | cols => Some (t, map col_name cols)
            end)
         (map_to_list (db_tables db)) in
  Ok (if is_empty queries then None else Some queries, db).

Definition row_octets (cols : list string) (r : Row) : Z :=
  Z.of_nat (String.length
    (CONCAT_WS "" (map (λ c, COALESCE (cast_string (row_val r c)) "") cols))).

(** [SUM] over no row is NULL. *)
Definition SUM (xs : list Z) : option Z :=
  match xs with
  | [] => None
  | _ => Some (foldr Z.add 0 xs)
  end.

Definition name_le (a b : string * option Z) : Prop := String.leb a.1 b.1 = true.

#[global] Instance name_le_dec a b : Decision (name_le a b).
Proof. unfold name_le. apply _. Defined.

(** The second query runs them, [ORDER BY table_name]. *)
Fixpoint run_content_queries (db : Database) (queries : list (string * list string))
    : Res (list (string * option Z)) :=
  match queries with
  | [] => Ok []
  | (t, cols) :: queries' =>
      match table_data db t, run_content_queries db queries' with
      | Ok td, Ok rest => Ok ((t, SUM (map (row_octets cols) (td_rows td))) :: rest)
      | Raise e, _ => Raise e
      | _, Raise e => Raise e
      end
  end.

Definition sem_content_bytes (queries : list (string * list string)) (db : Database)
    : Res (list (string * option Z) * Database) :=
  match run_content_queries db queries with
  | Ok results => Ok (merge_sort name_le results, db)
  | Raise e => Raise e
  end.

Definition newline : string := String (ascii_of_nat 10) EmptyString.

Definition content_dynamic_signature (engine : string) : M string :=
  try_except
    (connect engine;;
     execute engine SetGroupConcatMaxLen (λ db, Ok (tt, db));;
     row ← execute engine SelectContentQueries sem_content_queries;
     match row with
     | None => mret ""
     | Some union_sql =>
         results ← execute engine SelectContentBytes (sem_content_bytes union_sql);
         let parts :=
           map (λ r : string * option Z, r.1 +:+ ":" +:+ pretty (default 0 r.2)) results in
         mret ("content:" +:+ hexdigest (md5 (String.concat newline parts)))
     end)
    (λ _, mret "").

(** Python's [str.strip()] on ASCII text. *)
Definition is_space (c : ascii) : bool :=
  let n := nat_of_ascii c in
  ((9 <=? n)%nat && (n <=? 13)%nat) || ((28 <=? n)%nat && (n <=? 32)%nat).

Fixpoint lstrip_chars (cs : list ascii) : list ascii :=
  match cs with
  | [] => []
  | c :: cs' => if is_space c then lstrip_chars cs' else cs
  end.

Definition strip (s : string) : string :=
  string_of_list_ascii
    (rev (lstrip_chars (rev (lstrip_chars (list_ascii_of_string s))))).

(** [os.getenv("DATABASE_URL")], read when the module is loaded. *)
Variable DEFAULT_DATABASE_URL : option string.

Definition default_state_file (state_file : option string) : M string :=
  match state_file with
  | Some f => mret f
  | None =>
      match DEFAULT_DATABASE_URL with
      | None | Some EmptyString =>
          raise (ValueError
            "DATABASE_URL environment variable must be set when state_file is not provided")
      | Some url => mret (get_state_file_for_database url)
      end
  end.

(** [state_file.read_text(encoding="utf-8").strip()] when the file
    exists, the empty string otherwise; the text is handed back as it
    was written, as it is for text without a carriage return. *)
Definition read_state (state_file : string) : M string := λ w,
  (Ok match files w !! state_file with
      | Some text => strip text
      | None => ""
      end, w).

Definition load_last_signature (state_file : option string) : M string :=
  f ← default_state_file state_file;
  read_state f.

Definition write_text (state_file sig : string) : M unit := λ w,
  (Ok tt, mkWorld (dbs w) (<[state_file := sig]> (files w)) (trace w) (logs w) (faults w)).

Definition save_current_signature (sig : string) (state_file : option string) : M unit :=
  f ← default_state_file state_file;
  write_text f sig.

Definition get_quick_signature (database_url : string) (signature_type : option string)
    : M string :=
  let engine := database_url in
  if decide (signature_type = Some "content") then content_dynamic_signature engine
  else if decide (signature_type = Some "binlog") then get_binlog_signature engine
  else
    sig ← get_binlog_signature engine;
    if negb (String.eqb sig "") then mret sig
    else
      sig ← content_dynamic_signature engine;
      if negb (String.eqb sig "") then mret sig
      else raise (ValueError "can't get signature").

Definition has_database_changes (database_url : string) (state_file : option string)
    (signature_type : option string) : M bool :=
  let state_file := default (get_state_file_for_database database_url) state_file in
  sig ← get_quick_signature database_url signature_type;
  last_sig ← load_last_signature (Some state_file);
  mret (negb (String.eqb sig "") && negb (String.eqb sig last_sig)).

Definition write_current_signature (database_url : string) (state_file : option string)
    : M unit :=
  let state_file := default (get_state_file_for_database database_url) state_file in
  sig ← get_quick_signature database_url None;
  if negb (String.eqb sig "") then save_current_signature sig (Some state_file)
  else mret tt.

(** ** The quick fingerprint of sync.py *)

(** The server's [CRC32()]. *)
Variable crc32 : string → Z.

Definition value_max (a b : value) : value := if value_leb a b then b else a.

(** [MAX(c)]: NULL over no row. *)
Definition MAX (vs : list value) : value :=
  match vs with
  | [] => VNull
  | v :: vs' => foldl value_max v vs'
  end.

(** [str(v)] for a value that is not [None]. *)
Definition str (v : value) : string := default "" (cast_string v).

(** [CONCAT_WS] skips NULL arguments. *)
Definition sem_quick_fingerprint (t : string) (pk_cols : list string) (db : Database)
    : Res ((Z * option Z * list value) * Database) :=
  match table_data db t with
  | Ok td =>
      let rows := td_rows td in
      Ok ((Z.of_nat (length rows),
           SUM (map (λ r, crc32 (CONCAT_WS "|"
                                   (omap (λ c, cast_string (row_val r c)) pk_cols))) rows),
           map (λ c, MAX (map (λ r, row_val r c) rows)) pk_cols), db)
  | Raise e => Raise e
  end.

Definition table_quick_fingerprint (engine : string) (table : Table)
    (pk_column_names : list string) : M string :=
  table_c table pk_column_names;;
  '(row_count, sum_crc, maxima) ←
    execute engine (SelectQuickFingerprint (name table) pk_column_names)
      (sem_quick_fingerprint (name table) pk_column_names);
  if is_empty pk_column_names then mret (pretty row_count +:+ ":")
  else
    let max_vals := map str maxima in
    mret (pretty row_count +:+ ":" +:+ pretty (default 0 sum_crc) +:+ ":" +:+
          String.concat "|" max_vals).

Definition str_le (a b : string) : Prop := String.leb a b = true.

#[global] Instance str_le_dec a b : Decision (str_le a b).
Proof. unfold str_le. apply _. Defined.

Definition database_quick_signature (engine : string) (tables : list Table) : M string :=
  parts ← for_loop tables
             (λ (parts : list string) t,
                let pk_cols := primary_key t in
                key ← table_quick_fingerprint engine t pk_cols;
                mret (parts ++ [name t +:+ ":" +:+ key])%list)
             [];
  let signature := hexdigest (md5 (String.concat newline (merge_sort str_le parts))) in
  mret ("quick:" +:+ signature).

(** The state file of sync.py itself. *)
Definition STATE_FILE : string := ".state/.sync_local.state".

Definition load_last_local_signature : M string := read_state STATE_FILE.

Definition save_last_local_signature (sig : string) : M unit :=
  write_text STATE_FILE sig.

(** ** sync_mysql *)

(** [make_url(url)]: the dialect test and the port. *)
Variable is_mysql_url : string → bool.
Variable get_port : string → option Z.

(** The integer in [SYNC_MAX_WORKERS], when it holds one, and
    [os.cpu_count()]. *)
Variable SYNC_MAX_WORKERS : option Z.
Variable cpu_count : option Z.

Definition load_metadata (engine : string) : M (gmap string Table) :=
  execute engine ReflectSchema (λ db, Ok (td_schema <$> db_tables db, db)).

Definition get_common_table_names (local_meta prod_meta : gmap string Table)
    : list string :=
  merge_sort str_le (elements (dom local_meta ∩ dom prod_meta)).

Definition name_set (names : list string) : list string :=
  List.filter (λ n, negb (String.eqb n "")) (map strip names).

Definition filter_tables (tables : list string) (include exclude : option (list string))
    : list string :=
  let selected :=
    match include with
    | None | Some [] => tables
    | Some incl => List.filter (λ t, bool_decide (t ∈ name_set incl)) tables
    end in
  match exclude with
  | None | Some [] => selected
  | Some excl => List.filter (λ t, negb (bool_decide (t ∈ name_set excl))) selected
  end.

Definition resolve_max_workers (max_workers : option Z) : Z :=
  match max_workers with
  | Some n => n
  | None =>
      let cpu := match cpu_count with
                 | Some 0 | None => 2
                 | Some c => c
                 end in
      let derived := Z.min 8 (Z.max 2 (cpu * 2)) in
      match SYNC_MAX_WORKERS with
      | Some n => if decide (n <= 0) then derived else n
      | None => derived
      end
  end.

(** One task of the pool.  An exception of [sync_table] is logged; an
    exception outside the [try] stays in the future, which nobody
    reads. *)
Definition sync_task (local_engine prod_engine : string)
    (local_meta prod_meta : gmap string Table) (options : SyncOptions)
    (table_name : string) : M unit :=
  match local_meta !! table_name, prod_meta !! table_name with
  | Some local_table, Some prod_table =>
      try_except
        (sync_table local_engine prod_engine local_table prod_table options)
        (λ exc, logging ERROR "Error while syncing table '%s': %s"
                  [AStr table_name; AExn exc])
  | _, _ => mret tt
  end.

(** The tasks of the worker pool are run here one after the other, in
    the order they were submitted.  [configure_logging(verbosity)] only
    sets the level at which records are shown; every record is kept in
    [logs] whatever the level, so [verbosity] is not a parameter. *)
Definition sync_mysql (local_url prod_url : string)
    (include exclude : option (list string)) (batch_size : Z)
    (dry_run keep_fk_checks no_insert_ignore allow_mysql_port_5432 : bool)
    (max_workers : option Z) (change_detector : bool) : M unit :=
  if negb (is_mysql_url local_url) || negb (is_mysql_url prod_url) then
    logging ERROR "Both local_url and prod_url must be MySQL URLs (mysql+pymysql://...)" [];;
    raise (SystemExit 2)
  else if bool_decide (get_port prod_url = Some 5432) && negb allow_mysql_port_5432 then
    logging ERROR
      ("Production URL uses port 5432 (typical for PostgreSQL). If your MySQL server " +:+
       "indeed listens on 5432, set allow_mysql_port_5432=True.") [];;
    raise (SystemExit 2)
  else
    skip ←
      (if change_detector then
         try_except
           (if negb dry_run then
              changed ← has_database_changes local_url None None;
              if negb changed then
                logging INFO "No local DB changes detected; skipping full sync." [];;
                mret true
              else mret false
            else mret false)
           (λ exc, logging DEBUG "Fast change detection skipped due to: %s" [AExn exc];;
                   mret false)
       else mret false);
    if (skip : bool) then mret tt
    else
      logging INFO "Connecting to local and production databases..." [];;
      let local_engine := local_url in
      let prod_engine := prod_url in
      logging INFO "Reflecting database schemas..." [];;
      local_meta ← load_metadata local_engine;
      prod_meta ← load_metadata prod_engine;
      let tables := get_common_table_names local_meta prod_meta in
      if is_empty tables then
        logging ERROR "No common tables found between local and production databases." [];;
        raise (SystemExit 1)
      else
        let tables := filter_tables tables include exclude in
        if is_empty tables then
          logging ERROR "After filtering, no tables remain to synchronize." [];;
          raise (SystemExit 1)
        else
          let options := mkOptions dry_run batch_size (negb keep_fk_checks)
                           (negb no_insert_ignore) in
          logging INFO "Tables to synchronize (%d): %s"
            [AInt (Z.of_nat (length tables)); AStr (String.concat ", " tables)];;
          let workers := resolve_max_workers max_workers in
          logging INFO "Using up to %d parallel workers for table syncs" [AInt workers];;
          if decide (workers <= 0) then
            raise (ValueError "max_workers must be greater than 0")
          else
            for_loop tables
              (λ _ table_name,
                 sync_task local_engine prod_engine local_meta prod_meta options table_name)
              tt;;
            logging INFO "Synchronization complete." [];;
            try_except
              (if negb dry_run then write_current_signature local_url None else mret tt)
              (λ exc, logging DEBUG "Could not save local signature: %s" [AExn exc]).

(** ** examples/full_real_time_sync.py: one round of the loop of
    [sync_side] (the [try] block and its [except Exception]); the sleep
    between two rounds and the second thread are not part of a round *)

Definition print (fmt : string) (args : list log_arg) : M unit :=
  logging PRINT fmt args.

(** The block under [with sync_lock]. *)
Definition locked_sync (name source_url target_url : string) : M unit :=
  let source_state_file := get_state_file_for_database source_url in
  let target_state_file := get_state_file_for_database target_url in
  print "[%s] Changes detected in source. Syncing to target..." [AStr name];;
  sync_mysql source_url target_url None None 1000 false false false true None false;;
  new_sig ← get_quick_signature target_url (Some "content");
  save_current_signature new_sig (Some source_state_file);;
  save_current_signature new_sig (Some target_state_file);;
  print "[%s] Sync complete. Updated signatures." [AStr name].

Definition sync_side_round (name source_url target_url : string) : M unit :=
  try_except
    (let source_state_file := get_state_file_for_database source_url in
     current_sig ← get_quick_signature source_url (Some "content");
     last_sig ← load_last_signature (Some source_state_file);
     print "[%s] Checking... | Current Sig: %s | Last Sig: %s"
       [AStr name; AStr current_sig; AStr last_sig];;
     changed ← has_database_changes source_url None (Some "content");
     if (changed : bool) then locked_sync name source_url target_url
     else mret tt)
    (λ exc, print "[%s] Error running sync: %s" [AStr name; AExn exc]).

(** [sync_side], seen for a number of rounds of its [while True]. *)
Definition sync_side (INTERVAL_SECS : Z) (rounds : nat)
    (name source_url target_url : string) : M unit :=
  print "[%s] Auto Think is running. Checking every %d seconds..."
    [AStr name; AInt INTERVAL_SECS];;
  print "[%s] Press Ctrl+C to stop." [AStr name];;
  for_loop (seq 0 rounds) (λ _ _, sync_side_round name source_url target_url) tt.

(** ** examples/simple_runner.py and examples/auto_sync.py *)

(** [os.getenv("DEV_DB_URL")] and [os.getenv("PROD_DB_URL")]. *)
Variable DEV_DB_URL : option string.
Variable PROD_DB_URL : option string.

(** [not v] for the value of an environment variable. *)
Definition unset (v : option string) : bool :=
  match v with
  | None | Some EmptyString => true
  | Some _ => false
  end.

(** The two [print] calls and [exit(1)] of both runners. *)
Definition exit_without_urls : M unit :=
  print "Error: Both DEV_DB_URL and PROD_DB_URL environment variables must be set." [];;
  print "Please set these variables in your environment or .env file." [];;
  raise (SystemExit 1).

Definition run_default_sync : M unit :=
  let local_url := DEV_DB_URL in
  let prod_url := PROD_DB_URL in
  if unset local_url || unset prod_url then exit_without_urls
  else
    sync_mysql (default "" local_url) (default "" prod_url)
      None None 1000 false false false true None true.

(** One round of the loop of [run] in auto_sync.py: the production URL
    is passed as [local_url], the development URL as [prod_url]. *)
Definition auto_sync_round (dev_url prod_url : string) : M unit :=
  try_except
    (sync_mysql prod_url dev_url None None 1000 false false false true None true)
    (λ exc, print "Error running sync: %s" [AExn exc]).

(** [run] of auto_sync.py, seen for a number of rounds of its
    [while True]. *)
Definition auto_sync_run (INTERVAL_SECS : Z) (rounds : nat) : M unit :=
  print "Auto Think is running. Checking every %d seconds..." [AInt INTERVAL_SECS];;
  print "Press Ctrl+C to stop." [];;
  let dev_url := DEV_DB_URL in
  let prod_url := PROD_DB_URL in
  if unset dev_url || unset prod_url then exit_without_urls
  else
    for_loop (seq 0 rounds)
      (λ _ _, auto_sync_round (default "" dev_url) (default "" prod_url)) tt.

(** ** Vocabulary of the statements *)

(** Every run of [m] relates the world before to the world after by
    [I], whether it returns or raises. *)
Definition preserves {A} (I : relation World) (m : M A) : Prop :=
  ∀ w r w', m w = (r, w') → I w w'.

(** The statements sent during a run all satisfy [P]. *)
Definition emits (P : Event → Prop) : relation World := λ w w',
  ∃ evs, trace w' = trace w ++ evs ∧ Forall P evs.

(** Databases and state files are as before. *)
Definition same_data : relation World := λ w w',
  dbs w' = dbs w ∧ files w' = files w.

(** The state files are as before. *)
Definition same_files : relation World := λ w w', files w' = files w.

(** No server goes away. *)
Definition same_servers : relation World := λ w w',
  ∀ url, is_Some (dbs w !! url) → is_Some (dbs w' !! url).

(** Both relations hold. *)
Definition both (I J : relation World) : relation World := λ w w', I w w' ∧ J w w'.

(** A statement that only reads leaves the databases as they were. *)
Definition reads_only {A} (sem : Database → Res (A * Database)) : Prop :=
  ∀ db a db', sem db = Ok (a, db') → db' = db.

(** A statement that neither changes rows nor toggles the foreign-key
    checks. *)
Definition read_statement (e : Event) : Prop :=
  is_mutation (ev_stmt e) || is_fk_toggle (ev_stmt e) = false.

(** A statement other than SET FOREIGN_KEY_CHECKS. *)
Definition not_fk_toggle (e : Event) : Prop := is_fk_toggle (ev_stmt e) = false.

(** No row of the payload has an entry for one of the columns. *)
Definition payload_free_of (cols : list string) (rows : list Row) : Prop :=
  ∀ row c, row ∈ rows → c ∈ cols → row !! c = None.

(** The write is free of computed columns: an INSERT of those of the
    table written to, an upsert of those of the table the rows were
    read from. *)
Definition clean_payload (local_table prod_table : Table) (e : Event) : Prop :=
  match ev_stmt e with
  | InsertStmt _ _ rows => payload_free_of (get_computed_column_names prod_table) rows
  | UpsertStmt _ rows _ => payload_free_of (get_computed_column_names local_table) rows
  | _ => True
  end.

(** The rows a server holds for a table. *)
Definition stored_rows (w : World) (engine t : string) : list Row :=
  match dbs w !! engine with
  | Some db =>
      match db_tables db !! t with
      | Some td => td_rows td
      | None => []
      end
  | None => []
  end.

(** What [load_last_signature] reads from a state file. *)
Definition last_persisted (w : World) (state_file : string) : string :=
  match files w !! state_file with
  | Some text => strip text
  | None => ""
  end.

(** A statement other than the aggregate of the quick fingerprint. *)
Definition not_quick_fingerprint (e : Event) : Prop :=
  match ev_stmt e with
  | SelectQuickFingerprint _ _ => False
  | _ => True
  end.

(** What [content_dynamic_signature] returns when none of its three
    statements fails. *)
Definition content_value (db : Database) : string :=
  match sem_content_queries db with
  | Ok (Some union_sql, _) =>
      match sem_content_bytes union_sql db with
      | Ok (results, _) =>
          "content:" +:+
          hexdigest (md5 (String.concat newline
            (map (λ r : string * option Z, r.1 +:+ ":" +:+ pretty (default 0 r.2)) results)))
      | Raise _ => ""
      end
  | _ => ""
  end.

(** The stored rows that carry the key [k]. *)
Definition rows_at (pk : list string) (k : PKTuple) (rows : list Row) : list Row :=
  List.filter (λ r, bool_decide (row_key pk r = k)) rows.

(** The primary key a server declares for a table. *)
Definition stored_pk (w : World) (engine t : string) : option (list string) :=
  db ← dbs w !! engine;
  td ← db_tables db !! t;
  Some (primary_key (td_schema td)).

(** The keys [fetch_pk_values] finds. *)
Definition key_set (w : World) (engine t : string) (pk : list string) : gset PKTuple :=
  list_to_set (map (row_key pk) (stored_rows w engine t)).

(** The fingerprint the server computes for the row at [k]; when
    several rows carry [k], the mapping of [fetch_hashes_for_pks] keeps
    the last. *)
Definition fingerprint_at (w : World) (engine t : string)
    (pk data : list string) (k : PKTuple) : option string :=
  row_fingerprint data <$> last (rows_at pk k (stored_rows w engine t)).

(** The event is an upsert to [engine] whose payload has a row with
    key [k]. *)
Definition upserts (engine : string) (pk : list string) (k : PKTuple) (e : Event) : Prop :=
  ev_url e = engine ∧
  match ev_stmt e with
  | UpsertStmt _ rows _ => ∃ row, row ∈ rows ∧ row_key pk row = k
  | _ => False
  end.

(** A statement other than an upsert. *)
Definition no_upsert (e : Event) : Prop :=
  match ev_stmt e with
  | UpsertStmt _ _ _ => False
  | _ => True
  end.

(** The database of [engine] is as before. *)
Definition unchanged_at (engine : string) : relation World := λ w w',
  dbs w' !! engine = dbs w !! engine.

(** The rows of every key the remote table has stay as they are, and
    the table keeps its declared key. *)
Definition existing_kept (pe t : string) (pk : list string) : relation World := λ w w',
  stored_pk w pe t = Some pk →
  stored_pk w' pe t = Some pk ∧
  ∀ k, rows_at pk k (stored_rows w pe t) ≠ [] →
    rows_at pk k (stored_rows w' pe t) = rows_at pk k (stored_rows w pe t).

(** The hash gate for the key [k], while the remote table declares the
    key [pk] and holds a row for [k]: the local database stays as it is,
    the remote table keeps its key and a row for [k], an upsert of [k]
    is sent only when the two fingerprints differed at the start, and
    until one is sent the remote rows of [k] are as at the start. *)
Definition guarded (le pe : string) (lt pt : Table) (pk data : list string)
    (k : PKTuple) : relation World := λ w w',
  stored_pk w pe (name pt) = Some pk →
  rows_at pk k (stored_rows w pe (name pt)) ≠ [] →
  unchanged_at le w w' ∧
  stored_pk w' pe (name pt) = Some pk ∧
  rows_at pk k (stored_rows w' pe (name pt)) ≠ [] ∧
  ∃ evs, trace w' = trace w ++ evs ∧
    ((∃ e, e ∈ evs ∧ upserts pe pk k e) →
     fingerprint_at w le (name lt) pk data k ≠ fingerprint_at w pe (name pt) pk data k) ∧
    (rows_at pk k (stored_rows w' pe (name pt)) = rows_at pk k (stored_rows w pe (name pt)) ∨
     ∃ e, e ∈ evs ∧ upserts pe pk k e).

(** The part of [guarded] that survives statements which change the
    rows of [k] without upserting. *)
Definition safe (le pe : string) (lt pt : Table) (pk data : list string)
    (k : PKTuple) : relation World := λ w w',
  stored_pk w pe (name pt) = Some pk →
  rows_at pk k (stored_rows w pe (name pt)) ≠ [] →
  ∃ evs, trace w' = trace w ++ evs ∧
    ((∃ e, e ∈ evs ∧ upserts pe pk k e) →
     fingerprint_at w le (name lt) pk data k ≠ fingerprint_at w pe (name pt) pk data k).

(** A statement that changes no row. *)
Definition no_mutation (e : Event) : Prop := is_mutation (ev_stmt e) = false.

(** A statement that changes rows or toggles the foreign-key checks is
    sent to [engine]. *)
Definition targets (engine : string) (e : Event) : Prop :=
  is_mutation (ev_stmt e) || is_fk_toggle (ev_stmt e) = true → ev_url e = engine.

(** Every table of every server holds the rows it held. *)
Definition same_rows : relation World := λ w w',
  ∀ engine t, stored_rows w' engine t = stored_rows w engine t.

(** When [m] raises, the exception satisfies [P]. *)
Definition raises {A} (P : exn → Prop) (m : M A) : Prop :=
  ∀ w e w', m w = (Raise e, w') → P e.

(** An exception that [except Exception] catches. *)
Definition ordinary (e : exn) : Prop := is_Exception e = true.

(** When [m] raises, the exception satisfies [P] and the databases and
    state files are as before. *)
Definition fails_clean {A} (P : exn → Prop) (m : M A) : Prop :=
  ∀ w e w', m w = (Raise e, w') → same_data w w' ∧ P e.

(** The exceptions [sync_mysql] lets out: the two exit codes, a failed
    reflection, and the refusal of a pool without workers. *)
Definition sync_mysql_exit (local_url prod_url : string) (allow_mysql_port_5432 : bool)
    (max_workers : option Z) (e : exn) : Prop :=
  match e with
  | SystemExit 2 =>
      is_mysql_url local_url = false ∨ is_mysql_url prod_url = false ∨
      (get_port prod_url = Some 5432 ∧ allow_mysql_port_5432 = false)
  | SystemExit 1 => True
  | OperationalError => True
  | ValueError msg =>
      msg = "max_workers must be greater than 0" ∧
      ∃ n, max_workers = Some n ∧ (n ≤ 0)%Z
  | _ => False
  end.

(** The bytes [content_dynamic_signature] counts for a table: the sum
    over its rows of the lengths of the column values as text, a NULL
    counting for nothing. *)
Definition table_bytes (td : TableData) : Z :=
  foldr Z.add 0
    (map (row_octets (map col_name (columns (td_schema td)))) (td_rows td)).

(** Every server declares the primary keys it declared. *)
Definition same_schemas : relation World := λ w w',
  ∀ engine t, stored_pk w' engine t = stored_pk w engine t.

(** The two tables are in step: key by key the production table holds
    a row exactly when the local one does, and the two rows have the
    same fingerprint over the data columns of the local table. *)
Definition in_step (le pe : string) (lt pt : Table) (w : World) : Prop :=
  let pk := primary_key lt in
  let data := get_updatable_column_names lt pk in
  ∀ k, fingerprint_at w pe (name pt) pk data k = fingerprint_at w le (name lt) pk data k.

(** From tables in step, no row changes and no INSERT, upsert or DELETE
    is sent. *)
Definition quiet_in_step (le pe : string) (lt pt : Table) : relation World := λ w w',
  in_step le pe lt pt w → same_rows w w' ∧ emits no_mutation w w'.

(** The schema a server shows to [MetaData.reflect]. *)
Definition reflected (w : World) (engine : string) : gmap string Table :=
  match dbs w !! engine with
  | Some db => td_schema <$> db_tables db
  | None => ∅
  end.

(** Every table of the server is reflected under its own name. *)
Definition well_named (w : World) (engine : string) : Prop :=
  ∀ n table, reflected w engine !! n = Some table → name table = n.

(** Every server shows the schema it showed. *)
Definition same_reflections : relation World := λ w w',
  ∀ engine, reflected w' engine = reflected w engine.

(** The table [t] of [engine] holds the rows it held. *)
Definition keeps_table (engine t : string) : relation World := λ w w',
  stored_rows w' engine t = stored_rows w engine t.

(** The tables [sync_mysql] synchronises, from what the two servers
    show. *)
Definition selection (lu pu : string) (include exclude : option (list string))
    (w : World) : list string :=
  filter_tables (get_common_table_names (reflected w lu) (reflected w pu)) include exclude.

(** No schema changes, and a production table outside the selection
    keeps its rows. *)
Definition keeps_unselected (lu pu : string) (include exclude : option (list string))
    (t : string) : relation World := λ w w',
  same_reflections w w' ∧
  (well_named w pu → t ∉ selection lu pu include exclude w → keeps_table pu t w w').

(** The statement goes to [engine]. *)
Definition sent_to (engine : string) (e : Event) : Prop := ev_url e = engine.

(** What [get_binlog_signature] returns when the statement does not
    fail. *)
Definition binlog_value (db : Database) : string :=
  match master_status db with
  | StatusRow file_name position => "binlog:" +:+ file_name +:+ ":" +:+ pretty position
  | _ => ""
  end.

(** What [get_quick_signature] returns or raises when no statement
    fails, from the database behind the URL, if there is one. *)
Definition quick_result (signature_type : option string) (db : option Database)
    : Res string :=
  match db with
  | None =>
      if decide (signature_type = Some "content") then Ok "" else Raise OperationalError
  | Some db =>
      if decide (signature_type = Some "content") then Ok (content_value db)
      else if decide (signature_type = Some "binlog") then Ok (binlog_value db)
      else if negb (String.eqb (binlog_value db) "") then Ok (binlog_value db)
      else if negb (String.eqb (content_value db) "") then Ok (content_value db)
      else Raise (ValueError "can't get signature")
  end.

(** The statement semantics above compare key values as they are, NULL
    included.  A server does so for integers; it never matches a NULL,
    and it compares texts under the collation of the column.  The
    statements about the rows a key selects are therefore made for
    integer keys. *)
Definition is_int (v : value) : bool :=
  match v with
  | VInt _ => true
  | _ => false
  end.

(** Every key in the list is a tuple of integers. *)
Definition integer_tuples (pk_values : list PKTuple) : bool :=
  forallb (forallb is_int) pk_values.

(** Every row holds integers in the key columns. *)
Definition integer_keys (pk : list string) (rows : list Row) : bool :=
  integer_tuples (map (row_key pk) rows).

(** Text that [write_text] and [read_text] hand back as it is: ASCII
    characters and no carriage return, which reading in text mode turns
    into a line feed.  On such text [strip] above is Python's. *)
Definition plain_text (s : string) : bool :=
  forallb (λ c, (nat_of_ascii c <? 128)%nat && negb (nat_of_ascii c =? 13)%nat)
    (list_ascii_of_string s).

(** ** Order facts *)

Lemma ascii_compare_trans_lt a b c :
  Ascii.compare a b = Lt → Ascii.compare b c = Lt → Ascii.compare a c = Lt.
Proof.
  unfold Ascii.compare. rewrite !N.compare_lt_iff. lia.
Qed.

Lemma ascii_compare_refl a : Ascii.compare a a = Eq.
Proof. unfold Ascii.compare. apply N.compare_refl. Qed.

Lemma string_compare_refl s : String.compare s s = Eq.
Proof.
  induction s as [|a s IH]; simpl; [done|].
  by rewrite ascii_compare_refl.
Qed.

Lemma string_compare_trans_lt s t u :
  String.compare s t = Lt → String.compare t u = Lt → String.compare s u = Lt.
Proof.
  revert t u. induction s as [|a s IH]; intros [|b t] [|c u]; simpl; try done.
  destruct (Ascii.compare a b) eqn:Hab; try done.
  - apply Ascii.compare_eq_iff in Hab as ->.
    destruct (Ascii.compare b c) eqn:Hbc; try done. apply IH.
  - destruct (Ascii.compare b c) eqn:Hbc; try done.
    + apply Ascii.compare_eq_iff in Hbc as <-. by rewrite Hab.
    + by rewrite (ascii_compare_trans_lt _ _ _ Hab Hbc).
Qed.

Lemma string_leb_trans s t u :
  String.leb s t = true → String.leb t u = true → String.leb s u = true.
Proof.
  unfold String.leb. intros Hst Htu.
  destruct (String.compare s t) eqn:H1; try done.
  - apply String.compare_eq_iff in H1 as ->. done.
  - destruct (String.compare t u) eqn:H2; try done.
    + apply String.compare_eq_iff in H2 as <-. by rewrite H1.
    + by rewrite (string_compare_trans_lt _ _ _ H1 H2).
Qed.

Lemma value_leb_total a b : value_leb a b = true ∨ value_leb b a = true.
Proof.
  destruct a, b; simpl; auto using String.leb_total.
  destruct (Z.leb_spec n n0); [auto|]. right. apply Z.leb_le. lia.
Qed.

Lemma value_leb_trans a b c :
  value_leb a b = true → value_leb b c = true → value_leb a c = true.
Proof.
  destruct a, b, c; simpl; try done.
  - rewrite !Z.leb_le. lia.
  - apply string_leb_trans.
Qed.

Lemma value_leb_antisym a b :
  value_leb a b = true → value_leb b a = true → a = b.
Proof.
  destruct a, b; simpl; try done.
  - rewrite !Z.leb_le. intros. f_equal. lia.
  - intros H1 H2. f_equal. by apply String.leb_antisym.
Qed.

#[global] Instance tuple_le_total : Total tuple_le.
Proof.
  unfold tuple_le. intros p. induction p as [|a p IH]; intros [|b q]; simpl; auto.
  destruct (decide (a = b)) as [->|Hne].
  - rewrite decide_True by done. apply IH.
  - rewrite decide_False by done. apply value_leb_total.
Qed.

#[global] Instance tuple_le_trans : Transitive tuple_le.
Proof.
  unfold tuple_le. intros p. induction p as [|a p IH]; intros [|b q] [|c r]; simpl; try done.
  destruct (decide (a = b)) as [->|Hab].
  - destruct (decide (b = c)) as [->|Hbc]; [apply IH|done].
  - destruct (decide (b = c)) as [->|Hbc].
    + intros H _. by rewrite decide_False.
    + intros H1 H2. destruct (decide (a = c)) as [->|Hac].
      * destruct Hab. by apply value_leb_antisym.
      * eauto using value_leb_trans.
Qed.

#[global] Instance tuple_le_antisym : AntiSymm (=) tuple_le.
Proof.
  unfold tuple_le. intros p. induction p as [|a p IH]; intros [|b q]; simpl; try done.
  destruct (decide (a = b)) as [->|Hab].
  - rewrite decide_True by done. intros. f_equal. by apply IH.
  - rewrite decide_False by done. intros. destruct Hab. by apply value_leb_antisym.
Qed.

Lemma sorted_perm xs : sorted xs ≡ₚ xs.
Proof. apply merge_sort_Permutation. Qed.

Lemma sorted_Sorted xs : StronglySorted tuple_le (sorted xs).
Proof. apply StronglySorted_merge_sort; apply _. Qed.

(** The order in which Python walks the set does not show in the result. *)
Lemma sorted_order_irrelevant xs ys : xs ≡ₚ ys → sorted xs = sorted ys.
Proof.
  intros Hp. apply (StronglySorted_unique tuple_le); try apply sorted_Sorted.
  by rewrite !sorted_perm.
Qed.

Lemma elem_of_sorted k xs : k ∈ sorted xs ↔ k ∈ xs.
Proof. by rewrite sorted_perm. Qed.

Lemma NoDup_sorted xs : NoDup xs → NoDup (sorted xs).
Proof. by rewrite sorted_perm. Qed.

Lemma sorted_elements_set (s : gset PKTuple) :
  list_to_set (sorted (elements s)) = s.
Proof.
  apply set_eq. intros k. rewrite elem_of_list_to_set, elem_of_sorted.
  apply elem_of_elements.
Qed.

(** C1. The plan of [sync_table] for the key sets [L] (local) and [R]
    (remote): [to_insert] lists exactly L − R, [to_delete] exactly R − L,
    [overlap] exactly L ∩ R; inserts and deletes share no key, inserts
    with the overlap make up L, deletes with the overlap make up R; each
    list is duplicate-free and sorted lexicographically. *)
Theorem diff_keys_correct (L R : gset PKTuple) :
  let p := diff_keys L R in
  let ins : gset PKTuple := list_to_set (to_insert p) in
  let del : gset PKTuple := list_to_set (to_delete p) in
  let ovl : gset PKTuple := list_to_set (overlap p) in
  ins = L ∖ R ∧ del = R ∖ L ∧ ovl = L ∩ R ∧
  ins ∩ del = ∅ ∧ ins ∪ ovl = L ∧ del ∪ ovl = R ∧
  StronglySorted tuple_le (to_insert p) ∧
  StronglySorted tuple_le (to_delete p) ∧
  StronglySorted tuple_le (overlap p) ∧
  NoDup (to_insert p) ∧ NoDup (to_delete p) ∧ NoDup (overlap p).
Proof.
  simpl. rewrite !sorted_elements_set.
  repeat split; try apply sorted_Sorted;
    try (apply NoDup_sorted, NoDup_elements).
  - apply set_eq. intros k. rewrite elem_of_intersection, !elem_of_difference.
    split; [by intros [[_ Hn] [Hr _]] | by intros ?%not_elem_of_empty].
  - apply set_eq. intros k. rewrite elem_of_union, elem_of_difference, elem_of_intersection.
    destruct (decide (k ∈ R)); split;
      [intros [[? _]|[? _]]; done | intros ?; by right | intros [[? _]|[? _]]; done
      | intros ?; by left].
  - apply set_eq. intros k. rewrite elem_of_union, elem_of_difference, elem_of_intersection.
    destruct (decide (k ∈ L)); split;
      [intros [[? _]|[_ ?]]; done | intros ?; by right | intros [[? _]|[_ ?]]; done
      | intros ?; by left].
Qed.

(** ** Running a computation *)

Lemma bind_run {A B} (m : M A) (f : A → M B) w :
  (m ≫= f) w =
    match m w with
    | (Ok a, w') => f a w'
    | (Raise e, w') => (Raise e, w')
    end.
Proof. reflexivity. Qed.

Lemma bind_inv {A B} (m : M A) (f : A → M B) w r w' :
  (m ≫= f) w = (r, w') →
  (∃ a w1, m w = (Ok a, w1) ∧ f a w1 = (r, w')) ∨
  (∃ e, m w = (Raise e, w') ∧ r = Raise e).
Proof.
  rewrite bind_run. destruct (m w) as [[a|e] w1]; intros H.
  - left. eauto.
  - right. inversion H; subst. eauto.
Qed.

(** ** Relations between the world before and after a run *)

Section Preserves.
Context (I : relation World) `{!PreOrder I}.

Lemma preserves_ret {A} (a : A) : preserves I (mret a).
Proof. intros w r w' [= <- <-]. reflexivity. Qed.

Lemma preserves_raise {A} e : preserves I (@raise A e).
Proof. intros w r w' [= <- <-]. reflexivity. Qed.

Lemma preserves_bind {A B} (m : M A) (f : A → M B) :
  preserves I m → (∀ a, preserves I (f a)) → preserves I (m ≫= f).
Proof.
  intros Hm Hf w r w' [(a & w1 & H1 & H2)|(e & H1 & _)]%bind_inv.
  - etrans; [by eapply Hm | by eapply Hf].
  - by eapply Hm.
Qed.

Lemma preserves_try_except {A} (body : M A) handler :
  preserves I body → (∀ e, preserves I (handler e)) →
  preserves I (try_except body handler).
Proof.
  intros Hb Hh w r w'. unfold try_except.
  destruct (body w) as [[a|e] w1] eqn:E.
  - intros [= <- <-]. by eapply Hb.
  - destruct (is_Exception e).
    + intros H. etrans; [by eapply Hb | by eapply Hh].
    + intros [= <- <-]. by eapply Hb.
Qed.

Lemma preserves_try_finally {A} (body : M A) fin :
  preserves I body → preserves I fin → preserves I (try_finally body fin).
Proof.
  intros Hb Hf w r w'. unfold try_finally.
  destruct (body w) as [r1 w1] eqn:E1. destruct (fin w1) as [[[]|e] w2] eqn:E2;
    intros [= <- <-]; (etrans; [by eapply Hb | by eapply Hf]).
Qed.

Lemma preserves_when b m : preserves I m → preserves I (when b m).
Proof. destruct b; simpl; [done|]. intros _. apply preserves_ret. Qed.

Lemma preserves_for_loop {A S} (xs : list A) (body : S → A → M S) acc :
  (∀ s x, x ∈ xs → preserves I (body s x)) → preserves I (for_loop xs body acc).
Proof.
  revert acc. induction xs as [|x xs IH]; intros acc Hb; simpl.
  - apply preserves_ret.
  - apply preserves_bind.
    + apply Hb. by left.
    + intros a. apply IH. intros s y Hy. apply Hb. by right.
Qed.

Lemma preserves_for_chunks {S} xs size (body : S → list PKTuple → M S) acc :
  (∀ s batch, preserves I (body s batch)) →
  preserves I (for_chunks xs size body acc).
Proof.
  intros Hb. unfold for_chunks. destruct (chunked xs size).
  - apply preserves_for_loop. auto.
  - apply preserves_raise.
Qed.
End Preserves.

#[global] Instance emits_preorder P : PreOrder (emits P).
Proof.
  split.
  - intros w. exists []. by rewrite app_nil_r.
  - intros w1 w2 w3 (e1 & H1 & F1) (e2 & H2 & F2). exists (e1 ++ e2). split.
    + by rewrite H2, H1, app_assoc.
    + by apply Forall_app.
Qed.

#[global] Instance same_data_preorder : PreOrder same_data.
Proof.
  split; [done|]. intros w1 w2 w3 [H1 H2] [H3 H4]. split; congruence.
Qed.

#[global] Instance same_files_preorder : PreOrder same_files.
Proof. split; [done|]. unfold same_files. intros w1 w2 w3 H1 H2. congruence. Qed.

#[global] Instance same_servers_preorder : PreOrder same_servers.
Proof.
  split.
  - by intros w url Hu.
  - intros w1 w2 w3 H1 H2 url Hu. auto.
Qed.

#[global] Instance both_preorder I J `{!PreOrder I, !PreOrder J} : PreOrder (both I J).
Proof.
  split.
  - intros w. split; reflexivity.
  - intros w1 w2 w3 [H1 H2] [H3 H4]. split; etrans; eauto.
Qed.

Lemma preserves_both {A} I J (m : M A) :
  preserves I m → preserves J m → preserves (both I J) m.
Proof. intros HI HJ w r w' Hr. split; eauto. Qed.

(** *** The primitives *)

Lemma logging_emits P lvl fmt args : preserves (emits P) (logging lvl fmt args).
Proof. intros w r w' [= <- <-]. exists []. simpl. by rewrite app_nil_r. Qed.

Lemma logging_same_data lvl fmt args : preserves same_data (logging lvl fmt args).
Proof. intros w r w' [= <- <-]. by split. Qed.

Lemma logging_same_files lvl fmt args : preserves same_files (logging lvl fmt args).
Proof. intros w r w' [= <- <-]. by unfold same_files. Qed.

Lemma logging_same_servers lvl fmt args : preserves same_servers (logging lvl fmt args).
Proof. intros w r w' [= <- <-]. by intros url Hu. Qed.

Lemma connect_run engine w r w' :
  connect engine w = (r, w') → w' = w.
Proof. unfold connect. destruct (dbs w !! engine); by intros [= <- <-]. Qed.

Lemma connect_preserves I `{!PreOrder I} engine : preserves I (connect engine).
Proof. intros w r w' ->%connect_run. reflexivity. Qed.

(** What one [execute] does to the world. *)
Lemma execute_inv {A} engine s (sem : Database → Res (A * Database)) w r w' :
  execute engine s sem w = (r, w') →
  (dbs w !! engine = None ∧ w' = w ∧ r = Raise OperationalError) ∨
  (∃ db ok, dbs w !! engine = Some db ∧
     files w' = files w ∧ logs w' = logs w ∧
     trace w' = trace w ++ [mkEvent engine s ok] ∧
     faults w' = (next_fault (faults w)).2 ∧
     ((ok = false ∧ dbs w' = dbs w ∧
        ((next_fault (faults w)).1 = true ∧ r = Raise OperationalError ∨
         (next_fault (faults w)).1 = false ∧ ∃ e, sem db = Raise e ∧ r = Raise e)) ∨
      (ok = true ∧ (next_fault (faults w)).1 = false ∧
        ∃ a db', sem db = Ok (a, db') ∧ r = Ok a ∧ dbs w' = <[engine := db']> (dbs w)))).
Proof.
  unfold execute. destruct (dbs w !! engine) as [db|] eqn:Hdb.
  - destruct (next_fault (faults w)) as [faulty rest] eqn:Hf. simpl.
    destruct faulty.
    + intros [= <- <-]. right. exists db, false. simpl.
      repeat split; try done. left. repeat split; try done. by left.
    + destruct (sem db) as [[a db']|e] eqn:Hs; intros [= <- <-]; right.
      * exists db, true. simpl.
        repeat split; try done. right. repeat split; try done. by exists a, db'.
      * exists db, false. simpl.
        repeat split; try done. left. repeat split; try done. right. split; [done|].
        by exists e.
  - intros [= <- <-]. by left.
Qed.

Lemma execute_emits {A} (P : Event → Prop) engine s (sem : Database → Res (A * Database)) :
  (∀ ok, P (mkEvent engine s ok)) → preserves (emits P) (execute engine s sem).
Proof.
  intros HP w r w' [(_ & -> & _)|(db & ok & _ & _ & _ & Ht & _)]%execute_inv.
  - reflexivity.
  - exists [mkEvent engine s ok]. split; [done|]. by constructor.
Qed.

Lemma execute_same_files {A} engine s (sem : Database → Res (A * Database)) :
  preserves same_files (execute engine s sem).
Proof.
  intros w r w' [(_ & -> & _)|(db & ok & _ & Hf & _)]%execute_inv; done.
Qed.

Lemma execute_same_servers {A} engine s (sem : Database → Res (A * Database)) :
  preserves same_servers (execute engine s sem).
Proof.
  intros w r w' [(_ & -> & _)|(db & ok & Hdb & _ & _ & _ & _ & Hcase)]%execute_inv; [done|].
  intros url Hu. destruct Hcase as [(_ & -> & _)|(_ & _ & a & db' & _ & _ & ->)]; [done|].
  destruct (decide (engine = url)) as [->|Hne].
  - rewrite lookup_insert_eq. eauto.
  - by rewrite lookup_insert_ne.
Qed.

Lemma execute_same_data {A} engine s (sem : Database → Res (A * Database)) :
  reads_only sem → preserves same_data (execute engine s sem).
Proof.
  intros Hro w r w' [(_ & -> & _)|(db & ok & Hdb & Hf & _ & _ & _ & Hcase)]%execute_inv; [done|].
  split; [|done]. destruct Hcase as [(_ & -> & _)|(_ & _ & a & db' & Hs & _ & ->)]; [done|].
  apply Hro in Hs as ->. by apply insert_id.
Qed.

Lemma read_state_preserves I `{!PreOrder I} f : preserves I (read_state f).
Proof. intros w r w' [= <- <-]. reflexivity. Qed.

Lemma write_text_emits P f sig : preserves (emits P) (write_text f sig).
Proof. intros w r w' [= <- <-]. exists []. simpl. by rewrite app_nil_r. Qed.

Lemma write_text_same_servers f sig : preserves same_servers (write_text f sig).
Proof. intros w r w' [= <- <-]. by intros url Hu. Qed.

(** *** Automation for [preserves] *)

Create HintDb pres discriminated.
Create HintDb model discriminated.

#[local] Hint Resolve logging_emits logging_same_data logging_same_files
  logging_same_servers execute_same_files execute_same_servers
  write_text_emits write_text_same_servers : pres.

#[local] Hint Unfold table_c fetch_pk_values fetch_rows_by_pks insert_rows
  delete_rows_by_pks fetch_hashes_for_pks upsert_rows set_foreign_key_checks
  insert_batch update_batch delete_batch apply_plan sync_table
  get_binlog_signature content_dynamic_signature default_state_file
  load_last_signature save_current_signature get_quick_signature
  has_database_changes write_current_signature table_quick_fingerprint
  database_quick_signature load_metadata sync_task sync_mysql print
  locked_sync sync_side_round : model.

(** One step through the structure of a computation. *)
Ltac pres_step :=
  lazymatch goal with
  | |- preserves _ (mret _) => apply preserves_ret; apply _
  | |- preserves _ (raise _) => apply preserves_raise; apply _
  | |- preserves _ (_ ≫= _) => apply preserves_bind; [apply _| |intros ?]
  | |- preserves _ (try_except _ _) => apply preserves_try_except; [apply _| |intros ?]
  | |- preserves _ (try_finally _ _) => apply preserves_try_finally; [apply _| |]
  | |- preserves _ (when _ _) => apply preserves_when; [apply _|]
  | |- preserves _ (for_chunks _ _ _ _) => apply preserves_for_chunks; [apply _|intros ? ?]
  | |- preserves _ (for_loop _ _ _) => apply preserves_for_loop; [apply _|intros ? ? ?]
  | |- preserves _ (connect _) => apply connect_preserves; apply _
  | |- preserves _ (read_state _) => apply read_state_preserves; apply _
  | |- preserves ?I (if ?b then ?m1 else ?m2) =>
      let b' := eval cbn in b in
      lazymatch b' with
      | true => change (preserves I m1)
      | false => change (preserves I m2)
      | _ => destruct b
      end
  | |- preserves _ (match ?x with _ => _ end) => destruct x
  | |- preserves _ _ => first [solve [auto with pres] | progress autounfold with model]
  end.

Ltac pres := repeat pres_step.

(** *** Dry runs and the table without a key (C5, C8) *)

Lemma reads_only_select_pks t pk : reads_only (sem_select_pks t pk).
Proof.
  intros db a db'. unfold sem_select_pks. destruct (table_data db t); by intros [= _ <-].
Qed.

Lemma reads_only_select_rows table pk pks : reads_only (sem_select_rows table pk pks).
Proof.
  intros db a db'. unfold sem_select_rows.
  destruct (table_data db (name table)); by intros [= _ <-].
Qed.

Lemma reads_only_select_hashes t pk dc pks : reads_only (sem_select_hashes t pk dc pks).
Proof.
  intros db a db'. unfold sem_select_hashes. destruct (table_data db t); by intros [= _ <-].
Qed.

Lemma reads_only_reflect :
  reads_only (λ db, Ok (td_schema <$> db_tables db, db)).
Proof. by intros db a db' [= _ <-]. Qed.

Lemma reads_only_master_status : reads_only sem_show_master_status.
Proof.
  intros db a db'. unfold sem_show_master_status.
  destruct (master_status db); by intros [= _ <-].
Qed.

Lemma reads_only_session : reads_only (λ db, Ok (tt, db)).
Proof. by intros db a db' [= _ <-]. Qed.

Lemma reads_only_content_queries : reads_only sem_content_queries.
Proof. by intros db a db' [= _ <-]. Qed.

Lemma reads_only_content_bytes qs : reads_only (sem_content_bytes qs).
Proof.
  intros db a db'. unfold sem_content_bytes.
  destruct (run_content_queries db qs); by intros [= _ <-].
Qed.

#[local] Hint Resolve reads_only_select_pks reads_only_select_rows
  reads_only_select_hashes reads_only_reflect reads_only_master_status
  reads_only_session reads_only_content_queries reads_only_content_bytes : pres.

#[local] Hint Extern 2 (preserves same_data (execute _ _ _)) =>
  apply execute_same_data : pres.

#[local] Hint Extern 2 (preserves (emits read_statement) (execute _ _ _)) =>
  (apply execute_emits; intros ?; reflexivity) : pres.

(** C8. When the reflected local table has no primary key, [sync_table]
    returns normally after one WARNING record: no statement reaches
    either server, and databases, state files and the fault schedule are
    as before. *)
Theorem sync_table_skips_without_primary_key
    (local_engine prod_engine : string) (local_table prod_table : Table)
    (options : SyncOptions) (w : World) :
  primary_key local_table = [] →
  sync_table local_engine prod_engine local_table prod_table options w =
    (Ok tt,
     mkWorld (dbs w) (files w) (trace w)
       (logs w ++
        [mkLog WARNING
           "Skipping table '%s' – no primary key defined; cannot safely diff rows."
           [AStr (name local_table)]])
       (faults w)).
Proof.
  intros Hpk. unfold sync_table, get_primary_key_column_names. by rewrite Hpk.
Qed.

Lemma sync_table_dry_run_preserves le pe lt pt bs fk ig :
  preserves (both same_data (emits read_statement))
    (sync_table le pe lt pt (mkOptions true bs fk ig)).
Proof. apply preserves_both; pres. Qed.

Lemma sync_mysql_dry_run_preserves lu pu incl excl bs kfk nii a5432 mw cd :
  preserves (both same_data (emits read_statement))
    (sync_mysql lu pu incl excl bs true kfk nii a5432 mw cd).
Proof. apply preserves_both; pres. Qed.

(** C5. A dry run of [sync_table], and of the whole [sync_mysql], sends
    no INSERT, upsert or DELETE and no SET FOREIGN_KEY_CHECKS, whatever
    the plan is; the databases and the persisted signature files are
    exactly as before the call. *)
Theorem dry_run_writes_nothing
    (local_url prod_url : string) (local_table prod_table : Table)
    (include exclude : option (list string)) (batch_size : Z)
    (disable_fk keep_fk_checks use_ignore no_insert_ignore allow_5432 : bool)
    (max_workers : option Z) (change_detector : bool) (w : World) :
  let w1 := (sync_table local_url prod_url local_table prod_table
               (mkOptions true batch_size disable_fk use_ignore) w).2 in
  let w2 := (sync_mysql local_url prod_url include exclude batch_size true
               keep_fk_checks no_insert_ignore allow_5432 max_workers
               change_detector w).2 in
  (dbs w1 = dbs w ∧ files w1 = files w ∧
   ∃ evs, trace w1 = trace w ++ evs ∧
     Forall (λ e, is_mutation (ev_stmt e) = false ∧ is_fk_toggle (ev_stmt e) = false) evs) ∧
  (dbs w2 = dbs w ∧ files w2 = files w ∧
   ∃ evs, trace w2 = trace w ++ evs ∧
     Forall (λ e, is_mutation (ev_stmt e) = false ∧ is_fk_toggle (ev_stmt e) = false) evs).
Proof.
  assert (Hrs : ∀ e, read_statement e →
            is_mutation (ev_stmt e) = false ∧ is_fk_toggle (ev_stmt e) = false).
  { intros e. unfold read_statement. by intros ?%orb_false_elim. }
  split.
  - destruct (sync_table _ _ _ _ _ w) as [r w1] eqn:E.
    apply sync_table_dry_run_preserves in E as [[Hd Hf] (evs & Ht & HF)]. simpl.
    repeat split; [done..|]. exists evs. split; [done|]. eapply Forall_impl; eauto.
  - destruct (sync_mysql _ _ _ _ _ _ _ _ _ _ _ w) as [r w2] eqn:E.
    apply sync_mysql_dry_run_preserves in E as [[Hd Hf] (evs & Ht & HF)]. simpl.
    repeat split; [done..|]. exists evs. split; [done|]. eapply Forall_impl; eauto.
Qed.

(** *** Foreign-key checks (C6) *)

#[local] Hint Extern 3 (preserves (emits _) (execute _ _ _)) =>
  (apply execute_emits; intros ?; reflexivity) : pres.

Lemma apply_plan_no_fk_toggle le pe lt pt pk opts plan :
  preserves (both same_servers (emits not_fk_toggle))
    (apply_plan le pe lt pt pk opts plan).
Proof. apply preserves_both; pres. Qed.

Lemma fetch_pk_values_reads engine table pk :
  preserves (emits read_statement) (fetch_pk_values engine table pk).
Proof. pres. Qed.

Lemma table_c_run table names w r w' : table_c table names w = (r, w') → w' = w.
Proof.
  unfold table_c. destruct (List.find _ _); by intros [= _ <-].
Qed.

Lemma fetch_pk_values_connected engine table pk w s w' :
  pk ≠ [] → fetch_pk_values engine table pk w = (Ok s, w') →
  is_Some (dbs w' !! engine).
Proof.
  intros Hpk. unfold fetch_pk_values. destruct pk as [|c pk]; [done|].
  intros [(a & w1 & H1 & H2)|(e & _ & [=])]%bind_inv.
  apply table_c_run in H1 as ->.
  apply bind_inv in H2 as [(rows & w2 & H2 & [= _ <-])|(e & _ & [=])].
  apply execute_inv in H2 as [(_ & _ & [=])|(db & ok & Hdb & _ & _ & _ & _ & Hc)].
  destruct Hc as [(_ & _ & [(_ & [=])|(_ & e & _ & [=])])|(_ & _ & a' & db' & _ & _ & ->)].
  rewrite lookup_insert_eq. eauto.
Qed.

Lemma logging_run lvl fmt args w :
  logging lvl fmt args w =
    (Ok tt, mkWorld (dbs w) (files w) (trace w) (logs w ++ [mkLog lvl fmt args]) (faults w)).
Proof. reflexivity. Qed.

(** C6. A real run of [sync_table] with [disable_fk_checks]: the
    statements before SET FOREIGN_KEY_CHECKS = 0 only read; when that
    statement fails nothing follows it; otherwise every statement of the
    apply phase lies between it and a final SET FOREIGN_KEY_CHECKS = 1,
    which is sent whether the apply phase returned or raised, and after
    which the checks are on unless that last statement itself failed. *)
Theorem fk_checks_restored
    (local_engine prod_engine : string) (local_table prod_table : Table)
    (batch_size : Z) (use_ignore : bool) (w : World) :
  primary_key local_table ≠ [] →
  let run := sync_table local_engine prod_engine local_table prod_table
               (mkOptions false batch_size true use_ignore) w in
  ∃ pre rest,
    trace run.2 = trace w ++ pre ++ rest ∧
    Forall (λ e, is_mutation (ev_stmt e) = false ∧ is_fk_toggle (ev_stmt e) = false) pre ∧
    ((rest = [] ∧ ∃ e, run.1 = Raise e) ∨
     (rest = [mkEvent prod_engine (SetForeignKeyChecks false) false] ∧
      ∃ e, run.1 = Raise e) ∨
     (∃ body ok,
        rest = mkEvent prod_engine (SetForeignKeyChecks false) true :: body ++
               [mkEvent prod_engine (SetForeignKeyChecks true) ok] ∧
        Forall (λ e, is_fk_toggle (ev_stmt e) = false) body ∧
        (ok = true → fk_checks <$> dbs run.2 !! prod_engine = Some true) ∧
        (ok = false → ∃ e, run.1 = Raise e))).
Proof.
  intros Hpk.
  assert (Hrs : ∀ evs, Forall read_statement evs →
            Forall (λ e, is_mutation (ev_stmt e) = false ∧
                         is_fk_toggle (ev_stmt e) = false) evs).
  { intros evs HF. eapply Forall_impl; [exact HF|]. intros e. unfold read_statement.
    by intros ?%orb_false_elim. }
  unfold sync_table, get_primary_key_column_names.
  destruct (primary_key local_table) as [|c pk] eqn:Epk; [done|].
  cbn [is_empty dry_run disable_fk_checks when].
  rewrite bind_run, logging_run.
  set (wa := mkWorld _ _ _ _ _).
  rewrite bind_run.
  destruct (fetch_pk_values local_engine local_table (c :: pk) wa) as [[L|e] w1] eqn:E1;
    pose proof (fetch_pk_values_reads _ _ _ _ _ _ E1) as (ev1 & Ht1 & HF1).
  2:{ simpl. exists ev1, []. rewrite app_nil_r. split; [done|]. split; [auto|]. left. eauto. }
  rewrite bind_run.
  destruct (fetch_pk_values prod_engine prod_table (c :: pk) w1) as [[R|e] w2] eqn:E2;
    pose proof (fetch_pk_values_reads _ _ _ _ _ _ E2) as (ev2 & Ht2 & HF2).
  2:{ simpl. exists (ev1 ++ ev2), []. rewrite app_nil_r, Ht2, Ht1, app_assoc.
      split; [done|]. split; [apply Hrs; by apply Forall_app|]. left. eauto. }
  apply fetch_pk_values_connected in E2 as [db2 Hdb2]; [|done].
  rewrite bind_run, logging_run.
  set (wb := mkWorld _ _ _ _ _).
  rewrite bind_run. unfold set_foreign_key_checks.
  destruct (execute prod_engine (SetForeignKeyChecks false) (sem_set_fk false) wb)
    as [r3 w3] eqn:E3.
  pose proof (execute_same_servers _ _ _ _ _ _ E3 prod_engine) as Hs3.
  apply execute_inv in E3 as [(Hnone & _)|(db3 & ok3 & _ & _ & _ & Ht3 & _ & Hc3)].
  { simpl in Hnone. congruence. }
  assert (Hpre : trace w3 = trace w ++ (ev1 ++ ev2) ++ [mkEvent prod_engine (SetForeignKeyChecks false) ok3]).
  { rewrite Ht3. simpl. rewrite Ht2, Ht1. simpl. by rewrite <- !app_assoc. }
  destruct Hc3 as [(-> & _ & Hr3)|(-> & _ & [] & db3' & _ & -> & _)].
  { exists (ev1 ++ ev2), [mkEvent prod_engine (SetForeignKeyChecks false) false].
    assert (∃ e, r3 = Raise e) as [e ->] by (destruct Hr3 as [[_ ->]|(_ & e & _ & ->)]; eauto).
    simpl. split; [done|]. split; [apply Hrs; by apply Forall_app|]. right. left. eauto. }
  unfold try_finally.
  destruct (apply_plan _ _ _ _ _ _ _ w3) as [r4 w4] eqn:E4.
  apply apply_plan_no_fk_toggle in E4 as [Hs4 (ev4 & Ht4 & HF4)].
  destruct (execute prod_engine (SetForeignKeyChecks true) (sem_set_fk true) w4)
    as [r5 w5] eqn:E5.
  assert (Hconn : is_Some (dbs w4 !! prod_engine)).
  { apply Hs4, Hs3. simpl. eauto. }
  apply execute_inv in E5 as [(Hnone & _)|(db5 & ok5 & Hdb5 & _ & _ & Ht5 & _ & Hc5)].
  { rewrite Hnone in Hconn. by destruct Hconn. }
  exists (ev1 ++ ev2),
    (mkEvent prod_engine (SetForeignKeyChecks false) true :: ev4 ++
     [mkEvent prod_engine (SetForeignKeyChecks true) ok5]).
  assert (Htr : trace w5 = trace w ++ (ev1 ++ ev2) ++
            mkEvent prod_engine (SetForeignKeyChecks false) true :: ev4 ++
            [mkEvent prod_engine (SetForeignKeyChecks true) ok5]).
  { rewrite Ht5, Ht4, Hpre. rewrite <- !app_assoc. done. }
  assert (Hpre' : Forall (λ e, is_mutation (ev_stmt e) = false ∧
                    is_fk_toggle (ev_stmt e) = false) (ev1 ++ ev2))
    by (apply Hrs; by apply Forall_app).
  destruct Hc5 as [(-> & _ & Hr5)|(-> & _ & [] & db5' & Hsem & -> & Hdbs5)].
  - assert (∃ e, r5 = Raise e) as [e ->] by (destruct Hr5 as [[_ ->]|(_ & e & _ & ->)]; eauto).
    simpl. split; [done|]. split; [done|]. right. right.
    eexists ev4, false. split; [done|]. split; [done|]. split; [done|]. eauto.
  - simpl. split; [done|]. split; [done|]. right. right.
    eexists ev4, true. split; [done|]. split; [done|]. split; [|done].
    intros _. rewrite Hdbs5, lookup_insert_eq. simpl.
    unfold sem_set_fk in Hsem. by injection Hsem as <-.
Qed.

(** *** Payloads (C4) *)

Lemma allowed_not_computed table c :
  NoDup (map col_name (columns table)) →
  c ∈ allowed_cols table → c ∉ get_computed_column_names table.
Proof.
  unfold allowed_cols, get_computed_column_names.
  induction (columns table) as [|col cols IH]; simpl; [by intros _ ?%elem_of_nil|].
  intros [Hnotin Hnd]%NoDup_cons.
  assert (Hsub : ∀ f, c ∈ map col_name (List.filter f cols) → c ∈ map col_name cols).
  { intros f (x & -> & Hx)%list_elem_of_fmap. apply list_elem_of_fmap. exists x. split; [done|].
    apply list_elem_of_In in Hx. apply filter_In in Hx as [Hx _]. by apply list_elem_of_In. }
  destruct (computed col) eqn:Ec; simpl.
  - intros Hc [->|Hin]%elem_of_cons.
    + apply Hnotin. eauto.
    + by apply IH.
  - intros [->|Hc]%elem_of_cons Hin.
    + apply Hnotin. eauto.
    + by apply IH.
Qed.

Lemma filter_row_free table rows :
  NoDup (map col_name (columns table)) →
  payload_free_of (get_computed_column_names table) (map (filter_row table) rows).
Proof.
  intros Hnd row c (r & -> & _)%list_elem_of_fmap Hc. unfold filter_row.
  apply map_lookup_filter_None. right. intros v _ Hallowed. simpl in Hallowed.
  by eapply allowed_not_computed.
Qed.

Lemma sanitize_row_free table rows :
  payload_free_of (get_computed_column_names table) (map (sanitize_row table) rows).
Proof.
  intros row c (r & -> & _)%list_elem_of_fmap Hc. unfold sanitize_row.
  apply map_lookup_filter_None. right. intros v _ Hnot. by apply Hnot.
Qed.

Lemma insert_rows_emits P engine table rows ig :
  (∀ ok, P (mkEvent engine
              (InsertStmt (name table) ig (map (filter_row table) rows)) ok)) →
  preserves (emits P) (insert_rows engine table rows ig).
Proof.
  intros HP. unfold insert_rows. destruct rows as [|row rows]; [pres|].
  apply preserves_bind; [apply _| |intros ?; pres]. by apply execute_emits.
Qed.

Lemma upsert_rows_emits P engine table rows cols :
  (∀ ok, P (mkEvent engine (UpsertStmt (name table) rows cols) ok)) →
  preserves (emits P) (upsert_rows engine table rows cols).
Proof.
  intros HP. unfold upsert_rows. destruct rows as [|row rows]; [pres|].
  apply preserves_bind; [apply _|pres|intros ?].
  apply preserves_bind; [apply _| |intros ?; pres]. by apply execute_emits.
Qed.

Lemma sync_table_clean_payloads le pe lt pt opts :
  NoDup (map col_name (columns pt)) →
  preserves (emits (clean_payload lt pt)) (sync_table le pe lt pt opts).
Proof.
  intros Hnd.
  assert (Hins : ∀ rows ig,
            preserves (emits (clean_payload lt pt)) (insert_rows pe pt rows ig)).
  { intros rows ig. apply insert_rows_emits. intros ok. by apply filter_row_free. }
  assert (Hups : ∀ rows cols,
            preserves (emits (clean_payload lt pt))
              (upsert_rows pe pt (map (sanitize_row lt) rows) cols)).
  { intros rows cols. apply upsert_rows_emits. intros ok. apply sanitize_row_free. }
  unfold sync_table, apply_plan, insert_batch, update_batch. pres.
Qed.

(** X29. The two write paths of [sync_table] strip computed columns by
    different tables: every INSERT it sends carries no entry for a
    computed column of the table it writes to, and every upsert carries
    no entry for a computed column of the table its rows were fetched
    from, whatever the fetched rows hold and however the run ends; the
    column names of the table written to are distinct. *)
Theorem computed_columns_never_written
    (local_engine prod_engine : string) (local_table prod_table : Table)
    (options : SyncOptions) (w : World) :
  NoDup (map col_name (columns prod_table)) →
  ∃ evs,
    trace (sync_table local_engine prod_engine local_table prod_table options w).2
      = trace w ++ evs ∧
    ∀ e, e ∈ evs →
      match ev_stmt e with
      | InsertStmt _ _ rows =>
          ∀ row c, row ∈ rows → c ∈ get_computed_column_names prod_table →
            row !! c = None
      | UpsertStmt _ rows _ =>
          ∀ row c, row ∈ rows → c ∈ get_computed_column_names local_table →
            row !! c = None
      | _ => True
      end.
Proof.
  intros Hnd.
  destruct (sync_table _ _ _ _ _ w) as [r w'] eqn:E.
  eapply sync_table_clean_payloads in E as (evs & Ht & HF); [|done].
  exists evs. split; [done|]. intros e He.
  rewrite Forall_forall in HF. apply (HF e He).
Qed.

(** *** What INSERT stores (C10) *)

Lemma insert_all_length pk ignore payload rows rows' :
  insert_all pk ignore payload rows = Ok rows' →
  (length rows ≤ length rows' ≤ length rows + length payload)%nat.
Proof.
  revert rows. induction payload as [|p payload IH]; intros rows; simpl.
  - intros [= <-]. lia.
  - destruct (conflicts pk p rows).
    + destruct ignore; [|done]. intros H%IH. lia.
    + intros H%IH. rewrite length_app in H. simpl in H. lia.
Qed.

(** C10. [insert_rows] returns 0 for the empty list without touching
    the world; otherwise, when it returns, the result is the number of
    rows of the payload it sent, which bounds the number of rows the
    table gained; with INSERT IGNORE the table can gain fewer rows than
    reported. *)
Theorem insert_rows_reports_payload_size (engine : string) (table : Table)
    (use_ignore : bool) :
  (∀ w, insert_rows engine table [] use_ignore w = (Ok 0, w)) ∧
  (∀ rows w,
     match insert_rows engine table rows use_ignore w with
     | (Ok n, w') =>
         n = Z.of_nat (length (map (filter_row table) rows)) ∧
         n = Z.of_nat (length rows) ∧
         Z.of_nat (length (stored_rows w' engine (name table)))
           - Z.of_nat (length (stored_rows w engine (name table))) <= n
     | (Raise _, _) => True
     end) ∧
  (∃ (t : Table) (row : Row) (w : World),
     let run := insert_rows "prod" t [row] true w in
     run.1 = Ok 1 ∧
     stored_rows run.2 "prod" (name t) = stored_rows w "prod" (name t)).
Proof.
  split; [done|]. split.
  - intros rows w. unfold insert_rows. destruct rows as [|row rows].
    + simpl. repeat split; lia.
    + rewrite bind_run.
      destruct (execute _ _ _ w) as [[[]|e] w'] eqn:E; [|done]. simpl.
      rewrite length_map. split; [done|]. split; [done|].
      apply execute_inv in E as [(_ & _ & [=])|(db & ok & Hdb & Hf & Hl & Ht & Hfa & Hc)].
      destruct Hc as [(_ & _ & [(_ & [=])|(_ & e & _ & [=])])|(_ & _ & [] & db' & Hsem & _ & Hdbs)].
      unfold sem_insert, table_data in Hsem.
      unfold stored_rows. rewrite Hdbs, Hdb, lookup_insert_eq.
      destruct (db_tables db !! name table) as [td|]; [|done].
      destruct (insert_all _ _ _ _) as [rows'|] eqn:Ei; [|done].
      injection Hsem as <-. simpl. rewrite lookup_insert_eq. simpl.
      apply insert_all_length in Ei. rewrite length_map in Ei. simpl in Ei. lia.
  - exists (mkTable "orders" [mkColumn "id" false; mkColumn "qty" false] ["id"]).
    exists {[ "id" := VInt 1; "qty" := VInt 7 ]}.
    exists (mkWorld
              {[ "prod" :=
                   mkDatabase
                     {[ "orders" :=
                          mkTableData
                            (mkTable "orders" [mkColumn "id" false; mkColumn "qty" false] ["id"])
                            [{[ "id" := VInt 1; "qty" := VInt 5 ]}] ]}
                     true StatusNoRow ]}
              ∅ [] [] []).
    vm_compute. done.
Qed.

(** *** Signatures (C2, C7) *)

#[local] Hint Extern 3 (preserves (emits not_quick_fingerprint) (execute _ _ _)) =>
  (apply execute_emits; intros ?; exact I) : pres.

Lemma get_quick_signature_same_files url st :
  preserves same_files (get_quick_signature url st).
Proof. pres. Qed.

Lemma get_quick_signature_no_quick url st :
  preserves (emits not_quick_fingerprint) (get_quick_signature url st).
Proof. pres. Qed.

Lemma has_database_changes_run url state_file signature_type w :
  let f := default (get_state_file_for_database url) state_file in
  has_database_changes url state_file signature_type w =
    match get_quick_signature url signature_type w with
    | (Ok sig, w') =>
        (Ok (bool_decide (sig ≠ "" ∧ sig ≠ last_persisted w f)), w')
    | (Raise e, w') => (Raise e, w')
    end.
Proof.
  intros f. unfold has_database_changes. rewrite bind_run. fold f.
  destruct (get_quick_signature url signature_type w) as [[sig|e] w'] eqn:E; [|done].
  apply get_quick_signature_same_files in E. unfold same_files in E.
  unfold load_last_signature, default_state_file. rewrite bind_run. simpl.
  unfold last_persisted. rewrite E.
  set (last := match files w !! f with Some text => strip text | None => "" end).
  destruct (String.eqb_spec sig "") as [->|Hne].
  - reflexivity.
  - destruct (String.eqb_spec sig last) as [->|Hne2].
    + rewrite bool_decide_eq_false_2; [done|]. by intros [_ ?].
    + by rewrite bool_decide_eq_true_2.
Qed.

(** C7. [has_database_changes] returns true exactly when the signature
    computed now is a non-empty string that differs from the one read
    from the state file of the database (a missing file reads as the
    empty string); it raises only when the signature computation does,
    and it changes no state file. *)
Theorem has_database_changes_iff (database_url : string)
    (state_file signature_type : option string) (w : World) :
  let f := default (get_state_file_for_database database_url) state_file in
  let check := has_database_changes database_url state_file signature_type w in
  let current := get_quick_signature database_url signature_type w in
  (check.1 = Ok true ↔
     ∃ sig, current.1 = Ok sig ∧ sig ≠ "" ∧ sig ≠ last_persisted w f) ∧
  (check.1 = Ok false ↔
     ∃ sig, current.1 = Ok sig ∧ (sig = "" ∨ sig = last_persisted w f)) ∧
  (∀ e, check.1 = Raise e ↔ current.1 = Raise e) ∧
  files check.2 = files w.
Proof.
  intros f check current. unfold check, current.
  rewrite has_database_changes_run. fold f.
  destruct (get_quick_signature database_url signature_type w) as [[sig|e] w'] eqn:E;
    pose proof (get_quick_signature_same_files _ _ _ _ _ E) as Hf; simpl.
  - split; [|split; [|split; [|done]]].
    + split.
      * intros [= [H1 H2]%bool_decide_eq_true]. by exists sig.
      * intros (sig' & [= <-] & H1 & H2). f_equal. by apply bool_decide_eq_true.
    + split.
      * intros [= H%bool_decide_eq_false]. exists sig. split; [done|].
        destruct (decide (sig = "")) as [?|Hn1]; [by left|].
        destruct (decide (sig = last_persisted w f)) as [?|Hn2]; [by right|].
        by destruct H.
      * intros (sig' & [= <-] & H). f_equal. apply bool_decide_eq_false.
        intros [H1 H2]. by destruct H.
    + intros e. split; intros [=].
  - split; [|split; [|split; [|done]]].
    + split; [done|]. by intros (sig & [=] & _).
    + split; [done|]. by intros (sig & [=] & _).
    + intros e0. split; by intros [= ->].
Qed.

(** C2 as the code has it.  With no signature type selected,
    [get_quick_signature] returns the binlog signature when that is not
    empty, else the content signature when that is not empty, and raises
    [ValueError] when both are empty; it never sends the statement of
    the quick fingerprint. *)
Theorem get_quick_signature_fallback (database_url : string) (w : World) :
  get_quick_signature database_url None w =
    match get_binlog_signature database_url w with
    | (Ok sig, w1) =>
        if decide (sig ≠ "") then (Ok sig, w1)
        else match content_dynamic_signature database_url w1 with
             | (Ok sig', w2) =>
                 if decide (sig' ≠ "") then (Ok sig', w2)
                 else (Raise (ValueError "can't get signature"), w2)
             | (Raise e, w2) => (Raise e, w2)
             end
    | (Raise e, w1) => (Raise e, w1)
    end ∧
  ∃ evs,
    trace (get_quick_signature database_url None w).2 = trace w ++ evs ∧
    ∀ e t pk, e ∈ evs → ev_stmt e ≠ SelectQuickFingerprint t pk.
Proof.
  split.
  - unfold get_quick_signature.
    rewrite decide_False by done. rewrite decide_False by done.
    rewrite bind_run.
    destruct (get_binlog_signature database_url w) as [[sig|e] w1]; [|done].
    destruct (String.eqb_spec sig "") as [->|Hne]; simpl.
    + rewrite bind_run.
      destruct (content_dynamic_signature database_url w1) as [[sig'|e] w2]; [|done].
      destruct (String.eqb_spec sig' "") as [->|Hne']; simpl; [done|].
      by rewrite decide_True.
    + by rewrite decide_True.
  - destruct (get_quick_signature database_url None w) as [r w'] eqn:E.
    apply get_quick_signature_no_quick in E as (evs & Ht & HF).
    exists evs. split; [done|]. intros e t pk He Heq.
    rewrite Forall_forall in HF. specialize (HF e He).
    unfold not_quick_fingerprint in HF. by rewrite Heq in HF.
Qed.

(** *** The content signature as a function of the database (C9) *)

Lemma execute_read_inv {A} engine s (sem : Database → Res (A * Database)) w r w' :
  reads_only sem → (∀ db e, sem db = Raise e → is_Exception e = true) →
  execute engine s sem w = (r, w') →
  same_data w w' ∧
  ((∃ e, r = Raise e ∧ is_Exception e = true) ∨
   (∃ db a, dbs w !! engine = Some db ∧ sem db = Ok (a, db) ∧ r = Ok a)).
Proof.
  intros Hro Hexn Hrun. split; [by eapply execute_same_data|].
  apply execute_inv in Hrun as [(_ & _ & ->)|(db & ok & Hdb & _ & _ & _ & _ & Hc)].
  - left. eauto.
  - destruct Hc as [(_ & _ & [(_ & ->)|(_ & e & He & ->)])|(_ & _ & a & db' & Hs & -> & _)].
    + left. eauto.
    + left. eauto.
    + right. pose proof (Hro _ _ _ Hs) as ->. eauto.
Qed.

Lemma run_content_queries_exn db qs e :
  run_content_queries db qs = Raise e → is_Exception e = true.
Proof.
  induction qs as [|[t cols] qs IH]; simpl; [done|].
  unfold table_data. destruct (db_tables db !! t).
  - destruct (run_content_queries db qs); [done|]. intros [= <-]. by apply IH.
  - destruct (run_content_queries db qs); by intros [= <-].
Qed.

Lemma sem_content_bytes_exn qs db e :
  sem_content_bytes qs db = Raise e → is_Exception e = true.
Proof.
  unfold sem_content_bytes.
  destruct (run_content_queries db qs) eqn:E; [done|].
  intros [= <-]. by eapply run_content_queries_exn.
Qed.

Lemma content_signature_cases engine w :
  ∃ sig w', content_dynamic_signature engine w = (Ok sig, w') ∧
    same_data w w' ∧
    (sig = "" ∨ ∃ db, dbs w !! engine = Some db ∧ sig = content_value db).
Proof.
  unfold content_dynamic_signature, try_except.
  rewrite bind_run.
  destruct (connect engine w) as [[[]|e] w0] eqn:E0;
    pose proof (connect_run _ _ _ _ E0) as ->.
  2:{ unfold connect in E0. destruct (dbs w !! engine); [done|]. injection E0 as <-.
      simpl. exists "", w. split; [done|]. split; [done|]. by left. }
  rewrite bind_run.
  destruct (execute engine SetGroupConcatMaxLen _ w) as [r1 w1] eqn:E1.
  apply execute_read_inv in E1 as [Hd1 Hc1]; [|apply reads_only_session|done].
  destruct Hc1 as [(e & -> & He)|(db & [] & Hdb & _ & ->)].
  { rewrite He. simpl. exists "", w1. split; [done|]. split; [done|]. by left. }
  rewrite bind_run.
  destruct (execute engine SelectContentQueries _ w1) as [r2 w2] eqn:E2.
  apply execute_read_inv in E2 as [Hd2 Hc2]; [|apply reads_only_content_queries|done].
  assert (Hd12 : same_data w w2) by (etrans; eauto).
  destruct Hc2 as [(e & -> & He)|(db2 & row & Hdb2 & Hq & ->)].
  { rewrite He. simpl. exists "", w2. split; [done|]. split; [done|]. by left. }
  assert (db2 = db) as -> by (destruct Hd1 as [Hd1 _]; rewrite Hd1 in Hdb2; congruence).
  destruct row as [union_sql|].
  2:{ simpl. exists "", w2. split; [done|]. split; [done|]. by left. }
  rewrite bind_run.
  destruct (execute engine SelectContentBytes _ w2) as [r3 w3] eqn:E3.
  apply execute_read_inv in E3 as [Hd3 Hc3];
    [|apply reads_only_content_bytes|apply sem_content_bytes_exn].
  assert (Hd13 : same_data w w3) by (etrans; eauto).
  destruct Hc3 as [(e & -> & He)|(db3 & results & Hdb3 & Hb & ->)].
  { rewrite He. simpl. exists "", w3. split; [done|]. split; [done|]. by left. }
  assert (db3 = db) as -> by (destruct Hd12 as [Hd _]; rewrite Hd in Hdb3; congruence).
  simpl. eexists _, w3. split; [done|]. split; [done|]. right. exists db.
  split; [done|]. unfold content_value. by rewrite Hq, Hb.
Qed.

(** *** [strip] leaves a signature as it is *)

Lemma lstrip_chars_id cs :
  Forall (λ c, is_space c = false) cs → lstrip_chars cs = cs.
Proof. destruct 1 as [|c cs Hc _]; simpl; [done|]. by rewrite Hc. Qed.

Lemma strip_id s :
  Forall (λ c, is_space c = false) (list_ascii_of_string s) → strip s = s.
Proof.
  intros H. unfold strip. rewrite (lstrip_chars_id (list_ascii_of_string s)) by done.
  rewrite lstrip_chars_id by (by apply List.Forall_rev).
  by rewrite rev_involutive, string_of_list_ascii_of_string.
Qed.

Lemma list_ascii_app s t :
  list_ascii_of_string (s +:+ t) = list_ascii_of_string s ++ list_ascii_of_string t.
Proof. induction s as [|c s IH]; simpl; [done|]. by rewrite <- IH. Qed.

Lemma hex_digit_not_space n : is_space (hex_digit n) = false.
Proof.
  unfold hex_digit. generalize (N.to_nat n). intros k.
  do 16 (destruct k as [|k]; [reflexivity|]). by destruct k.
Qed.

Lemma hexdigest_not_space d :
  Forall (λ c, is_space c = false) (list_ascii_of_string (hexdigest d)).
Proof.
  induction d as [|b d IH]; simpl; [constructor|].
  repeat constructor; auto using hex_digit_not_space.
Qed.

Lemma strip_content_value db : strip (content_value db) = content_value db.
Proof.
  unfold content_value. repeat case_match; try reflexivity.
  apply strip_id. rewrite list_ascii_app. apply Forall_app. split.
  - repeat constructor.
  - apply hexdigest_not_space.
Qed.

Lemma get_quick_signature_content url w :
  get_quick_signature url (Some "content") w = content_dynamic_signature url w.
Proof. unfold get_quick_signature. by rewrite decide_True. Qed.

(** C9. When the sync inside the locked block of the loop returns, the
    block reads the target's content signature once more and writes that
    one value to the state file of the source and to the state file of
    the target; a change check on the target right after it then answers
    false, the value written being a signature (not the empty string of a
    failed computation). *)
Theorem feedback_guard (name source_url target_url : string) (w w1 : World) :
  sync_mysql source_url target_url None None 1000 false false false true None false
    (print "[%s] Changes detected in source. Syncing to target..." [AStr name] w).2
    = (Ok tt, w1) →
  ∃ new_sig w2 w',
    get_quick_signature target_url (Some "content") w1 = (Ok new_sig, w2) ∧
    locked_sync name source_url target_url w = (Ok tt, w') ∧
    files w' !! get_state_file_for_database source_url = Some new_sig ∧
    files w' !! get_state_file_for_database target_url = Some new_sig ∧
    dbs w' = dbs w1 ∧
    (new_sig ≠ "" →
     (has_database_changes target_url None (Some "content") w').1 = Ok false).
Proof.
  intros Hsync.
  destruct (content_signature_cases target_url w1) as (new_sig & w2 & Hsig & [Hd2 Hf2] & Hval).
  set (fs := get_state_file_for_database source_url).
  set (ft := get_state_file_for_database target_url).
  set (w' := mkWorld (dbs w2) (<[ft := new_sig]> (<[fs := new_sig]> (files w2)))
               (trace w2)
               (logs w2 ++ [mkLog PRINT "[%s] Sync complete. Updated signatures." [AStr name]])
               (faults w2)).
  exists new_sig, w2, w'.
  split; [by rewrite get_quick_signature_content|].
  split.
  { unfold locked_sync. rewrite bind_run. unfold print at 1.
    unfold print in Hsync. rewrite logging_run in *. simpl in Hsync.
    rewrite bind_run, Hsync, bind_run, get_quick_signature_content, Hsig.
    reflexivity. }
  split.
  { simpl. destruct (decide (ft = fs)) as [->|Hne].
    - by rewrite lookup_insert_eq.
    - by rewrite lookup_insert_ne, lookup_insert_eq. }
  split; [simpl; by rewrite lookup_insert_eq|].
  split; [done|].
  intros Hne. destruct Hval as [->|(db & Hdb & Hnew)]; [done|].
  rewrite has_database_changes_run, get_quick_signature_content. simpl.
  destruct (content_signature_cases target_url w') as (sig' & w3 & -> & _ & Hval').
  simpl. f_equal. apply bool_decide_eq_false.
  intros [Hne' Hdiff]. apply Hdiff.
  unfold last_persisted. fold ft. simpl. rewrite lookup_insert_eq.
  destruct Hval' as [->|(db' & Hdb' & ->)]; [done|].
  simpl in Hdb'. rewrite Hd2, Hdb in Hdb'. injection Hdb' as <-.
  by rewrite Hnew, strip_content_value.
Qed.

(** *** Rows by key (C3) *)

Lemma rows_at_app pk k rows1 rows2 :
  rows_at pk k (rows1 ++ rows2) = rows_at pk k rows1 ++ rows_at pk k rows2.
Proof. apply List.filter_app. Qed.

Lemma elem_of_rows_at pk k rows r :
  r ∈ rows_at pk k rows ↔ r ∈ rows ∧ row_key pk r = k.
Proof.
  unfold rows_at. rewrite !list_elem_of_In, filter_In, bool_decide_eq_true. done.
Qed.

Lemma rows_at_nil_iff pk k rows :
  rows_at pk k rows = [] ↔ k ∉ map (row_key pk) rows.
Proof.
  split.
  - intros Hnil (r & -> & Hr)%list_elem_of_fmap.
    assert (r ∈ rows_at pk (row_key pk r) rows) as Hin by (by apply elem_of_rows_at).
    rewrite Hnil in Hin. by apply elem_of_nil in Hin.
  - intros Hnot. destruct (rows_at pk k rows) as [|r rs] eqn:E; [done|].
    assert (r ∈ rows_at pk k rows) as [Hr <-]%elem_of_rows_at by (rewrite E; left).
    destruct Hnot. apply list_elem_of_fmap. eauto.
Qed.

Lemma elem_of_key_set w engine t pk k :
  k ∈ key_set w engine t pk ↔ rows_at pk k (stored_rows w engine t) ≠ [].
Proof.
  unfold key_set. rewrite elem_of_list_to_set, rows_at_nil_iff.
  destruct (decide (k ∈ map (row_key pk) (stored_rows w engine t))) as [Hin|Hnot].
  - split; [|done]. intros _ Hk. by apply Hk.
  - split; [done|]. intros Hk. by destruct Hk.
Qed.

Lemma key_set_length w engine t pk k :
  k ∈ key_set w engine t pk → length k = length pk.
Proof.
  unfold key_set. rewrite elem_of_list_to_set.
  intros (r & -> & _)%list_elem_of_fmap. unfold row_key. by rewrite length_map.
Qed.

(** For keys of the right length the two forms of the WHERE clause
    agree. *)
Lemma in_condition_key pk pks r :
  (∀ k, k ∈ pks → length k = length pk) →
  in_condition pk pks r = bool_decide (row_key pk r ∈ pks).
Proof.
  intros Hlen. unfold in_condition. destruct pk as [|c [|c' pk]]; try done.
  apply bool_decide_ext. simpl. split.
  - intros (k & Hk & Hin)%list_elem_of_fmap.
    specialize (Hlen k Hin). destruct k as [|v [|v' k]]; try done.
    simpl in Hk. by injection Hk as ->.
  - intros Hin. apply list_elem_of_fmap. by exists [row_val r c].
Qed.

Lemma rows_at_filter_condition pk pks k rows :
  (∀ k', k' ∈ pks → length k' = length pk) → k ∈ pks →
  rows_at pk k (List.filter (in_condition pk pks) rows) = rows_at pk k rows.
Proof.
  intros Hlen Hk. unfold rows_at. induction rows as [|r rows IH]; simpl; [done|].
  rewrite in_condition_key by done.
  destruct (decide (row_key pk r = k)) as [Heq|Hne].
  - rewrite (bool_decide_eq_true_2 (row_key pk r ∈ pks)) by (by rewrite Heq).
    simpl. rewrite (bool_decide_eq_true_2 _ Heq). by rewrite IH.
  - rewrite (bool_decide_eq_false_2 _ Hne).
    destruct (bool_decide (row_key pk r ∈ pks)); simpl;
      [rewrite (bool_decide_eq_false_2 _ Hne)|]; apply IH.
Qed.

(** The mapping built by the loop of [fetch_hashes_for_pks]. *)
Lemma hashes_lookup pk data rows k :
  foldl (λ (hashes : gmap PKTuple string) kh, <[kh.1 := kh.2]> hashes) ∅
    (map (λ r, (row_key pk r, row_fingerprint data r)) rows) !! k
  = row_fingerprint data <$> last (rows_at pk k rows).
Proof.
  induction rows as [|r rows IH] using rev_ind; [done|].
  rewrite map_app, foldl_app, rows_at_app. simpl.
  destruct (decide (row_key pk r = k)) as [Heq|Hne].
  - rewrite (bool_decide_eq_true_2 _ Heq), last_snoc, Heq. simpl.
    by rewrite lookup_insert_eq.
  - rewrite (bool_decide_eq_false_2 _ Hne), app_nil_r.
    by rewrite lookup_insert_ne.
Qed.

Lemma table_c_ok table names w w' :
  table_c table names w = (Ok tt, w') →
  w' = w ∧ ∀ n, n ∈ names → n ∈ map col_name (columns table).
Proof.
  unfold table_c. destruct (List.find _ names) eqn:E; [done|].
  intros [= <-]. split; [done|]. intros n Hn%list_elem_of_In.
  eapply find_none in E; [|done]. simpl in E.
  by apply negb_false_iff, bool_decide_eq_true in E.
Qed.

(** A fetched row has the key of the stored row when the key columns are
    columns of the reflected table. *)
Lemma row_val_select_columns cols r c :
  c ∈ map col_name cols → row_val (select_columns cols r) c = row_val r c.
Proof.
  intros Hc. unfold select_columns, row_val at 1.
  destruct (list_to_map _ !! c) as [v|] eqn:E.
  - apply elem_of_list_to_map_2 in E.
    apply list_elem_of_fmap in E as (col & [= -> ->] & _). done.
  - apply not_elem_of_list_to_map_2 in E. destruct E.
    rewrite <- list_fmap_compose. simpl.
    apply list_elem_of_fmap in Hc as (col & -> & Hcol).
    apply list_elem_of_fmap. by exists col.
Qed.

Lemma row_key_select_columns cols pk r :
  (∀ c, c ∈ pk → c ∈ map col_name cols) →
  row_key pk (select_columns cols r) = row_key pk r.
Proof.
  intros Hpk. unfold row_key. apply map_ext_in. intros c Hc%list_elem_of_In.
  by apply row_val_select_columns, Hpk.
Qed.

Lemma row_val_sanitize table r c :
  c ∉ get_computed_column_names table → row_val (sanitize_row table r) c = row_val r c.
Proof.
  intros Hc. unfold row_val, sanitize_row.
  destruct (r !! c) as [v|] eqn:E.
  - erewrite (proj2 (map_lookup_filter_Some _ r c v)); [done|]. by split.
  - rewrite (proj2 (map_lookup_filter_None _ r c)); [done|]. by left.
Qed.

Lemma row_key_sanitize table pk r :
  (∀ c, c ∈ pk → c ∉ get_computed_column_names table) →
  row_key pk (sanitize_row table r) = row_key pk r.
Proof.
  intros Hpk. unfold row_key. apply map_ext_in. intros c Hc%list_elem_of_In.
  by apply row_val_sanitize, Hpk.
Qed.

(** *** What INSERT and the upsert leave alone *)

Lemma conflicts_false pk p rows :
  pk ≠ [] → conflicts pk p rows = false → rows_at pk (row_key pk p) rows = [].
Proof.
  intros Hpk. unfold conflicts. destruct pk as [|c pk]; [done|].
  intros Hex. apply rows_at_nil_iff. intros (r & Hkey & Hr)%list_elem_of_fmap.
  assert (existsb (same_key (c :: pk) p) rows = true) as Htrue; [|congruence].
  apply existsb_exists. exists r. split; [by apply list_elem_of_In|].
  unfold same_key. by apply bool_decide_eq_true.
Qed.

Lemma rows_at_other pk k p :
  row_key pk p ≠ k → rows_at pk k [p] = [].
Proof. intros Hne. unfold rows_at. simpl. by rewrite bool_decide_eq_false_2. Qed.

(** INSERT does not touch the rows of a key the table already has. *)
Lemma insert_all_frame pk ignore payload rows rows' k :
  pk ≠ [] → insert_all pk ignore payload rows = Ok rows' →
  rows_at pk k rows ≠ [] → rows_at pk k rows' = rows_at pk k rows.
Proof.
  intros Hpk. revert rows. induction payload as [|p payload IH]; intros rows; simpl.
  - by intros [= <-].
  - destruct (conflicts pk p rows) eqn:Ec.
    + destruct ignore; [|done]. apply IH.
    + intros Hins Hk. apply conflicts_false in Ec; [|done].
      assert (row_key pk p ≠ k) as Hne by (intros <-; done).
      rewrite (IH _ Hins); rewrite rows_at_app, (rows_at_other _ _ _ Hne), app_nil_r; done.
Qed.

Lemma row_val_update_row cols p r c :
  c ∉ cols → row_val (update_row cols p r) c = row_val r c.
Proof.
  unfold update_row, row_val. induction cols as [|c' cols IH]; simpl; [done|].
  intros [Hne Hnot]%not_elem_of_cons. rewrite lookup_insert_ne by done. by apply IH.
Qed.

Lemma row_key_update_row pk cols p r :
  (∀ c, c ∈ pk → c ∉ cols) → row_key pk (update_row cols p r) = row_key pk r.
Proof.
  intros Hpk. unfold row_key. apply map_ext_in. intros c Hc%list_elem_of_In.
  by apply row_val_update_row, Hpk.
Qed.

Lemma rows_at_update pk cols p k rows :
  (∀ c, c ∈ pk → c ∉ cols) → row_key pk p ≠ k →
  rows_at pk k (map (λ r, if same_key pk p r then update_row cols p r else r) rows)
  = rows_at pk k rows.
Proof.
  intros Hpk Hne. unfold rows_at. induction rows as [|r rows IH]; simpl; [done|].
  rewrite IH. destruct (same_key pk p r) eqn:Es; [|done].
  apply bool_decide_eq_true in Es.
  rewrite row_key_update_row by done.
  rewrite !bool_decide_eq_false_2 by congruence. done.
Qed.

(** The upsert touches only the rows whose key is in the payload. *)
Lemma upsert_all_frame pk cols payload rows k :
  (∀ c, c ∈ pk → c ∉ cols) → k ∉ map (row_key pk) payload →
  rows_at pk k (upsert_all pk cols payload rows) = rows_at pk k rows.
Proof.
  intros Hpk. revert rows. induction payload as [|p payload IH]; intros rows; simpl; [done|].
  intros [Hne Hnot]%not_elem_of_cons.
  destruct (conflicts pk p rows).
  - rewrite IH by done. by apply rows_at_update.
  - rewrite IH by done. rewrite rows_at_app, rows_at_other, app_nil_r; done.
Qed.

(** *** Worlds *)

#[global] Instance unchanged_at_preorder engine : PreOrder (unchanged_at engine).
Proof.
  split; [done|]. unfold unchanged_at. intros w1 w2 w3 H1 H2. congruence.
Qed.

Lemma execute_unchanged_at {A} engine engine' s (sem : Database → Res (A * Database)) :
  engine' ≠ engine ∨ reads_only sem →
  preserves (unchanged_at engine) (execute engine' s sem).
Proof.
  intros Hcase w r w' Hrun. unfold unchanged_at.
  destruct Hcase as [Hne|Hro].
  - apply execute_inv in Hrun as [(_ & -> & _)|(db & ok & _ & _ & _ & _ & _ & Hc)]; [done|].
    destruct Hc as [(_ & -> & _)|(_ & _ & a & db' & _ & _ & ->)]; [done|].
    by rewrite lookup_insert_ne.
  - apply execute_same_data in Hrun as [-> _]; done.
Qed.

Lemma logging_unchanged_at engine lvl fmt args :
  preserves (unchanged_at engine) (logging lvl fmt args).
Proof. by intros w r w' [= <- <-]. Qed.

#[local] Hint Resolve logging_unchanged_at : pres.

#[local] Hint Extern 2 (preserves (unchanged_at _) (execute _ _ _)) =>
  (apply execute_unchanged_at; first [left; congruence | right; auto with pres]) : pres.

#[local] Hint Extern 3 (preserves (emits no_upsert) (execute _ _ _)) =>
  (apply execute_emits; intros ?; exact I) : pres.

(** *** Runs that return *)

Lemma bind_ok_inv {A B} (m : M A) (f : A → M B) w b w' :
  (m ≫= f) w = (Ok b, w') → ∃ a w1, m w = (Ok a, w1) ∧ f a w1 = (Ok b, w').
Proof. intros [H|(e & _ & [=])]%bind_inv. done. Qed.

Lemma execute_ok_inv {A} engine s (sem : Database → Res (A * Database)) w a w' :
  execute engine s sem w = (Ok a, w') →
  ∃ db db', dbs w !! engine = Some db ∧ sem db = Ok (a, db') ∧
    dbs w' = <[engine := db']> (dbs w) ∧ files w' = files w ∧
    trace w' = trace w ++ [mkEvent engine s true].
Proof.
  intros [(_ & _ & [=])|(db & ok & Hdb & Hf & _ & Ht & _ & Hc)]%execute_inv.
  destruct Hc as [(_ & _ & [(_ & [=])|(_ & e & _ & [=])])|(-> & _ & a' & db' & Hs & [= <-] & Hd)].
  exists db, db'. done.
Qed.

Lemma execute_read_ok_inv {A} engine s (sem : Database → Res (A * Database)) w a w' :
  reads_only sem → execute engine s sem w = (Ok a, w') →
  ∃ db, dbs w !! engine = Some db ∧ sem db = Ok (a, db) ∧
    dbs w' = dbs w ∧ files w' = files w ∧
    trace w' = trace w ++ [mkEvent engine s true].
Proof.
  intros Hro (db & db' & Hdb & Hs & Hd & Hf & Ht)%execute_ok_inv.
  pose proof (Hro _ _ _ Hs) as ->. exists db. rewrite Hd, insert_id by done. done.
Qed.

Lemma stored_rows_lookup w engine t db td :
  dbs w !! engine = Some db → db_tables db !! t = Some td →
  stored_rows w engine t = td_rows td.
Proof. intros Hdb Htd. unfold stored_rows. by rewrite Hdb, Htd. Qed.

Lemma table_data_ok db t td :
  table_data db t = Ok td → db_tables db !! t = Some td.
Proof. unfold table_data. destruct (db_tables db !! t); by intros [= <-]. Qed.

(** [chunked] cuts the list into consecutive batches. *)
Lemma concat_chunks {A} (xs : list A) sz c :
  concat (map (λ j, take sz (drop (j * sz)%nat xs)) (seq 0 c)) = take (c * sz) xs.
Proof.
  induction c as [|c IH].
  - by rewrite take_0.
  - rewrite seq_S, map_app, concat_app, IH. simpl. rewrite app_nil_r.
    rewrite take_take_drop. f_equal. lia.
Qed.

Lemma chunked_ok {A} (xs : list A) size :
  0 < size → ∃ batches, chunked xs size = Ok batches ∧ concat batches = xs.
Proof.
  intros Hpos. unfold chunked.
  rewrite decide_False by lia. rewrite decide_False by lia.
  eexists. split; [done|]. rewrite concat_chunks. apply take_ge.
  set (sz := Z.to_nat size). assert (0 < sz)%nat by lia.
  pose proof (Nat.div_mod (length xs + sz - 1) sz ltac:(lia)) as Hdm.
  pose proof (Nat.mod_upper_bound (length xs + sz - 1) sz ltac:(lia)) as Hmod.
  nia.
Qed.

(** *** The reads of the update phase *)

Lemma fetch_pk_values_ok engine table pk w s w' :
  pk ≠ [] → fetch_pk_values engine table pk w = (Ok s, w') →
  s = key_set w engine (name table) pk ∧ same_data w w' ∧
  (∀ c, c ∈ pk → c ∈ map col_name (columns table)).
Proof.
  intros Hpk. unfold fetch_pk_values. destruct pk as [|c0 pk0] eqn:Epk; [done|].
  rewrite <- Epk. clear Hpk.
  intros ([] & w1 & [-> Hcols]%table_c_ok & Hrun)%bind_ok_inv.
  apply bind_ok_inv in Hrun as (rows & w2 & Hex & [= <- <-]).
  apply execute_read_ok_inv in Hex as (db & Hdb & Hs & Hd & Hf & Ht);
    [|apply reads_only_select_pks].
  unfold sem_select_pks in Hs.
  destruct (table_data db (name table)) as [td|] eqn:Etd; [|done].
  injection Hs as <-. apply table_data_ok in Etd.
  split; [|done]. unfold key_set. by erewrite stored_rows_lookup.
Qed.

Lemma fetch_hashes_ok engine table pk data pks w d w' :
  (∀ k, k ∈ pks → length k = length pk) →
  fetch_hashes_for_pks engine table pk data pks w = (Ok d, w') →
  same_data w w' ∧ emits no_upsert w w' ∧
  ∀ k, k ∈ pks → d !! k = fingerprint_at w engine (name table) pk data k.
Proof.
  intros Hlen Hrun.
  assert (Hpres : both same_data (emits no_upsert) w w').
  { revert Hrun. apply preserves_both; pres. }
  destruct Hpres as [Hsd Hem]. split; [done|]. split; [done|].
  unfold fetch_hashes_for_pks in Hrun. destruct pks as [|k0 pks0] eqn:Epks.
  { intros k Hk. by apply elem_of_nil in Hk. }
  rewrite <- Epks in *. clear Epks.
  apply bind_ok_inv in Hrun as ([] & w1 & [-> _]%table_c_ok & Hrun).
  apply bind_ok_inv in Hrun as ([] & w2 & [-> _]%table_c_ok & Hrun).
  apply bind_ok_inv in Hrun as (result & w3 & Hex & [= <- <-]).
  apply execute_read_ok_inv in Hex as (db & Hdb & Hs & _);
    [|apply reads_only_select_hashes].
  unfold sem_select_hashes in Hs.
  destruct (table_data db (name table)) as [td|] eqn:Etd; [|done].
  injection Hs as <-. apply table_data_ok in Etd.
  intros k Hk. unfold fingerprint_at.
  rewrite (stored_rows_lookup _ _ _ _ _ Hdb Etd).
  by rewrite hashes_lookup, rows_at_filter_condition.
Qed.

Lemma fetch_rows_ok engine table pk pks w rows w' :
  pks ≠ [] →
  fetch_rows_by_pks engine table pk pks w = (Ok rows, w') →
  same_data w w' ∧ emits no_upsert w w' ∧
  (∀ c, c ∈ pk → c ∈ map col_name (columns table)) ∧
  rows = map (select_columns (columns table))
           (List.filter (in_condition pk pks) (stored_rows w engine (name table))).
Proof.
  intros Hne Hrun.
  assert (Hpres : both same_data (emits no_upsert) w w').
  { revert Hrun. apply preserves_both; pres. }
  destruct Hpres as [Hsd Hem]. split; [done|]. split; [done|].
  unfold fetch_rows_by_pks in Hrun. destruct pks as [|k0 pks0] eqn:Epks; [done|].
  rewrite <- Epks in *. clear Epks.
  apply bind_ok_inv in Hrun as ([] & w1 & [-> Hcols]%table_c_ok & Hex).
  apply execute_read_ok_inv in Hex as (db & Hdb & Hs & _);
    [|apply reads_only_select_rows].
  unfold sem_select_rows in Hs.
  destruct (table_data db (name table)) as [td|] eqn:Etd; [|done].
  injection Hs as <-. apply table_data_ok in Etd.
  split; [done|]. by rewrite (stored_rows_lookup _ _ _ _ _ Hdb Etd).
Qed.

Lemma stored_rows_same_dbs w w' engine t :
  dbs w' = dbs w → stored_rows w' engine t = stored_rows w engine t.
Proof. intros Hd. unfold stored_rows. by rewrite Hd. Qed.

Lemma stored_rows_unchanged_at w w' engine t :
  unchanged_at engine w w' → stored_rows w' engine t = stored_rows w engine t.
Proof. intros Hd. unfold stored_rows. by rewrite Hd. Qed.

Lemma stored_pk_same_dbs w w' engine t :
  dbs w' = dbs w → stored_pk w' engine t = stored_pk w engine t.
Proof. intros Hd. unfold stored_pk. by rewrite Hd. Qed.

Lemma fingerprint_at_rows w w' engine t pk data k :
  rows_at pk k (stored_rows w' engine t) = rows_at pk k (stored_rows w engine t) →
  fingerprint_at w' engine t pk data k = fingerprint_at w engine t pk data k.
Proof. intros Hr. unfold fingerprint_at. by rewrite Hr. Qed.

Lemma elem_of_changed_pks dl dp batch k :
  k ∈ changed_pks dl dp batch ↔ k ∈ batch ∧ dl !! k ≠ dp !! k.
Proof.
  unfold changed_pks. rewrite !list_elem_of_In, filter_In, negb_true_iff.
  by rewrite bool_decide_eq_false.
Qed.

Lemma is_empty_false {A} (xs : list A) : xs ≠ [] → is_empty xs = false.
Proof. by destruct xs. Qed.

Lemma upsert_rows_ok pe pt payload cols w n w' :
  payload ≠ [] → upsert_rows pe pt payload cols w = (Ok n, w') →
  trace w' = trace w ++ [mkEvent pe (UpsertStmt (name pt) payload cols) true] ∧
  (∀ e, e ≠ pe → dbs w' !! e = dbs w !! e) ∧
  ∀ pk, stored_pk w pe (name pt) = Some pk →
    stored_pk w' pe (name pt) = Some pk ∧
    stored_rows w' pe (name pt) = upsert_all pk cols payload (stored_rows w pe (name pt)).
Proof.
  intros Hne. unfold upsert_rows. destruct payload as [|p0 payload0] eqn:Ep; [done|].
  rewrite <- Ep. clear Hne Ep.
  intros ([] & w1 & [-> _]%table_c_ok & Hrun)%bind_ok_inv.
  apply bind_ok_inv in Hrun as ([] & w2 & Hex & [= _ <-]).
  apply execute_ok_inv in Hex as (db & db' & Hdb & Hs & Hd & _ & Ht).
  split; [done|]. split.
  { intros e He. by rewrite Hd, lookup_insert_ne. }
  unfold sem_upsert in Hs.
  destruct (table_data db (name pt)) as [td|] eqn:Etd; [|done].
  apply table_data_ok in Etd. injection Hs as <-.
  intros pk. unfold stored_pk, stored_rows. rewrite Hd, Hdb, lookup_insert_eq. simpl.
  rewrite Etd, lookup_insert_eq. simpl. by intros [= <-].
Qed.

Section UpdatePhase.
Context (le pe : string) (lt pt : Table) (pk data : list string).
Hypothesis engines_differ : le ≠ pe.
Hypothesis pk_not_computed : ∀ c, c ∈ pk → c ∉ get_computed_column_names lt.
Hypothesis pk_not_data : ∀ c, c ∈ pk → c ∉ data.

(** One round of the update loop: it upserts exactly the keys of the
    batch whose two fingerprints differ, and leaves the remote rows of
    every key outside the batch alone. *)
Lemma update_batch_spec acc batch w n w' :
  (∀ k, k ∈ batch → length k = length pk) →
  (∀ k, k ∈ batch → rows_at pk k (stored_rows w le (name lt)) ≠ []) →
  stored_pk w pe (name pt) = Some pk →
  update_batch le pe lt pt pk data acc batch w = (Ok n, w') →
  unchanged_at le w w' ∧
  stored_pk w' pe (name pt) = Some pk ∧
  (∃ evs, trace w' = trace w ++ evs ∧
     ∀ k, (∃ e, e ∈ evs ∧ upserts pe pk k e) ↔ (k ∈ batch ∧ fingerprint_at w le (name lt) pk data k ≠ fingerprint_at w pe (name pt) pk data k)) ∧
  (∀ k, k ∉ batch →
     rows_at pk k (stored_rows w' pe (name pt)) = rows_at pk k (stored_rows w pe (name pt))).
Proof.
  intros Hlen Hloc Hspk. unfold update_batch.
  intros (dl & w1 & Hl & Hrun)%bind_ok_inv.
  apply fetch_hashes_ok in Hl as ([Hd1 _] & (evs1 & Ht1 & HF1) & Hdl); [|done].
  apply bind_ok_inv in Hrun as (dp & w2 & Hp & Hrun).
  apply fetch_hashes_ok in Hp as ([Hd2 _] & (evs2 & Ht2 & HF2) & Hdp); [|done].
  assert (Hd12 : dbs w2 = dbs w) by congruence.
  assert (Hch : ∀ k, k ∈ changed_pks dl dp batch ↔ k ∈ batch ∧ fingerprint_at w le (name lt) pk data k ≠ fingerprint_at w pe (name pt) pk data k).
  { assert (HFP : ∀ k, fingerprint_at w1 pe (name pt) pk data k = fingerprint_at w pe (name pt) pk data k).
    { intros k. apply fingerprint_at_rows. by rewrite (stored_rows_same_dbs w w1). }
    intros k. rewrite elem_of_changed_pks.
    split; intros [Hk Hne]; (split; [done|]).
    - by rewrite Hdl, Hdp, HFP in Hne.
    - by rewrite Hdl, Hdp, HFP. }
  assert (Hnoup : ∀ evs k, Forall no_upsert evs → ¬ ∃ e, e ∈ evs ∧ upserts pe pk k e).
  { intros evs k HF (e & He & _ & Hup). rewrite Forall_forall in HF.
    specialize (HF e He). unfold no_upsert in HF. by destruct (ev_stmt e). }
  destruct (decide (changed_pks dl dp batch = [])) as [Echanged|Hcne].
  { rewrite Echanged in Hrun. simpl in Hrun.
    injection Hrun as <- <-. split; [unfold unchanged_at; by rewrite Hd12|].
    split; [by rewrite (stored_pk_same_dbs w w2)|]. split.
    - exists (evs1 ++ evs2). split; [by rewrite Ht2, Ht1, app_assoc|].
      intros k. split.
      + intros Hex. exfalso. eapply Hnoup; [|done]. by apply Forall_app.
      + intros Hk%Hch. rewrite Echanged in Hk. by apply elem_of_nil in Hk.
    - intros k _. by rewrite (stored_rows_same_dbs w w2). }
  rewrite (is_empty_false _ Hcne) in Hrun.
  set (changed := changed_pks dl dp batch) in *.
  apply bind_ok_inv in Hrun as (rows & w3 & Hr & Hrun).
  apply fetch_rows_ok in Hr as ([Hd3 _] & (evs3 & Ht3 & HF3) & Hcols & Hrows); [|done].
  assert (Hd13 : dbs w3 = dbs w) by congruence.
  rewrite (stored_rows_same_dbs w w2) in Hrows by done.
  assert (Hclen : ∀ k, k ∈ changed → length k = length pk).
  { intros k [Hk _]%Hch. by apply Hlen. }
  assert (Hkeys : ∀ k, k ∈ map (row_key pk) (map (sanitize_row lt) rows) ↔ k ∈ changed).
  { intros k. rewrite Hrows. rewrite <- !list_fmap_compose. split.
    - intros (r & -> & Hr%list_elem_of_In)%list_elem_of_fmap. simpl.
      rewrite row_key_sanitize, row_key_select_columns by done.
      apply filter_In in Hr as [_ Hr]. rewrite in_condition_key in Hr by done.
      by apply bool_decide_eq_true in Hr.
    - intros Hk. pose proof Hk as [Hkb _]%Hch. specialize (Hloc k Hkb).
      destruct (rows_at pk k (stored_rows w le (name lt))) as [|r rs] eqn:Er; [done|].
      assert (r ∈ rows_at pk k (stored_rows w le (name lt))) as [Hr Hkey]%elem_of_rows_at
        by (rewrite Er; left).
      apply list_elem_of_fmap. exists r. simpl.
      rewrite row_key_sanitize, row_key_select_columns by done. split; [done|].
      apply list_elem_of_In, filter_In. split; [by apply list_elem_of_In|].
      rewrite in_condition_key by done. apply bool_decide_eq_true. by rewrite Hkey. }
  assert (Hpne : map (sanitize_row lt) rows ≠ []).
  { destruct changed as [|k changed'] eqn:Ec; [done|].
    assert (k ∈ map (row_key pk) (map (sanitize_row lt) rows)) as Hin
      by (apply Hkeys; left).
    intros Hnil. rewrite Hnil in Hin. by apply elem_of_nil in Hin. }
  apply bind_ok_inv in Hrun as (updated & w4 & Hu & [= _ <-]).
  apply upsert_rows_ok in Hu as (Ht4 & Hother & Hprod); [|done].
  rewrite <- (stored_pk_same_dbs w w3) in Hspk by done.
  destruct (Hprod pk Hspk) as [Hspk4 Hrows4].
  split; [unfold unchanged_at; rewrite Hother by done; by rewrite Hd13|].
  split; [done|]. split.
  - eexists. split; [rewrite Ht4, Ht3, Ht2, Ht1, <- !app_assoc; done|].
    intros k. rewrite <- Hch, <- Hkeys. split.
    + intros (e & He & Hurl & Hup).
      rewrite !elem_of_app in He. destruct He as [He|[He|[He|He]]].
      * exfalso. eapply (Hnoup evs1 k); [done|]. exists e. by split.
      * exfalso. eapply (Hnoup evs2 k); [done|]. exists e. by split.
      * exfalso. eapply (Hnoup evs3 k); [done|]. exists e. by split.
      * apply list_elem_of_singleton in He as ->. simpl in Hup.
        destruct Hup as (row & Hrow & <-). apply list_elem_of_fmap. eauto.
    + intros (row & -> & Hrow)%list_elem_of_fmap.
      eexists. split; [rewrite !elem_of_app; right; right; right; by left|].
      split; [done|]. simpl. eauto.
  - intros k Hk. rewrite Hrows4, upsert_all_frame.
    + by rewrite (stored_rows_same_dbs w w3).
    + done.
    + rewrite Hkeys. intros [Hkb _]%Hch. done.
Qed.
End UpdatePhase.

#[global] Instance existing_kept_preorder pe t pk : PreOrder (existing_kept pe t pk).
Proof.
  split.
  - by intros w Hpk.
  - intros w1 w2 w3 H12 H23 Hpk. destruct (H12 Hpk) as [Hpk2 Hr12].
    destruct (H23 Hpk2) as [Hpk3 Hr23]. split; [done|].
    intros k Hk. rewrite Hr23, Hr12; [done..|]. by rewrite Hr12.
Qed.

Lemma same_dbs_existing_kept pe t pk w w' :
  dbs w' = dbs w → existing_kept pe t pk w w'.
Proof.
  intros Hd Hpk. split; [by rewrite (stored_pk_same_dbs w w')|].
  intros k _. by rewrite (stored_rows_same_dbs w w').
Qed.

Lemma logging_existing_kept pe t pk lvl fmt args :
  preserves (existing_kept pe t pk) (logging lvl fmt args).
Proof. intros w r w' [= <- <-]. by apply same_dbs_existing_kept. Qed.

Lemma execute_read_existing_kept {A} pe t pk engine s
    (sem : Database → Res (A * Database)) :
  reads_only sem → preserves (existing_kept pe t pk) (execute engine s sem).
Proof.
  intros Hro w r w' [Hd _]%execute_same_data; [|done].
  by apply same_dbs_existing_kept.
Qed.

Lemma execute_insert_existing_kept pe t pk ignore payload :
  pk ≠ [] →
  preserves (existing_kept pe t pk)
    (execute pe (InsertStmt t ignore payload) (sem_insert t ignore payload)).
Proof.
  intros Hne w r w' Hrun Hpk.
  apply execute_inv in Hrun as [(_ & -> & _)|(db & ok & Hdb & _ & _ & _ & _ & Hc)];
    [by apply same_dbs_existing_kept|].
  destruct Hc as [(_ & Hd & _)|(_ & _ & [] & db' & Hs & _ & Hd)];
    [by apply same_dbs_existing_kept|].
  unfold sem_insert in Hs.
  destruct (table_data db t) as [td|] eqn:Etd; [|done]. apply table_data_ok in Etd.
  unfold stored_pk in Hpk. rewrite Hdb in Hpk. simpl in Hpk. rewrite Etd in Hpk.
  simpl in Hpk. injection Hpk as Hpk.
  destruct (insert_all _ _ _ _) as [rows'|] eqn:Ei; [|done]. injection Hs as <-.
  unfold stored_pk, stored_rows. rewrite Hd, Hdb, lookup_insert_eq. simpl.
  rewrite Etd, lookup_insert_eq. simpl. split; [by rewrite Hpk|].
  intros k Hk. rewrite Hpk in Ei. by eapply insert_all_frame.
Qed.

Lemma execute_set_fk_existing_kept pe t pk engine enabled :
  preserves (existing_kept pe t pk)
    (execute engine (SetForeignKeyChecks enabled) (sem_set_fk enabled)).
Proof.
  intros w r w' Hrun Hpk.
  apply execute_inv in Hrun as [(_ & -> & _)|(db & ok & Hdb & _ & _ & _ & _ & Hc)];
    [by apply same_dbs_existing_kept|].
  destruct Hc as [(_ & Hd & _)|(_ & _ & [] & db' & [= <-] & _ & Hd)];
    [by apply same_dbs_existing_kept|].
  assert (Hrows : ∀ t', stored_rows w' engine t' = stored_rows w engine t').
  { intros t'. unfold stored_rows. by rewrite Hd, Hdb, lookup_insert_eq. }
  assert (Hspk : ∀ t', stored_pk w' engine t' = stored_pk w engine t').
  { intros t'. unfold stored_pk. by rewrite Hd, Hdb, lookup_insert_eq. }
  destruct (decide (engine = pe)) as [->|Hne].
  - split; [by rewrite Hspk|]. intros k _. by rewrite Hrows.
  - split.
    + unfold stored_pk. by rewrite Hd, lookup_insert_ne.
    + intros k _. unfold stored_rows. by rewrite Hd, lookup_insert_ne.
Qed.

#[local] Hint Resolve logging_existing_kept execute_set_fk_existing_kept : pres.

#[local] Hint Extern 2 (preserves (existing_kept _ _ _) (execute _ (InsertStmt _ _ _) _)) =>
  (apply execute_insert_existing_kept; assumption) : pres.

#[local] Hint Extern 3 (preserves (existing_kept _ _ _) (execute _ _ _)) =>
  (apply execute_read_existing_kept; auto with pres) : pres.

Lemma updatable_not_pk table pk c :
  c ∈ pk → c ∉ get_updatable_column_names table pk.
Proof.
  intros Hc (col & -> & Hcol%list_elem_of_In)%list_elem_of_fmap.
  apply filter_In in Hcol as [_ [Hnot _]%andb_true_iff].
  by apply bool_decide_eq_true in Hnot.
Qed.

Lemma row_fingerprint_ext data r1 r2 :
  (∀ c, c ∈ data → row_val r1 c = row_val r2 c) →
  row_fingerprint data r1 = row_fingerprint data r2.
Proof.
  intros Hext. unfold row_fingerprint. destruct data as [|c0 data0] eqn:E; [done|].
  rewrite <- E in *. f_equal. f_equal. apply map_ext_in.
  intros c' Hc'%list_elem_of_In. by rewrite Hext.
Qed.

Section UpdateLoop.
Context (le pe : string) (lt pt : Table) (pk data : list string).
Hypothesis engines_differ : le ≠ pe.
Hypothesis pk_not_computed : ∀ c, c ∈ pk → c ∉ get_computed_column_names lt.
Hypothesis pk_not_data : ∀ c, c ∈ pk → c ∉ data.

Lemma update_loop_spec batches acc w n w' :
  NoDup (concat batches) →
  (∀ k, k ∈ concat batches → length k = length pk) →
  (∀ k, k ∈ concat batches → rows_at pk k (stored_rows w le (name lt)) ≠ []) →
  stored_pk w pe (name pt) = Some pk →
  for_loop batches (update_batch le pe lt pt pk data) acc w = (Ok n, w') →
  unchanged_at le w w' ∧
  stored_pk w' pe (name pt) = Some pk ∧
  ∃ evs, trace w' = trace w ++ evs ∧
    ∀ k, (∃ e, e ∈ evs ∧ upserts pe pk k e) ↔ (k ∈ concat batches ∧ fingerprint_at w le (name lt) pk data k ≠ fingerprint_at w pe (name pt) pk data k).
Proof.
  revert acc w. induction batches as [|b bs IH]; intros acc w; simpl.
  - intros _ _ _ Hspk [= _ <-]. split; [done|]. split; [done|].
    exists []. split; [by rewrite app_nil_r|]. intros k. split.
    + by intros (e & ?%elem_of_nil & _).
    + by intros [?%elem_of_nil _].
  - intros [Hndb [Hdisj Hndbs]]%NoDup_app Hlen Hloc Hspk.
    intros (acc1 & w1 & Hb & Hrest)%bind_ok_inv.
    eapply update_batch_spec in Hb as (Hle1 & Hspk1 & (evs1 & Ht1 & Hup1) & Hfr1);
      try done.
    2:{ intros k Hk. apply Hlen, elem_of_app. by left. }
    2:{ intros k Hk. apply Hloc, elem_of_app. by left. }
    apply IH in Hrest as (Hle2 & Hspk2 & (evs2 & Ht2 & Hup2)); try done.
    2:{ intros k Hk. apply Hlen, elem_of_app. by right. }
    2:{ intros k Hk. rewrite (stored_rows_unchanged_at w w1) by done.
        apply Hloc, elem_of_app. by right. }
    split; [by etrans|]. split; [done|].
    exists (evs1 ++ evs2). split; [by rewrite Ht2, Ht1, app_assoc|].
    intros k. rewrite elem_of_app. split.
    + intros (e & [He|He]%elem_of_app & Hu).
      * destruct (proj1 (Hup1 k)) as [Hk Hne]; [eauto|]. auto.
      * destruct (proj1 (Hup2 k)) as [Hk Hne]; [eauto|]. split; [auto|].
        assert (k ∉ b) as Hnb by (intros Hkb; by eapply Hdisj).
        rewrite (fingerprint_at_rows w w1 le) in Hne
          by (by rewrite (stored_rows_unchanged_at w w1)).
        by rewrite (fingerprint_at_rows w w1 pe) in Hne by (by apply Hfr1).
    + intros [[Hk|Hk] Hne].
      * destruct (proj2 (Hup1 k)) as (e & He & Hu); [done|].
        exists e. rewrite elem_of_app. auto.
      * assert (k ∉ b) as Hnb by (intros Hkb; by eapply Hdisj).
        destruct (proj2 (Hup2 k)) as (e & He & Hu).
        { split; [done|].
          rewrite (fingerprint_at_rows w w1 le)
            by (by rewrite (stored_rows_unchanged_at w w1)).
          by rewrite (fingerprint_at_rows w w1 pe) by (by apply Hfr1). }
        exists e. rewrite elem_of_app. auto.
Qed.
End UpdateLoop.

(** *** The hash gate in a run that returns *)

Ltac pres_all :=
  repeat match goal with
         | |- preserves (both _ _) _ => apply preserves_both
         | R := _ |- preserves ?I _ => constr_eq R I; unfold R
         end;
  pres.

(** The relation [I] holds between the two worlds of the run [H]. *)
Ltac run_keeps H I name :=
  match type of H with
  | ?m _ = _ =>
      let Hp := fresh in
      assert (Hp : preserves I m) by pres_all;
      pose proof (Hp _ _ _ H) as name; clear Hp
  end.

Lemma no_upsert_not_upserts evs pe pk k :
  Forall no_upsert evs → ¬ ∃ e, e ∈ evs ∧ upserts pe pk k e.
Proof.
  intros HF (e & He & _ & Hup). rewrite Forall_forall in HF.
  specialize (HF e He). unfold no_upsert in HF. by destruct (ev_stmt e).
Qed.

(** Completeness of the hash gate in a run that applies its plan and
    returns: a key of the overlap is upserted exactly when the two
    fingerprints differ. *)
Lemma hash_gate_complete
    (local_engine prod_engine : string) (local_table prod_table : Table)
    (options : SyncOptions) (w w' : World) (k : PKTuple) :
  let pk := primary_key local_table in
  let data := get_updatable_column_names local_table pk in
  pk ≠ [] → data ≠ [] → local_engine ≠ prod_engine →
  (∀ c, c ∈ pk → c ∉ get_computed_column_names local_table) →
  stored_pk w prod_engine (name prod_table) = Some pk →
  dry_run options = false → 0 < batch_size options →
  sync_table local_engine prod_engine local_table prod_table options w = (Ok tt, w') →
  k ∈ key_set w local_engine (name local_table) pk →
  k ∈ key_set w prod_engine (name prod_table) pk →
  ∃ evs, trace w' = trace w ++ evs ∧
    ((∃ e, e ∈ evs ∧ upserts prod_engine pk k e) ↔
     fingerprint_at w local_engine (name local_table) pk data k ≠
     fingerprint_at w prod_engine (name prod_table) pk data k) ∧
    (∀ rl rp,
       last (rows_at pk k (stored_rows w local_engine (name local_table))) = Some rl →
       last (rows_at pk k (stored_rows w prod_engine (name prod_table))) = Some rp →
       (∀ c, c ∈ data → row_val rl c = row_val rp c) →
       ¬ ∃ e, e ∈ evs ∧ upserts prod_engine pk k e).
Proof.
  intros pk data Hpk Hdata Hne Hpkc Hspk Hdry Hbs Hrun HkL HkR.
  set (le := local_engine) in *. set (pe := prod_engine) in *.
  set (lt := local_table) in *. set (pt := prod_table) in *.
  set (R := both (unchanged_at le) (both (emits no_upsert) (existing_kept pe (name pt) pk))).
  assert (Hmain : ∃ evs, trace w' = trace w ++ evs ∧
            ((∃ e, e ∈ evs ∧ upserts pe pk k e) ↔
             fingerprint_at w le (name lt) pk data k ≠
             fingerprint_at w pe (name pt) pk data k)).
  2:{ destruct Hmain as (evs & Ht & Hiff). exists evs. split; [done|]. split; [done|].
      intros rl rp Hl Hp Hext. rewrite Hiff. intros Hdiff. apply Hdiff.
      unfold fingerprint_at. rewrite Hl, Hp. simpl. f_equal.
      by apply row_fingerprint_ext. }
  unfold sync_table, get_primary_key_column_names in Hrun. fold pk in Hrun.
  rewrite (is_empty_false _ Hpk), Hdry in Hrun.
  apply bind_ok_inv in Hrun as ([] & wa & Hstep & Hrun).
  run_keeps Hstep R Ha. clear Hstep.
  apply bind_ok_inv in Hrun as (L & w1 & Hstep & Hrun).
  run_keeps Hstep R H1. apply fetch_pk_values_ok in Hstep as (HL & _ & _); [|done].
  assert (Ha1 : R w w1) by (etrans; eauto).
  apply bind_ok_inv in Hrun as (Rk & w2 & Hstep & Hrun).
  run_keeps Hstep R H2. apply fetch_pk_values_ok in Hstep as (HR & _ & _); [|done].
  assert (Ha2 : R w w2) by (etrans; eauto).
  assert (HLw : L = key_set w le (name lt) pk).
  { rewrite HL. unfold key_set. f_equal. f_equal.
    apply stored_rows_unchanged_at. apply Ha. }
  assert (HRw : ∀ k', k' ∈ key_set w pe (name pt) pk → k' ∈ Rk).
  { intros k' Hk'. rewrite HR. apply elem_of_key_set in Hk'. apply elem_of_key_set.
    destruct Ha1 as (_ & _ & Hkept). destruct (Hkept Hspk) as [_ Hrows].
    by rewrite Hrows. }
  apply bind_ok_inv in Hrun as ([] & wb & Hstep & Hrun).
  run_keeps Hstep R Hb. clear Hstep.
  assert (Hab : R w wb) by (etrans; eauto).
  apply bind_ok_inv in Hrun as ([] & w3 & Hstep & Hrun).
  run_keeps Hstep R H3. clear Hstep.
  assert (Ha3 : R w w3) by (etrans; eauto).
  unfold try_finally in Hrun.
  destruct (apply_plan _ _ _ _ _ _ _ w3) as [r4 w4] eqn:Hbody.
  destruct (when _ _ w4) as [[[]|e] w5] eqn:Hfin; [|done].
  injection Hrun as -> <-.
  run_keeps Hfin (emits no_upsert) Hfin'. clear Hfin.
  unfold apply_plan in Hbody.
  apply bind_ok_inv in Hbody as (ti & wi & Hstep & Hbody).
  run_keeps Hstep R Hi. clear Hstep.
  assert (Hai : R w wi) by (etrans; eauto).
  apply bind_ok_inv in Hbody as (tu & wu & Hupd & Hbody).
  run_keeps Hbody (emits no_upsert) Hpost. clear Hbody.
  assert (Hko : k ∈ overlap (diff_keys L Rk)).
  { simpl. apply elem_of_sorted, elem_of_elements, elem_of_intersection.
    split; [by rewrite HLw | by apply HRw]. }
  assert (Hone : overlap (diff_keys L Rk) ≠ []).
  { intros Hnil. rewrite Hnil in Hko. by apply elem_of_nil in Hko. }
  rewrite (is_empty_false _ Hone) in Hupd. cbv zeta in Hupd.
  fold pk data in Hupd. rewrite (is_empty_false _ Hdata) in Hupd.
  apply bind_ok_inv in Hupd as ([] & wl & Hstep & Hupd).
  run_keeps Hstep R Hl. clear Hstep.
  assert (Hal : R w wl) by (etrans; eauto).
  unfold for_chunks in Hupd.
  destruct (chunked_ok (overlap (diff_keys L Rk)) (batch_size options) Hbs)
    as (batches & Hch & Hcat).
  rewrite Hch in Hupd.
  destruct Hal as (Hle & (evs_pre & Ht_pre & HF_pre) & Hkept).
  destruct (Hkept Hspk) as [Hspk_l Hrows_l].
  assert (Hov : ∀ k', k' ∈ concat batches → k' ∈ L ∧ k' ∈ Rk).
  { intros k'. rewrite Hcat. simpl.
    rewrite elem_of_sorted, elem_of_elements, elem_of_intersection. done. }
  eapply (update_loop_spec le pe lt pt pk data) in Hupd
    as (Hle_u & Hspk_u & (evs_upd & Ht_upd & Hup)); try done.
  - destruct Hpost as (evs_del & Ht_del & HF_del).
    destruct Hfin' as (evs_fin & Ht_fin & HF_fin).
    exists (evs_pre ++ evs_upd ++ evs_del ++ evs_fin). split.
    { rewrite Ht_fin, Ht_del, Ht_upd, Ht_pre. by rewrite <- !app_assoc. }
    assert (Hfl : fingerprint_at wl le (name lt) pk data k
                  = fingerprint_at w le (name lt) pk data k).
    { apply fingerprint_at_rows. by rewrite (stored_rows_unchanged_at w wl). }
    assert (Hfp : fingerprint_at wl pe (name pt) pk data k
                  = fingerprint_at w pe (name pt) pk data k).
    { apply fingerprint_at_rows. apply Hrows_l. by apply elem_of_key_set. }
    rewrite <- Hfl, <- Hfp. split.
    + intros (e & He & Hu). rewrite !elem_of_app in He.
      destruct He as [He|[He|[He|He]]].
      * exfalso. eapply (no_upsert_not_upserts evs_pre); eauto.
      * apply (Hup k). eauto.
      * exfalso. eapply (no_upsert_not_upserts evs_del); eauto.
      * exfalso. eapply (no_upsert_not_upserts evs_fin); eauto.
    + intros Hdiff. destruct (proj2 (Hup k)) as (e & He & Hu).
      { split; [by rewrite Hcat|done]. }
      exists e. rewrite !elem_of_app. auto.
  - intros c Hc. by apply updatable_not_pk.
  - rewrite Hcat. simpl. apply NoDup_sorted, NoDup_elements.
  - intros k' [Hk' _]%Hov. rewrite HLw in Hk'. by eapply key_set_length.
  - intros k' [Hk' _]%Hov. rewrite HLw in Hk'.
    rewrite (stored_rows_unchanged_at w wl) by done. by apply elem_of_key_set.
Qed.

(** *** The hash gate on any exit (C3) *)

Lemma in_condition_holds pk pks r :
  row_key pk r ∈ pks → in_condition pk pks r = true.
Proof.
  intros Hin. unfold in_condition. destruct pk as [|c [|c' pk]];
    try (by apply bool_decide_eq_true).
  apply bool_decide_eq_true, list_elem_of_fmap. by exists [row_val r c].
Qed.

Lemma rows_at_filter_member pk pks k rows :
  k ∈ pks →
  rows_at pk k (List.filter (in_condition pk pks) rows) = rows_at pk k rows.
Proof.
  intros Hk. unfold rows_at. induction rows as [|r rows IH]; simpl; [done|].
  destruct (decide (row_key pk r = k)) as [Heq|Hne].
  - rewrite in_condition_holds by (by rewrite Heq). simpl.
    rewrite (bool_decide_eq_true_2 _ Heq). by rewrite IH.
  - rewrite (bool_decide_eq_false_2 _ Hne).
    destruct (in_condition pk pks r); simpl;
      [rewrite (bool_decide_eq_false_2 _ Hne)|]; apply IH.
Qed.

Lemma fetch_hashes_result engine table pk data pks w d w' :
  fetch_hashes_for_pks engine table pk data pks w = (Ok d, w') →
  (∀ k, k ∈ pks → d !! k = fingerprint_at w engine (name table) pk data k) ∧
  (∀ k h, d !! k = Some h → length k = length pk).
Proof.
  unfold fetch_hashes_for_pks. destruct pks as [|k0 pks0] eqn:Epks.
  { intros [= <- _]. split; [by intros k ?%elem_of_nil|]. by intros k h ?. }
  rewrite <- Epks. clear Epks.
  intros ([] & w1 & [-> _]%table_c_ok & Hrun)%bind_ok_inv.
  apply bind_ok_inv in Hrun as ([] & w2 & [-> _]%table_c_ok & Hrun).
  apply bind_ok_inv in Hrun as (result & w3 & Hex & [= <- <-]).
  apply execute_read_ok_inv in Hex as (db & Hdb & Hs & _);
    [|apply reads_only_select_hashes].
  unfold sem_select_hashes in Hs.
  destruct (table_data db (name table)) as [td|] eqn:Etd; [|done].
  injection Hs as <-. apply table_data_ok in Etd. split.
  - intros k Hk. unfold fingerprint_at.
    rewrite (stored_rows_lookup _ _ _ _ _ Hdb Etd).
    by rewrite hashes_lookup, rows_at_filter_member.
  - intros k h. rewrite hashes_lookup.
    destruct (last (rows_at pk k _)) as [r|] eqn:El; [|done]. intros _.
    apply last_Some in El as (rs & El).
    assert (r ∈ rows_at pk k (List.filter (in_condition pk pks) (td_rows td)))
      as [_ <-]%elem_of_rows_at by (rewrite El, elem_of_app; right; left).
    unfold row_key. by rewrite length_map.
Qed.

Lemma rows_at_update_same pk cols p k rows :
  (∀ c, c ∈ pk → c ∉ cols) →
  rows_at pk k (map (λ r, if same_key pk p r then update_row cols p r else r) rows)
  = map (λ r, if same_key pk p r then update_row cols p r else r) (rows_at pk k rows).
Proof.
  intros Hpk. unfold rows_at. induction rows as [|r rows IH]; simpl; [done|].
  rewrite IH.
  assert (row_key pk (if same_key pk p r then update_row cols p r else r) = row_key pk r)
    as -> by (destruct (same_key pk p r); [by apply row_key_update_row|done]).
  by destruct (bool_decide (row_key pk r = k)).
Qed.

Lemma upsert_all_nonempty pk cols payload rows k :
  (∀ c, c ∈ pk → c ∉ cols) →
  rows_at pk k rows ≠ [] → rows_at pk k (upsert_all pk cols payload rows) ≠ [].
Proof.
  intros Hpk. revert rows. induction payload as [|p payload IH]; intros rows; simpl; [done|].
  intros Hne. destruct (conflicts pk p rows); apply IH.
  - rewrite rows_at_update_same by done. by destruct (rows_at pk k rows).
  - rewrite rows_at_app. by destruct (rows_at pk k rows).
Qed.

(** [upsert_rows] on any exit: either the databases are as before, or
    the one upsert it sent was applied. *)
Lemma upsert_rows_any pe pt payload cols w r w' :
  upsert_rows pe pt payload cols w = (r, w') →
  ∃ evs, trace w' = trace w ++ evs ∧
    (∀ e, e ∈ evs → ev_url e = pe ∧ ev_stmt e = UpsertStmt (name pt) payload cols) ∧
    (dbs w' = dbs w ∨
     (evs = [mkEvent pe (UpsertStmt (name pt) payload cols) true] ∧
      (∀ e, e ≠ pe → dbs w' !! e = dbs w !! e) ∧
      ∀ pk, stored_pk w pe (name pt) = Some pk →
        stored_pk w' pe (name pt) = Some pk ∧
        stored_rows w' pe (name pt)
        = upsert_all pk cols payload (stored_rows w pe (name pt)))).
Proof.
  assert (Hnil : ∀ w0 : World, trace w0 = trace w → dbs w0 = dbs w →
            ∃ evs, trace w0 = trace w ++ evs ∧
              (∀ e, e ∈ evs →
                 ev_url e = pe ∧ ev_stmt e = UpsertStmt (name pt) payload cols) ∧
              (dbs w0 = dbs w ∨
               (evs = [mkEvent pe (UpsertStmt (name pt) payload cols) true] ∧
                (∀ e, e ≠ pe → dbs w0 !! e = dbs w !! e) ∧
                ∀ pk, stored_pk w pe (name pt) = Some pk →
                  stored_pk w0 pe (name pt) = Some pk ∧
                  stored_rows w0 pe (name pt)
                  = upsert_all pk cols payload (stored_rows w pe (name pt))))).
  { intros w0 Ht Hd. exists []. rewrite app_nil_r. split; [done|].
    split; [by intros e ?%elem_of_nil|]. by left. }
  unfold upsert_rows. destruct payload as [|p0 payload0] eqn:Ep.
  { intros [= _ <-]. by apply Hnil. }
  rewrite <- Ep in *. clear Ep.
  intros [(a & w1 & Hc & Hrun)|(e & Hc & _)]%bind_inv.
  2:{ apply table_c_run in Hc as ->. by apply Hnil. }
  apply table_c_run in Hc as ->.
  assert (∃ r0, execute pe (UpsertStmt (name pt) payload cols)
                  (sem_upsert (name pt) cols payload) w = (r0, w')) as [r0 Hex].
  { apply bind_inv in Hrun as [(a' & w2 & Hex & [= _ <-])|(e & Hex & _)]; eauto. }
  clear Hrun.
  apply execute_inv in Hex as [(_ & -> & _)|(db & ok & Hdb & _ & _ & Ht & _ & Hcase)].
  { by apply Hnil. }
  eexists. split; [done|]. split; [by intros e ->%list_elem_of_singleton|].
  destruct Hcase as [(_ & Hd & _)|(-> & _ & [] & db' & Hs & _ & Hd)]; [by left|].
  right. split; [done|]. split; [intros e He; by rewrite Hd, lookup_insert_ne|].
  unfold sem_upsert in Hs.
  destruct (table_data db (name pt)) as [td|] eqn:Etd; [|done].
  apply table_data_ok in Etd. injection Hs as <-.
  intros pk. unfold stored_pk, stored_rows. rewrite Hd, Hdb, lookup_insert_eq. simpl.
  rewrite Etd, lookup_insert_eq. simpl. by intros [= <-].
Qed.

Lemma preserves_impl {A} (I J : relation World) (m : M A) :
  (∀ w w', I w w' → J w w') → preserves I m → preserves J m.
Proof. intros HIJ Hm w r w' Hr. eauto. Qed.

(** [m] runs under [I], what follows under [J]; together they give [K]. *)
Lemma preserves_bind_mixed {A B} (I J K : relation World) (m : M A) (f : A → M B) :
  (∀ w1 w2, I w1 w2 → K w1 w2) →
  (∀ w1 w2 w3, I w1 w2 → J w2 w3 → K w1 w3) →
  preserves I m → (∀ a, preserves J (f a)) → preserves K (m ≫= f).
Proof.
  intros HIK HIJK Hm Hf w r w' [(a & w1 & H1 & H2)|(e & H1 & _)]%bind_inv.
  - eapply HIJK; [by eapply Hm | by eapply Hf].
  - eapply HIK. by eapply Hm.
Qed.

Lemma preserves_try_finally_mixed {A} (I J K : relation World) (body : M A) fin :
  (∀ w1 w2 w3, I w1 w2 → J w2 w3 → K w1 w3) →
  preserves I body → preserves J fin → preserves K (try_finally body fin).
Proof.
  intros HIJK Hb Hf w r w'. unfold try_finally.
  destruct (body w) as [r1 w1] eqn:E1. destruct (fin w1) as [[[]|e] w2] eqn:E2;
    intros [= <- <-]; (eapply HIJK; [by eapply Hb | by eapply Hf]).
Qed.

Section HashGate.
Context (le pe : string) (lt pt : Table) (pk data : list string) (k : PKTuple).
Hypothesis engines_differ : le ≠ pe.
Hypothesis pk_not_empty : pk ≠ [].
Hypothesis pk_not_computed : ∀ c, c ∈ pk → c ∉ get_computed_column_names lt.
Hypothesis pk_not_data : ∀ c, c ∈ pk → c ∉ data.

#[local] Instance guarded_preorder : PreOrder (guarded le pe lt pt pk data k).
Proof.
  split.
  - intros w Hspk Hk. split; [done|]. split; [done|]. split; [done|].
    exists []. rewrite app_nil_r. split; [done|]. split; [|by left].
    by intros (e & ?%elem_of_nil & _).
  - intros w1 w2 w3 H12 H23 Hspk Hk.
    destruct (H12 Hspk Hk) as (Hle12 & Hspk2 & Hk2 & evs12 & Ht12 & A12 & F12).
    destruct (H23 Hspk2 Hk2) as (Hle23 & Hspk3 & Hk3 & evs23 & Ht23 & A23 & F23).
    split; [by etrans|]. split; [done|]. split; [done|].
    exists (evs12 ++ evs23). split; [by rewrite Ht23, Ht12, app_assoc|].
    assert (Hin23 : (∃ e, e ∈ evs23 ∧ upserts pe pk k e) →
              fingerprint_at w1 le (name lt) pk data k
              ≠ fingerprint_at w1 pe (name pt) pk data k).
    { intros Hup. destruct F12 as [Hrows|Hup12]; [|by apply A12].
      rewrite <- (fingerprint_at_rows w1 w2 le)
        by (by rewrite (stored_rows_unchanged_at w1 w2)).
      rewrite <- (fingerprint_at_rows w1 w2 pe) by done. by apply A23. }
    split.
    + intros (e & [He|He]%elem_of_app & Hup); [apply A12|apply Hin23]; eauto.
    + destruct F12 as [Hr12|(e & He & Hup)].
      * destruct F23 as [Hr23|(e & He & Hup)].
        -- left. by rewrite Hr23.
        -- right. exists e. rewrite elem_of_app. auto.
      * right. exists e. rewrite elem_of_app. auto.
Qed.

Lemma guarded_safe w w' :
  guarded le pe lt pt pk data k w w' → safe le pe lt pt pk data k w w'.
Proof.
  intros H Hspk Hk. destruct (H Hspk Hk) as (_ & _ & _ & evs & Ht & A & _). eauto.
Qed.

Lemma guarded_then_safe w1 w2 w3 :
  guarded le pe lt pt pk data k w1 w2 → safe le pe lt pt pk data k w2 w3 →
  safe le pe lt pt pk data k w1 w3.
Proof.
  intros H12 H23 Hspk Hk.
  destruct (H12 Hspk Hk) as (Hle12 & Hspk2 & Hk2 & evs12 & Ht12 & A12 & F12).
  destruct (H23 Hspk2 Hk2) as (evs23 & Ht23 & A23).
  exists (evs12 ++ evs23). split; [by rewrite Ht23, Ht12, app_assoc|].
  intros (e & [He|He]%elem_of_app & Hup); [apply A12; eauto|].
  destruct F12 as [Hrows|Hup12]; [|by apply A12].
  rewrite <- (fingerprint_at_rows w1 w2 le)
    by (by rewrite (stored_rows_unchanged_at w1 w2)).
  rewrite <- (fingerprint_at_rows w1 w2 pe) by done. apply A23. eauto.
Qed.

Lemma safe_then_quiet w1 w2 w3 :
  safe le pe lt pt pk data k w1 w2 → emits no_upsert w2 w3 →
  safe le pe lt pt pk data k w1 w3.
Proof.
  intros H12 (evs23 & Ht23 & HF) Hspk Hk.
  destruct (H12 Hspk Hk) as (evs12 & Ht12 & A12).
  exists (evs12 ++ evs23). split; [by rewrite Ht23, Ht12, app_assoc|].
  intros (e & [He|He]%elem_of_app & Hup); [apply A12; eauto|].
  exfalso. eapply (no_upsert_not_upserts evs23); eauto.
Qed.

(** Statements that leave the local database and the remote rows of
    the existing keys alone, and upsert nothing, keep the gate. *)
Lemma kept_guarded w w' :
  both (unchanged_at le) (both (emits no_upsert) (existing_kept pe (name pt) pk)) w w' →
  guarded le pe lt pt pk data k w w'.
Proof.
  intros (Hle & (evs & Ht & HF) & Hkept) Hspk Hk.
  destruct (Hkept Hspk) as [Hspk' Hrows]. specialize (Hrows k Hk).
  split; [done|]. split; [done|]. split; [by rewrite Hrows|].
  exists evs. split; [done|]. split; [|by left].
  intros Hup. exfalso. by eapply (no_upsert_not_upserts evs).
Qed.

Lemma update_batch_guarded acc batch :
  preserves (guarded le pe lt pt pk data k)
    (update_batch le pe lt pt pk data acc batch).
Proof.
  intros w r w' Hrun.
  assert (Hquiet : ∀ w0 : World, dbs w0 = dbs w → emits no_upsert w w0 →
            guarded le pe lt pt pk data k w w0).
  { intros w0 Hd Hem. apply kept_guarded. split; [unfold unchanged_at; by rewrite Hd|].
    split; [done|]. by apply same_dbs_existing_kept. }
  unfold update_batch in Hrun.
  apply bind_inv in Hrun as [(dl & w1 & Hl & Hrun)|(e & Hl & _)];
    run_keeps Hl (both same_data (emits no_upsert)) Hk1;
    destruct Hk1 as [[Hd1 _] Hem1]; [|by apply Hquiet].
  apply fetch_hashes_result in Hl as [Hdl Hdlen].
  apply bind_inv in Hrun as [(dp & w2 & Hp & Hrun)|(e & Hp & _)];
    run_keeps Hp (both same_data (emits no_upsert)) Hk2;
    destruct Hk2 as [[Hd2 _] Hem2];
    [|apply Hquiet; [congruence|by etrans]].
  assert (Hd12 : dbs w2 = dbs w) by congruence.
  assert (Hem12 : emits no_upsert w w2) by (by etrans).
  apply fetch_hashes_result in Hp as [Hdp Hdplen].
  destruct (decide (changed_pks dl dp batch = [])) as [Echanged|Hcne].
  { rewrite Echanged in Hrun. simpl in Hrun. injection Hrun as <- <-. by apply Hquiet. }
  rewrite (is_empty_false _ Hcne) in Hrun.
  set (changed := changed_pks dl dp batch) in *.
  apply bind_inv in Hrun as [(rows & w3 & Hr & Hrun)|(e & Hr & _)];
    run_keeps Hr (both same_data (emits no_upsert)) Hk3;
    destruct Hk3 as [[Hd3 _] Hem3];
    [|apply Hquiet; [congruence|by etrans]].
  assert (Hd13 : dbs w3 = dbs w) by congruence.
  assert (Hem13 : emits no_upsert w w3) by (by etrans).
  apply fetch_rows_ok in Hr as (_ & _ & Hcols & Hrows); [|done].
  rewrite (stored_rows_same_dbs w w2) in Hrows by done.
  assert (∃ r0, upsert_rows pe pt (map (sanitize_row lt) rows) data w3 = (r0, w'))
    as [r0 Hu].
  { apply bind_inv in Hrun as [(u & w4 & Hu & [= _ <-])|(e & Hu & _)]; eauto. }
  clear Hrun.
  apply upsert_rows_any in Hu as (evsU & HtU & HevU & Hcase).
  assert (Hclen : ∀ k', k' ∈ changed → length k' = length pk).
  { intros k' [_ Hne]%elem_of_changed_pks.
    destruct (dl !! k') as [h|] eqn:E1; [by eapply Hdlen|].
    destruct (dp !! k') as [h|] eqn:E2; [by eapply Hdplen|]. done. }
  assert (Hdiff : k ∈ map (row_key pk) (map (sanitize_row lt) rows) →
            fingerprint_at w le (name lt) pk data k
            ≠ fingerprint_at w pe (name pt) pk data k).
  { rewrite Hrows, <- !list_fmap_compose.
    intros (r' & -> & Hr'%list_elem_of_In)%list_elem_of_fmap. simpl.
    rewrite row_key_sanitize, row_key_select_columns by done.
    apply filter_In in Hr' as [_ Hr']. rewrite in_condition_key in Hr' by done.
    apply bool_decide_eq_true, elem_of_changed_pks in Hr' as [Hkb Hne].
    rewrite Hdl, Hdp in Hne by done.
    by rewrite (fingerprint_at_rows w w1 pe) in Hne
      by (by rewrite (stored_rows_same_dbs w w1)). }
  destruct Hem13 as (evs13 & Ht13 & HF13).
  assert (Hup : (∃ e, e ∈ evs13 ++ evsU ∧ upserts pe pk k e) →
            k ∈ map (row_key pk) (map (sanitize_row lt) rows)).
  { intros (e & [He|He]%elem_of_app & Hurl & Hst).
    - exfalso. eapply (no_upsert_not_upserts evs13); [done|]. exists e. by split.
    - destruct (HevU e He) as [_ Hstmt]. rewrite Hstmt in Hst.
      destruct Hst as (row & Hrow & <-). apply list_elem_of_fmap. eauto. }
  intros Hspk Hk.
  rewrite <- (stored_pk_same_dbs w w3) in Hspk by done.
  rewrite <- (stored_rows_same_dbs w w3 pe) in Hk by done.
  assert (Htr : trace w' = trace w ++ evs13 ++ evsU)
    by (by rewrite HtU, Ht13, app_assoc).
  destruct Hcase as [Hdu|(HeU & Hother & Hprod)].
  - assert (Hdw : dbs w' = dbs w) by congruence.
    split; [unfold unchanged_at; by rewrite Hdw|].
    split; [by rewrite (stored_pk_same_dbs w3 w')|].
    split; [by rewrite (stored_rows_same_dbs w3 w')|].
    exists (evs13 ++ evsU). split; [done|]. split; [by intros ?%Hup%Hdiff|].
    left. by rewrite (stored_rows_same_dbs w w').
  - destruct (Hprod pk Hspk) as [Hspk' Hrows'].
    split; [unfold unchanged_at; rewrite Hother by done; by rewrite Hd13|].
    split; [done|].
    split; [rewrite Hrows'; by apply upsert_all_nonempty|].
    exists (evs13 ++ evsU). split; [done|]. split; [by intros ?%Hup%Hdiff|].
    destruct (decide (k ∈ map (row_key pk) (map (sanitize_row lt) rows))) as [Hin|Hnot].
    + right. exists (mkEvent pe (UpsertStmt (name pt) (map (sanitize_row lt) rows) data) true).
      split; [rewrite HeU, elem_of_app; right; by left|]. split; [done|]. simpl.
      apply list_elem_of_fmap in Hin as (row & -> & Hrow). eauto.
    + left. rewrite Hrows', upsert_all_frame by done.
      by rewrite (stored_rows_same_dbs w w3).
Qed.

Lemma quiet_guarded {A} (m : M A) :
  preserves (both (unchanged_at le) (both (emits no_upsert) (existing_kept pe (name pt) pk))) m →
  preserves (guarded le pe lt pt pk data k) m.
Proof. apply preserves_impl. apply kept_guarded. Qed.

(** The update phase of [apply_plan]. *)
Lemma update_phase_guarded plan size fmt args :
  preserves (guarded le pe lt pt pk data k)
    (if is_empty (overlap plan) then mret 0
     else if is_empty data then mret 0
     else logging INFO fmt args;;
          for_chunks (overlap plan) size (update_batch le pe lt pt pk data) 0).
Proof.
  destruct (is_empty (overlap plan)); [apply preserves_ret; apply _|].
  destruct (is_empty data); [apply preserves_ret; apply _|].
  apply preserves_bind; [apply _| |intros ?].
  - apply quiet_guarded. pres_all.
  - apply preserves_for_chunks; [apply _|]. intros s batch. apply update_batch_guarded.
Qed.
End HashGate.

Lemma apply_plan_safe le pe lt pt opts plan k :
  let pk := primary_key lt in
  let data := get_updatable_column_names lt pk in
  le ≠ pe → pk ≠ [] → (∀ c, c ∈ pk → c ∉ get_computed_column_names lt) →
  preserves (safe le pe lt pt pk data k) (apply_plan le pe lt pt pk opts plan).
Proof.
  intros pk data Hne Hpk Hpkc.
  assert (Hpd : ∀ c, c ∈ pk → c ∉ data) by (intros c Hc; by apply updatable_not_pk).
  unfold apply_plan.
  apply (preserves_bind_mixed (guarded le pe lt pt pk data k) (safe le pe lt pt pk data k)).
  { apply guarded_safe. }
  { by apply guarded_then_safe. }
  { apply quiet_guarded. pres_all. }
  intros total_inserted.
  apply (preserves_bind_mixed (guarded le pe lt pt pk data k) (emits no_upsert)).
  { apply guarded_safe. }
  { intros w1 w2 w3 H12 H23. eapply safe_then_quiet; [|done]. by apply guarded_safe. }
  { by apply update_phase_guarded. }
  intros total_updated. pres.
Qed.

Lemma sync_table_safe le pe lt pt opts k :
  let pk := primary_key lt in
  let data := get_updatable_column_names lt pk in
  le ≠ pe → pk ≠ [] → (∀ c, c ∈ pk → c ∉ get_computed_column_names lt) →
  preserves (safe le pe lt pt pk data k) (sync_table le pe lt pt opts).
Proof.
  intros pk data Hne Hpk Hpkc.
  assert (Hpd : ∀ c, c ∈ pk → c ∉ data) by (intros c Hc; by apply updatable_not_pk).
  assert (Hstep : ∀ {A B} (m : M A) (f : A → M B),
            preserves (both (unchanged_at le)
                         (both (emits no_upsert) (existing_kept pe (name pt) pk))) m →
            (∀ a, preserves (safe le pe lt pt pk data k) (f a)) →
            preserves (safe le pe lt pt pk data k) (m ≫= f)).
  { intros A B m f Hm Hf.
    apply (preserves_bind_mixed (guarded le pe lt pt pk data k)
             (safe le pe lt pt pk data k)); [| |by apply quiet_guarded|done].
    - apply guarded_safe.
    - by apply guarded_then_safe. }
  unfold sync_table, get_primary_key_column_names. fold pk.
  rewrite (is_empty_false _ Hpk).
  apply Hstep; [pres_all|intros ?].
  apply Hstep; [pres_all|intros local_pks].
  apply Hstep; [pres_all|intros prod_pks].
  apply Hstep; [pres_all|intros ?].
  destruct (dry_run opts).
  { eapply preserves_impl; [apply guarded_safe|].
    apply preserves_ret. by apply guarded_preorder. }
  apply Hstep; [pres_all|intros ?].
  apply (preserves_try_finally_mixed (safe le pe lt pt pk data k) (emits no_upsert)).
  - apply safe_then_quiet.
  - by apply apply_plan_safe.
  - pres.
Qed.

(** C3. The hash gate of [sync_table] for a key [k] that both sides
    hold.  However the run ends, an upsert whose payload has [k] is sent
    only when the fingerprint of the local row differs from the
    fingerprint of the remote row, so rows that agree on every data
    column are never upserted; and a run that applies its plan and
    returns (no dry run, a positive batch size, a data column to
    compare) does upsert every such key whose fingerprints differ.
    The primary key holds no computed column, the remote table declares
    the same key, and the two engines are different servers. *)
Theorem hash_gated_updates
    (local_engine prod_engine : string) (local_table prod_table : Table)
    (options : SyncOptions) (w : World) (k : PKTuple) :
  let pk := primary_key local_table in
  let data := get_updatable_column_names local_table pk in
  let run := sync_table local_engine prod_engine local_table prod_table options w in
  let differ :=
    fingerprint_at w local_engine (name local_table) pk data k ≠
    fingerprint_at w prod_engine (name prod_table) pk data k in
  pk ≠ [] → local_engine ≠ prod_engine →
  (∀ c, c ∈ pk → c ∉ get_computed_column_names local_table) →
  stored_pk w prod_engine (name prod_table) = Some pk →
  k ∈ key_set w local_engine (name local_table) pk →
  k ∈ key_set w prod_engine (name prod_table) pk →
  ∃ evs, trace run.2 = trace w ++ evs ∧
    ((∃ e, e ∈ evs ∧ upserts prod_engine pk k e) → differ) ∧
    (∀ rl rp,
       last (rows_at pk k (stored_rows w local_engine (name local_table))) = Some rl →
       last (rows_at pk k (stored_rows w prod_engine (name prod_table))) = Some rp →
       (∀ c, c ∈ data → row_val rl c = row_val rp c) →
       ¬ ∃ e, e ∈ evs ∧ upserts prod_engine pk k e) ∧
    (run.1 = Ok tt → dry_run options = false → 0 < batch_size options → data ≠ [] →
     differ → ∃ e, e ∈ evs ∧ upserts prod_engine pk k e).
Proof.
  intros pk data run differ Hpk Hne Hpkc Hspk HkL HkR.
  destruct run as [r w'] eqn:Hrun. unfold run in Hrun. unfold differ. simpl.
  pose proof (sync_table_safe _ _ _ _ _ k Hne Hpk Hpkc _ _ _ Hrun) as Hsafe.
  destruct (Hsafe Hspk) as (evs & Ht & Honly); [by apply elem_of_key_set|].
  exists evs. split; [done|]. split; [done|]. split.
  - intros rl rp Hl Hp Hext Hup. apply Honly in Hup. apply Hup.
    unfold pk, data in *. unfold fingerprint_at. rewrite Hl, Hp. simpl. f_equal.
    by apply row_fingerprint_ext.
  - intros -> Hdry Hbs Hdata Hdiff.
    destruct (hash_gate_complete _ _ _ _ _ _ _ k Hpk Hdata Hne Hpkc Hspk Hdry Hbs
                Hrun HkL HkR) as (evs' & Ht' & Hiff & _).
    rewrite Ht in Ht'. apply app_inv_head in Ht' as <-. by apply Hiff.
Qed.

(** * Further properties of the code *)

(** ** Batches *)

Lemma chunk_count (n sz : nat) :
  (0 < sz)%nat →
  ((n + sz - 1) `div` sz * sz < n + sz)%nat ∧ (n ≤ (n + sz - 1) `div` sz * sz)%nat.
Proof.
  intros Hsz.
  pose proof (Nat.div_mod (n + sz - 1) sz ltac:(lia)) as Hdm.
  pose proof (Nat.mod_upper_bound (n + sz - 1) sz ltac:(lia)) as Hmod.
  nia.
Qed.

Lemma chunk_lookup {A} (xs : list A) (sz c i : nat) b :
  map (λ j, take sz (drop (j * sz)%nat xs)) (seq 0 c) !! i = Some b →
  (i < c)%nat ∧ b = take sz (drop (i * sz)%nat xs).
Proof.
  rewrite list_lookup_fmap. intros Hb.
  destruct (seq 0 c !! i) as [j|] eqn:Ej; [|done].
  apply lookup_seq in Ej as [-> Hi]. simpl in Hb. injection Hb as <-. done.
Qed.

(** X1. For a positive size, [chunked] cuts the sequence into
    consecutive batches: their concatenation is the sequence, no batch
    is empty or longer than the size, and every batch but the last has
    exactly the size. *)
Theorem chunked_batches {A} (xs : list A) (p : positive) :
  ∃ batches, chunked xs (Z.pos p) = Ok batches ∧
    concat batches = xs ∧
    Forall (λ b, b ≠ [] ∧ (length b ≤ Pos.to_nat p)%nat) batches ∧
    ∀ i b, batches !! i = Some b → (S i < length batches)%nat →
      length b = Pos.to_nat p.
Proof.
  destruct (chunked_ok xs (Z.pos p)) as (batches & Hc & Hcat); [lia|].
  exists batches. split; [done|]. split; [done|].
  unfold chunked in Hc. rewrite !decide_False in Hc by lia. injection Hc as <-.
  rewrite Z2Nat.inj_pos. set (sz := Pos.to_nat p). assert (0 < sz)%nat by lia.
  destruct (chunk_count (length xs) sz) as [Hlt Hge]; [done|].
  split.
  - apply Forall_forall. intros b (j & -> & Hj)%list_elem_of_fmap.
    apply elem_of_seq in Hj.
    assert (length (take sz (drop (j * sz) xs)) = Nat.min sz (length xs - j * sz)) as Hlen
      by (by rewrite length_take, length_drop).
    split; [|lia].
    intros Hnil. rewrite Hnil in Hlen. simpl in Hlen. nia.
  - intros i b [Hi ->]%chunk_lookup. rewrite length_map, length_seq.
    intros Hlast. rewrite length_take, length_drop. nia.
Qed.

Lemma chunked_iterable_loop_spec {A} (rounds sz : nat) (it : list A) :
  (0 < sz)%nat → (length it < rounds)%nat →
  chunked_iterable_loop rounds it sz =
    map (λ j, take sz (drop (j * sz)%nat it)) (seq 0 ((length it + sz - 1) `div` sz)).
Proof.
  intros Hsz. revert it. induction rounds as [|rounds IH]; intros it Hlen; [lia|].
  simpl. destruct it as [|x it].
  - rewrite take_nil. simpl. rewrite Nat.div_small by lia. done.
  - destruct sz as [|sz]; [lia|]. simpl take at 1. simpl drop at 1.
    rewrite IH by (rewrite length_drop; simpl in Hlen; lia).
    assert (((length (x :: it) + S sz - 1) `div` S sz
            = S ((length (drop sz it) + S sz - 1) `div` S sz))%nat) as ->.
    { rewrite length_drop. simpl length.
      destruct (decide (length it ≤ sz)%nat) as [Hle|Hgt].
      - replace (length it - sz)%nat with 0%nat by lia.
        rewrite (Nat.div_small (0 + S sz - 1)) by lia.
        symmetry. apply (Nat.div_unique _ _ _ (length it)); lia.
      - replace (S (length it) + S sz - 1)%nat
          with ((length it - sz + S sz - 1) + 1 * S sz)%nat by lia.
        rewrite Nat.div_add by lia. lia. }
    rewrite <- cons_seq, <- fmap_S_seq. simpl. f_equal.
    rewrite <- list_fmap_compose. apply list_fmap_ext. intros _ j _. simpl.
    rewrite drop_drop. by do 2 f_equal.
Qed.

(** The number of rounds given to the loop does not show, once it
    exceeds the number of items: the loop ends at its [break]. *)
Lemma chunked_iterable_loop_rounds {A} (rounds sz : nat) (it : list A) :
  (length it < rounds)%nat →
  chunked_iterable_loop rounds it sz = chunked_iterable_loop (S (length it)) it sz.
Proof.
  intros Hlen. destruct sz as [|sz].
  - by destruct rounds; [lia|].
  - rewrite !chunked_iterable_loop_spec by lia. done.
Qed.

(** X2. [chunked_iterable] yields the batches of [chunked] for a
    positive size.  The two differ on the other sizes: for size 0
    [chunked_iterable] yields nothing where [chunked] raises, and for a
    negative size [chunked_iterable] raises where [chunked] yields
    nothing. *)
Theorem chunked_iterable_batches {A} (it : list A) (size : Z) :
  match size with
  | Z.pos _ => chunked_iterable it size = chunked it size
  | Z0 =>
      chunked_iterable it size = Ok [] ∧
      chunked it size = Raise (ValueError "range() arg 3 must not be zero")
  | Z.neg _ =>
      chunked it size = Ok [] ∧
      ∃ msg, chunked_iterable it size = Raise (ValueError msg)
  end.
Proof.
  destruct size as [|p|p].
  - done.
  - unfold chunked_iterable, chunked. rewrite !decide_False by lia. f_equal.
    apply chunked_iterable_loop_spec; lia.
  - split; [done|]. unfold chunked_iterable. rewrite decide_True by lia. eauto.
Qed.

(** ** The version column *)

Lemma find_first {A} (f : A → bool) (l : list A) x :
  List.find f l = Some x →
  ∃ l1 l2, l = l1 ++ x :: l2 ∧ f x = true ∧ Forall (λ y, f y = false) l1.
Proof.
  induction l as [|a l IH]; simpl; [done|].
  destruct (f a) eqn:Ea.
  - intros [= ->]. exists [], l. by repeat split.
  - intros (l1 & l2 & -> & Hx & Hl1)%IH. exists (a :: l1), l2.
    repeat split; [done|]. by constructor.
Qed.

Lemma elem_of_updatable table pk c :
  c ∈ get_updatable_column_names table pk ↔
  c ∈ map col_name (columns table) ∧ (c ∉ pk) ∧ c ∉ get_computed_column_names table.
Proof.
  unfold get_updatable_column_names. rewrite list_elem_of_fmap. split.
  - intros (col & -> & Hcol). apply list_elem_of_In, filter_In in Hcol as [Hin Hf].
    apply andb_true_iff in Hf as [H1 H2].
    apply bool_decide_eq_true in H1. apply bool_decide_eq_true in H2.
    repeat split; [|done..]. apply list_elem_of_fmap. exists col. split; [done|].
    by apply list_elem_of_In.
  - intros ((col & -> & Hcol)%list_elem_of_fmap & H1 & H2). exists col. split; [done|].
    apply list_elem_of_In, filter_In. split; [by apply list_elem_of_In|].
    apply andb_true_iff. by rewrite !bool_decide_eq_true.
Qed.

(** X3. [get_version_column_name] returns the first of its candidates
    that names a column of the table and is not generated, and [None]
    when no candidate does; the name it returns is one of the columns
    the fingerprint covers unless it belongs to the primary key. *)
Theorem get_version_column_name_first (table : Table) :
  let eligible n :=
    n ∈ map col_name (columns table) ∧ n ∉ get_computed_column_names table in
  match get_version_column_name table with
  | Some n =>
      eligible n ∧
      (∃ before after, candidates = before ++ n :: after ∧
         Forall (λ m, ¬ eligible m) before) ∧
      ∀ pk, n ∉ pk → n ∈ get_updatable_column_names table pk
  | None => Forall (λ m, ¬ eligible m) candidates
  end.
Proof.
  intros eligible. unfold get_version_column_name.
  set (f := λ name : string, _ && _).
  assert (Hf : ∀ n, f n = true ↔ eligible n).
  { intros n. unfold f, eligible. by rewrite andb_true_iff, !bool_decide_eq_true. }
  destruct (List.find f candidates) as [n|] eqn:E.
  - apply find_first in E as (l1 & l2 & Hl & Hn & Hl1).
    apply Hf in Hn. split; [done|]. split.
    + exists l1, l2. split; [done|]. eapply Forall_impl; [exact Hl1|].
      intros m Hm Hel. apply Hf in Hel. congruence.
    + intros pk Hpk. apply elem_of_updatable. destruct Hn. done.
  - apply Forall_forall. intros m Hm%list_elem_of_In Hel.
    apply Hf in Hel. eapply find_none in E; [|done]. congruence.
Qed.

(** ** Choosing the tables *)

#[global] Instance str_le_total : Total str_le.
Proof. intros a b. apply String.leb_total. Qed.

#[global] Instance str_le_trans : Transitive str_le.
Proof. intros a b c. apply string_leb_trans. Qed.

(** X4. The common tables are exactly the names both schemas have, in
    ascending order and without repetition, whichever of the two schemas
    comes first. *)
Theorem get_common_table_names_sorted (local_meta prod_meta : gmap string Table) :
  let common := get_common_table_names local_meta prod_meta in
  (∀ t, t ∈ common ↔ is_Some (local_meta !! t) ∧ is_Some (prod_meta !! t)) ∧
  NoDup common ∧
  StronglySorted str_le common ∧
  common = get_common_table_names prod_meta local_meta.
Proof.
  unfold get_common_table_names. split; [|split; [|split]].
  - intros t. rewrite merge_sort_Permutation, elem_of_elements, elem_of_intersection.
    by rewrite !elem_of_dom.
  - rewrite merge_sort_Permutation. apply NoDup_elements.
  - apply StronglySorted_merge_sort; apply _.
  - by rewrite (comm_L (∩) (dom local_meta)).
Qed.

Lemma elem_of_name_set t names :
  t ∈ name_set names ↔ ∃ n, n ∈ names ∧ strip n ≠ "" ∧ t = strip n.
Proof.
  unfold name_set. rewrite list_elem_of_In, filter_In, <- list_elem_of_In.
  rewrite list_elem_of_fmap, negb_true_iff, String.eqb_neq. split.
  - intros [(n & -> & Hn) Hne]. eauto.
  - intros (n & Hn & Hne & ->). eauto.
Qed.

Lemma filter_sublist {A} (f : A → bool) (l : list A) : sublist (List.filter f l) l.
Proof.
  induction l as [|x l IH]; simpl; [done|]. destruct (f x); by constructor.
Qed.

Lemma elem_of_filter_bool {A} (f : A → bool) (l : list A) x :
  x ∈ List.filter f l ↔ x ∈ l ∧ f x = true.
Proof. by rewrite !list_elem_of_In, filter_In. Qed.

Lemma elem_of_filter_tables tables include exclude t :
  t ∈ filter_tables tables include exclude ↔
    t ∈ tables ∧
    (default [] include = [] ∨ t ∈ name_set (default [] include)) ∧
    t ∉ name_set (default [] exclude).
Proof.
  assert (Hnone : t ∉ name_set []) by apply not_elem_of_nil.
  assert (Hin :
    t ∈ (match include with
         | None | Some [] => tables
         | Some incl => List.filter (λ t, bool_decide (t ∈ name_set incl)) tables
         end) ↔
    t ∈ tables ∧ (default [] include = [] ∨ t ∈ name_set (default [] include))).
  { destruct include as [[|n0 incl]|]; simpl.
    - split; [by auto|]. by intros [? _].
    - rewrite elem_of_filter_bool, bool_decide_eq_true. split.
      + intros [? ?]. split; [done|]. by right.
      + intros [? [?|?]]; done.
    - split; [by auto|]. by intros [? _]. }
  unfold filter_tables. destruct exclude as [[|n0 excl]|]; simpl.
  - rewrite Hin. split; [intros [? ?]|intros (? & ? & _)]; by repeat split.
  - rewrite elem_of_filter_bool, negb_true_iff, bool_decide_eq_false, Hin.
    split; [intros [[? ?] ?]|intros (? & ? & ?)]; by repeat split.
  - rewrite Hin. split; [intros [? ?]|intros (? & ? & _)]; by repeat split.
Qed.

(** X5. [filter_tables] keeps the tables in their order.  A table stays
    when the include list is absent or empty or holds its name, and the
    exclude list does not hold its name; the names of both lists are
    stripped and the blank ones dropped, the table names are taken as
    they are. *)
Theorem filter_tables_selects (tables : list string)
    (include exclude : option (list string)) :
  let listed names t := ∃ n, n ∈ names ∧ strip n ≠ "" ∧ t = strip n in
  sublist (filter_tables tables include exclude) tables ∧
  ∀ t, t ∈ filter_tables tables include exclude ↔
    t ∈ tables ∧
    (default [] include = [] ∨ listed (default [] include) t) ∧
    ¬ listed (default [] exclude) t.
Proof.
  intros listed. split.
  - unfold filter_tables.
    assert (sublist (match include with
                     | None | Some [] => tables
                     | Some incl => List.filter (λ t, bool_decide (t ∈ name_set incl)) tables
                     end) tables) as Hsel.
    { destruct include as [[|n0 incl]|]; [done| |done]. apply filter_sublist. }
    destruct exclude as [[|n0 excl]|]; [done| |done].
    etrans; [apply filter_sublist|done].
  - intros t. unfold listed. by rewrite elem_of_filter_tables, !elem_of_name_set.
Qed.

(** X6. An include list that is not empty but holds only blank names
    selects no table at all. *)
Theorem filter_tables_blank_include (tables include : list string)
    (exclude : option (list string)) :
  include ≠ [] → Forall (λ n, strip n = "") include →
  filter_tables tables (Some include) exclude = [].
Proof.
  intros Hne Hblank.
  apply elem_of_nil_inv. intros t Ht.
  apply elem_of_filter_tables in Ht as (_ & [Hnil|Hin] & _); [done|].
  apply elem_of_name_set in Hin as (n & Hn & Hs & _).
  rewrite Forall_forall in Hblank. by apply Hs, Hblank.
Qed.

(** X7. When [max_workers] is not given, the number of workers is
    positive: the positive integer of [SYNC_MAX_WORKERS] when there is
    one, and otherwise between 2 and 8 whatever [os.cpu_count()]
    reports. *)
Theorem resolve_max_workers_default :
  let n := resolve_max_workers None in
  0 < n ∧
  match SYNC_MAX_WORKERS with
  | Some (Z.pos p) => n = Z.pos p
  | _ => (2 ≤ n)%Z ∧ (n ≤ 8)%Z
  end.
Proof.
  unfold resolve_max_workers.
  set (derived := Z.min 8 (Z.max 2 _)).
  assert ((2 ≤ derived)%Z ∧ (derived ≤ 8)%Z) by (unfold derived; lia).
  destruct SYNC_MAX_WORKERS as [[|p|p]|]; simpl; try done; split; lia.
Qed.

(** ** A batch size that is not positive *)

#[global] Instance same_rows_preorder : PreOrder same_rows.
Proof.
  split; [done|]. intros w1 w2 w3 H1 H2 engine t. by rewrite H2, H1.
Qed.

Lemma same_data_same_rows w w' : same_data w w' → same_rows w w'.
Proof. intros [Hd _] engine t. by apply stored_rows_same_dbs. Qed.

Lemma logging_same_rows lvl fmt args : preserves same_rows (logging lvl fmt args).
Proof. by intros w r w' [= <- <-]. Qed.

Lemma write_text_same_rows f sig : preserves same_rows (write_text f sig).
Proof. by intros w r w' [= <- <-]. Qed.

Lemma execute_same_rows {A} engine s (sem : Database → Res (A * Database)) :
  (∀ db a db', sem db = Ok (a, db') → db_tables db' = db_tables db) →
  preserves same_rows (execute engine s sem).
Proof.
  intros Hsem w r w' [(_ & -> & _)|(db & ok & Hdb & _ & _ & _ & _ & Hc)]%execute_inv;
    [done|].
  destruct Hc as [(_ & Hd & _)|(_ & _ & a & db' & Hs & _ & Hd)].
  - intros e t. by apply stored_rows_same_dbs.
  - intros e t. unfold stored_rows. rewrite Hd.
    destruct (decide (engine = e)) as [<-|Hne].
    + rewrite lookup_insert_eq, Hdb. by rewrite (Hsem _ _ _ Hs).
    + by rewrite lookup_insert_ne.
Qed.

Lemma execute_read_same_rows {A} engine s (sem : Database → Res (A * Database)) :
  reads_only sem → preserves same_rows (execute engine s sem).
Proof.
  intros Hro. apply execute_same_rows. intros db a db' Hs. by rewrite (Hro _ _ _ Hs).
Qed.

Lemma set_fk_same_rows engine enabled :
  preserves same_rows (execute engine (SetForeignKeyChecks enabled) (sem_set_fk enabled)).
Proof. apply execute_same_rows. by intros db a db' [= _ <-]. Qed.

#[local] Hint Resolve logging_same_rows write_text_same_rows set_fk_same_rows : pres.

#[local] Hint Extern 2 (preserves same_rows (execute _ _ _)) =>
  (apply execute_read_same_rows; auto with pres) : pres.

#[local] Hint Extern 2 (preserves (emits no_mutation) (execute _ _ _)) =>
  (apply execute_emits; intros ?; reflexivity) : pres.

Lemma for_chunks_nonpositive {S} (I : relation World) `{!PreOrder I}
    xs size (body : S → list PKTuple → M S) acc :
  (size ≤ 0)%Z → preserves I (for_chunks xs size body acc).
Proof.
  intros Hsize. unfold for_chunks, chunked.
  destruct (decide (size = 0)); [apply preserves_raise; apply _|].
  rewrite decide_True by lia. apply preserves_ret; apply _.
Qed.

(** [pres] for a run whose batch size is not positive: no batch is
    ever handed to the body of a loop. *)
Ltac pres_nonpositive H :=
  repeat first
    [ apply for_chunks_nonpositive; [apply _|exact H]
    | pres_step ].

Lemma sync_table_nonpositive le pe lt pt opts :
  (batch_size opts ≤ 0)%Z →
  preserves (both same_rows (emits no_mutation)) (sync_table le pe lt pt opts).
Proof. intros H. apply preserves_both; pres_nonpositive H. Qed.

Lemma sync_mysql_nonpositive lu pu incl excl bs dry kfk nii a5432 mw cd :
  (bs ≤ 0)%Z →
  preserves (both same_rows (emits no_mutation))
    (sync_mysql lu pu incl excl bs dry kfk nii a5432 mw cd).
Proof. intros H. apply preserves_both; pres_nonpositive H. Qed.

(** X8. With a batch size that is zero or negative nothing is applied:
    [sync_table], and [sync_mysql] as a whole, send no INSERT, upsert or
    DELETE whatever the plan holds, and every table of every server
    keeps its rows. *)
Theorem nonpositive_batch_size_applies_nothing
    (local_url prod_url : string) (local_table prod_table : Table)
    (options : SyncOptions) (include exclude : option (list string))
    (dry_run keep_fk_checks no_insert_ignore allow_5432 : bool)
    (max_workers : option Z) (change_detector : bool) (w : World) :
  (batch_size options ≤ 0)%Z →
  let w1 := (sync_table local_url prod_url local_table prod_table options w).2 in
  let w2 := (sync_mysql local_url prod_url include exclude (batch_size options)
               dry_run keep_fk_checks no_insert_ignore allow_5432 max_workers
               change_detector w).2 in
  ((∀ engine t, stored_rows w1 engine t = stored_rows w engine t) ∧
   ∃ evs, trace w1 = trace w ++ evs ∧ Forall (λ e, is_mutation (ev_stmt e) = false) evs) ∧
  ((∀ engine t, stored_rows w2 engine t = stored_rows w engine t) ∧
   ∃ evs, trace w2 = trace w ++ evs ∧ Forall (λ e, is_mutation (ev_stmt e) = false) evs).
Proof.
  intros Hsize. split.
  - destruct (sync_table _ _ _ _ _ w) as [r w1] eqn:E.
    by apply sync_table_nonpositive in E.
  - destruct (sync_mysql _ _ _ _ _ _ _ _ _ _ _ w) as [r w2] eqn:E.
    by apply sync_mysql_nonpositive in E.
Qed.

(** ** Where the writes go *)

Lemma logging_any_unchanged_at engine lvl fmt args :
  preserves (unchanged_at engine) (logging lvl fmt args).
Proof. by intros w r w' [= <- <-]. Qed.

Lemma write_text_unchanged_at engine f sig :
  preserves (unchanged_at engine) (write_text f sig).
Proof. by intros w r w' [= <- <-]. Qed.

#[local] Hint Resolve write_text_unchanged_at : pres.

#[local] Hint Extern 2 (preserves (emits (targets _)) (execute _ _ _)) =>
  (apply execute_emits; intros ? ?; first [reflexivity | discriminate]) : pres.

Lemma sync_table_targets le pe lt pt opts url :
  url ≠ pe →
  preserves (both (unchanged_at url) (emits (targets pe))) (sync_table le pe lt pt opts).
Proof. intros Hne. apply preserves_both; pres. Qed.

Lemma sync_mysql_targets lu pu incl excl bs dry kfk nii a5432 mw cd url :
  url ≠ pu →
  preserves (both (unchanged_at url) (emits (targets pu)))
    (sync_mysql lu pu incl excl bs dry kfk nii a5432 mw cd).
Proof. intros Hne. apply preserves_both; pres. Qed.

(** X9. A sync writes to the production side only: every INSERT,
    upsert, DELETE and SET FOREIGN_KEY_CHECKS that [sync_table] or
    [sync_mysql] sends goes to the production engine, and the database
    behind any other URL, the local one among them, is left as it was,
    however the run ends. *)
Theorem sync_writes_only_to_prod
    (local_url prod_url url : string) (local_table prod_table : Table)
    (options : SyncOptions) (include exclude : option (list string)) (batch_size : Z)
    (dry_run keep_fk_checks no_insert_ignore allow_5432 : bool)
    (max_workers : option Z) (change_detector : bool) (w : World) :
  url ≠ prod_url →
  let w1 := (sync_table local_url prod_url local_table prod_table options w).2 in
  let w2 := (sync_mysql local_url prod_url include exclude batch_size
               dry_run keep_fk_checks no_insert_ignore allow_5432 max_workers
               change_detector w).2 in
  (dbs w1 !! url = dbs w !! url ∧
   ∃ evs, trace w1 = trace w ++ evs ∧
     Forall (λ e, is_mutation (ev_stmt e) || is_fk_toggle (ev_stmt e) = true →
                  ev_url e = prod_url) evs) ∧
  (dbs w2 !! url = dbs w !! url ∧
   ∃ evs, trace w2 = trace w ++ evs ∧
     Forall (λ e, is_mutation (ev_stmt e) || is_fk_toggle (ev_stmt e) = true →
                  ev_url e = prod_url) evs).
Proof.
  intros Hne. split.
  - destruct (sync_table _ _ _ _ _ w) as [r w1] eqn:E.
    by eapply sync_table_targets in E.
  - destruct (sync_mysql _ _ _ _ _ _ _ _ _ _ _ w) as [r w2] eqn:E.
    by eapply sync_mysql_targets in E.
Qed.

(** ** The exceptions a computation lets out *)

Lemma raises_impl {A} (P Q : exn → Prop) (m : M A) :
  raises P m → (∀ e, P e → Q e) → raises Q m.
Proof. intros Hm HPQ w e w' Hr. eapply HPQ, Hm, Hr. Qed.

Lemma raises_ret {A} P (a : A) : raises P (mret a).
Proof. by intros w e w' [=]. Qed.

Lemma raises_raise {A} (P : exn → Prop) e : P e → raises P (@raise A e).
Proof. by intros He w e' w' [= <- <-]. Qed.

Lemma raises_bind {A B} P (m : M A) (f : A → M B) :
  raises P m → (∀ a, raises P (f a)) → raises P (m ≫= f).
Proof.
  intros Hm Hf w e w' [(a & w1 & H1 & H2)|(e' & H1 & [= ->])]%bind_inv.
  - by eapply Hf.
  - by eapply Hm.
Qed.

(** [except Exception] lets out what the handler raises and what it
    does not catch. *)
Lemma raises_try_except {A} (P Q : exn → Prop) (body : M A) handler :
  raises Q body → (∀ e, Q e → is_Exception e = false → P e) →
  (∀ e, raises P (handler e)) → raises P (try_except body handler).
Proof.
  intros Hb Hq Hh w e w'. unfold try_except.
  destruct (body w) as [[a|e0] w1] eqn:E; [done|].
  destruct (is_Exception e0) eqn:Ee.
  - apply Hh.
  - intros [= <- <-]. apply Hq; [|done]. by eapply Hb.
Qed.

Lemma raises_try_finally {A} P (body : M A) fin :
  raises P body → raises P fin → raises P (try_finally body fin).
Proof.
  intros Hb Hf w e w'. unfold try_finally.
  destruct (body w) as [r1 w1] eqn:E1. destruct (fin w1) as [[[]|e2] w2] eqn:E2.
  - intros [= -> <-]. by eapply Hb.
  - intros [= <- <-]. by eapply Hf.
Qed.

Lemma raises_when P b m : raises P m → raises P (when b m).
Proof. destruct b; simpl; [done|]. intros _. apply raises_ret. Qed.

Lemma raises_for_loop {A S} P (xs : list A) (body : S → A → M S) acc :
  (∀ s x, raises P (body s x)) → raises P (for_loop xs body acc).
Proof.
  intros Hb. revert acc. induction xs as [|x xs IH]; intros acc; simpl.
  - apply raises_ret.
  - apply raises_bind; [apply Hb|]. intros a. apply IH.
Qed.

Lemma raises_for_chunks {S} (P : exn → Prop) xs size
    (body : S → list PKTuple → M S) acc :
  (∀ msg, P (ValueError msg)) → (∀ s batch, raises P (body s batch)) →
  raises P (for_chunks xs size body acc).
Proof.
  intros HP Hb. unfold for_chunks. destruct (chunked xs size) eqn:E.
  - by apply raises_for_loop.
  - unfold chunked in E. destruct (decide (size = 0)); [|by destruct (decide (size < 0))].
    injection E as <-. by apply raises_raise.
Qed.

Lemma raises_logging P lvl fmt args : raises P (logging lvl fmt args).
Proof. by intros w e w' [=]. Qed.

Lemma raises_read_state P f : raises P (read_state f).
Proof. by intros w e w' [=]. Qed.

Lemma raises_write_text P f sig : raises P (write_text f sig).
Proof. by intros w e w' [=]. Qed.

Lemma raises_connect (P : exn → Prop) engine :
  P OperationalError → raises P (connect engine).
Proof.
  intros HP w e w'. unfold connect. destruct (dbs w !! engine); [done|].
  by intros [= <- <-].
Qed.

Lemma raises_table_c (P : exn → Prop) table names :
  (∀ n, P (KeyError n)) → raises P (table_c table names).
Proof.
  intros HP w e w'. unfold table_c. destruct (List.find _ names); [|done].
  by intros [= <- <-].
Qed.

Lemma raises_execute {A} (P : exn → Prop) engine s (sem : Database → Res (A * Database)) :
  P OperationalError → (∀ db e, sem db = Raise e → P e) →
  raises P (execute engine s sem).
Proof.
  intros HP Hsem w e w' [(_ & _ & [= ->])|(db & ok & _ & _ & _ & _ & _ & Hc)]%execute_inv;
    [done|].
  destruct Hc as [(_ & _ & [(_ & [= ->])|(_ & e' & Hs & [= ->])])|(_ & _ & a & db' & _ & [=] & _)].
  - done.
  - by eapply Hsem.
Qed.

(** No statement raises [SystemExit]. *)
Lemma table_data_ordinary db t e : table_data db t = Raise e → ordinary e.
Proof. unfold table_data. destruct (db_tables db !! t); by intros [= <-]. Qed.

Lemma insert_all_ordinary pk ignore payload rows e :
  insert_all pk ignore payload rows = Raise e → ordinary e.
Proof.
  revert rows. induction payload as [|p payload IH]; intros rows; simpl; [done|].
  destruct (conflicts pk p rows); [|apply IH].
  destruct ignore; [apply IH|]. by intros [= <-].
Qed.

Lemma run_content_queries_ordinary db qs e :
  run_content_queries db qs = Raise e → ordinary e.
Proof.
  induction qs as [|[t cols] qs IH]; simpl; [done|].
  destruct (table_data db t) as [td|e1] eqn:Etd.
  - destruct (run_content_queries db qs); [done|]. intros [= <-]. by apply IH.
  - intros [= <-]. by eapply table_data_ordinary.
Qed.

Create HintDb sems discriminated.

#[local] Hint Unfold sem_select_pks sem_select_rows sem_select_hashes sem_insert
  sem_upsert sem_delete sem_set_fk sem_show_master_status sem_content_queries
  sem_content_bytes sem_quick_fingerprint : sems.

Ltac sem_ordinary :=
  intros ? ?; autounfold with sems;
  try done;
  repeat match goal with
    | |- context [table_data ?db ?t] =>
        let E := fresh "E" in
        destruct (table_data db t) eqn:E;
          [|intros [= <-]; by eapply table_data_ordinary]
    | |- context [insert_all ?pk ?ig ?p ?r] =>
        let E := fresh "E" in
        destruct (insert_all pk ig p r) eqn:E;
          [|intros [= <-]; by eapply insert_all_ordinary]
    | |- context [run_content_queries ?db ?q] =>
        let E := fresh "E" in
        destruct (run_content_queries db q) eqn:E;
          [|intros [= <-]; by eapply run_content_queries_ordinary]
    | |- context [master_status ?db] => destruct (master_status db)
    end;
  try done; by intros [= <-].

Lemma execute_ordinary {A} engine s (sem : Database → Res (A * Database)) :
  (∀ db e, sem db = Raise e → ordinary e) → raises ordinary (execute engine s sem).
Proof. intros Hsem. by apply raises_execute. Qed.

Create HintDb rais discriminated.

#[local] Hint Resolve raises_logging raises_read_state raises_write_text : rais.

#[local] Hint Extern 2 (raises ordinary (execute _ _ _)) =>
  (apply execute_ordinary; sem_ordinary) : rais.

#[local] Hint Extern 2 (raises ordinary (connect _)) =>
  (by apply raises_connect) : rais.

#[local] Hint Extern 2 (raises ordinary (table_c _ _)) =>
  (by apply raises_table_c) : rais.

(** One step through the structure of a computation, for the
    exceptions [except Exception] catches. *)
Ltac rais_step :=
  lazymatch goal with
  | |- raises _ (mret _) => apply raises_ret
  | |- raises ordinary (raise _) => by apply raises_raise
  | |- raises _ (_ ≫= _) => apply raises_bind; [|intros ?]
  | |- raises ordinary (try_except _ _) =>
      apply (raises_try_except ordinary ordinary); [|congruence|intros ?]
  | |- raises _ (try_finally _ _) => apply raises_try_finally
  | |- raises _ (when _ _) => apply raises_when
  | |- raises ordinary (for_chunks _ _ _ _) =>
      apply raises_for_chunks; [done|intros ? ?]
  | |- raises _ (for_loop _ _ _) => apply raises_for_loop; intros ? ?
  | |- raises ?P (if ?b then ?m1 else ?m2) =>
      let b' := eval cbn in b in
      lazymatch b' with
      | true => change (raises P m1)
      | false => change (raises P m2)
      | _ => destruct b
      end
  | |- raises _ (match ?x with _ => _ end) => destruct x
  | |- raises _ _ => first [solve [auto with rais] | progress autounfold with model]
  end.

Ltac rais := repeat rais_step.

Lemma sync_table_ordinary le pe lt pt opts :
  raises ordinary (sync_table le pe lt pt opts).
Proof. rais. Qed.

Lemma get_quick_signature_ordinary url st :
  raises ordinary (get_quick_signature url st).
Proof. rais. Qed.

Lemma has_database_changes_ordinary url sf st :
  raises ordinary (has_database_changes url sf st).
Proof. rais. Qed.

Lemma write_current_signature_ordinary url sf :
  raises ordinary (write_current_signature url sf).
Proof. rais. Qed.
Lemma resolve_max_workers_positive : 0 < resolve_max_workers None.
Proof.
  unfold resolve_max_workers.
  destruct SYNC_MAX_WORKERS as [n|]; [destruct (decide (n <= 0))|]; lia.
Qed.

Lemma sync_task_returns le pe lm pm opts t :
  raises (λ _, False) (sync_task le pe lm pm opts t).
Proof.
  unfold sync_task. destruct (lm !! t); [|apply raises_ret].
  destruct (pm !! t); [|apply raises_ret].
  apply (raises_try_except _ ordinary).
  - apply sync_table_ordinary.
  - unfold ordinary. congruence.
  - intros e. apply raises_logging.
Qed.

Lemma clean_ret {A} P (a : A) : fails_clean P (mret a).
Proof. by intros w e w' [=]. Qed.

Lemma clean_raise {A} (P : exn → Prop) e : P e → fails_clean P (@raise A e).
Proof. by intros He w e' w' [= <- <-]. Qed.

Lemma clean_bind {A B} P (m : M A) (f : A → M B) :
  preserves same_data m → raises P m → (∀ a, fails_clean P (f a)) →
  fails_clean P (m ≫= f).
Proof.
  intros Hd Hm Hf w e w' [(a & w1 & H1 & H2)|(e' & H1 & [= ->])]%bind_inv.
  - destruct (Hf _ _ _ _ H2) as [Hs HP]. split; [|done]. etrans; [by eapply Hd|done].
  - split; [by eapply Hd|by eapply Hm].
Qed.

Lemma clean_returns {A} P (m : M A) : raises (λ _, False) m → fails_clean P m.
Proof. intros Hm w e w' Hr. by destruct (Hm _ _ _ Hr). Qed.

Lemma fails_clean_raises {A} P (m : M A) : fails_clean P m → raises P m.
Proof. intros Hm w e w' Hr. by destruct (Hm _ _ _ Hr). Qed.

Lemma load_metadata_raises url :
  raises (λ e, e = OperationalError) (load_metadata url).
Proof. apply raises_execute; [done|]. by intros db e. Qed.

(** The detector of [sync_mysql] never stops the run with an
    exception. *)
Lemma detector_returns lu dry (cd : bool) :
  raises (λ _, False)
    (if cd then
       try_except
         (if negb dry then
            changed ← has_database_changes lu None None;
            if negb changed then
              logging INFO "No local DB changes detected; skipping full sync." [];;
              mret true
            else mret false
          else mret false)
         (λ exc, logging DEBUG "Fast change detection skipped due to: %s" [AExn exc];;
                 mret false)
     else mret false).
Proof.
  destruct cd; [|apply raises_ret].
  apply (raises_try_except _ ordinary).
  - destruct dry; simpl; [apply raises_ret|].
    apply raises_bind; [apply has_database_changes_ordinary|].
    intros []; simpl; [apply raises_ret|].
    apply raises_bind; [apply raises_logging|]. intros _. apply raises_ret.
  - unfold ordinary. congruence.
  - intros e. apply raises_bind; [apply raises_logging|]. intros _. apply raises_ret.
Qed.

Lemma sync_mysql_fails_clean lu pu incl excl bs dry kfk nii a5432 mw cd :
  fails_clean (sync_mysql_exit lu pu a5432 mw)
    (sync_mysql lu pu incl excl bs dry kfk nii a5432 mw cd).
Proof.
  unfold sync_mysql.
  destruct (negb (is_mysql_url lu) || negb (is_mysql_url pu)) eqn:Eg1.
  { apply clean_bind; [pres|apply raises_logging|intros _].
    apply clean_raise. simpl.
    apply orb_true_iff in Eg1 as [H%negb_true_iff|H%negb_true_iff]; auto. }
  destruct (bool_decide (get_port pu = Some 5432) && negb a5432) eqn:Eg2.
  { apply clean_bind; [pres|apply raises_logging|intros _].
    apply clean_raise. simpl.
    apply andb_true_iff in Eg2 as [H1%bool_decide_eq_true H2%negb_true_iff]. auto. }
  apply clean_bind; [pres| |intros skip].
  { eapply raises_impl; [apply detector_returns|done]. }
  destruct skip; [apply clean_ret|].
  apply clean_bind; [pres|apply raises_logging|intros _].
  apply clean_bind; [pres|apply raises_logging|intros _].
  apply clean_bind; [pres| |intros local_meta].
  { eapply raises_impl; [apply load_metadata_raises|]. by intros e ->. }
  apply clean_bind; [pres| |intros prod_meta].
  { eapply raises_impl; [apply load_metadata_raises|]. by intros e ->. }
  destruct (is_empty (get_common_table_names local_meta prod_meta)).
  { apply clean_bind; [pres|apply raises_logging|intros _]. by apply clean_raise. }
  destruct (is_empty (filter_tables _ incl excl)).
  { apply clean_bind; [pres|apply raises_logging|intros _]. by apply clean_raise. }
  apply clean_bind; [pres|apply raises_logging|intros _].
  apply clean_bind; [pres|apply raises_logging|intros _].
  destruct (decide (resolve_max_workers mw <= 0)) as [Hw|Hw].
  { apply clean_raise. simpl. split; [done|].
    destruct mw as [n|]; [by exists n|].
    pose proof resolve_max_workers_positive. lia. }
  apply clean_returns.
  apply raises_bind.
  { apply raises_for_loop. intros _ t. apply sync_task_returns. }
  intros _. apply raises_bind; [apply raises_logging|]. intros _.
  apply (raises_try_except _ ordinary).
  - destruct dry; simpl; [apply raises_ret|]. apply write_current_signature_ordinary.
  - unfold ordinary. congruence.
  - intros e. apply raises_logging.
Qed.
(** X10. [sync_mysql] raises only before it has written anything: when
    it raises, the databases and the state files are as before the
    call, and the exception is [SystemExit(2)] of a refused URL,
    [SystemExit(1)] of an empty selection, the error of a failed schema
    reflection, or the refusal of a pool size that was given and is not
    positive.  An error while a table is synchronised or a signature is
    taken never leaves the function. *)
Theorem sync_mysql_raises_before_writing
    (local_url prod_url : string) (include exclude : option (list string))
    (batch_size : Z) (dry_run keep_fk_checks no_insert_ignore allow_mysql_port_5432 : bool)
    (max_workers : option Z) (change_detector : bool) (w w' : World) (e : exn) :
  sync_mysql local_url prod_url include exclude batch_size dry_run keep_fk_checks
    no_insert_ignore allow_mysql_port_5432 max_workers change_detector w
    = (Raise e, w') →
  dbs w' = dbs w ∧ files w' = files w ∧
  match e with
  | SystemExit 2 =>
      is_mysql_url local_url = false ∨ is_mysql_url prod_url = false ∨
      (get_port prod_url = Some 5432 ∧ allow_mysql_port_5432 = false)
  | SystemExit 1 => True
  | OperationalError => True
  | ValueError msg =>
      msg = "max_workers must be greater than 0" ∧
      ∃ n, max_workers = Some n ∧ (n ≤ 0)%Z
  | _ => False
  end.
Proof.
  intros Hrun. apply sync_mysql_fails_clean in Hrun as [[Hd Hf] He]. done.
Qed.

(** ** The rounds of the example loops *)

#[local] Hint Unfold auto_sync_round exit_without_urls : model.

Lemma sync_side_round_targets name s t url :
  url ≠ t →
  preserves (both (unchanged_at url) (emits (targets t))) (sync_side_round name s t).
Proof. intros Hne. apply preserves_both; pres. Qed.

Lemma auto_sync_round_targets dev prod url :
  url ≠ dev →
  preserves (both (unchanged_at url) (emits (targets dev))) (auto_sync_round dev prod).
Proof. intros Hne. apply preserves_both; pres. Qed.

(** What [except Exception] leaves of the exceptions of [sync_mysql]
    when port 5432 is allowed and the pool size is not given. *)
Lemma sync_mysql_exit_uncaught lu pu e :
  ordinary e ∨ sync_mysql_exit lu pu true None e → is_Exception e = false →
  e = SystemExit 1 ∨
  e = SystemExit 2 ∧ (is_mysql_url lu = false ∨ is_mysql_url pu = false).
Proof.
  intros [Ho|He] Hex; [unfold ordinary in Ho; congruence|].
  destruct e as [msg|key| | | |code]; try done.
  simpl in He. destruct code as [|[[]|[]|]|]; try done.
  - right. split; [done|]. destruct He as [?|[?|[_ ?]]]; auto. done.
  - by left.
Qed.

Lemma sync_side_round_raises name s t :
  raises (λ e, e = SystemExit 1 ∨
               e = SystemExit 2 ∧ (is_mysql_url s = false ∨ is_mysql_url t = false))
    (sync_side_round name s t).
Proof.
  unfold sync_side_round.
  apply (raises_try_except _ (λ e, ordinary e ∨ sync_mysql_exit s t true None e)).
  - apply raises_bind.
    { eapply raises_impl; [apply get_quick_signature_ordinary|by left]. }
    intros current_sig. apply raises_bind.
    { eapply raises_impl; [|by left]. unfold load_last_signature. rais. }
    intros last_sig. apply raises_bind; [apply raises_logging|]. intros _.
    apply raises_bind.
    { eapply raises_impl; [apply has_database_changes_ordinary|by left]. }
    intros []; [|apply raises_ret].
    unfold locked_sync.
    apply raises_bind; [apply raises_logging|]. intros _.
    apply raises_bind.
    { eapply raises_impl; [apply fails_clean_raises, sync_mysql_fails_clean|by right]. }
    intros _. apply raises_bind.
    { eapply raises_impl; [apply get_quick_signature_ordinary|by left]. }
    intros new_sig.
    apply raises_bind; [eapply raises_impl; [|by left]; rais|]. intros _.
    apply raises_bind; [eapply raises_impl; [|by left]; rais|]. intros _.
    apply raises_logging.
  - apply sync_mysql_exit_uncaught.
  - intros e. apply raises_logging.
Qed.

Lemma auto_sync_round_raises dev prod :
  raises (λ e, e = SystemExit 1 ∨
               e = SystemExit 2 ∧ (is_mysql_url prod = false ∨ is_mysql_url dev = false))
    (auto_sync_round dev prod).
Proof.
  unfold auto_sync_round.
  apply (raises_try_except _ (λ e, ordinary e ∨ sync_mysql_exit prod dev true None e)).
  - eapply raises_impl; [apply fails_clean_raises, sync_mysql_fails_clean|by right].
  - apply sync_mysql_exit_uncaught.
  - intros e. apply raises_logging.
Qed.

Lemma sync_side_raises interval rounds name s t :
  raises (λ e, e = SystemExit 1 ∨
               e = SystemExit 2 ∧ (is_mysql_url s = false ∨ is_mysql_url t = false))
    (sync_side interval rounds name s t).
Proof.
  unfold sync_side, print.
  apply raises_bind; [apply raises_logging|]. intros _.
  apply raises_bind; [apply raises_logging|]. intros _.
  apply raises_for_loop. intros _ _. apply sync_side_round_raises.
Qed.

Lemma sync_side_targets interval rounds name s t url :
  url ≠ t →
  preserves (both (unchanged_at url) (emits (targets t)))
    (sync_side interval rounds name s t).
Proof.
  intros Hne. unfold sync_side, print.
  apply preserves_bind; [apply _|apply preserves_both; pres|intros _].
  apply preserves_bind; [apply _|apply preserves_both; pres|intros _].
  apply preserves_for_loop; [apply _|]. intros _ _ _. by apply sync_side_round_targets.
Qed.

(** X11. However many rounds the bidirectional loop makes, one side
    writes to its target only: every INSERT, upsert, DELETE and
    SET FOREIGN_KEY_CHECKS goes to the target URL and the database
    behind any other URL, the source among them, stays as it was.  The
    loop ends with an exception only when [sync_mysql] exits: with code
    2 for a URL that is not MySQL, with code 1 for an empty selection of
    tables; every other error is printed and the loop goes on. *)
Theorem sync_side_contained (INTERVAL_SECS : Z) (rounds : nat)
    (name source_url target_url url : string) (w : World) :
  url ≠ target_url →
  let run := sync_side INTERVAL_SECS rounds name source_url target_url w in
  dbs run.2 !! url = dbs w !! url ∧
  (∃ evs, trace run.2 = trace w ++ evs ∧
     Forall (λ e, is_mutation (ev_stmt e) || is_fk_toggle (ev_stmt e) = true →
                  ev_url e = target_url) evs) ∧
  match run.1 with
  | Ok _ => True
  | Raise e =>
      e = SystemExit 1 ∨
      e = SystemExit 2 ∧
        (is_mysql_url source_url = false ∨ is_mysql_url target_url = false)
  end.
Proof.
  intros Hne run. destruct run as [r w'] eqn:E. unfold run in E. simpl.
  pose proof (sync_side_targets _ _ _ _ _ _ Hne _ _ _ E) as [Hu Ht].
  split; [done|]. split; [done|].
  destruct r as [[]|e]; [done|]. by apply sync_side_raises in E.
Qed.

Lemma unset_false v : unset v = false → ∃ a s, v = Some (String a s).
Proof. destruct v as [[|a s]|]; try done. eauto. Qed.

Lemma auto_sync_run_targets interval rounds url :
  Some url ≠ DEV_DB_URL →
  preserves (both (unchanged_at url) (emits (targets (default "" DEV_DB_URL))))
    (auto_sync_run interval rounds).
Proof.
  intros Hne. unfold auto_sync_run, print.
  apply preserves_bind; [apply _|apply preserves_both; pres|intros _].
  apply preserves_bind; [apply _|apply preserves_both; pres|intros _].
  destruct (unset DEV_DB_URL || unset PROD_DB_URL) eqn:Eu.
  - apply preserves_both; pres.
  - apply preserves_for_loop; [apply _|]. intros _ _ _.
    apply auto_sync_round_targets.
    apply orb_false_elim in Eu as [(a & dev & Hd)%unset_false _].
    rewrite Hd in *. simpl. congruence.
Qed.

(** X12. [run] of auto_sync.py synchronises from the production URL to
    the development URL, however many rounds it makes: every write goes
    to the URL in [DEV_DB_URL], and the database behind any other URL,
    the production one among them, stays as it was.  When one of the two
    variables is unset or empty it exits with code 1 before any
    statement is sent. *)
Theorem auto_sync_run_direction (INTERVAL_SECS : Z) (rounds : nat)
    (url : string) (w : World) :
  Some url ≠ DEV_DB_URL →
  let run := auto_sync_run INTERVAL_SECS rounds w in
  dbs run.2 !! url = dbs w !! url ∧
  (∃ evs, trace run.2 = trace w ++ evs ∧
     Forall (λ e, is_mutation (ev_stmt e) || is_fk_toggle (ev_stmt e) = true →
                  ev_url e = default "" DEV_DB_URL) evs) ∧
  (unset DEV_DB_URL || unset PROD_DB_URL = true →
   run.1 = Raise (SystemExit 1) ∧ trace run.2 = trace w).
Proof.
  intros Hne run. destruct run as [r w'] eqn:E. unfold run in E. simpl.
  pose proof (auto_sync_run_targets _ _ _ Hne _ _ _ E) as [Hu Ht].
  split; [done|]. split; [done|].
  intros Eu. unfold auto_sync_run, print in E. rewrite Eu in E.
  by injection E as <- <-.
Qed.

Lemma run_default_sync_targets url :
  Some url ≠ PROD_DB_URL →
  preserves (both (unchanged_at url) (emits (targets (default "" PROD_DB_URL))))
    run_default_sync.
Proof.
  intros Hne. unfold run_default_sync.
  destruct (unset DEV_DB_URL || unset PROD_DB_URL) eqn:Eu.
  - apply preserves_both; pres.
  - apply sync_mysql_targets.
    apply orb_false_elim in Eu as [_ (a & prod & Hp)%unset_false].
    rewrite Hp in *. simpl. congruence.
Qed.

(** X13. [run_default_sync] synchronises from the development URL to
    the production URL: every write goes to the URL in [PROD_DB_URL],
    and the database behind any other URL stays as it was.  When one of
    the two variables is unset or empty it exits with code 1 before any
    statement is sent. *)
Theorem run_default_sync_direction (url : string) (w : World) :
  Some url ≠ PROD_DB_URL →
  let run := run_default_sync w in
  dbs run.2 !! url = dbs w !! url ∧
  (∃ evs, trace run.2 = trace w ++ evs ∧
     Forall (λ e, is_mutation (ev_stmt e) || is_fk_toggle (ev_stmt e) = true →
                  ev_url e = default "" PROD_DB_URL) evs) ∧
  (unset DEV_DB_URL || unset PROD_DB_URL = true →
   run.1 = Raise (SystemExit 1) ∧ trace run.2 = trace w).
Proof.
  intros Hne run. destruct run as [r w'] eqn:E. unfold run in E. simpl.
  pose proof (run_default_sync_targets _ Hne _ _ _ E) as [Hu Ht].
  split; [done|]. split; [done|].
  intros Eu. unfold run_default_sync in E. rewrite Eu in E.
  by injection E as <- <-.
Qed.

(** ** State files *)

Lemma lstrip_chars_head cs :
  lstrip_chars cs = [] ∨ ∃ c cs', lstrip_chars cs = c :: cs' ∧ is_space c = false.
Proof.
  induction cs as [|c cs IH]; simpl; [by left|].
  destruct (is_space c) eqn:E; [done|]. right. eauto.
Qed.

Lemma lstrip_chars_snoc cs c :
  is_space c = false → ∃ zs, lstrip_chars (cs ++ [c]) = zs ++ [c].
Proof.
  intros Hc. induction cs as [|a cs IH]; simpl.
  - rewrite Hc. by exists [].
  - destruct (is_space a); [done|]. by exists (a :: cs).
Qed.

Lemma lstrip_chars_idem cs : lstrip_chars (lstrip_chars cs) = lstrip_chars cs.
Proof.
  destruct (lstrip_chars_head cs) as [->|(c & cs' & -> & Hc)]; [done|].
  simpl. by rewrite Hc.
Qed.

(** Stripping twice is stripping once. *)
Lemma strip_idem s : strip (strip s) = strip s.
Proof.
  unfold strip. rewrite list_ascii_of_string_of_list_ascii. f_equal.
  set (A := lstrip_chars (list_ascii_of_string s)).
  assert (lstrip_chars (rev (lstrip_chars (rev A))) = rev (lstrip_chars (rev A))) as ->.
  { destruct (lstrip_chars_head (list_ascii_of_string s)) as [HA|(c & A' & HA & Hc)];
      fold A in HA; rewrite HA; [done|].
    simpl. destruct (lstrip_chars_snoc (rev A') c Hc) as (zs & ->).
    rewrite rev_app_distr. simpl. by rewrite Hc. }
  by rewrite rev_involutive, lstrip_chars_idem.
Qed.

(** A text that begins and ends with a character that is not white
    space is left as it is. *)
Lemma strip_framed s a mid t :
  list_ascii_of_string s = a :: mid ++ t →
  is_space a = false → t ≠ [] → Forall (λ c, is_space c = false) t →
  strip s = s.
Proof.
  intros Hs Ha Ht HF. unfold strip.
  rewrite <- (string_of_list_ascii_of_string s) at 2. rewrite Hs. f_equal.
  destruct t as [|b t _] using rev_ind; [done|].
  apply Forall_app in HF as [_ Hb]. rewrite Forall_singleton in Hb.
  set (X := a :: mid ++ t ++ [b]).
  assert (lstrip_chars X = X) as -> by (unfold X; simpl; by rewrite Ha).
  assert (rev X = b :: rev (a :: mid ++ t)) as HX.
  { unfold X. replace (a :: mid ++ t ++ [b]) with ((a :: mid ++ t) ++ [b])
      by (simpl; by rewrite <- app_assoc).
    by rewrite rev_app_distr. }
  assert (lstrip_chars (rev X) = rev X) as -> by (rewrite HX; simpl; by rewrite Hb).
  apply rev_involutive.
Qed.

Lemma pretty_N_char_not_space x : is_space (pretty_N_char x) = false.
Proof. unfold pretty_N_char. by repeat case_match. Qed.

Lemma pretty_N_go_chars x s :
  Forall (λ c, is_space c = false) (list_ascii_of_string s) →
  Forall (λ c, is_space c = false) (list_ascii_of_string (pretty_N_go x s)).
Proof.
  revert s. induction (N.lt_wf_0 x) as [x _ IH]; intros s Hs.
  assert (x = 0 ∨ 0 < x)%N as [->|Hx] by lia; [by rewrite pretty_N_go_0|].
  rewrite pretty_N_go_step by done. apply IH; [by apply N.div_lt|].
  simpl. constructor; [apply pretty_N_char_not_space|done].
Qed.

Lemma pretty_N_go_length x s :
  (String.length s ≤ String.length (pretty_N_go x s))%nat.
Proof.
  revert s. induction (N.lt_wf_0 x) as [x _ IH]; intros s.
  assert (x = 0 ∨ 0 < x)%N as [->|Hx] by lia; [by rewrite pretty_N_go_0|].
  rewrite pretty_N_go_step by done.
  etrans; [|apply IH; by apply N.div_lt]. simpl. lia.
Qed.

(** A number is printed with at least one character and without white
    space. *)
Lemma pretty_Z_chars (z : Z) :
  list_ascii_of_string (pretty z) ≠ [] ∧
  Forall (λ c, is_space c = false) (list_ascii_of_string (pretty z)).
Proof.
  assert (HN : ∀ p, list_ascii_of_string (pretty (Npos p)) ≠ [] ∧
            Forall (λ c, is_space c = false) (list_ascii_of_string (pretty (Npos p)))).
  { intros p. unfold pretty, pretty_N. rewrite decide_False by done. split.
    - rewrite pretty_N_go_step by lia.
      pose proof (pretty_N_go_length (N.pos p `div` 10)
                    (String (pretty_N_char (N.pos p `mod` 10)) "")) as Hlen.
      destruct (pretty_N_go _ _); simpl in *; [lia|done].
    - apply pretty_N_go_chars. constructor. }
  destruct z as [|p|p]; unfold pretty, pretty_Z.
  - split; [done|]. by repeat constructor.
  - apply HN.
  - destruct (HN p) as [Hne HF]. split; [done|]. simpl. by constructor.
Qed.

Lemma string_of_list_ascii_app l1 l2 :
  string_of_list_ascii (l1 ++ l2) = string_of_list_ascii l1 +:+ string_of_list_ascii l2.
Proof. induction l1 as [|c l1 IH]; simpl; [done|]. by rewrite IH. Qed.

(** What [get_binlog_signature] returns. *)
Lemma binlog_signature_cases engine w r w' :
  get_binlog_signature engine w = (r, w') →
  same_data w w' ∧
  (r = Raise OperationalError ∧ dbs w !! engine = None ∨
   r = Ok "" ∨
   ∃ file_name (position : Z),
     r = Ok ("binlog:" +:+ file_name +:+ ":" +:+ pretty position)).
Proof.
  intros Hrun.
  assert (Hp : preserves same_data (get_binlog_signature engine)) by pres.
  split; [by eapply Hp|].
  unfold get_binlog_signature in Hrun. rewrite bind_run in Hrun.
  unfold connect in Hrun at 1. destruct (dbs w !! engine) as [db|] eqn:Hdb.
  2:{ injection Hrun as <- <-. by left. }
  right. unfold try_except in Hrun. rewrite bind_run in Hrun.
  destruct (execute engine ShowMasterStatus sem_show_master_status w) as [[row|e] w1] eqn:E.
  - destruct row as [[file_name position]|]; injection Hrun as <- <-; eauto.
  - assert (ordinary e) as He.
    { revert E. apply raises_execute; [done|]. sem_ordinary. }
    rewrite He in Hrun. injection Hrun as <- <-. by left.
Qed.

Lemma strip_binlog file_name (position : Z) :
  let sig := "binlog:" +:+ file_name +:+ ":" +:+ pretty position in
  strip sig = sig.
Proof.
  intros sig. destruct (pretty_Z_chars position) as [Hne HF].
  apply (strip_framed sig "b"%char
           (list_ascii_of_string "inlog:" ++ list_ascii_of_string file_name ++ [":"%char])
           (list_ascii_of_string (pretty position))); try done.
  unfold sig. rewrite !list_ascii_app. simpl. by rewrite <- !app_assoc.
Qed.

Lemma strip_content d : strip ("content:" +:+ hexdigest d) = "content:" +:+ hexdigest d.
Proof.
  apply strip_id. rewrite list_ascii_app. apply Forall_app. split.
  - repeat constructor.
  - apply hexdigest_not_space.
Qed.

(** Every signature that [get_quick_signature] returns is empty or
    starts with the name of its strategy, and is a text that [strip]
    leaves alone. *)
Lemma get_quick_signature_cases url st w r w' :
  get_quick_signature url st w = (r, w') →
  same_data w w' ∧
  match r with
  | Ok sig =>
      strip sig = sig ∧
      (sig = "" ∧ (st = Some "content" ∨ st = Some "binlog") ∨
       (∃ file_name (position : Z),
          sig = "binlog:" +:+ file_name +:+ ":" +:+ pretty position) ∧
         st ≠ Some "content" ∨
       (∃ d, sig = "content:" +:+ hexdigest d) ∧ st ≠ Some "binlog")
  | Raise e =>
      st ≠ Some "content" ∧
      (e = OperationalError ∧ dbs w !! url = None ∨
       e = ValueError "can't get signature" ∧ st ≠ Some "binlog")
  end.
Proof.
  intros Hrun.
  assert (Hp : preserves same_data (get_quick_signature url st)) by pres.
  split; [by eapply Hp|].
  assert (Hcontent : ∀ w0 r0 w1, content_dynamic_signature url w0 = (r0, w1) →
            ∃ sig, r0 = Ok sig ∧ strip sig = sig ∧
              (sig = "" ∨ ∃ d, sig = "content:" +:+ hexdigest d)).
  { intros w0 r0 w1 Hc.
    destruct (content_signature_cases url w0) as (sig & w2 & Hc' & _ & Hcase).
    rewrite Hc in Hc'. injection Hc' as -> ->. exists sig. split; [done|].
    destruct Hcase as [->|(db & _ & ->)]; [by auto|].
    split; [apply strip_content_value|].
    unfold content_value. repeat case_match; eauto. }
  unfold get_quick_signature in Hrun.
  destruct (decide (st = Some "content")) as [->|Hnc].
  { apply Hcontent in Hrun as (sig & -> & Hs & [->|Hd]); (split; [done|]); [by auto|].
    right. right. done. }
  destruct (decide (st = Some "binlog")) as [->|Hnb].
  { apply binlog_signature_cases in Hrun as [_ [[-> Hdb]|[->|(f & p & ->)]]].
    - split; [done|]. by left.
    - split; [done|]. left. by auto.
    - split; [apply strip_binlog|]. right. left. split; [eauto|done]. }
  rewrite bind_run in Hrun.
  destruct (get_binlog_signature url w) as [r1 w1] eqn:E1.
  apply binlog_signature_cases in E1 as [_ [[-> Hdb]|[->|(f & p & ->)]]].
  - injection Hrun as <- <-. split; [done|]. by left.
  - simpl in Hrun. rewrite bind_run in Hrun.
    destruct (content_dynamic_signature url w1) as [r2 w2] eqn:E2.
    apply Hcontent in E2 as (sig & -> & Hs & [->|(d & ->)]).
    + injection Hrun as <- <-. split; [done|]. by right.
    + injection Hrun as <- <-. split; [done|]. right. right. split; [eauto|done].
  - injection Hrun as <- <-.
    split; [apply strip_binlog|]. right. left. split; [eauto|done].
Qed.
(** X14. A text of ASCII characters without a carriage return that is
    saved to a state file is read back stripped of the white space
    around it, and reading it back is stable: stripping twice is
    stripping once.  Saving to one state file leaves what is read from
    every other one.  The same holds for the state file of sync.py
    itself. *)
Theorem state_file_round_trip (sig f : string) (w : World) :
  plain_text sig = true →
  let w1 := (save_current_signature sig (Some f) w).2 in
  let w2 := (save_last_local_signature sig w).2 in
  load_last_signature (Some f) w1 = (Ok (strip sig), w1) ∧
  (∀ g, g ≠ f →
     (load_last_signature (Some g) w1).1 = (load_last_signature (Some g) w).1) ∧
  load_last_local_signature w2 = (Ok (strip sig), w2) ∧
  strip (strip sig) = strip sig.
Proof.
  intros _.
  assert (Hload : ∀ g w0, load_last_signature (Some g) w0 = (Ok (last_persisted w0 g), w0))
    by done.
  simpl. rewrite !Hload. unfold last_persisted, load_last_local_signature, read_state.
  simpl. rewrite !lookup_insert_eq. split; [done|]. split; [|split; [done|]].
  - intros g Hg. by rewrite lookup_insert_ne.
  - apply strip_idem.
Qed.

(** X15. A signature that [get_quick_signature] has returned, whatever
    the strategy, is read back from a state file exactly as it was
    saved. *)
Theorem signature_reads_back (database_url f sig : string)
    (signature_type : option string) (w w0 : World) :
  (get_quick_signature database_url signature_type w).1 = Ok sig →
  let w1 := (save_current_signature sig (Some f) w0).2 in
  load_last_signature (Some f) w1 = (Ok sig, w1).
Proof.
  intros Hsig. destruct (get_quick_signature _ _ w) as [r w'] eqn:E.
  apply get_quick_signature_cases in E as [_ Hr]. simpl in Hsig. subst r.
  destruct Hr as [Hstrip _].
  simpl. change (load_last_signature (Some f) ?w0) with (Ok (last_persisted w0 f), w0).
  unfold last_persisted. simpl. by rewrite lookup_insert_eq, Hstrip.
Qed.

(** X16. [get_quick_signature] changes neither a database nor a state
    file.  A signature it returns starts with the name of the strategy
    that produced it; it is empty only when a strategy was selected by
    name and failed.  It raises only when the server cannot be reached
    for the binlog strategy, or when no strategy was selected and both
    came back empty. *)
Theorem get_quick_signature_outcome (database_url : string)
    (signature_type : option string) (w : World) :
  let run := get_quick_signature database_url signature_type w in
  dbs run.2 = dbs w ∧ files run.2 = files w ∧
  match run.1 with
  | Ok sig =>
      sig = "" ∧ (signature_type = Some "content" ∨ signature_type = Some "binlog") ∨
      (∃ file_name (position : Z),
         sig = "binlog:" +:+ file_name +:+ ":" +:+ pretty position) ∧
        signature_type ≠ Some "content" ∨
      (∃ d, sig = "content:" +:+ hexdigest d) ∧ signature_type ≠ Some "binlog"
  | Raise e =>
      signature_type ≠ Some "content" ∧
      (e = OperationalError ∧ dbs w !! database_url = None ∨
       e = ValueError "can't get signature" ∧ signature_type ≠ Some "binlog")
  end.
Proof.
  intros run. destruct run as [r w'] eqn:E. unfold run in E.
  apply get_quick_signature_cases in E as [[Hd Hf] Hr]. simpl.
  split; [done|]. split; [done|]. destruct r as [sig|e]; [|done]. by destruct Hr.
Qed.

(** X17. [write_current_signature] never writes an empty signature.
    When it returns, the state file holds the signature just computed,
    which is not empty and is what the next [load_last_signature] reads;
    when the computation raises, the exception leaves the function and
    no state file is touched.  The databases are never changed. *)
Theorem write_current_signature_outcome (database_url : string)
    (state_file : option string) (w : World) :
  let f := default (get_state_file_for_database database_url) state_file in
  let run := write_current_signature database_url state_file w in
  dbs run.2 = dbs w ∧
  match run.1 with
  | Ok _ =>
      ∃ sig, (get_quick_signature database_url None w).1 = Ok sig ∧ sig ≠ "" ∧
        files run.2 = <[f := sig]> (files w) ∧
        last_persisted run.2 f = sig
  | Raise e =>
      (get_quick_signature database_url None w).1 = Raise e ∧ files run.2 = files w
  end.
Proof.
  intros f run. unfold run, write_current_signature. fold f. rewrite bind_run.
  destruct (get_quick_signature database_url None w) as [r w1] eqn:E.
  apply get_quick_signature_cases in E as [[Hd Hf] Hr].
  destruct r as [sig|e]; simpl; [|done].
  destruct Hr as [Hstrip Hcase].
  destruct (String.eqb_spec sig "") as [->|Hne]; simpl.
  { destruct Hcase as [[_ [?|?]]|[[(fn & p & ?) _]|[(d & ?) _]]]; done. }
  split; [done|]. exists sig. repeat split; [done| |].
  - by rewrite Hf.
  - unfold last_persisted. simpl. by rewrite lookup_insert_eq.
Qed.

(** ** What the content signature sees *)

Lemma execute_no_fault {A} engine s (sem : Database → Res (A * Database)) w db :
  dbs w !! engine = Some db → faults w = [] →
  match sem db with
  | Ok (a, db') =>
      ∃ w1, execute engine s sem w = (Ok a, w1) ∧
        dbs w1 !! engine = Some db' ∧ faults w1 = []
  | Raise e => ∃ w1, execute engine s sem w = (Raise e, w1)
  end.
Proof.
  intros Hdb Hf. unfold execute. rewrite Hdb, Hf. simpl.
  destruct (sem db) as [[a db']|e]; eexists; [|done].
  split; [done|]. simpl. by rewrite lookup_insert_eq.
Qed.

(** On a server that answers, the content signature is a function of
    the database. *)
Lemma content_signature_no_fault engine w db :
  dbs w !! engine = Some db → faults w = [] →
  (content_dynamic_signature engine w).1 = Ok (content_value db).
Proof.
  intros Hdb Hf. unfold content_dynamic_signature, try_except, content_value.
  rewrite bind_run. unfold connect at 1. rewrite Hdb.
  rewrite bind_run.
  pose proof (execute_no_fault engine SetGroupConcatMaxLen (λ db, Ok (tt, db)) w db Hdb Hf)
    as (w1 & -> & Hdb1 & Hf1).
  rewrite bind_run.
  pose proof (execute_no_fault engine SelectContentQueries sem_content_queries w1 db Hdb1 Hf1)
    as H2.
  destruct (sem_content_queries db) as [[row db2]|e] eqn:Eq; [|done].
  injection Eq as Hrow <-.
  destruct H2 as (w2 & -> & Hdb2 & Hf2).
  rewrite <- Hrow. destruct (is_empty _) eqn:Ee; [done|].
  match goal with |- context [sem_content_bytes ?q] => set (qs := q) end.
  pose proof (execute_no_fault engine SelectContentBytes (sem_content_bytes qs) w2 db Hdb2 Hf2)
    as H3.
  rewrite bind_run.
  destruct (sem_content_bytes qs db) as [[results db3]|e] eqn:Eb.
  - destruct H3 as (w3 & -> & _). done.
  - destruct H3 as (w3 & ->).
    by rewrite (sem_content_bytes_exn _ _ _ Eb).
Qed.

(** The per-table query of the first statement depends on the schema
    alone. *)
Lemma content_queries_schema db :
  omap (λ '(t, td),
          match columns (td_schema td) with
          | [] => None
          | cols => Some (t, map col_name cols)
          end)
       (map_to_list (db_tables db))
  = omap (λ '(t, tb),
            match columns tb with
            | [] => None
            | cols => Some (t, map col_name cols)
            end)
         (map_to_list (td_schema <$> db_tables db)).
Proof.
  rewrite map_to_list_fmap.
  set (f := λ '(t, td), match columns (td_schema td) with
                        | [] => None
                        | cols => Some (t, map col_name cols)
                        end).
  set (f0 := λ '(t, tb), match columns tb with
                         | [] => None
                         | cols => Some (t, map col_name cols)
                         end).
  induction (map_to_list (db_tables db)) as [|[t td] l IH]; [done|].
  rewrite fmap_cons. change (omap f ((t, td) :: l))
    with (match f (t, td) with Some y => y :: omap f l | None => omap f l end).
  change (omap f0 (prod_map id td_schema (t, td) :: (prod_map id td_schema <$> l)))
    with (match f0 (t, td_schema td) with
          | Some y => y :: omap f0 (prod_map id td_schema <$> l)
          | None => omap f0 (prod_map id td_schema <$> l)
          end).
  rewrite IH. done.
Qed.

Lemma elem_of_content_queries db t cols :
  (t, cols) ∈ omap (λ '(t, td),
                      match columns (td_schema td) with
                      | [] => None
                      | cols => Some (t, map col_name cols)
                      end)
                   (map_to_list (db_tables db)) →
  ∃ td, db_tables db !! t = Some td ∧ cols = map col_name (columns (td_schema td)).
Proof.
  intros ([t' td] & Hin & Hf)%list_elem_of_omap.
  apply elem_of_map_to_list in Hin.
  destruct (columns (td_schema td)) eqn:Ec; [done|].
  injection Hf as -> <-. exists td. by rewrite Ec.
Qed.

(** The byte total the second statement reports for a table. *)
Lemma run_content_queries_bytes db qs :
  (∀ t cols, (t, cols) ∈ qs →
     ∃ td, db_tables db !! t = Some td ∧ cols = map col_name (columns (td_schema td))) →
  ∃ results, run_content_queries db qs = Ok results ∧
    map fst results = map fst qs ∧
    ∀ t v, (t, v) ∈ results →
      ∃ td, db_tables db !! t = Some td ∧ default 0 v = table_bytes td.
Proof.
  induction qs as [|[t cols] qs IH]; intros Hqs.
  - exists []. split; [done|]. split; [done|]. by intros t v ?%elem_of_nil.
  - destruct IH as (results & Hr & Hn & Hv).
    { intros t' cols' Hin. apply Hqs. by right. }
    destruct (Hqs t cols) as (td & Htd & ->); [by left|].
    eexists. simpl. unfold table_data. rewrite Htd, Hr. split; [done|].
    split; [simpl; by rewrite Hn|].
    intros t' v [[= -> ->]|Hin]%elem_of_cons; [|by apply Hv].
    exists td. split; [done|]. unfold table_bytes, SUM.
    by destruct (map (row_octets _) (td_rows td)).
Qed.

#[global] Instance str_le_antisym : AntiSymm (=) str_le.
Proof. intros a b. apply String.leb_antisym. Qed.

#[global] Instance name_le_total : Total name_le.
Proof. intros a b. apply String.leb_total. Qed.

#[global] Instance name_le_trans : Transitive name_le.
Proof. intros a b c. apply string_leb_trans. Qed.

(** Two result sets over the same tables that agree on the totals are
    rendered to the same lines, in the same order. *)
Lemma sorted_parts_agree (R R' : list (string * option Z)) :
  map fst R = map fst R' → NoDup (map fst R) →
  (∀ t v v', (t, v) ∈ R → (t, v') ∈ R' → default 0 v = default 0 v') →
  map (λ r : string * option Z, r.1 +:+ ":" +:+ pretty (default 0 r.2))
    (merge_sort name_le R)
  = map (λ r : string * option Z, r.1 +:+ ":" +:+ pretty (default 0 r.2))
      (merge_sort name_le R').
Proof.
  intros Hn Hnd Hv.
  set (total (l : list (string * option Z)) t :=
         default 0 (default None (snd <$> List.find (λ p, String.eqb p.1 t) l))).
  assert (Htot : ∀ l t v, NoDup (map fst l) → (t, v) ∈ l → total l t = default 0 v).
  { intros l t v. unfold total. induction l as [|[t0 v0] l IH]; [by intros _ ?%elem_of_nil|].
    simpl. intros [Hnot Hnd']%NoDup_cons [[= -> ->]|Hin]%elem_of_cons.
    - by rewrite String.eqb_refl.
    - destruct (String.eqb_spec t0 t) as [->|Hne]; [|by apply IH].
      destruct Hnot. apply list_elem_of_fmap. by exists (t, v). }
  assert (Hren : ∀ l, NoDup (map fst l) →
            map (λ r : string * option Z, r.1 +:+ ":" +:+ pretty (default 0 r.2))
              (merge_sort name_le l)
            = map (λ t, t +:+ ":" +:+ pretty (total l t))
                (merge_sort str_le (map fst l))).
  { intros l Hl.
    assert (merge_sort str_le (map fst l) = map fst (merge_sort name_le l)) as ->.
    { apply (StronglySorted_unique str_le).
      - apply StronglySorted_merge_sort; apply _.
      - apply (StronglySorted_fmap _ name_le); [done|].
        apply StronglySorted_merge_sort; apply _.
      - by rewrite !merge_sort_Permutation. }
    rewrite <- list_fmap_compose. apply list_fmap_ext.
    intros i [t v] Hi. simpl. do 3 f_equal. symmetry. apply Htot; [done|].
    rewrite <- (merge_sort_Permutation name_le l). by eapply list_elem_of_lookup_2. }
  rewrite !Hren by (by rewrite <- ?Hn). rewrite <- Hn.
  apply list_fmap_ext. intros i t Hi. simpl. do 3 f_equal.
  assert (t ∈ map fst R) as Hin.
  { rewrite <- (merge_sort_Permutation str_le). by eapply list_elem_of_lookup_2. }
  pose proof Hin as Hin'. rewrite Hn in Hin'.
  apply list_elem_of_fmap in Hin as ([t1 v] & -> & Hin).
  apply list_elem_of_fmap in Hin' as ([t2 v'] & Ht & Hin'). simpl in Ht. subst t2.
  rewrite (Htot R _ v), (Htot R' _ v') by (by rewrite <- ?Hn). by eapply Hv.
Qed.

Lemma content_queries_NoDup db :
  NoDup (map fst
    (omap (λ '(t, td),
             match columns (td_schema td) with
             | [] => None
             | cols => Some (t, map col_name cols)
             end)
          (map_to_list (db_tables db)))).
Proof.
  pose proof (NoDup_fst_map_to_list (db_tables db)) as Hnd.
  set (f := λ '(t, td), match columns (td_schema td) with
                        | [] => None
                        | cols => Some (t, map col_name cols)
                        end).
  assert (Hf : ∀ p q, f p = Some q → q.1 = p.1).
  { intros [t td] q. unfold f. destruct (columns (td_schema td)); [done|]. by intros [= <-]. }
  induction (map_to_list (db_tables db)) as [|p l IH]; [constructor|].
  apply NoDup_cons in Hnd as [Hnot Hnd].
  change (omap f (p :: l)) with (match f p with Some y => y :: omap f l | None => omap f l end).
  destruct (f p) as [q|] eqn:Ep; [|by apply IH].
  simpl. apply NoDup_cons. split; [|by apply IH].
  intros (q' & Hq' & (p' & Hp' & Hfp')%list_elem_of_omap)%list_elem_of_fmap.
  apply Hnot. apply list_elem_of_fmap. exists p'. split; [|done].
  by rewrite <- (Hf _ _ Ep), <- (Hf _ _ Hfp').
Qed.

Lemma content_value_bytes db db' :
  td_schema <$> db_tables db = td_schema <$> db_tables db' →
  (∀ t td td', db_tables db !! t = Some td → db_tables db' !! t = Some td' →
     table_bytes td = table_bytes td') →
  content_value db = content_value db'.
Proof.
  intros Hschema Hbytes. unfold content_value, sem_content_queries.
  pose proof (content_queries_NoDup db) as Hnd.
  pose proof (elem_of_content_queries db) as Hq.
  pose proof (elem_of_content_queries db') as Hq'.
  rewrite (content_queries_schema db), Hschema, <- (content_queries_schema db') in Hnd, Hq |- *.
  set (qs := omap _ (map_to_list (db_tables db'))) in *.
  destruct (is_empty qs); [done|].
  destruct (run_content_queries_bytes db qs Hq) as (R & HR & Hn & Hv).
  destruct (run_content_queries_bytes db' qs Hq') as (R' & HR' & Hn' & Hv').
  unfold sem_content_bytes. rewrite HR, HR'. simpl. f_equal. f_equal. f_equal. f_equal.
  apply sorted_parts_agree.
  - by rewrite Hn, Hn'.
  - by rewrite Hn.
  - intros t v v' (td & Htd & ->)%Hv (td' & Htd' & ->)%Hv'. by eapply Hbytes.
Qed.

(** X18. The content signature sees the byte totals and nothing else:
    on two servers that answer, whose databases have the same schema
    and, table by table, the same total number of bytes,
    [content_dynamic_signature] returns the same signature, whatever
    the rows are. *)
Theorem content_signature_counts_bytes (url : string) (w w' : World)
    (db db' : Database) :
  dbs w !! url = Some db → dbs w' !! url = Some db' →
  faults w = [] → faults w' = [] →
  td_schema <$> db_tables db = td_schema <$> db_tables db' →
  (∀ t td td', db_tables db !! t = Some td → db_tables db' !! t = Some td' →
     table_bytes td = table_bytes td') →
  (content_dynamic_signature url w).1 = (content_dynamic_signature url w').1.
Proof.
  intros Hdb Hdb' Hf Hf' Hschema Hbytes.
  rewrite (content_signature_no_fault _ _ _ Hdb Hf).
  rewrite (content_signature_no_fault _ _ _ Hdb' Hf').
  f_equal. by apply content_value_bytes.
Qed.

(** ** DELETE by key *)

Lemma filter_all {A} (l : list A) : List.filter (λ _, true) l = l.
Proof. induction l as [|x l IH]; simpl; [done|]. by rewrite IH. Qed.

(** X19. [delete_rows_by_pks] on a table whose key columns hold
    integers, for integer keys of the width of the primary key: when it
    returns, the table holds exactly the rows it held whose key is not
    in the list, in their order, and no other table of any server is
    touched. *)
Theorem delete_rows_by_pks_removes (engine : string) (table : Table)
    (pk_column_names : list string) (pk_values : list PKTuple) (w w' : World) (n : Z) :
  (∀ k, k ∈ pk_values → length k = length pk_column_names) →
  integer_tuples pk_values = true →
  integer_keys pk_column_names (stored_rows w engine (name table)) = true →
  delete_rows_by_pks engine table pk_column_names pk_values w = (Ok n, w') →
  let before := stored_rows w engine (name table) in
  let after := stored_rows w' engine (name table) in
  after = List.filter (λ r, negb (bool_decide (row_key pk_column_names r ∈ pk_values)))
            before ∧
  ∀ e t, (e, t) ≠ (engine, name table) → stored_rows w' e t = stored_rows w e t.
Proof.
  intros Hlen _ _ Hrun before after. unfold before, after. clear before after.
  unfold delete_rows_by_pks in Hrun. destruct pk_values as [|k0 pks0] eqn:Epks.
  { injection Hrun as <- <-. split; [|done].
    simpl. by rewrite filter_all. }
  rewrite <- Epks in *. clear Epks.
  apply bind_ok_inv in Hrun as ([] & w1 & [-> _]%table_c_ok & Hrun).
  apply bind_ok_inv in Hrun as (deleted & w2 & Hex & [= <- <-]).
  apply execute_ok_inv in Hex as (db & db' & Hdb & Hs & Hd & _ & _).
  unfold sem_delete in Hs.
  destruct (table_data db (name table)) as [td|] eqn:Etd; [|done].
  apply table_data_ok in Etd. injection Hs as <- <-.
  assert (Hafter : stored_rows w2 engine (name table)
            = List.filter (λ r, negb (in_condition pk_column_names pk_values r)) (td_rows td)).
  { unfold stored_rows. rewrite Hd, lookup_insert_eq. simpl. by rewrite lookup_insert_eq. }
  rewrite Hafter, (stored_rows_lookup _ _ _ _ _ Hdb Etd).
  split.
  - apply filter_ext. intros r. by rewrite in_condition_key.
  - intros e t Hne. unfold stored_rows. rewrite Hd.
    destruct (decide (e = engine)) as [->|He].
    + rewrite lookup_insert_eq, Hdb. simpl. rewrite lookup_insert_ne; [done|].
      intros <-. done.
    + by rewrite lookup_insert_ne.
Qed.

(** ** A key column the production table does not have *)

Lemma table_c_missing table names c w :
  c ∈ names → c ∉ map col_name (columns table) →
  ∃ n, table_c table names w = (Raise (KeyError n), w) ∧
    n ∈ names ∧ n ∉ map col_name (columns table).
Proof.
  intros Hc Hnot. unfold table_c.
  destruct (List.find _ names) as [n|] eqn:E.
  - apply find_some in E as [Hn Hf%negb_true_iff%bool_decide_eq_false].
    exists n. split; [done|]. split; [by apply list_elem_of_In|done].
  - eapply find_none in E; [|by apply list_elem_of_In].
    simpl in E. apply negb_false_iff, bool_decide_eq_true in E. done.
Qed.

Lemma fetch_pk_values_one_read engine table pk w r w' :
  fetch_pk_values engine table pk w = (r, w') →
  same_data w w' ∧
  (trace w' = trace w ∨
   ∃ ok, trace w' = trace w ++ [mkEvent engine (SelectPKs (name table) pk) ok]).
Proof.
  intros Hrun.
  assert (Hp : preserves same_data (fetch_pk_values engine table pk)) by pres.
  split; [by eapply Hp|].
  unfold fetch_pk_values in Hrun. destruct pk as [|c0 pk0] eqn:Epk.
  { injection Hrun as <- <-. by left. }
  rewrite <- Epk in *.
  apply bind_inv in Hrun as [([] & w1 & ->%table_c_run & Hrun)|(e & ->%table_c_run & _)];
    [|by left].
  apply bind_inv in Hrun as [(rows & w2 & Hex & [= <- <-])|(e & Hex & _)].
  - apply execute_ok_inv in Hex as (_ & _ & _ & _ & _ & _ & Ht). right. eauto.
  - apply execute_inv in Hex as [(_ & -> & _)|(db & ok & _ & _ & _ & Ht & _)]; [by left|].
    right. eauto.
Qed.

(** X20. When the production table lacks a column of the local primary
    key, [sync_table] raises before it has asked the production server
    anything: the only statement sent, if any, is the read of the local
    keys, the databases and state files are as before, and the
    exception is the [KeyError] of a missing column unless the local
    read itself failed. *)
Theorem sync_table_missing_key_column (local_engine prod_engine : string)
    (local_table prod_table : Table) (options : SyncOptions) (w : World) (c : string) :
  c ∈ primary_key local_table → c ∉ map col_name (columns prod_table) →
  let run := sync_table local_engine prod_engine local_table prod_table options w in
  dbs run.2 = dbs w ∧ files run.2 = files w ∧
  (trace run.2 = trace w ∨
   ∃ ok, trace run.2 = trace w ++
     [mkEvent local_engine
        (SelectPKs (name local_table) (primary_key local_table)) ok]) ∧
  ∃ e, run.1 = Raise e ∧
    ((∃ s, (fetch_pk_values local_engine local_table (primary_key local_table) w).1 = Ok s) →
     ∃ n, e = KeyError n ∧ n ∈ primary_key local_table ∧
          n ∉ map col_name (columns prod_table)).
Proof.
  intros Hc Hnot run. destruct run as [r w'] eqn:E. unfold run in E. clear run. simpl.
  unfold sync_table, get_primary_key_column_names in E.
  assert (Hpk : primary_key local_table ≠ []).
  { intros Epk. rewrite Epk in Hc. by apply elem_of_nil in Hc. }
  rewrite (is_empty_false _ Hpk) in E.
  rewrite bind_run, logging_run in E.
  assert (Hsame : ∀ w0,
            (fetch_pk_values local_engine local_table (primary_key local_table)
               (mkWorld (dbs w0) (files w0) (trace w0)
                  (logs w0 ++ [mkLog INFO
                     "[%s] Fetching primary keys from local and production..."
                     [AStr (name local_table)]]) (faults w0))).1
            = (fetch_pk_values local_engine local_table (primary_key local_table) w0).1).
  { intros w0. unfold fetch_pk_values. destruct (primary_key local_table); [done|].
    rewrite !bind_run. unfold table_c. destruct (List.find _ _); [done|].
    simpl. rewrite !bind_run. unfold execute. simpl.
    destruct (dbs w0 !! local_engine); [|done].
    destruct (next_fault (faults w0)) as [[] rest]; [done|]. simpl.
    by destruct (sem_select_pks _ _ _) as [[??]|?]. }
  rewrite <- (Hsame w).
  apply bind_inv in E as [(s & w2 & Hl & E)|(e & Hl & ->)].
  - rewrite Hl. apply fetch_pk_values_one_read in Hl as [[Hd Hf] Ht].
    unfold fetch_pk_values in E at 1.
    destruct (primary_key local_table) as [|c0 pk0] eqn:Epk; [done|]. rewrite <- Epk in *.
    rewrite !bind_run in E.
    destruct (table_c_missing prod_table _ c w2 Hc Hnot) as (n & Hn & Hin & Hnin).
    rewrite Hn in E. injection E as <- <-.
    split; [done|]. split; [done|]. split; [done|].
    exists (KeyError n). split; [done|]. intros _. by exists n.
  - rewrite Hl. apply fetch_pk_values_one_read in Hl as [[Hd Hf] Ht].
    split; [done|]. split; [done|]. split; [done|].
    exists e. split; [done|]. by intros [s [=]].
Qed.
(** ** What the fingerprint cannot tell apart *)

(** X21. The fingerprint is taken over the text of the data columns,
    joined by [|], with the token [␀] for NULL.  Two rows whose data
    columns give the same text (a NULL against the text [␀], a number
    against the same digits as text, a [|] inside a value against the
    separator) have the same fingerprint, and [sync_table] never upserts
    their key, however it ends. *)
Theorem rendering_hides_differences
    (local_engine prod_engine : string) (local_table prod_table : Table)
    (options : SyncOptions) (w : World) (k : PKTuple) (rl rp : Row) :
  let pk := primary_key local_table in
  let data := get_updatable_column_names local_table pk in
  let text (r : Row) :=
    CONCAT_WS "|" (map (λ c, COALESCE (cast_string (row_val r c)) null_token) data) in
  let run := sync_table local_engine prod_engine local_table prod_table options w in
  pk ≠ [] → local_engine ≠ prod_engine →
  (∀ c, c ∈ pk → c ∉ get_computed_column_names local_table) →
  stored_pk w prod_engine (name prod_table) = Some pk →
  last (rows_at pk k (stored_rows w local_engine (name local_table))) = Some rl →
  last (rows_at pk k (stored_rows w prod_engine (name prod_table))) = Some rp →
  text rl = text rp →
  row_fingerprint data rl = row_fingerprint data rp ∧
  ∃ evs, trace run.2 = trace w ++ evs ∧ ¬ ∃ e, e ∈ evs ∧ upserts prod_engine pk k e.
Proof.
  intros pk data text run Hpk Hne Hpkc Hspk Hl Hp Htext.
  assert (Hfp : row_fingerprint data rl = row_fingerprint data rp).
  { unfold row_fingerprint. destruct data; [done|]. unfold text in Htext. by rewrite Htext. }
  split; [done|].
  destruct run as [r w'] eqn:Hrun. unfold run in Hrun. simpl.
  pose proof (sync_table_safe _ _ _ _ _ k Hne Hpk Hpkc _ _ _ Hrun) as Hsafe.
  destruct (Hsafe Hspk) as (evs & Ht & Honly).
  { fold pk. intros Hnil. by rewrite Hnil in Hp. }
  exists evs. split; [done|]. intros Hup. apply Honly in Hup. apply Hup.
  unfold fingerprint_at. fold pk data. rewrite Hl, Hp. simpl. by rewrite Hfp.
Qed.

(** ** The keys after a sync *)

#[global] Instance same_schemas_preorder : PreOrder same_schemas.
Proof.
  split; [done|]. intros w1 w2 w3 H1 H2 engine t. by rewrite H2, H1.
Qed.

Lemma logging_same_schemas lvl fmt args : preserves same_schemas (logging lvl fmt args).
Proof. by intros w r w' [= <- <-]. Qed.

Lemma write_text_same_schemas f sig : preserves same_schemas (write_text f sig).
Proof. by intros w r w' [= <- <-]. Qed.

Lemma execute_same_schemas {A} engine s (sem : Database → Res (A * Database)) :
  (∀ db a db', sem db = Ok (a, db') →
     ∀ t, primary_key ∘ td_schema <$> db_tables db' !! t
          = primary_key ∘ td_schema <$> db_tables db !! t) →
  preserves same_schemas (execute engine s sem).
Proof.
  intros Hsem w r w' [(_ & -> & _)|(db & ok & Hdb & _ & _ & _ & _ & Hc)]%execute_inv;
    [done|].
  destruct Hc as [(_ & Hd & _)|(_ & _ & a & db' & Hs & _ & Hd)].
  - intros e t. by apply stored_pk_same_dbs.
  - intros e t. unfold stored_pk. rewrite Hd.
    destruct (decide (engine = e)) as [<-|Hne].
    + rewrite lookup_insert_eq, Hdb. simpl. specialize (Hsem _ _ _ Hs t).
      destruct (db_tables db' !! t), (db_tables db !! t); simpl in *; congruence.
    + by rewrite lookup_insert_ne.
Qed.

Lemma set_rows_schema db t td rows t' :
  db_tables db !! t = Some td →
  primary_key ∘ td_schema <$> db_tables (set_rows db t td rows) !! t'
  = primary_key ∘ td_schema <$> db_tables db !! t'.
Proof.
  intros Htd. unfold set_rows. simpl.
  destruct (decide (t = t')) as [<-|Hne].
  - by rewrite lookup_insert_eq, Htd.
  - by rewrite lookup_insert_ne.
Qed.

Lemma sem_schema_kept {A} (sem : Database → Res (A * Database)) :
  reads_only sem →
  ∀ db a db', sem db = Ok (a, db') →
    ∀ t, primary_key ∘ td_schema <$> db_tables db' !! t
         = primary_key ∘ td_schema <$> db_tables db !! t.
Proof. intros Hro db a db' Hs t. by rewrite (Hro _ _ _ Hs). Qed.

Lemma sem_insert_schema t ig payload db a db' :
  sem_insert t ig payload db = Ok (a, db') →
  ∀ t', primary_key ∘ td_schema <$> db_tables db' !! t'
        = primary_key ∘ td_schema <$> db_tables db !! t'.
Proof.
  unfold sem_insert. destruct (table_data db t) as [td|] eqn:Etd; [|done].
  apply table_data_ok in Etd. destruct (insert_all _ _ _ _); [|done].
  intros [= _ <-] t'. by apply set_rows_schema.
Qed.

Lemma sem_upsert_schema t cols payload db a db' :
  sem_upsert t cols payload db = Ok (a, db') →
  ∀ t', primary_key ∘ td_schema <$> db_tables db' !! t'
        = primary_key ∘ td_schema <$> db_tables db !! t'.
Proof.
  unfold sem_upsert. destruct (table_data db t) as [td|] eqn:Etd; [|done].
  apply table_data_ok in Etd. intros [= _ <-] t'. by apply set_rows_schema.
Qed.

Lemma sem_delete_schema t pk pks db a db' :
  sem_delete t pk pks db = Ok (a, db') →
  ∀ t', primary_key ∘ td_schema <$> db_tables db' !! t'
        = primary_key ∘ td_schema <$> db_tables db !! t'.
Proof.
  unfold sem_delete. destruct (table_data db t) as [td|] eqn:Etd; [|done].
  apply table_data_ok in Etd. intros [= _ <-] t'. by apply set_rows_schema.
Qed.

Lemma sem_set_fk_schema enabled db a db' :
  sem_set_fk enabled db = Ok (a, db') →
  ∀ t', primary_key ∘ td_schema <$> db_tables db' !! t'
        = primary_key ∘ td_schema <$> db_tables db !! t'.
Proof. by intros [= _ <-]. Qed.

#[local] Hint Resolve logging_same_schemas write_text_same_schemas : pres.

#[local] Hint Extern 2 (preserves same_schemas (execute _ _ _)) =>
  (apply execute_same_schemas;
   first [ apply sem_insert_schema | apply sem_upsert_schema | apply sem_delete_schema
         | apply sem_set_fk_schema | apply sem_schema_kept; auto with pres ]) : pres.

Lemma sync_table_same_schemas le pe lt pt opts :
  preserves same_schemas (sync_table le pe lt pt opts).
Proof. pres. Qed.

(** The keys INSERT leaves in the table: those it had and those of the
    payload. *)
Lemma conflicts_true pk p rows :
  conflicts pk p rows = true → row_key pk p ∈ map (row_key pk) rows.
Proof.
  unfold conflicts. destruct pk as [|c pk]; [done|].
  intros (r & Hr & Hk)%existsb_exists. apply bool_decide_eq_true in Hk.
  apply list_elem_of_fmap. exists r. split; [done|]. by apply list_elem_of_In.
Qed.

Lemma insert_all_keys pk ignore payload rows rows' k :
  insert_all pk ignore payload rows = Ok rows' →
  k ∈ map (row_key pk) rows' ↔
  k ∈ map (row_key pk) rows ∨ k ∈ map (row_key pk) payload.
Proof.
  revert rows. induction payload as [|p payload IH]; intros rows; simpl.
  - intros [= <-]. split; [by left|]. intros [?|?%elem_of_nil]; done.
  - destruct (conflicts pk p rows) eqn:Ec.
    + destruct ignore; [|done]. intros Hins. rewrite (IH _ Hins), elem_of_cons.
      apply conflicts_true in Ec. split; [intros [?|?]; auto|].
      intros [?|[->|?]]; auto.
    + intros Hins. rewrite (IH _ Hins), map_app, elem_of_app, elem_of_cons. simpl.
      rewrite list_elem_of_singleton. split; [intros [[?|?]|?]; auto|].
      intros [?|[?|?]]; auto.
Qed.

Lemma upsert_all_keys pk cols payload rows k :
  (∀ c, c ∈ pk → c ∉ cols) →
  k ∈ map (row_key pk) (upsert_all pk cols payload rows) ↔
  k ∈ map (row_key pk) rows ∨ k ∈ map (row_key pk) payload.
Proof.
  intros Hpk. revert rows. induction payload as [|p payload IH]; intros rows; simpl.
  - split; [by left|]. intros [?|?%elem_of_nil]; done.
  - destruct (conflicts pk p rows) eqn:Ec.
    + rewrite IH, elem_of_cons.
      assert (map (row_key pk)
                (map (λ r, if same_key pk p r then update_row cols p r else r) rows)
              = map (row_key pk) rows) as ->.
      { rewrite <- list_fmap_compose. apply list_fmap_ext. intros i r _. simpl.
        destruct (same_key pk p r); [|done]. by apply row_key_update_row. }
      apply conflicts_true in Ec. split; [intros [?|?]; auto|].
      intros [?|[->|?]]; auto.
    + rewrite IH, map_app, elem_of_app, elem_of_cons. simpl.
      rewrite list_elem_of_singleton. split; [intros [[?|?]|?]; auto|].
      intros [?|[?|?]]; auto.
Qed.
Lemma row_val_filter_row table r c :
  c ∈ allowed_cols table → row_val (filter_row table r) c = row_val r c.
Proof.
  intros Hc. unfold row_val, filter_row.
  destruct (r !! c) as [v|] eqn:E.
  - erewrite (proj2 (map_lookup_filter_Some _ r c v)); [done|]. by split.
  - rewrite (proj2 (map_lookup_filter_None _ r c)); [done|]. by left.
Qed.

Lemma row_key_filter_row table pk r :
  (∀ c, c ∈ pk → c ∈ allowed_cols table) →
  row_key pk (filter_row table r) = row_key pk r.
Proof.
  intros Hpk. unfold row_key. apply map_ext_in. intros c Hc%list_elem_of_In.
  by apply row_val_filter_row, Hpk.
Qed.

(** A column of the table that is not among its generated ones is one
    INSERT writes. *)
Lemma allowed_cols_intro table c :
  c ∈ map col_name (columns table) → c ∉ get_computed_column_names table →
  c ∈ allowed_cols table.
Proof.
  intros (col & -> & Hcol)%list_elem_of_fmap Hnot.
  apply list_elem_of_fmap. exists col. split; [done|].
  apply list_elem_of_In, filter_In. split; [by apply list_elem_of_In|].
  destruct (computed col) eqn:Ec; [|done]. destruct Hnot.
  apply list_elem_of_fmap. exists col. split; [done|].
  apply list_elem_of_In, filter_In. split; [by apply list_elem_of_In|done].
Qed.

Lemma key_set_stored w engine t db td pk :
  dbs w !! engine = Some db → db_tables db !! t = Some td →
  key_set w engine t pk = list_to_set (map (row_key pk) (td_rows td)).
Proof. intros Hdb Htd. unfold key_set. by erewrite stored_rows_lookup. Qed.

Lemma stored_pk_lookup w engine t db td pk :
  dbs w !! engine = Some db → db_tables db !! t = Some td →
  stored_pk w engine t = Some pk → primary_key (td_schema td) = pk.
Proof. intros Hdb Htd. unfold stored_pk. rewrite Hdb. simpl. rewrite Htd. by intros [= <-]. Qed.

Lemma key_set_set_rows w w' engine t db td rows pk :
  dbs w' = <[engine := set_rows db t td rows]> (dbs w) →
  key_set w' engine t pk = list_to_set (map (row_key pk) rows).
Proof.
  intros Hd. unfold key_set, stored_rows. rewrite Hd, lookup_insert_eq. simpl.
  by rewrite lookup_insert_eq.
Qed.

Lemma key_set_unchanged_at w w' engine t pk :
  unchanged_at engine w w' → key_set w' engine t pk = key_set w engine t pk.
Proof. intros Hu. unfold key_set. by rewrite (stored_rows_unchanged_at w w'). Qed.

Lemma insert_rows_keys pe pt rows ig w n w' pk :
  insert_rows pe pt rows ig w = (Ok n, w') →
  stored_pk w pe (name pt) = Some pk →
  (∀ c, c ∈ pk → c ∈ allowed_cols pt) →
  key_set w' pe (name pt) pk
  = key_set w pe (name pt) pk ∪ list_to_set (map (row_key pk) rows).
Proof.
  intros Hrun Hspk Hallowed. unfold insert_rows in Hrun.
  destruct rows as [|r0 rows0] eqn:Er.
  { injection Hrun as <- <-. simpl. by rewrite (right_id_L ∅ (∪)). }
  rewrite <- Er in *. clear Er.
  apply bind_ok_inv in Hrun as ([] & w1 & Hex & [= _ <-]).
  apply execute_ok_inv in Hex as (db & db' & Hdb & Hs & Hd & _ & _).
  unfold sem_insert in Hs.
  destruct (table_data db (name pt)) as [td|] eqn:Etd; [|done].
  apply table_data_ok in Etd.
  destruct (insert_all _ _ _ _) as [rows'|] eqn:Ei; [|done]. injection Hs as <-.
  rewrite (stored_pk_lookup _ _ _ _ _ _ Hdb Etd Hspk) in Ei.
  rewrite (key_set_set_rows _ _ _ _ _ _ _ _ Hd), (key_set_stored _ _ _ _ _ _ Hdb Etd).
  apply set_eq. intros k.
  rewrite elem_of_union, !elem_of_list_to_set, (insert_all_keys _ _ _ _ _ _ Ei).
  assert (map (row_key pk) (map (filter_row pt) rows) = map (row_key pk) rows) as ->; [|done].
  rewrite <- list_fmap_compose. apply list_fmap_ext. intros i r _. simpl.
  by apply row_key_filter_row.
Qed.

(** The rows fetched for a batch of keys the table has carry exactly
    the keys of the batch. *)
Lemma fetched_keys engine table pk batch w rows w' k :
  batch ≠ [] →
  fetch_rows_by_pks engine table pk batch w = (Ok rows, w') →
  (∀ k, k ∈ batch → length k = length pk) →
  (∀ k, k ∈ batch → k ∈ key_set w engine (name table) pk) →
  k ∈ map (row_key pk) rows ↔ k ∈ batch.
Proof.
  intros Hne Hrun Hlen Hloc.
  apply fetch_rows_ok in Hrun as (_ & _ & Hcols & ->); [|done].
  rewrite <- list_fmap_compose. split.
  - intros (r & -> & Hr%list_elem_of_In)%list_elem_of_fmap. simpl.
    rewrite row_key_select_columns by done.
    apply filter_In in Hr as [_ Hr]. rewrite in_condition_key in Hr by done.
    by apply bool_decide_eq_true in Hr.
  - intros Hk. pose proof (Hloc k Hk) as Hin. apply elem_of_key_set in Hin.
    destruct (rows_at pk k (stored_rows w engine (name table))) as [|r rs] eqn:Er; [done|].
    assert (r ∈ rows_at pk k (stored_rows w engine (name table))) as [Hr Hkey]%elem_of_rows_at
      by (rewrite Er; left).
    apply list_elem_of_fmap. exists r. simpl.
    rewrite row_key_select_columns by done. split; [done|].
    apply list_elem_of_In, filter_In. split; [by apply list_elem_of_In|].
    rewrite in_condition_key by done. apply bool_decide_eq_true. by rewrite Hkey.
Qed.

Lemma delete_rows_keys pe pt pk batch w n w' :
  delete_rows_by_pks pe pt pk batch w = (Ok n, w') →
  (∀ k, k ∈ batch → length k = length pk) →
  key_set w' pe (name pt) pk = key_set w pe (name pt) pk ∖ list_to_set batch.
Proof.
  intros Hrun Hlen. unfold delete_rows_by_pks in Hrun.
  destruct batch as [|k0 batch0] eqn:Eb.
  { injection Hrun as <- <-. simpl. apply set_eq. intros k.
    rewrite elem_of_difference, elem_of_empty. split; [intros ?; split; [done|by intros []]|by intros [? _]]. }
  rewrite <- Eb in *. clear Eb.
  apply bind_ok_inv in Hrun as ([] & w1 & [-> _]%table_c_ok & Hrun).
  apply bind_ok_inv in Hrun as (deleted & w2 & Hex & [= _ <-]).
  apply execute_ok_inv in Hex as (db & db' & Hdb & Hs & Hd & _ & _).
  unfold sem_delete in Hs.
  destruct (table_data db (name pt)) as [td|] eqn:Etd; [|done].
  apply table_data_ok in Etd. injection Hs as _ <-.
  rewrite (key_set_set_rows _ _ _ _ _ _ _ _ Hd), (key_set_stored _ _ _ _ _ _ Hdb Etd).
  apply set_eq. intros k.
  rewrite elem_of_difference, !elem_of_list_to_set, !list_elem_of_fmap. split.
  - intros (r & -> & Hr%list_elem_of_In%filter_In). destruct Hr as [Hr Hc].
    rewrite in_condition_key in Hc by done.
    apply negb_true_iff, bool_decide_eq_false in Hc.
    split; [|done]. exists r. split; [done|]. by apply list_elem_of_In.
  - intros [(r & -> & Hr) Hnot]. exists r. split; [done|].
    apply list_elem_of_In, filter_In. split; [by apply list_elem_of_In|].
    rewrite in_condition_key by done. by apply negb_true_iff, bool_decide_eq_false.
Qed.

Lemma for_chunks_run {S} (xs : list PKTuple) size (body : S → list PKTuple → M S) acc :
  0 < size →
  ∃ batches, concat batches = xs ∧
    for_chunks xs size body acc = for_loop batches body acc.
Proof.
  intros Hsize. destruct (chunked_ok xs size Hsize) as (batches & Hc & Hcat).
  exists batches. split; [done|]. unfold for_chunks. by rewrite Hc.
Qed.

Lemma try_finally_ok_inv {A} (body : M A) fin w a w' :
  try_finally body fin w = (Ok a, w') →
  ∃ w1, body w = (Ok a, w1) ∧ fin w1 = (Ok tt, w').
Proof.
  unfold try_finally. destruct (body w) as [r w1].
  destruct (fin w1) as [[[]|e] w2] eqn:Ef; [|done].
  intros [= -> <-]. eauto.
Qed.
Section KeysAfterSync.
Context (le pe : string) (lt pt : Table) (pk : list string) (opts : SyncOptions).
Hypothesis engines_differ : le ≠ pe.
Hypothesis pk_not_computed : ∀ c, c ∈ pk → c ∉ get_computed_column_names lt.
Hypothesis pk_allowed : ∀ c, c ∈ pk → c ∈ allowed_cols pt.

Lemma insert_batch_quiet acc batch :
  preserves (both (unchanged_at le) same_schemas)
    (insert_batch le pe lt pt pk opts acc batch).
Proof. apply preserves_both; pres. Qed.

Lemma update_batch_quiet data acc batch :
  preserves (both (unchanged_at le) same_schemas)
    (update_batch le pe lt pt pk data acc batch).
Proof. apply preserves_both; pres. Qed.

Lemma delete_batch_quiet acc batch :
  preserves (both (unchanged_at le) same_schemas) (delete_batch pe pt pk acc batch).
Proof. apply preserves_both; pres. Qed.

Lemma insert_batch_keys acc batch w n w' :
  insert_batch le pe lt pt pk opts acc batch w = (Ok n, w') →
  stored_pk w pe (name pt) = Some pk →
  (∀ k, k ∈ batch → length k = length pk) →
  (∀ k, k ∈ batch → k ∈ key_set w le (name lt) pk) →
  key_set w' pe (name pt) pk = key_set w pe (name pt) pk ∪ list_to_set batch.
Proof.
  intros Hrun Hspk Hlen Hloc. unfold insert_batch in Hrun.
  apply bind_ok_inv in Hrun as (rows & w1 & Hf & Hrun).
  apply bind_ok_inv in Hrun as (inserted & w2 & Hi & [= _ <-]).
  destruct (decide (batch = [])) as [->|Hne].
  { injection Hf as <- <-. injection Hi as _ <-. simpl. by rewrite (right_id_L ∅ (∪)). }
  pose proof (fetch_rows_ok _ _ _ _ _ _ _ Hne Hf) as ([Hd1 _] & _).
  rewrite (insert_rows_keys _ _ _ _ _ _ _ pk Hi);
    [|by rewrite (stored_pk_same_dbs w w1)|done].
  unfold key_set at 1. rewrite (stored_rows_same_dbs w w1) by done. fold (key_set w pe (name pt) pk).
  f_equal. apply set_eq. intros k. rewrite !elem_of_list_to_set.
  by eapply fetched_keys.
Qed.

Lemma update_batch_keys data acc batch w n w' :
  (∀ c, c ∈ pk → c ∉ data) →
  update_batch le pe lt pt pk data acc batch w = (Ok n, w') →
  stored_pk w pe (name pt) = Some pk →
  (∀ k, k ∈ batch → length k = length pk) →
  (∀ k, k ∈ batch → k ∈ key_set w le (name lt) pk) →
  (∀ k, k ∈ batch → k ∈ key_set w pe (name pt) pk) →
  key_set w' pe (name pt) pk = key_set w pe (name pt) pk.
Proof.
  intros Hpd Hrun Hspk Hlen Hloc Hprod. unfold update_batch in Hrun.
  apply bind_ok_inv in Hrun as (dl & w1 & Hl & Hrun).
  apply fetch_hashes_ok in Hl as ([Hd1 _] & _ & _); [|done].
  apply bind_ok_inv in Hrun as (dp & w2 & Hp & Hrun).
  apply fetch_hashes_ok in Hp as ([Hd2 _] & _ & _); [|done].
  assert (Hd12 : dbs w2 = dbs w) by congruence.
  destruct (decide (changed_pks dl dp batch = [])) as [Echanged|Hcne].
  { rewrite Echanged in Hrun. injection Hrun as _ <-.
    unfold key_set. by rewrite (stored_rows_same_dbs w w2). }
  rewrite (is_empty_false _ Hcne) in Hrun.
  set (changed := changed_pks dl dp batch) in *.
  assert (Hsub : ∀ k, k ∈ changed → k ∈ batch) by (by intros k [? _]%elem_of_changed_pks).
  apply bind_ok_inv in Hrun as (rows & w3 & Hr & Hrun).
  pose proof (fetch_rows_ok _ _ _ _ _ _ _ Hcne Hr) as ([Hd3 _] & _ & Hcols & _).
  assert (Hd13 : dbs w3 = dbs w) by congruence.
  assert (Hkeys : ∀ k, k ∈ map (row_key pk) rows ↔ k ∈ changed).
  { intros k. eapply fetched_keys; [done..| |]; [by auto|].
    intros k' Hk'. unfold key_set. rewrite (stored_rows_same_dbs w w2) by done.
    by apply Hloc, Hsub. }
  assert (Hpne : map (sanitize_row lt) rows ≠ []).
  { destruct changed as [|k changed'] eqn:Ec; [done|].
    assert (k ∈ map (row_key pk) rows) as Hin by (apply Hkeys; left).
    intros Hnil. apply fmap_nil_inv in Hnil. rewrite Hnil in Hin.
    by apply elem_of_nil in Hin. }
  apply bind_ok_inv in Hrun as (updated & w4 & Hu & [= _ <-]).
  apply upsert_rows_ok in Hu as (_ & _ & Hup); [|done].
  rewrite <- (stored_pk_same_dbs w w3) in Hspk by done.
  destruct (Hup pk Hspk) as [_ Hrows4].
  apply set_eq. intros k. unfold key_set.
  rewrite !elem_of_list_to_set, Hrows4, upsert_all_keys by done.
  rewrite (stored_rows_same_dbs w w3) by done.
  split; [|by left]. intros [?|Hk]; [done|].
  rewrite <- list_fmap_compose in Hk.
  apply list_elem_of_fmap in Hk as (r & -> & Hin). simpl.
  rewrite row_key_sanitize by done.
  assert (row_key pk r ∈ changed) as Hc.
  { apply Hkeys. apply list_elem_of_fmap. by exists r. }
  apply Hsub, Hprod in Hc. unfold key_set in Hc. by rewrite elem_of_list_to_set in Hc.
Qed.

Lemma delete_batch_keys acc batch w n w' :
  delete_batch pe pt pk acc batch w = (Ok n, w') →
  (∀ k, k ∈ batch → length k = length pk) →
  key_set w' pe (name pt) pk = key_set w pe (name pt) pk ∖ list_to_set batch.
Proof.
  intros Hrun Hlen. unfold delete_batch in Hrun.
  apply bind_ok_inv in Hrun as (deleted & w1 & Hd & [= _ <-]).
  by eapply delete_rows_keys.
Qed.

Lemma insert_loop_keys batches acc w n w' :
  for_loop batches (insert_batch le pe lt pt pk opts) acc w = (Ok n, w') →
  stored_pk w pe (name pt) = Some pk →
  (∀ k, k ∈ concat batches → length k = length pk) →
  (∀ k, k ∈ concat batches → k ∈ key_set w le (name lt) pk) →
  key_set w' pe (name pt) pk
  = key_set w pe (name pt) pk ∪ list_to_set (concat batches).
Proof.
  revert acc w. induction batches as [|b bs IH]; intros acc w; simpl.
  - intros [= _ <-] _ _ _. by rewrite (right_id_L ∅ (∪)).
  - intros (a1 & w1 & Hb & Hrest)%bind_ok_inv Hspk Hlen Hloc.
    pose proof (insert_batch_quiet _ _ _ _ _ Hb) as [Hu Hs].
    rewrite (IH _ _ Hrest).
    + rewrite (insert_batch_keys _ _ _ _ _ Hb Hspk).
      * by rewrite list_to_set_app_L, (assoc_L (∪)).
      * intros k Hk. apply Hlen, elem_of_app. by left.
      * intros k Hk. apply Hloc, elem_of_app. by left.
    + by rewrite Hs.
    + intros k Hk. apply Hlen, elem_of_app. by right.
    + intros k Hk. rewrite (key_set_unchanged_at w w1) by done.
      apply Hloc, elem_of_app. by right.
Qed.

Lemma update_loop_keys data batches acc w n w' :
  (∀ c, c ∈ pk → c ∉ data) →
  for_loop batches (update_batch le pe lt pt pk data) acc w = (Ok n, w') →
  stored_pk w pe (name pt) = Some pk →
  (∀ k, k ∈ concat batches → length k = length pk) →
  (∀ k, k ∈ concat batches → k ∈ key_set w le (name lt) pk) →
  (∀ k, k ∈ concat batches → k ∈ key_set w pe (name pt) pk) →
  key_set w' pe (name pt) pk = key_set w pe (name pt) pk.
Proof.
  intros Hpd. revert acc w. induction batches as [|b bs IH]; intros acc w; simpl.
  - by intros [= _ <-].
  - intros (a1 & w1 & Hb & Hrest)%bind_ok_inv Hspk Hlen Hloc Hprod.
    pose proof (update_batch_quiet _ _ _ _ _ _ Hb) as [Hu Hs].
    assert (Hk1 : key_set w1 pe (name pt) pk = key_set w pe (name pt) pk).
    { eapply update_batch_keys; [done..| | |].
      - intros k Hk. apply Hlen, elem_of_app. by left.
      - intros k Hk. apply Hloc, elem_of_app. by left.
      - intros k Hk. apply Hprod, elem_of_app. by left. }
    rewrite (IH _ _ Hrest); [done| | | |].
    + by rewrite Hs.
    + intros k Hk. apply Hlen, elem_of_app. by right.
    + intros k Hk. rewrite (key_set_unchanged_at w w1) by done.
      apply Hloc, elem_of_app. by right.
    + intros k Hk. rewrite Hk1. apply Hprod, elem_of_app. by right.
Qed.

Lemma delete_loop_keys batches acc w n w' :
  for_loop batches (delete_batch pe pt pk) acc w = (Ok n, w') →
  (∀ k, k ∈ concat batches → length k = length pk) →
  key_set w' pe (name pt) pk
  = key_set w pe (name pt) pk ∖ list_to_set (concat batches).
Proof.
  revert acc w. induction batches as [|b bs IH]; intros acc w; simpl.
  - intros [= _ <-] _. apply set_eq. intros k.
    rewrite elem_of_difference, elem_of_empty.
    split; [intros ?; split; [done|by intros []]|by intros [? _]].
  - intros (a1 & w1 & Hb & Hrest)%bind_ok_inv Hlen.
    rewrite (IH _ _ Hrest), (delete_batch_keys _ _ _ _ _ Hb).
    + apply set_eq. intros k.
      rewrite !elem_of_difference, list_to_set_app_L, elem_of_union.
      split; [intros [[? ?] ?]|intros [? Hn]].
      * split; [done|]. by intros [?|?].
      * repeat split; [done|..]; intros ?; apply Hn; auto.
    + intros k Hk. apply Hlen, elem_of_app. by left.
    + intros k Hk. apply Hlen, elem_of_app. by right.
Qed.
End KeysAfterSync.
Lemma key_set_same_rows w w' engine t pk :
  same_rows w w' → key_set w' engine t pk = key_set w engine t pk.
Proof. intros Hr. unfold key_set. by rewrite Hr. Qed.

Lemma key_set_same_dbs w w' engine t pk :
  dbs w' = dbs w → key_set w' engine t pk = key_set w engine t pk.
Proof. intros Hd. unfold key_set. by rewrite (stored_rows_same_dbs w w'). Qed.

Lemma plan_lengths (L : gset PKTuple) (pk : list string) w engine t k :
  key_set w engine t pk = L → k ∈ L → length k = length pk.
Proof. intros <-. apply key_set_length. Qed.

Lemma apply_plan_keys le pe lt pt pk opts w w' :
  le ≠ pe →
  (∀ c, c ∈ pk → c ∉ get_computed_column_names lt) →
  (∀ c, c ∈ pk → c ∈ allowed_cols pt) →
  0 < batch_size opts →
  stored_pk w pe (name pt) = Some pk →
  apply_plan le pe lt pt pk opts
    (diff_keys (key_set w le (name lt) pk) (key_set w pe (name pt) pk)) w = (Ok tt, w') →
  key_set w' pe (name pt) pk = key_set w le (name lt) pk.
Proof.
  intros Hne Hpkc Hallowed Hsize Hspk Hrun.
  set (L := key_set w le (name lt) pk) in *.
  set (R := key_set w pe (name pt) pk) in *.
  assert (HlenL : ∀ k, k ∈ L → length k = length pk) by apply key_set_length.
  assert (HlenR : ∀ k, k ∈ R → length k = length pk) by apply key_set_length.
  assert (Hpd : ∀ c, c ∈ pk → c ∉ get_updatable_column_names lt pk).
  { intros c Hc. by apply updatable_not_pk. }
  unfold apply_plan in Hrun. simpl in Hrun.
  apply bind_ok_inv in Hrun as (n1 & w1 & H1 & Hrun).
  apply bind_ok_inv in Hrun as (n2 & w2 & H2 & Hrun).
  apply bind_ok_inv in Hrun as (n3 & w3 & H3 & [= <-]).
  (* the insert phase *)
  assert (Hq1 : both (unchanged_at le) same_schemas w w1).
  { revert H1. match goal with |- ?m w = _ → _ =>
      assert (preserves (both (unchanged_at le) same_schemas) m) as Hp
        by (apply preserves_both; pres); apply Hp end. }
  assert (Hk1 : key_set w1 pe (name pt) pk = R ∪ (L ∖ R)).
  { destruct (sorted (elements (L ∖ R))) as [|k0 ks] eqn:Eins.
    - injection H1 as _ <-. rewrite <- (sorted_elements_set (L ∖ R)), Eins. simpl.
      by rewrite (right_id_L ∅ (∪)).
    - rewrite <- Eins in *. rewrite is_empty_false in H1 by (by rewrite Eins).
      rewrite bind_run, logging_run in H1.
      destruct (for_chunks_run (sorted (elements (L ∖ R))) (batch_size opts)
                  (insert_batch le pe lt pt pk opts) 0 Hsize) as (batches & Hcat & Heq).
      rewrite Heq in H1.
      match type of H1 with for_loop _ _ _ ?w0 = _ =>
        set (wl := w0) in *; assert (Hwl : dbs wl = dbs w) by done end.
      rewrite (insert_loop_keys le pe lt pt pk opts Hne Hallowed _ _ _ _ _ H1).
      + by rewrite Hcat, sorted_elements_set, (key_set_same_dbs w wl).
      + by rewrite (stored_pk_same_dbs w wl).
      + rewrite Hcat. intros k Hk%elem_of_sorted%elem_of_elements%elem_of_difference.
        apply HlenL. by destruct Hk.
      + rewrite Hcat. intros k Hk%elem_of_sorted%elem_of_elements%elem_of_difference.
        rewrite (key_set_same_dbs w wl) by done. by destruct Hk. }
  destruct Hq1 as [Hu1 Hs1].
  (* the update phase *)
  assert (Hq2 : both (unchanged_at le) same_schemas w1 w2).
  { revert H2. match goal with |- ?m w1 = _ → _ =>
      assert (preserves (both (unchanged_at le) same_schemas) m) as Hp
        by (apply preserves_both; pres); apply Hp end. }
  assert (Hk2 : key_set w2 pe (name pt) pk = key_set w1 pe (name pt) pk).
  { destruct (sorted (elements (L ∩ R))) as [|k0 ks] eqn:Eov.
    { by injection H2 as _ <-. }
    rewrite <- Eov in *. rewrite is_empty_false in H2 by (by rewrite Eov).
    destruct (get_updatable_column_names lt pk) as [|c0 cs] eqn:Edata.
    { by injection H2 as _ <-. }
    rewrite <- Edata in *. rewrite is_empty_false in H2 by (by rewrite Edata).
    rewrite bind_run, logging_run in H2.
    destruct (for_chunks_run (sorted (elements (L ∩ R))) (batch_size opts)
                (update_batch le pe lt pt pk (get_updatable_column_names lt pk)) 0 Hsize)
      as (batches & Hcat & Heq).
    rewrite Heq in H2.
    match type of H2 with for_loop _ _ _ ?w0 = _ =>
      set (wl := w0) in *; assert (Hwl : dbs wl = dbs w1) by done end.
    rewrite (update_loop_keys le pe lt pt pk Hne Hpkc _ _ _ _ _ _ Hpd H2).
    - by apply key_set_same_dbs.
    - by rewrite (stored_pk_same_dbs w1 wl), (Hs1 pe (name pt)).
    - rewrite Hcat. intros k Hk%elem_of_sorted%elem_of_elements%elem_of_intersection.
      apply HlenL. by destruct Hk.
    - rewrite Hcat. intros k Hk%elem_of_sorted%elem_of_elements%elem_of_intersection.
      rewrite (key_set_same_dbs w1 wl), (key_set_unchanged_at w) by done. by destruct Hk.
    - rewrite Hcat. intros k Hk%elem_of_sorted%elem_of_elements%elem_of_intersection.
      rewrite (key_set_same_dbs w1 wl), Hk1 by done.
      apply elem_of_union. left. by destruct Hk. }
  (* the delete phase *)
  assert (Hk3 : key_set w3 pe (name pt) pk = key_set w2 pe (name pt) pk ∖ (R ∖ L)).
  { destruct (sorted (elements (R ∖ L))) as [|k0 ks] eqn:Edel.
    - injection H3 as _ <-. rewrite <- (sorted_elements_set (R ∖ L)), Edel. simpl.
      apply set_eq. intros k. rewrite elem_of_difference, elem_of_empty.
      split; [intros ?; split; [done|by intros []]|by intros [? _]].
    - rewrite <- Edel in *. rewrite is_empty_false in H3 by (by rewrite Edel).
      rewrite bind_run, logging_run in H3.
      destruct (for_chunks_run (sorted (elements (R ∖ L))) (batch_size opts)
                  (delete_batch pe pt pk) 0 Hsize) as (batches & Hcat & Heq).
      rewrite Heq in H3.
      match type of H3 with for_loop _ _ _ ?w0 = _ =>
        set (wl := w0) in *; assert (Hwl : dbs wl = dbs w2) by done end.
      rewrite (delete_loop_keys pe pt pk _ _ _ _ _ H3).
      + by rewrite Hcat, sorted_elements_set, (key_set_same_dbs w2 wl).
      + rewrite Hcat. intros k Hk%elem_of_sorted%elem_of_elements%elem_of_difference.
        apply HlenR. by destruct Hk. }
  rewrite (key_set_same_dbs w3) by done.
  rewrite Hk3, Hk2, Hk1. apply set_eq. intros k.
  rewrite !elem_of_difference, elem_of_union, elem_of_difference.
  destruct (decide (k ∈ L)) as [HL|HL], (decide (k ∈ R)) as [HR|HR].
  - split; [done|]. intros _. split; [by left|]. by intros [_ ?].
  - split; [done|]. intros _. split; [by right|]. by intros [? _].
  - split; [|done]. intros [_ Hn]. destruct Hn. done.
  - split; [|done]. intros [[?|[? _]] _]; done.
Qed.
Lemma set_fk_quiet pe (b enabled : bool) :
  preserves (both same_rows same_schemas)
    (when b (set_foreign_key_checks pe enabled)).
Proof. apply preserves_both; pres. Qed.

(** X22. A real run of [sync_table] that returns leaves no stale key:
    every key the production table holds afterwards is a key of the
    local table, and the local database is as it was.  When the run
    inserts without IGNORE, the server raises on a row it cannot store
    instead of skipping it, and the production table then holds a row
    for exactly the keys the local table holds.  The keys are integers,
    the batch size is positive, the two engines are different servers,
    the primary key holds no generated column on either side, and the
    production table declares the same key. *)
Theorem sync_table_brings_keys
    (local_engine prod_engine : string) (local_table prod_table : Table)
    (options : SyncOptions) (w w' : World) :
  let pk := primary_key local_table in
  sync_table local_engine prod_engine local_table prod_table options w = (Ok tt, w') →
  dry_run options = false → 0 < batch_size options →
  local_engine ≠ prod_engine → pk ≠ [] →
  (∀ c, c ∈ pk → c ∉ get_computed_column_names local_table) →
  (∀ c, c ∈ pk → c ∉ get_computed_column_names prod_table) →
  stored_pk w prod_engine (name prod_table) = Some pk →
  integer_keys pk (stored_rows w local_engine (name local_table)) = true →
  integer_keys pk (stored_rows w prod_engine (name prod_table)) = true →
  key_set w' prod_engine (name prod_table) pk
    ⊆ key_set w local_engine (name local_table) pk ∧
  (use_insert_ignore options = false →
   key_set w' prod_engine (name prod_table) pk
     = key_set w local_engine (name local_table) pk) ∧
  dbs w' !! local_engine = dbs w !! local_engine.
Proof.
  intros pk Hrun Hdry Hsize Hne Hpk Hlc Hpc Hspk _ _.
  assert (Hlocal : dbs w' !! local_engine = dbs w !! local_engine).
  { by apply (sync_table_targets _ _ _ _ _ local_engine Hne) in Hrun as [? _]. }
  assert (key_set w' prod_engine (name prod_table) pk
          = key_set w local_engine (name local_table) pk) as Heq;
    [|rewrite Heq; split; [reflexivity|]; split; [done|exact Hlocal]].
  unfold sync_table, get_primary_key_column_names in Hrun. fold pk in Hrun.
  rewrite (is_empty_false _ Hpk), Hdry in Hrun.
  rewrite bind_run, logging_run in Hrun.
  match type of Hrun with (_ ≫= _) ?x = _ =>
    set (w0 := x) in *; assert (Hw0 : dbs w0 = dbs w) by done end.
  apply bind_ok_inv in Hrun as (L & w1 & Hl & Hrun).
  apply fetch_pk_values_ok in Hl as (-> & [Hd1 _] & _); [|done].
  apply bind_ok_inv in Hrun as (R & w2 & Hp & Hrun).
  apply fetch_pk_values_ok in Hp as (-> & [Hd2 _] & Hcols); [|done].
  rewrite bind_run, logging_run in Hrun.
  match type of Hrun with (_ ≫= _) ?x = _ =>
    set (w3 := x) in *; assert (Hw3 : dbs w3 = dbs w2) by done end.
  apply bind_ok_inv in Hrun as ([] & w4 & Hfk & Hrun).
  apply set_fk_quiet in Hfk as [Hr4 Hs4].
  apply try_finally_ok_inv in Hrun as (w5 & Hplan & Hfin).
  apply set_fk_quiet in Hfin as [Hr5 _].
  assert (Hdw2 : dbs w2 = dbs w) by congruence.
  assert (Hdw3 : dbs w3 = dbs w) by congruence.
  assert (HL : key_set w4 local_engine (name local_table) pk
               = key_set w local_engine (name local_table) pk).
  { by rewrite (key_set_same_rows w3 w4), (key_set_same_dbs w w3). }
  assert (HR : key_set w4 prod_engine (name prod_table) pk
               = key_set w1 prod_engine (name prod_table) pk).
  { rewrite (key_set_same_rows w3 w4), (key_set_same_dbs w1 w3); [done|congruence|done]. }
  rewrite (key_set_same_dbs w w0) in Hplan by done.
  rewrite <- HL, <- HR in Hplan.
  rewrite (key_set_same_rows w5 w') by done.
  rewrite <- HL. apply (apply_plan_keys _ _ _ _ _ options); try done.
  - intros c Hc. apply allowed_cols_intro; auto.
  - by rewrite (Hs4 prod_engine (name prod_table)), (stored_pk_same_dbs w w3).
Qed.

(** *** The rows a sync leaves *)

Lemma conflicts_none pk p rows :
  rows_at pk (row_key pk p) rows = [] → conflicts pk p rows = false.
Proof.
  intros Hnil. unfold conflicts. destruct pk as [|c pk]; [done|].
  destruct (existsb _ rows) eqn:Ex; [|done].
  apply existsb_exists in Ex as (r & Hr & Hk). apply bool_decide_eq_true in Hk.
  assert (r ∈ rows_at (c :: pk) (row_key (c :: pk) p) rows) as Hin.
  { apply elem_of_rows_at. split; [by apply list_elem_of_In|done]. }
  rewrite Hnil in Hin. by apply elem_of_nil in Hin.
Qed.

(** Rows with fresh, distinct keys are all inserted, in their order. *)
Lemma insert_all_fresh pk ignore payload rows :
  NoDup (map (row_key pk) payload) →
  (∀ p, p ∈ payload → rows_at pk (row_key pk p) rows = []) →
  insert_all pk ignore payload rows = Ok (rows ++ payload).
Proof.
  revert rows. induction payload as [|p payload IH]; intros rows; simpl.
  - intros _ _. by rewrite app_nil_r.
  - intros [Hp Hnd]%NoDup_cons Hfresh.
    rewrite conflicts_none by (apply Hfresh; left).
    rewrite IH; [by rewrite <- app_assoc|done|].
    intros q Hq. rewrite rows_at_app, Hfresh by (by right).
    apply rows_at_other. intros Heq. apply Hp. rewrite Heq.
    apply list_elem_of_fmap. by exists q.
Qed.

(** INSERT touches only the keys of its payload. *)
Lemma insert_all_other pk ignore payload rows rows' k :
  insert_all pk ignore payload rows = Ok rows' →
  k ∉ map (row_key pk) payload →
  rows_at pk k rows' = rows_at pk k rows.
Proof.
  revert rows. induction payload as [|p payload IH]; intros rows; simpl.
  - by intros [= <-].
  - intros Hins [Hne Hnot]%not_elem_of_cons.
    destruct (conflicts pk p rows).
    + destruct ignore; [|done]. by apply IH.
    + rewrite (IH _ Hins Hnot), rows_at_app, rows_at_other, app_nil_r; done.
Qed.

Lemma rows_at_map pk k (f : Row → Row) rows :
  (∀ r, row_key pk (f r) = row_key pk r) →
  rows_at pk k (map f rows) = map f (rows_at pk k rows).
Proof.
  intros Hf. unfold rows_at. induction rows as [|r rows IH]; simpl; [done|].
  rewrite Hf, IH. by destruct (bool_decide (row_key pk r = k)).
Qed.

Lemma rows_at_delete pk pks k rows :
  (∀ k', k' ∈ pks → length k' = length pk) → k ∉ pks →
  rows_at pk k (List.filter (λ r, negb (in_condition pk pks r)) rows) = rows_at pk k rows.
Proof.
  intros Hlen Hk. unfold rows_at. induction rows as [|r rows IH]; simpl; [done|].
  rewrite in_condition_key by done.
  destruct (decide (row_key pk r = k)) as [Heq|Hne].
  - rewrite (bool_decide_eq_false_2 (row_key pk r ∈ pks)) by (by rewrite Heq).
    simpl. rewrite (bool_decide_eq_true_2 _ Heq). by rewrite IH.
  - rewrite (bool_decide_eq_false_2 _ Hne).
    destruct (bool_decide (row_key pk r ∈ pks)); simpl;
      [|rewrite (bool_decide_eq_false_2 _ Hne)]; apply IH.
Qed.

Lemma row_val_update_row_in cols p r c :
  c ∈ cols → row_val (update_row cols p r) c = row_val p c.
Proof.
  unfold update_row, row_val at 1. induction cols as [|c' cols IH]; simpl.
  - by intros ?%elem_of_nil.
  - intros Hc. destruct (decide (c = c')) as [->|Hne].
    + by rewrite lookup_insert_eq.
    + rewrite lookup_insert_ne by done. apply IH.
      apply elem_of_cons in Hc as [?|?]; done.
Qed.

(** After an upsert, the rows of a key the table had and the payload
    carries hold, in the updated columns, the values of the last
    payload row of that key. *)
Lemma upsert_all_data pk cols payload rows k p :
  pk ≠ [] → (∀ c, c ∈ pk → c ∉ cols) →
  rows_at pk k rows ≠ [] → last (rows_at pk k payload) = Some p →
  Forall (λ r, ∀ c, c ∈ cols → row_val r c = row_val p c)
    (rows_at pk k (upsert_all pk cols payload rows)).
Proof.
  intros Hpk Hpd. revert rows. induction payload as [|p0 payload IH]; intros rows; [done|].
  intros Hrows Hlast. simpl.
  set (upd := λ r, if same_key pk p0 r then update_row cols p0 r else r).
  change (rows_at pk k (p0 :: payload)) with (rows_at pk k ([p0] ++ payload)) in Hlast.
  rewrite rows_at_app in Hlast.
  destruct (decide (row_key pk p0 = k)) as [Heq|Hne].
  - assert (conflicts pk p0 rows = true) as ->.
    { destruct (conflicts pk p0 rows) eqn:Ec; [done|].
      apply conflicts_false in Ec; [|done]. by rewrite Heq in Ec. }
    assert (Hupd : rows_at pk k (map upd rows) = map (update_row cols p0) (rows_at pk k rows)).
    { unfold upd. rewrite rows_at_update_same by done.
      apply map_ext_in. intros r [_ Hr]%list_elem_of_In%elem_of_rows_at.
      unfold same_key. by rewrite bool_decide_eq_true_2 by congruence. }
    destruct (rows_at pk k payload) as [|q qs] eqn:Erest.
    + unfold rows_at in Hlast. simpl in Hlast.
      rewrite (bool_decide_eq_true_2 _ Heq) in Hlast. simpl in Hlast.
      injection Hlast as <-.
      rewrite upsert_all_frame; [|done|by apply rows_at_nil_iff].
      rewrite Hupd. apply Forall_forall. intros r (r0 & -> & _)%list_elem_of_fmap c Hc.
      by apply row_val_update_row_in.
    + apply IH.
      * rewrite Hupd. intros Hnil%fmap_nil_inv. done.
      * rewrite last_app in Hlast.
        destruct (last (q :: qs)) as [y|] eqn:El; [done|].
        by apply last_None in El.
  - rewrite (rows_at_other _ _ _ Hne) in Hlast. simpl in Hlast.
    destruct (conflicts pk p0 rows).
    + apply IH; [|done]. fold upd. unfold upd. by rewrite rows_at_update.
    + apply IH; [|done]. by rewrite rows_at_app, rows_at_other, app_nil_r.
Qed.

Lemma fingerprint_at_unchanged w w' engine t pk data k :
  unchanged_at engine w w' →
  fingerprint_at w' engine t pk data k = fingerprint_at w engine t pk data k.
Proof.
  intros Hu. apply fingerprint_at_rows. by rewrite (stored_rows_unchanged_at w w').
Qed.

Lemma insert_rows_ok pe pt rows ig w n w' pk :
  insert_rows pe pt rows ig w = (Ok n, w') →
  stored_pk w pe (name pt) = Some pk →
  (∀ e, e ≠ pe → dbs w' !! e = dbs w !! e) ∧
  stored_pk w' pe (name pt) = Some pk ∧
  ∃ rows', insert_all pk ig (map (filter_row pt) rows) (stored_rows w pe (name pt)) = Ok rows' ∧
    stored_rows w' pe (name pt) = rows'.
Proof.
  intros Hrun Hspk. unfold insert_rows in Hrun.
  destruct rows as [|r0 rows0] eqn:Er.
  { injection Hrun as <- <-. split; [done|]. split; [done|]. by eexists. }
  rewrite <- Er in *. clear Er.
  apply bind_ok_inv in Hrun as ([] & w1 & Hex & [= _ <-]).
  apply execute_ok_inv in Hex as (db & db' & Hdb & Hs & Hd & _ & _).
  unfold sem_insert in Hs.
  destruct (table_data db (name pt)) as [td|] eqn:Etd; [|done].
  apply table_data_ok in Etd.
  destruct (insert_all _ _ _ _) as [rows'|] eqn:Ei; [|done]. injection Hs as <-.
  rewrite (stored_pk_lookup _ _ _ _ _ _ Hdb Etd Hspk) in Ei.
  split; [intros e He; by rewrite Hd, lookup_insert_ne|].
  split.
  - unfold stored_pk. rewrite Hd, lookup_insert_eq. simpl. rewrite lookup_insert_eq. simpl.
    by rewrite (stored_pk_lookup _ _ _ _ _ _ Hdb Etd Hspk).
  - exists rows'. rewrite (stored_rows_lookup _ _ _ _ _ Hdb Etd). split; [done|].
    unfold stored_rows. rewrite Hd, lookup_insert_eq. simpl. by rewrite lookup_insert_eq.
Qed.

Lemma delete_rows_ok pe pt pk batch w n w' :
  delete_rows_by_pks pe pt pk batch w = (Ok n, w') →
  (∀ e, e ≠ pe → dbs w' !! e = dbs w !! e) ∧
  stored_pk w' pe (name pt) = stored_pk w pe (name pt) ∧
  (batch = [] ∧ stored_rows w' pe (name pt) = stored_rows w pe (name pt) ∨
   stored_rows w' pe (name pt)
   = List.filter (λ r, negb (in_condition pk batch r)) (stored_rows w pe (name pt))).
Proof.
  intros Hrun. unfold delete_rows_by_pks in Hrun.
  destruct batch as [|k0 batch0] eqn:Eb.
  { injection Hrun as <- <-. split; [done|]. split; [done|]. by left. }
  rewrite <- Eb in *. clear Eb.
  apply bind_ok_inv in Hrun as ([] & w1 & [-> _]%table_c_ok & Hrun).
  apply bind_ok_inv in Hrun as (deleted & w2 & Hex & [= _ <-]).
  apply execute_ok_inv in Hex as (db & db' & Hdb & Hs & Hd & _ & _).
  unfold sem_delete in Hs.
  destruct (table_data db (name pt)) as [td|] eqn:Etd; [|done].
  apply table_data_ok in Etd. injection Hs as _ <-.
  split; [intros e He; by rewrite Hd, lookup_insert_ne|].
  split.
  - unfold stored_pk. rewrite Hd, Hdb, lookup_insert_eq. simpl.
    by rewrite Etd, lookup_insert_eq.
  - right. rewrite (stored_rows_lookup _ _ _ _ _ Hdb Etd).
    unfold stored_rows. rewrite Hd, lookup_insert_eq. simpl. by rewrite lookup_insert_eq.
Qed.

(** A loop over batches of keys whose body, on each batch, leaves the
    local database and the rows of every other key alone: what it
    establishes for the keys of a batch holds for all keys at the end. *)
Section LoopByKey.
Context (le pe : string) (pt : Table) (pk : list string).
Context {S : Type} (body : S → list PKTuple → M S).
Context (Inv : World → Prop) (Pre Post : World → PKTuple → Prop).

Let rows_kept (k : PKTuple) (w w' : World) : Prop :=
  rows_at pk k (stored_rows w' pe (name pt)) = rows_at pk k (stored_rows w pe (name pt)).

Hypothesis Inv_kept : ∀ w w', unchanged_at le w w' → Inv w → Inv w'.
Hypothesis Pre_kept : ∀ w w' k,
  unchanged_at le w w' → rows_kept k w w' → Pre w k → Pre w' k.
Hypothesis Post_kept : ∀ w w' k,
  unchanged_at le w w' → rows_kept k w w' → Post w k → Post w' k.
Hypothesis body_spec : ∀ acc batch w n w',
  body acc batch w = (Ok n, w') →
  stored_pk w pe (name pt) = Some pk → Inv w → (∀ k, k ∈ batch → Pre w k) →
  unchanged_at le w w' ∧ stored_pk w' pe (name pt) = Some pk ∧
  (∀ k, k ∉ batch → rows_kept k w w') ∧
  (∀ k, k ∈ batch → Post w' k).

Lemma for_loop_by_key batches acc w n w' :
  for_loop batches body acc w = (Ok n, w') →
  NoDup (concat batches) →
  stored_pk w pe (name pt) = Some pk → Inv w →
  (∀ k, k ∈ concat batches → Pre w k) →
  unchanged_at le w w' ∧ stored_pk w' pe (name pt) = Some pk ∧
  (∀ k, k ∉ concat batches → rows_kept k w w') ∧
  (∀ k, k ∈ concat batches → Post w' k).
Proof.
  revert acc w. induction batches as [|b bs IH]; intros acc w; simpl.
  - intros [= _ <-] _ Hspk _ _. split; [done|]. split; [done|].
    split; [done|]. by intros k ?%elem_of_nil.
  - intros (a1 & w1 & Hb & Hrest)%bind_ok_inv [Hndb [Hdisj Hndbs]]%NoDup_app Hspk Hinv Hpre.
    destruct (body_spec _ _ _ _ _ Hb Hspk Hinv) as (Hu1 & Hspk1 & Hkept1 & Hpost1).
    { intros k Hk. apply Hpre, elem_of_app. by left. }
    destruct (IH _ _ Hrest Hndbs Hspk1) as (Hu2 & Hspk2 & Hkept2 & Hpost2).
    { by eapply Inv_kept. }
    { intros k Hk. eapply Pre_kept; [done| |].
      - apply Hkept1. intros Hkb. by apply (Hdisj k).
      - apply Hpre, elem_of_app. by right. }
    split; [by etrans|]. split; [done|]. split.
    + intros k [Hkb Hkbs]%not_elem_of_app. unfold rows_kept.
      rewrite (Hkept2 k Hkbs). by apply Hkept1.
    + intros k [Hkb|Hkbs]%elem_of_app; [|by apply Hpost2].
      eapply Post_kept; [done| |by apply Hpost1].
      apply Hkept2. intros Hkbs. by apply (Hdisj k).
Qed.

Lemma for_chunks_by_key xs size acc w n w' :
  0 < size →
  for_chunks xs size body acc w = (Ok n, w') →
  NoDup xs →
  stored_pk w pe (name pt) = Some pk → Inv w →
  (∀ k, k ∈ xs → Pre w k) →
  unchanged_at le w w' ∧ stored_pk w' pe (name pt) = Some pk ∧
  (∀ k, k ∉ xs → rows_kept k w w') ∧
  (∀ k, k ∈ xs → Post w' k).
Proof.
  intros Hsize Hrun.
  destruct (for_chunks_run xs size body acc Hsize) as (batches & <- & Heq).
  rewrite Heq in Hrun. by eapply for_loop_by_key.
Qed.
End LoopByKey.

Section DataAfterSync.
Context (le pe : string) (lt pt : Table) (pk data : list string) (opts : SyncOptions).
Hypothesis engines_differ : le ≠ pe.
Hypothesis pk_given : pk ≠ [].
Hypothesis pk_not_computed : ∀ c, c ∈ pk → c ∉ get_computed_column_names lt.
Hypothesis pk_allowed : ∀ c, c ∈ pk → c ∈ allowed_cols pt.
Hypothesis pk_not_data : ∀ c, c ∈ pk → c ∉ data.
Hypothesis data_local : ∀ c, c ∈ data → c ∈ map col_name (columns lt).
Hypothesis data_not_computed : ∀ c, c ∈ data → c ∉ get_computed_column_names lt.
Hypothesis data_allowed : ∀ c, c ∈ data → c ∈ allowed_cols pt.

Let agree (w : World) (k : PKTuple) : Prop :=
  fingerprint_at w pe (name pt) pk data k = fingerprint_at w le (name lt) pk data k.

Lemma agree_kept w w' k :
  unchanged_at le w w' →
  rows_at pk k (stored_rows w' pe (name pt)) = rows_at pk k (stored_rows w pe (name pt)) →
  agree w k → agree w' k.
Proof.
  intros Hu Hr Ha. unfold agree.
  by rewrite (fingerprint_at_rows w w' pe), (fingerprint_at_unchanged w w' le).
Qed.

(** One round of the insert loop, for keys the production table does
    not have and a local table with one row per key. *)
Lemma insert_batch_data acc batch w n w' :
  insert_batch le pe lt pt pk opts acc batch w = (Ok n, w') →
  stored_pk w pe (name pt) = Some pk →
  NoDup (map (row_key pk) (stored_rows w le (name lt))) →
  (∀ k, k ∈ batch → length k = length pk ∧
     rows_at pk k (stored_rows w pe (name pt)) = []) →
  unchanged_at le w w' ∧ stored_pk w' pe (name pt) = Some pk ∧
  (∀ k, k ∉ batch →
     rows_at pk k (stored_rows w' pe (name pt)) = rows_at pk k (stored_rows w pe (name pt))) ∧
  (∀ k, k ∈ batch → agree w' k).
Proof.
  intros Hrun Hspk Hnd Hpre. unfold insert_batch in Hrun.
  apply bind_ok_inv in Hrun as (rows & w1 & Hf & Hrun).
  apply bind_ok_inv in Hrun as (inserted & w2 & Hi & [= _ <-]).
  destruct (decide (batch = [])) as [->|Hne].
  { injection Hf as <- <-. injection Hi as _ <-.
    split; [done|]. split; [done|]. split; [done|]. by intros k ?%elem_of_nil. }
  assert (Hlen : ∀ k, k ∈ batch → length k = length pk) by (intros k Hk; by apply Hpre).
  pose proof (fetch_rows_ok _ _ _ _ _ _ _ Hne Hf) as ([Hd1 _] & _ & Hcols & Hrows).
  rewrite <- (stored_pk_same_dbs w w1) in Hspk by done.
  destruct (insert_rows_ok _ _ _ _ _ _ _ _ Hi Hspk) as (Hother & Hspk2 & rows' & Hins & Hrows2).
  rewrite (stored_rows_same_dbs w w1) in Hins by done.
  set (f := λ r, filter_row pt (select_columns (columns lt) r)).
  set (found := List.filter (in_condition pk batch) (stored_rows w le (name lt))) in *.
  assert (Hpay : map (filter_row pt) rows = map f found).
  { rewrite Hrows. by rewrite <- list_fmap_compose. }
  assert (Hf_key : ∀ r, row_key pk (f r) = row_key pk r).
  { intros r. unfold f. by rewrite row_key_filter_row, row_key_select_columns. }
  assert (Hkeys : map (row_key pk) (map f found) = map (row_key pk) found).
  { rewrite <- list_fmap_compose. apply list_fmap_ext. intros i r _. apply Hf_key. }
  assert (Hin_batch : ∀ k, k ∈ map (row_key pk) found → k ∈ batch).
  { intros k (r & -> & Hr%list_elem_of_In)%list_elem_of_fmap.
    apply filter_In in Hr as [_ Hr]. rewrite in_condition_key in Hr by done.
    by apply bool_decide_eq_true in Hr. }
  rewrite Hpay in Hins.
  rewrite insert_all_fresh in Hins.
  2:{ rewrite Hkeys.
      apply (sublist_NoDup _ (map (row_key pk) (stored_rows w le (name lt)))).
      - done.
      - apply fmap_sublist, filter_sublist. }
  2:{ intros p (r & -> & Hr)%list_elem_of_fmap. rewrite Hf_key.
      apply Hpre, Hin_batch, list_elem_of_fmap. by exists r. }
  injection Hins as <-.
  assert (Hu : unchanged_at le w w2).
  { unfold unchanged_at. rewrite Hother by done. by rewrite Hd1. }
  split; [done|]. split; [done|]. split.
  - intros k Hk. rewrite Hrows2, rows_at_app.
    rewrite (proj2 (rows_at_nil_iff pk k (map f found))), app_nil_r; [done|].
    rewrite Hkeys. intros Hin. by apply Hk, Hin_batch.
  - intros k Hk. unfold agree, fingerprint_at.
    rewrite Hrows2, rows_at_app, (proj2 (Hpre k Hk)). simpl.
    rewrite rows_at_map by done. unfold found.
    rewrite rows_at_filter_member by done.
    rewrite fmap_last, <- option_fmap_compose.
    rewrite (stored_rows_unchanged_at w w2 le) by done.
    apply option_fmap_ext. intros r. simpl. apply row_fingerprint_ext.
    intros c Hc. unfold f.
    rewrite row_val_filter_row, row_val_select_columns; auto.
Qed.

(** One round of the update loop, for keys both tables have. *)
Lemma update_batch_data acc batch w n w' :
  update_batch le pe lt pt pk data acc batch w = (Ok n, w') →
  stored_pk w pe (name pt) = Some pk →
  (∀ k, k ∈ batch → length k = length pk ∧
     rows_at pk k (stored_rows w le (name lt)) ≠ [] ∧
     rows_at pk k (stored_rows w pe (name pt)) ≠ []) →
  unchanged_at le w w' ∧ stored_pk w' pe (name pt) = Some pk ∧
  (∀ k, k ∉ batch →
     rows_at pk k (stored_rows w' pe (name pt)) = rows_at pk k (stored_rows w pe (name pt))) ∧
  (∀ k, k ∈ batch → agree w' k).
Proof.
  intros Hrun Hspk Hpre.
  assert (Hlen : ∀ k, k ∈ batch → length k = length pk) by (intros k Hk; by apply Hpre).
  assert (Hloc : ∀ k, k ∈ batch → rows_at pk k (stored_rows w le (name lt)) ≠ [])
    by (intros k Hk; by apply Hpre).
  destruct (update_batch_spec le pe lt pt pk data engines_differ pk_not_computed
              pk_not_data _ _ _ _ _ Hlen Hloc Hspk Hrun) as (Hu & Hspk' & _ & Hkept).
  split; [done|]. split; [done|]. split; [done|].
  intros k Hk. unfold update_batch in Hrun.
  apply bind_ok_inv in Hrun as (dl & w1 & Hl & Hrun).
  apply fetch_hashes_ok in Hl as ([Hd1 _] & _ & Hdl); [|done].
  apply bind_ok_inv in Hrun as (dp & w2 & Hp & Hrun).
  apply fetch_hashes_ok in Hp as ([Hd2 _] & _ & Hdp); [|done].
  assert (Hd12 : dbs w2 = dbs w) by congruence.
  set (changed := changed_pks dl dp batch) in *.
  assert (Hsame : k ∉ changed → agree w k).
  { intros Hnot. unfold agree.
    destruct (decide (dl !! k = dp !! k)) as [Heq|Hneq].
    - rewrite Hdl, Hdp in Heq by done. rewrite Heq.
      apply fingerprint_at_rows. by rewrite (stored_rows_same_dbs w w1).
    - destruct Hnot. by apply elem_of_changed_pks. }
  destruct (decide (changed = [])) as [Echanged|Hcne].
  { rewrite Echanged in Hrun. simpl in Hrun. injection Hrun as _ <-.
    eapply agree_kept; [| |apply Hsame].
    - unfold unchanged_at. by rewrite Hd12.
    - by rewrite (stored_rows_same_dbs w w2).
    - rewrite Echanged. by intros ?%elem_of_nil. }
  rewrite (is_empty_false _ Hcne) in Hrun.
  apply bind_ok_inv in Hrun as (rows & w3 & Hr & Hrun).
  apply fetch_rows_ok in Hr as ([Hd3 _] & _ & Hcols & Hrows); [|done].
  assert (Hd13 : dbs w3 = dbs w) by congruence.
  rewrite (stored_rows_same_dbs w w2) in Hrows by done.
  set (g := λ r, sanitize_row lt (select_columns (columns lt) r)).
  set (found := List.filter (in_condition pk changed) (stored_rows w le (name lt))) in *.
  assert (Hpay : map (sanitize_row lt) rows = map g found).
  { rewrite Hrows. by rewrite <- list_fmap_compose. }
  assert (Hg_key : ∀ r, row_key pk (g r) = row_key pk r).
  { intros r. unfold g. by rewrite row_key_sanitize, row_key_select_columns. }
  assert (Hclen : ∀ k, k ∈ changed → length k = length pk).
  { intros k' [Hk' _]%elem_of_changed_pks. by apply Hlen. }
  destruct (decide (k ∈ changed)) as [Hkc|Hkc].
  2:{ eapply agree_kept; [done| |by apply Hsame].
      destruct (decide (found = [])) as [Ef|Hfne].
      - rewrite Ef in Hpay. simpl in Hpay. rewrite Hpay in Hrun.
        apply bind_ok_inv in Hrun as (updated & w4 & Hu4 & [= _ <-]).
        injection Hu4 as _ <-. by rewrite (stored_rows_same_dbs w w3).
      - assert (Hpne : map (sanitize_row lt) rows ≠ []).
        { rewrite Hpay. by intros ?%fmap_nil_inv. }
        apply bind_ok_inv in Hrun as (updated & w4 & Hu4 & [= _ <-]).
        apply upsert_rows_ok in Hu4 as (_ & _ & Hprod); [|done].
        rewrite <- (stored_pk_same_dbs w w3) in Hspk by done.
        destruct (Hprod pk Hspk) as [_ Hrows4].
        rewrite Hrows4, upsert_all_frame, (stored_rows_same_dbs w w3); [done..|].
        rewrite Hpay, <- list_fmap_compose.
        intros (r & -> & Hrf%list_elem_of_In)%list_elem_of_fmap. simpl in Hkc.
        rewrite Hg_key in Hkc. apply filter_In in Hrf as [_ Hrf].
        rewrite in_condition_key in Hrf by done.
        by apply bool_decide_eq_true in Hrf. }
  destruct (Hpre k Hk) as (_ & Hkl & Hkp).
  assert (Hat : rows_at pk k (map g found) = map g (rows_at pk k (stored_rows w le (name lt)))).
  { rewrite rows_at_map by done. unfold found. by rewrite rows_at_filter_member. }
  assert (Hpne : map (sanitize_row lt) rows ≠ []).
  { rewrite Hpay. intros Hnil. rewrite Hnil in Hat. simpl in Hat.
    symmetry in Hat. by apply fmap_nil_inv in Hat. }
  apply bind_ok_inv in Hrun as (updated & w4 & Hu4 & [= _ <-]).
  apply upsert_rows_ok in Hu4 as (_ & _ & Hprod); [|done].
  rewrite <- (stored_pk_same_dbs w w3) in Hspk by done.
  destruct (Hprod pk Hspk) as [_ Hrows4].
  destruct (last (rows_at pk k (stored_rows w le (name lt)))) as [rl|] eqn:Elast.
  2:{ by apply last_None in Elast. }
  assert (Hlastp : last (rows_at pk k (map g found)) = Some (g rl)).
  { by rewrite Hat, fmap_last, Elast. }
  rewrite <- Hpay in Hlastp.
  pose proof (upsert_all_data pk data (map (sanitize_row lt) rows)
                (stored_rows w3 pe (name pt)) k (g rl) pk_given pk_not_data) as Hall.
  rewrite (stored_rows_same_dbs w w3) in Hall by done.
  specialize (Hall Hkp Hlastp).
  unfold agree, fingerprint_at.
  rewrite (stored_rows_unchanged_at w w4 le) by done.
  rewrite Elast, Hrows4, (stored_rows_same_dbs w w3) by done. simpl.
  destruct (last (rows_at pk k (upsert_all pk data (map (sanitize_row lt) rows)
                                  (stored_rows w pe (name pt))))) as [rp|] eqn:Elp.
  2:{ apply last_None in Elp.
      by apply (upsert_all_nonempty pk data (map (sanitize_row lt) rows)) in Hkp. }
  simpl. f_equal. apply row_fingerprint_ext. intros c Hc.
  apply last_Some in Elp as (rs & Elp). rewrite Elp in Hall.
  apply Forall_app in Hall as [_ Hall]. rewrite Forall_singleton in Hall.
  rewrite (Hall c Hc). unfold g.
  rewrite row_val_sanitize, row_val_select_columns; auto.
Qed.

(** One round of the delete loop. *)
Lemma delete_batch_data acc batch w n w' :
  delete_batch pe pt pk acc batch w = (Ok n, w') →
  stored_pk w pe (name pt) = Some pk →
  (∀ k, k ∈ batch → length k = length pk) →
  unchanged_at le w w' ∧ stored_pk w' pe (name pt) = Some pk ∧
  (∀ k, k ∉ batch →
     rows_at pk k (stored_rows w' pe (name pt)) = rows_at pk k (stored_rows w pe (name pt))) ∧
  (∀ k, k ∈ batch → True).
Proof.
  intros Hrun Hspk Hlen. unfold delete_batch in Hrun.
  apply bind_ok_inv in Hrun as (deleted & w1 & Hd & [= _ <-]).
  apply delete_rows_ok in Hd as (Hother & Hspk1 & Hrows).
  split; [unfold unchanged_at; by apply Hother|].
  split; [by rewrite Hspk1|]. split; [|done].
  intros k Hk. destruct Hrows as [[_ Hr] | Hr]; rewrite Hr; [done|]. by apply rows_at_delete.
Qed.
End DataAfterSync.

Lemma fingerprint_at_same_rows w w' engine t pk data k :
  same_rows w w' →
  fingerprint_at w' engine t pk data k = fingerprint_at w engine t pk data k.
Proof. intros Hr. unfold fingerprint_at. by rewrite Hr. Qed.

(** A phase of [apply_plan]: the line it logs, then the loop. *)
Lemma logged_chunks_by_key le pe pt pk (body : Z → list PKTuple → M Z)
    (Inv : World → Prop) (Pre Post : World → PKTuple → Prop)
    lvl fmt args xs size acc w n w' :
  (∀ w w', unchanged_at le w w' → Inv w → Inv w') →
  (∀ w w' k, unchanged_at le w w' →
     rows_at pk k (stored_rows w' pe (name pt)) = rows_at pk k (stored_rows w pe (name pt)) →
     Pre w k → Pre w' k) →
  (∀ w w' k, unchanged_at le w w' →
     rows_at pk k (stored_rows w' pe (name pt)) = rows_at pk k (stored_rows w pe (name pt)) →
     Post w k → Post w' k) →
  (∀ acc batch w n w',
     body acc batch w = (Ok n, w') →
     stored_pk w pe (name pt) = Some pk → Inv w → (∀ k, k ∈ batch → Pre w k) →
     unchanged_at le w w' ∧ stored_pk w' pe (name pt) = Some pk ∧
     (∀ k, k ∉ batch →
        rows_at pk k (stored_rows w' pe (name pt))
        = rows_at pk k (stored_rows w pe (name pt))) ∧
     (∀ k, k ∈ batch → Post w' k)) →
  0 < size →
  (logging lvl fmt args;; for_chunks xs size body acc) w = (Ok n, w') →
  NoDup xs → stored_pk w pe (name pt) = Some pk → Inv w →
  (∀ k, k ∈ xs → Pre w k) →
  unchanged_at le w w' ∧ stored_pk w' pe (name pt) = Some pk ∧
  (∀ k, k ∉ xs →
     rows_at pk k (stored_rows w' pe (name pt)) = rows_at pk k (stored_rows w pe (name pt))) ∧
  (∀ k, k ∈ xs → Post w' k).
Proof.
  intros HInv HPre HPost Hbody Hsize Hrun Hnd Hspk Hinv Hpre.
  rewrite bind_run, logging_run in Hrun.
  match type of Hrun with for_chunks _ _ _ _ ?w0 = _ =>
    set (wl := w0) in *; assert (Hwl : dbs wl = dbs w) by done end.
  assert (Hul : unchanged_at le w wl) by (unfold unchanged_at; by rewrite Hwl).
  assert (Hrl : ∀ k, rows_at pk k (stored_rows wl pe (name pt))
                     = rows_at pk k (stored_rows w pe (name pt)))
    by (intros k; by rewrite (stored_rows_same_dbs w wl)).
  destruct (for_chunks_by_key le pe pt pk body Inv Pre Post HInv HPre HPost Hbody
              xs size acc wl n w' Hsize Hrun Hnd) as (Hu & Hspk' & Hkept & Hpost).
  - by rewrite (stored_pk_same_dbs w wl).
  - by eapply HInv.
  - intros k Hk. eapply HPre; [done|apply Hrl|by apply Hpre].
  - split; [by etrans|]. split; [done|]. split; [|done].
    intros k Hk. by rewrite (Hkept k Hk).
Qed.

(** What [apply_plan] leaves in the production table, for a local table
    with one row per key whose data columns the production table
    takes: row by row the fingerprint of the local row. *)
Lemma apply_plan_data le pe lt pt pk opts w w' :
  let data := get_updatable_column_names lt pk in
  le ≠ pe → pk ≠ [] →
  (∀ c, c ∈ pk → c ∉ get_computed_column_names lt) →
  (∀ c, c ∈ pk → c ∈ map col_name (columns lt)) →
  (∀ c, c ∈ pk → c ∈ allowed_cols pt) →
  (∀ c, c ∈ data → c ∈ allowed_cols pt) →
  0 < batch_size opts →
  stored_pk w pe (name pt) = Some pk →
  NoDup (map (row_key pk) (stored_rows w le (name lt))) →
  apply_plan le pe lt pt pk opts
    (diff_keys (key_set w le (name lt) pk) (key_set w pe (name pt) pk)) w = (Ok tt, w') →
  unchanged_at le w w' ∧
  ∀ k, fingerprint_at w' pe (name pt) pk data k = fingerprint_at w le (name lt) pk data k.
Proof.
  intros data Hne Hpk Hpkc Hpkl Hallowed Hdata Hsize Hspk Hnd Hrun.
  pose proof (apply_plan_keys _ _ _ _ _ _ _ _ Hne Hpkc Hallowed Hsize Hspk Hrun) as Hkeys.
  set (L := key_set w le (name lt) pk) in *.
  set (R := key_set w pe (name pt) pk) in *.
  set (agree := λ (w : World) (k : PKTuple),
         fingerprint_at w pe (name pt) pk data k = fingerprint_at w le (name lt) pk data k).
  set (kept := λ (k : PKTuple) (w w' : World),
         rows_at pk k (stored_rows w' pe (name pt)) = rows_at pk k (stored_rows w pe (name pt))).
  assert (Hagree_kept : ∀ w w' k, unchanged_at le w w' → kept k w w' → agree w k → agree w' k).
  { intros u u' k Hu Hr Ha. unfold agree.
    by rewrite (fingerprint_at_rows u u' pe), (fingerprint_at_unchanged u u' le). }
  assert (Hpd : ∀ c, c ∈ pk → c ∉ data) by (intros c Hc; by apply updatable_not_pk).
  assert (Hdl : ∀ c, c ∈ data → c ∈ map col_name (columns lt))
    by (by intros c (? & _ & _)%elem_of_updatable).
  assert (Hdc : ∀ c, c ∈ data → c ∉ get_computed_column_names lt)
    by (by intros c (_ & _ & ?)%elem_of_updatable).
  unfold apply_plan in Hrun. simpl in Hrun.
  apply bind_ok_inv in Hrun as (n1 & w1 & H1 & Hrun).
  apply bind_ok_inv in Hrun as (n2 & w2 & H2 & Hrun).
  apply bind_ok_inv in Hrun as (n3 & w3 & H3 & [= <-]).
  (* the insert phase *)
  assert (P1 : unchanged_at le w w1 ∧ stored_pk w1 pe (name pt) = Some pk ∧
               (∀ k, k ∉ sorted (elements (L ∖ R)) → kept k w w1) ∧
               (∀ k, k ∈ sorted (elements (L ∖ R)) → agree w1 k)).
  { destruct (sorted (elements (L ∖ R))) as [|k0 ks] eqn:Eins.
    { injection H1 as _ <-. split; [done|]. split; [done|]. split; [done|].
      by intros k ?%elem_of_nil. }
    rewrite <- Eins in *. rewrite is_empty_false in H1 by (by rewrite Eins).
    eapply (logged_chunks_by_key le pe pt pk _
              (λ u, NoDup (map (row_key pk) (stored_rows u le (name lt))))
              (λ u k, length k = length pk ∧ rows_at pk k (stored_rows u pe (name pt)) = [])
              agree); [| | | |exact Hsize|exact H1| | | |].
    - intros u u' Hu. by rewrite (stored_rows_unchanged_at u u').
    - intros u u' k _ Hr [? ?]. split; [done|]. by rewrite Hr.
    - done.
    - intros acc batch u n u' Hb Hs Hi Hp.
      by eapply (insert_batch_data le pe lt pt pk data opts).
    - apply NoDup_sorted, NoDup_elements.
    - done.
    - done.
    - intros k [Hkl Hkr]%elem_of_sorted%elem_of_elements%elem_of_difference.
      split; [by apply (key_set_length w le (name lt))|].
      destruct (rows_at pk k (stored_rows w pe (name pt))) eqn:E; [done|].
      destruct Hkr. apply elem_of_key_set. by rewrite E. }
  destruct P1 as (Hu1 & Hspk1 & Hkept1 & Hpost1).
  (* the update phase *)
  assert (P2 : unchanged_at le w1 w2 ∧ stored_pk w2 pe (name pt) = Some pk ∧
               (∀ k, k ∉ sorted (elements (L ∩ R)) → kept k w1 w2) ∧
               (∀ k, k ∈ sorted (elements (L ∩ R)) → agree w2 k)).
  { assert (Hboth : ∀ k, k ∈ sorted (elements (L ∩ R)) →
              length k = length pk ∧
              rows_at pk k (stored_rows w1 le (name lt)) ≠ [] ∧
              rows_at pk k (stored_rows w1 pe (name pt)) ≠ []).
    { intros k [Hkl Hkr]%elem_of_sorted%elem_of_elements%elem_of_intersection.
      split; [by apply (key_set_length w le (name lt))|]. split.
      - rewrite (stored_rows_unchanged_at w w1) by done. by apply elem_of_key_set.
      - rewrite Hkept1; [by apply elem_of_key_set|].
        intros [_ Hn]%elem_of_sorted%elem_of_elements%elem_of_difference. done. }
    destruct (sorted (elements (L ∩ R))) as [|k0 ks] eqn:Eov.
    { injection H2 as _ <-. split; [done|]. split; [done|]. split; [done|].
      by intros k ?%elem_of_nil. }
    rewrite <- Eov in *. rewrite is_empty_false in H2 by (by rewrite Eov).
    fold data in H2.
    destruct (decide (data = [])) as [Edata|Hdne].
    { assert (is_empty data = true) as Hie by (by rewrite Edata).
      rewrite Hie in H2. injection H2 as _ <-.
      split; [done|]. split; [done|]. split; [done|].
      intros k Hk. destruct (Hboth k Hk) as (_ & Hl & Hp). unfold agree, fingerprint_at.
      destruct (last (rows_at pk k (stored_rows w1 pe (name pt)))) eqn:E1;
        [|by apply last_None in E1].
      destruct (last (rows_at pk k (stored_rows w1 le (name lt)))) eqn:E2;
        [|by apply last_None in E2].
      by rewrite Edata. }
    rewrite (is_empty_false _ Hdne) in H2.
    eapply (logged_chunks_by_key le pe pt pk _
              (λ _, True)
              (λ u k, length k = length pk ∧
                 rows_at pk k (stored_rows u le (name lt)) ≠ [] ∧
                 rows_at pk k (stored_rows u pe (name pt)) ≠ [])
              agree); [| | | |exact Hsize|exact H2| | | |].
    - done.
    - intros u u' k Hu Hr (? & ? & ?). split; [done|].
      rewrite Hr, (stored_rows_unchanged_at u u') by done. done.
    - done.
    - intros acc batch u n u' Hb Hs _ Hp.
      by eapply (update_batch_data le pe lt pt pk data).
    - apply NoDup_sorted, NoDup_elements.
    - done.
    - done.
    - done. }
  destruct P2 as (Hu2 & Hspk2 & Hkept2 & Hpost2).
  (* the delete phase *)
  assert (P3 : unchanged_at le w2 w3 ∧
               (∀ k, k ∉ sorted (elements (R ∖ L)) → kept k w2 w3)).
  { destruct (sorted (elements (R ∖ L))) as [|k0 ks] eqn:Edel.
    { by injection H3 as _ <-. }
    rewrite <- Edel in *. rewrite is_empty_false in H3 by (by rewrite Edel).
    assert (unchanged_at le w2 w3 ∧ stored_pk w3 pe (name pt) = Some pk ∧
            (∀ k, k ∉ sorted (elements (R ∖ L)) → kept k w2 w3) ∧
            (∀ k, k ∈ sorted (elements (R ∖ L)) → True)) as (? & _ & ? & _); [|done].
    eapply (logged_chunks_by_key le pe pt pk _
              (λ _, True) (λ _ k, length k = length pk) (λ _ _, True));
      [| | | |exact Hsize|exact H3| | | |].
    - done.
    - done.
    - done.
    - intros acc batch u n u' Hb Hs _ Hp.
      by eapply (delete_batch_data le pe pt pk).
    - apply NoDup_sorted, NoDup_elements.
    - done.
    - done.
    - intros k [Hkr _]%elem_of_sorted%elem_of_elements%elem_of_difference.
      by apply (key_set_length w pe (name pt)). }
  destruct P3 as (Hu3 & Hkept3).
  assert (Hu : unchanged_at le w w3) by (etrans; [|done]; by etrans).
  split; [done|]. intros k.
  destruct (decide (k ∈ L)) as [Hk|Hk].
  2:{ assert (Hkp : k ∉ key_set w3 pe (name pt) pk).
      { intros Hin. apply Hk. rewrite <- Hkeys. exact Hin. }
      unfold L in Hk. rewrite elem_of_key_set in Hk, Hkp. apply dec_stable in Hk, Hkp.
      unfold fingerprint_at.
      change (stored_rows _ pe (name pt)) with (stored_rows w3 pe (name pt)).
      by rewrite Hk, Hkp. }
  assert (Hk3 : kept k w2 w3).
  { apply Hkept3. intros [_ Hn]%elem_of_sorted%elem_of_elements%elem_of_difference. done. }
  assert (agree w3 k) as Ha; [|unfold agree in Ha;
    by rewrite (fingerprint_at_unchanged w w3 le) in Ha].
  apply (Hagree_kept w2 w3); [done..|].
  destruct (decide (k ∈ R)) as [HR|HR].
  - apply Hpost2. apply elem_of_sorted, elem_of_elements, elem_of_intersection. done.
  - apply (Hagree_kept w1 w2); [done| |].
    + apply Hkept2. intros [_ ?]%elem_of_sorted%elem_of_elements%elem_of_intersection. done.
    + apply Hpost1. apply elem_of_sorted, elem_of_elements, elem_of_difference. done.
Qed.

(** The steps of a real run of [sync_table] that returns: the plan is
    made from the keys of the two tables as they were and applied, and
    nothing else touches a row. *)
Lemma sync_table_ok_inv le pe lt pt opts w w' :
  let pk := primary_key lt in
  sync_table le pe lt pt opts w = (Ok tt, w') →
  dry_run opts = false → pk ≠ [] →
  ∃ w4 w5,
    same_rows w w4 ∧ same_schemas w w4 ∧
    apply_plan le pe lt pt pk opts
      (diff_keys (key_set w4 le (name lt) pk) (key_set w4 pe (name pt) pk)) w4 = (Ok tt, w5) ∧
    same_rows w5 w' ∧
    (∀ c, c ∈ pk → c ∈ map col_name (columns lt)) ∧
    (∀ c, c ∈ pk → c ∈ map col_name (columns pt)).
Proof.
  intros pk Hrun Hdry Hpk.
  unfold sync_table, get_primary_key_column_names in Hrun. fold pk in Hrun.
  rewrite (is_empty_false _ Hpk), Hdry in Hrun.
  rewrite bind_run, logging_run in Hrun.
  match type of Hrun with (_ ≫= _) ?x = _ =>
    set (w0 := x) in *; assert (Hw0 : dbs w0 = dbs w) by done end.
  apply bind_ok_inv in Hrun as (L & w1 & Hl & Hrun).
  apply fetch_pk_values_ok in Hl as (-> & [Hd1 _] & Hcl); [|done].
  apply bind_ok_inv in Hrun as (R & w2 & Hp & Hrun).
  apply fetch_pk_values_ok in Hp as (-> & [Hd2 _] & Hcp); [|done].
  rewrite bind_run, logging_run in Hrun.
  match type of Hrun with (_ ≫= _) ?x = _ =>
    set (w3 := x) in *; assert (Hw3 : dbs w3 = dbs w2) by done end.
  apply bind_ok_inv in Hrun as ([] & w4 & Hfk & Hrun).
  apply set_fk_quiet in Hfk as [Hr4 Hs4].
  apply try_finally_ok_inv in Hrun as (w5 & Hplan & Hfin).
  apply set_fk_quiet in Hfin as [Hr5 _].
  assert (Hdw3 : dbs w3 = dbs w) by congruence.
  assert (Hrows4 : same_rows w w4).
  { intros e t. by rewrite (Hr4 e t), (stored_rows_same_dbs w w3). }
  exists w4, w5. split; [done|]. split.
  { intros e t. by rewrite (Hs4 e t), (stored_pk_same_dbs w w3). }
  split; [|done].
  rewrite !(key_set_same_rows w w4) by done.
  rewrite (key_set_same_dbs w w0), (key_set_same_dbs w w1) in Hplan by congruence.
  done.
Qed.

(** X23. A real run of [sync_table] without INSERT IGNORE that returns
    brings the production table to the data of the local table:
    afterwards the two tables hold the same keys and, key by key, rows
    with the same fingerprint over the data columns.  Without IGNORE the
    server raises on a row it cannot store instead of skipping it.  The
    keys are integers, the local table holds one row per key, the
    production table takes every data column of the local one (it has
    the column and does not generate it) and declares the same key; the
    batch size is positive and the two engines are different servers. *)
Theorem sync_table_brings_data
    (local_engine prod_engine : string) (local_table prod_table : Table)
    (options : SyncOptions) (w w' : World) :
  let pk := primary_key local_table in
  let data := get_updatable_column_names local_table pk in
  sync_table local_engine prod_engine local_table prod_table options w = (Ok tt, w') →
  dry_run options = false → use_insert_ignore options = false →
  0 < batch_size options →
  local_engine ≠ prod_engine → pk ≠ [] →
  (∀ c, c ∈ pk → c ∉ get_computed_column_names local_table) →
  (∀ c, c ∈ pk → c ∉ get_computed_column_names prod_table) →
  (∀ c, c ∈ data → c ∈ allowed_cols prod_table) →
  stored_pk w prod_engine (name prod_table) = Some pk →
  NoDup (map (row_key pk) (stored_rows w local_engine (name local_table))) →
  integer_keys pk (stored_rows w local_engine (name local_table)) = true →
  integer_keys pk (stored_rows w prod_engine (name prod_table)) = true →
  ∀ k, fingerprint_at w' prod_engine (name prod_table) pk data k
       = fingerprint_at w local_engine (name local_table) pk data k.
Proof.
  intros pk data Hrun Hdry _ Hsize Hne Hpk Hlc Hpc Hdata Hspk Hnd _ _ k.
  destruct (sync_table_ok_inv _ _ _ _ _ _ _ Hrun Hdry Hpk)
    as (w4 & w5 & Hr4 & Hs4 & Hplan & Hr5 & Hcl & Hcp).
  fold pk in Hplan, Hcl, Hcp.
  assert (Hallowed : ∀ c, c ∈ pk → c ∈ allowed_cols prod_table).
  { intros c Hc. apply allowed_cols_intro; auto. }
  assert (Hspk4 : stored_pk w4 prod_engine (name prod_table) = Some pk).
  { by rewrite (Hs4 prod_engine (name prod_table)). }
  rewrite (fingerprint_at_same_rows w5 w') by done.
  rewrite <- (fingerprint_at_same_rows w w4 local_engine) by done.
  apply (apply_plan_data _ _ _ _ _ options); try done.
  by rewrite (Hr4 local_engine (name local_table)).
Qed.

(** *** Tables that are in step *)

Lemma in_step_same_rows le pe lt pt w w' :
  same_rows w w' → in_step le pe lt pt w → in_step le pe lt pt w'.
Proof.
  intros Hr Hs k. by rewrite !(fingerprint_at_same_rows w w').
Qed.

#[global] Instance quiet_in_step_preorder le pe lt pt : PreOrder (quiet_in_step le pe lt pt).
Proof.
  split.
  - intros w _. split; reflexivity.
  - intros w1 w2 w3 H12 H23 Hs. destruct (H12 Hs) as [Hr12 He12].
    destruct (H23 (in_step_same_rows _ _ _ _ _ _ Hr12 Hs)) as [Hr23 He23].
    split; by etrans.
Qed.

Lemma quiet_in_step_intro {A} le pe lt pt (m : M A) :
  preserves (both same_rows (emits no_mutation)) m →
  preserves (quiet_in_step le pe lt pt) m.
Proof. intros Hm w r w' Hrun _. by apply (Hm w r w'). Qed.

(** The keys of two tables in step are the same. *)
Lemma in_step_keys le pe lt pt w :
  in_step le pe lt pt w →
  key_set w pe (name pt) (primary_key lt) = key_set w le (name lt) (primary_key lt).
Proof.
  intros Hs. apply set_eq. intros k. rewrite !elem_of_key_set.
  specialize (Hs k). unfold fingerprint_at in Hs.
  destruct (rows_at _ k (stored_rows w pe _)) as [|rp rsp] eqn:Ep,
           (rows_at _ k (stored_rows w le _)) as [|rl rsl] eqn:El; try done.
  - assert (last (rl :: rsl) = None) as Hn%last_None; [|done].
    by destruct (last (rl :: rsl)).
  - assert (last (rp :: rsp) = None) as Hn%last_None; [|done].
    by destruct (last (rp :: rsp)).
Qed.

Lemma preserves_for_chunks_elem {S} (I : relation World) `{!PreOrder I}
    xs size (body : S → list PKTuple → M S) acc :
  (∀ s batch, (∀ k, k ∈ batch → k ∈ xs) → preserves I (body s batch)) →
  preserves I (for_chunks xs size body acc).
Proof.
  intros Hb. unfold for_chunks, chunked.
  destruct (decide (size = 0)); [apply preserves_raise; apply _|].
  destruct (decide (size < 0)); [apply preserves_ret; apply _|].
  apply preserves_for_loop; [apply _|].
  intros s batch (j & -> & _)%list_elem_of_fmap. apply Hb.
  intros k Hk. by apply (subseteq_drop (j * Z.to_nat size)), (subseteq_take (Z.to_nat size)).
Qed.

(** One round of the update loop on tables in step: the two mappings of
    fingerprints agree on the batch, and nothing is upserted. *)
Lemma update_batch_in_step le pe lt pt acc batch :
  let pk := primary_key lt in
  (∀ k, k ∈ batch → length k = length pk) →
  preserves (quiet_in_step le pe lt pt)
    (update_batch le pe lt pt pk (get_updatable_column_names lt pk) acc batch).
Proof.
  intros pk Hlen w r w' Hrun Hs.
  change (both same_rows (emits no_mutation) w w').
  set (data := get_updatable_column_names lt pk) in *.
  assert (HQ : ∀ engine table,
            preserves (both same_rows (emits no_mutation))
              (fetch_hashes_for_pks engine table pk data batch)).
  { intros engine table. apply preserves_both; pres. }
  unfold update_batch in Hrun.
  apply bind_inv in Hrun as [(dl & w1 & Hl & Hrun)|(e & Hl & _)]; [|by eapply HQ].
  pose proof (HQ _ _ _ _ _ Hl) as Q1.
  apply fetch_hashes_ok in Hl as ([Hd1 _] & _ & Hdl); [|done].
  apply bind_inv in Hrun as [(dp & w2 & Hp & Hrun)|(e & Hp & _)].
  2:{ etrans; [exact Q1|]. by eapply HQ. }
  pose proof (HQ _ _ _ _ _ Hp) as Q2.
  apply fetch_hashes_ok in Hp as (_ & _ & Hdp); [|done].
  assert (changed_pks dl dp batch = []) as Hnone.
  { destruct (changed_pks dl dp batch) as [|k ks] eqn:Ec; [done|].
    assert (k ∈ changed_pks dl dp batch) as [Hk Hne]%elem_of_changed_pks
      by (rewrite Ec; left).
    destruct Hne. rewrite Hdl, Hdp by done.
    rewrite (fingerprint_at_rows w w1 pe) by (by rewrite (stored_rows_same_dbs w w1)).
    symmetry. apply Hs. }
  rewrite Hnone in Hrun. simpl in Hrun. injection Hrun as _ <-. by etrans.
Qed.

(** A plan without inserts and deletes, applied to tables in step. *)
Lemma apply_plan_in_step le pe lt pt opts plan :
  let pk := primary_key lt in
  to_insert plan = [] → to_delete plan = [] →
  (∀ k, k ∈ overlap plan → length k = length pk) →
  preserves (quiet_in_step le pe lt pt) (apply_plan le pe lt pt pk opts plan).
Proof.
  intros pk Hins Hdel Hlen. unfold apply_plan. rewrite Hins, Hdel. simpl.
  apply preserves_bind; [apply _|apply preserves_ret; apply _|intros n1].
  apply preserves_bind; [apply _| |intros n2].
  { destruct (is_empty (overlap plan)); [apply preserves_ret; apply _|].
    destruct (is_empty (get_updatable_column_names lt pk)); [apply preserves_ret; apply _|].
    apply preserves_bind; [apply _| |intros []].
    - apply quiet_in_step_intro, preserves_both; pres.
    - apply preserves_for_chunks_elem; [apply _|]. intros s batch Hsub.
      apply update_batch_in_step. intros k Hk. by apply Hlen, Hsub. }
  apply preserves_bind; [apply _|apply preserves_ret; apply _|intros n3].
  apply quiet_in_step_intro, preserves_both; pres.
Qed.

Lemma sync_table_in_step le pe lt pt opts :
  preserves (quiet_in_step le pe lt pt) (sync_table le pe lt pt opts).
Proof.
  intros w r w' Hrun Hs.
  change (both same_rows (emits no_mutation) w w').
  set (pk := primary_key lt).
  assert (HQ : ∀ engine table,
            preserves (both same_rows (emits no_mutation))
              (fetch_pk_values engine table pk)).
  { intros engine table. apply preserves_both; pres. }
  unfold sync_table, get_primary_key_column_names in Hrun. fold pk in Hrun.
  destruct (decide (pk = [])) as [Epk|Hpk].
  { rewrite Epk in Hrun. simpl in Hrun. injection Hrun as _ <-.
    split; [done|]. exists []. by rewrite app_nil_r. }
  rewrite (is_empty_false _ Hpk) in Hrun.
  rewrite bind_run, logging_run in Hrun.
  match type of Hrun with (_ ≫= _) ?x = _ =>
    set (w0 := x) in *; assert (Hw0 : dbs w0 = dbs w) by done end.
  assert (Q0 : both same_rows (emits no_mutation) w w0).
  { split; [done|]. exists []. by rewrite app_nil_r. }
  apply bind_inv in Hrun as [(L & w1 & Hl & Hrun)|(e & Hl & _)].
  2:{ etrans; [exact Q0|]. by eapply HQ. }
  pose proof (HQ _ _ _ _ _ Hl) as Q1.
  apply fetch_pk_values_ok in Hl as (-> & [Hd1 _] & _); [|done].
  apply bind_inv in Hrun as [(R & w2 & Hp & Hrun)|(e & Hp & _)].
  2:{ etrans; [exact Q0|]. etrans; [exact Q1|]. by eapply HQ. }
  pose proof (HQ _ _ _ _ _ Hp) as Q2.
  apply fetch_pk_values_ok in Hp as (-> & _ & _); [|done].
  assert (Q02 : both same_rows (emits no_mutation) w w2).
  { etrans; [exact Q0|]. by etrans. }
  rewrite (key_set_same_dbs w w0), (key_set_same_dbs w w1) in Hrun by congruence.
  pose proof (in_step_keys _ _ _ _ _ Hs) as Hkeq. fold pk in Hkeq.
  rewrite Hkeq in Hrun.
  set (L := key_set w le (name lt) pk) in *.
  assert (Hrest : quiet_in_step le pe lt pt w2 w').
  { revert Hrun. match goal with |- ?m w2 = _ → _ =>
      assert (preserves (quiet_in_step le pe lt pt) m) as Hp; [|apply Hp] end.
    apply preserves_bind; [apply _| |intros []].
    { apply quiet_in_step_intro, preserves_both; pres. }
    destruct (dry_run opts); [apply preserves_ret; apply _|].
    apply preserves_bind; [apply _| |intros []].
    { apply quiet_in_step_intro, preserves_both; pres. }
    apply preserves_try_finally; [apply _| |].
    - apply apply_plan_in_step; simpl.
      + replace (L ∖ L) with (∅ : gset PKTuple); [done|].
        apply set_eq. intros k. rewrite elem_of_difference, elem_of_empty.
        split; [done|]. by intros [? ?].
      + replace (L ∖ L) with (∅ : gset PKTuple); [done|].
        apply set_eq. intros k. rewrite elem_of_difference, elem_of_empty.
        split; [done|]. by intros [? ?].
      + intros k [Hk _]%elem_of_sorted%elem_of_elements%elem_of_intersection.
        by apply (key_set_length w le (name lt)).
    - apply quiet_in_step_intro, preserves_both; pres. }
  destruct Q02 as [Hr02 He02].
  destruct (Hrest (in_step_same_rows _ _ _ _ _ _ Hr02 Hs)) as [Hr2 He2].
  split; by etrans.
Qed.

(** X24. When the two tables are in step (the same keys and, key by
    key, the same fingerprint over the data columns), [sync_table] finds
    nothing to do: it sends no INSERT, upsert or DELETE, whatever its
    options and however it ends, and every table keeps its rows. *)
Theorem sync_table_in_step_sends_nothing
    (local_engine prod_engine : string) (local_table prod_table : Table)
    (options : SyncOptions) (w : World) :
  in_step local_engine prod_engine local_table prod_table w →
  let run := sync_table local_engine prod_engine local_table prod_table options w in
  (∀ engine t, stored_rows run.2 engine t = stored_rows w engine t) ∧
  ∃ evs, trace run.2 = trace w ++ evs ∧
    Forall (λ e, is_mutation (ev_stmt e) = false) evs.
Proof.
  intros Hs run.
  destruct (sync_table local_engine prod_engine local_table prod_table options w)
    as [r w'] eqn:Hrun.
  by apply (sync_table_in_step _ _ _ _ _ _ _ _ Hrun).
Qed.

(** X25. [sync_table] is idempotent: after a real run without INSERT
    IGNORE that returned, a second run, with any options, sends no
    INSERT, upsert or DELETE and every table keeps its rows.  Without
    IGNORE the server raises on a row it cannot store instead of
    skipping it.  The keys are integers, the local table holds one row
    per key, the production table takes every data column of the local
    one and declares the same key; the batch size of the first run is
    positive and the two engines are different servers. *)
Theorem sync_table_twice
    (local_engine prod_engine : string) (local_table prod_table : Table)
    (options again : SyncOptions) (w w' : World) :
  let pk := primary_key local_table in
  let data := get_updatable_column_names local_table pk in
  sync_table local_engine prod_engine local_table prod_table options w = (Ok tt, w') →
  dry_run options = false → use_insert_ignore options = false →
  0 < batch_size options →
  local_engine ≠ prod_engine → pk ≠ [] →
  (∀ c, c ∈ pk → c ∉ get_computed_column_names local_table) →
  (∀ c, c ∈ pk → c ∉ get_computed_column_names prod_table) →
  (∀ c, c ∈ data → c ∈ allowed_cols prod_table) →
  stored_pk w prod_engine (name prod_table) = Some pk →
  NoDup (map (row_key pk) (stored_rows w local_engine (name local_table))) →
  integer_keys pk (stored_rows w local_engine (name local_table)) = true →
  integer_keys pk (stored_rows w prod_engine (name prod_table)) = true →
  let second := sync_table local_engine prod_engine local_table prod_table again w' in
  (∀ engine t, stored_rows second.2 engine t = stored_rows w' engine t) ∧
  ∃ evs, trace second.2 = trace w' ++ evs ∧
    Forall (λ e, is_mutation (ev_stmt e) = false) evs.
Proof.
  intros pk data Hrun Hdry _ Hsize Hne Hpk Hlc Hpc Hdata Hspk Hnd _ _ second.
  destruct (sync_table_ok_inv _ _ _ _ _ _ _ Hrun Hdry Hpk)
    as (w4 & w5 & Hr4 & Hs4 & Hplan & Hr5 & Hcl & Hcp).
  fold pk in Hplan, Hcl, Hcp.
  assert (Hallowed : ∀ c, c ∈ pk → c ∈ allowed_cols prod_table).
  { intros c Hc. apply allowed_cols_intro; auto. }
  destruct (apply_plan_data _ _ _ _ _ options w4 w5 Hne Hpk Hlc Hcl Hallowed Hdata Hsize)
    as [Hu Hfp]; [| |done|].
  { by rewrite (Hs4 prod_engine (name prod_table)). }
  { by rewrite (Hr4 local_engine (name local_table)). }
  assert (Hs : in_step local_engine prod_engine local_table prod_table w').
  { intros k. rewrite !(fingerprint_at_same_rows w5 w') by done.
    rewrite (fingerprint_at_unchanged w4 w5 local_engine) by done. apply Hfp. }
  destruct (sync_table local_engine prod_engine local_table prod_table again w')
    as [r w2] eqn:Hrun2.
  by apply (sync_table_in_step _ _ _ _ _ _ _ _ Hrun2).
Qed.

(** *** The tables a sync leaves alone *)

#[global] Instance same_reflections_preorder : PreOrder same_reflections.
Proof.
  split; [done|]. intros w1 w2 w3 H1 H2 e. by rewrite H2, H1.
Qed.

#[global] Instance keeps_table_preorder engine t : PreOrder (keeps_table engine t).
Proof.
  split; [done|]. unfold keeps_table. intros w1 w2 w3 H1 H2. congruence.
Qed.

#[global] Instance keeps_unselected_preorder lu pu incl excl t :
  PreOrder (keeps_unselected lu pu incl excl t).
Proof.
  split.
  - intros w. split; [done|]. by intros _ _.
  - intros w1 w2 w3 [Hr12 Hk12] [Hr23 Hk23]. split; [by etrans|].
    intros Hwn Hsel. etrans; [by apply Hk12|]. apply Hk23.
    + intros n table. rewrite (Hr12 pu). apply Hwn.
    + unfold selection. by rewrite !Hr12.
Qed.

Lemma logging_same_reflections lvl fmt args :
  preserves same_reflections (logging lvl fmt args).
Proof. by intros w r w' [= <- <-]. Qed.

Lemma write_text_same_reflections f sig : preserves same_reflections (write_text f sig).
Proof. by intros w r w' [= <- <-]. Qed.

Lemma execute_same_reflections {A} engine s (sem : Database → Res (A * Database)) :
  (∀ db a db', sem db = Ok (a, db') →
     td_schema <$> db_tables db' = td_schema <$> db_tables db) →
  preserves same_reflections (execute engine s sem).
Proof.
  intros Hsem w r w' [(_ & -> & _)|(db & ok & Hdb & _ & _ & _ & _ & Hc)]%execute_inv;
    [done|].
  destruct Hc as [(_ & Hd & _)|(_ & _ & a & db' & Hs & _ & Hd)].
  - intros e. unfold reflected. by rewrite Hd.
  - intros e. unfold reflected. rewrite Hd.
    destruct (decide (engine = e)) as [<-|Hne].
    + rewrite lookup_insert_eq, Hdb. by apply (Hsem _ _ _ Hs).
    + by rewrite lookup_insert_ne.
Qed.

Lemma set_rows_reflection db t td rows :
  db_tables db !! t = Some td →
  td_schema <$> db_tables (set_rows db t td rows) = td_schema <$> db_tables db.
Proof.
  intros Htd. unfold set_rows. simpl. rewrite fmap_insert. simpl.
  apply insert_id. by rewrite lookup_fmap, Htd.
Qed.

Lemma sem_read_reflection {A} (sem : Database → Res (A * Database)) :
  reads_only sem →
  ∀ db a db', sem db = Ok (a, db') →
    td_schema <$> db_tables db' = td_schema <$> db_tables db.
Proof. intros Hro db a db' Hs. by rewrite (Hro _ _ _ Hs). Qed.

Lemma sem_insert_reflection t ig payload db a db' :
  sem_insert t ig payload db = Ok (a, db') →
  td_schema <$> db_tables db' = td_schema <$> db_tables db.
Proof.
  unfold sem_insert. destruct (table_data db t) as [td|] eqn:Etd; [|done].
  apply table_data_ok in Etd. destruct (insert_all _ _ _ _); [|done].
  intros [= _ <-]. by apply set_rows_reflection.
Qed.

Lemma sem_upsert_reflection t cols payload db a db' :
  sem_upsert t cols payload db = Ok (a, db') →
  td_schema <$> db_tables db' = td_schema <$> db_tables db.
Proof.
  unfold sem_upsert. destruct (table_data db t) as [td|] eqn:Etd; [|done].
  apply table_data_ok in Etd. intros [= _ <-]. by apply set_rows_reflection.
Qed.

Lemma sem_delete_reflection t pk pks db a db' :
  sem_delete t pk pks db = Ok (a, db') →
  td_schema <$> db_tables db' = td_schema <$> db_tables db.
Proof.
  unfold sem_delete. destruct (table_data db t) as [td|] eqn:Etd; [|done].
  apply table_data_ok in Etd. intros [= _ <-]. by apply set_rows_reflection.
Qed.

Lemma sem_set_fk_reflection enabled db a db' :
  sem_set_fk enabled db = Ok (a, db') →
  td_schema <$> db_tables db' = td_schema <$> db_tables db.
Proof. by intros [= _ <-]. Qed.

#[local] Hint Resolve logging_same_reflections write_text_same_reflections : pres.

#[local] Hint Extern 2 (preserves same_reflections (execute _ _ _)) =>
  (apply execute_same_reflections;
   first [ apply sem_insert_reflection | apply sem_upsert_reflection
         | apply sem_delete_reflection | apply sem_set_fk_reflection
         | apply sem_read_reflection; auto with pres ]) : pres.

Lemma sync_mysql_same_reflections lu pu incl excl bs dry kfk nii a5432 mw cd :
  preserves same_reflections (sync_mysql lu pu incl excl bs dry kfk nii a5432 mw cd).
Proof. pres. Qed.

(** A statement leaves the rows of a table when it goes to another
    server or names another table. *)
Lemma execute_keeps_table {A} engine e t s (sem : Database → Res (A * Database)) :
  engine ≠ e ∨
  (∀ db a db', sem db = Ok (a, db') → db_tables db' !! t = db_tables db !! t) →
  preserves (keeps_table e t) (execute engine s sem).
Proof.
  intros Hcase w r w' [(_ & -> & _)|(db & ok & Hdb & _ & _ & _ & _ & Hc)]%execute_inv;
    [done|].
  unfold keeps_table.
  destruct Hc as [(_ & Hd & _)|(_ & _ & a & db' & Hs & _ & Hd)].
  - by apply stored_rows_same_dbs.
  - unfold stored_rows. rewrite Hd.
    destruct (decide (engine = e)) as [<-|Hne].
    + rewrite lookup_insert_eq, Hdb. destruct Hcase as [?|Hsem]; [done|].
      by rewrite (Hsem _ _ _ Hs).
    + by rewrite lookup_insert_ne.
Qed.

Lemma logging_keeps_table e t lvl fmt args :
  preserves (keeps_table e t) (logging lvl fmt args).
Proof. by intros w r w' [= <- <-]. Qed.

Lemma sem_read_other {A} (sem : Database → Res (A * Database)) t :
  reads_only sem →
  ∀ db a db', sem db = Ok (a, db') → db_tables db' !! t = db_tables db !! t.
Proof. intros Hro db a db' Hs. by rewrite (Hro _ _ _ Hs). Qed.

Lemma sem_insert_other tn t ig payload :
  tn ≠ t → ∀ db a db', sem_insert tn ig payload db = Ok (a, db') →
  db_tables db' !! t = db_tables db !! t.
Proof.
  intros Hne db a db'. unfold sem_insert. destruct (table_data db tn) as [td|]; [|done].
  destruct (insert_all _ _ _ _); [|done].
  intros [= _ <-]. simpl. by rewrite lookup_insert_ne.
Qed.

Lemma sem_upsert_other tn t cols payload :
  tn ≠ t → ∀ db a db', sem_upsert tn cols payload db = Ok (a, db') →
  db_tables db' !! t = db_tables db !! t.
Proof.
  intros Hne db a db'. unfold sem_upsert. destruct (table_data db tn) as [td|]; [|done].
  intros [= _ <-]. simpl. by rewrite lookup_insert_ne.
Qed.

Lemma sem_delete_other tn t pk pks :
  tn ≠ t → ∀ db a db', sem_delete tn pk pks db = Ok (a, db') →
  db_tables db' !! t = db_tables db !! t.
Proof.
  intros Hne db a db'. unfold sem_delete. destruct (table_data db tn) as [td|]; [|done].
  intros [= _ <-]. simpl. by rewrite lookup_insert_ne.
Qed.

Lemma sem_set_fk_other enabled t db a db' :
  sem_set_fk enabled db = Ok (a, db') → db_tables db' !! t = db_tables db !! t.
Proof. by intros [= _ <-]. Qed.

#[local] Hint Resolve logging_keeps_table : pres.

#[local] Hint Extern 2 (preserves (keeps_table _ _) (execute _ _ _)) =>
  (apply execute_keeps_table; right;
   first [ apply sem_insert_other; assumption | apply sem_upsert_other; assumption
         | apply sem_delete_other; assumption | apply sem_set_fk_other
         | apply sem_read_other; auto with pres ]) : pres.

(** [sync_table] changes rows of the production table it is given, and
    of no other table of that server. *)
Lemma sync_table_keeps_table le pe lt pt opts t :
  name pt ≠ t → preserves (keeps_table pe t) (sync_table le pe lt pt opts).
Proof. intros Hne. pres. Qed.

Lemma preserves_bind_run {A B} (I : relation World) `{!PreOrder I}
    (m : M A) (f : A → M B) :
  preserves I m →
  (∀ w a w1, m w = (Ok a, w1) → ∀ r w', f a w1 = (r, w') → I w1 w') →
  preserves I (m ≫= f).
Proof.
  intros Hm Hf w r w' [(a & w1 & H1 & H2)|(e & H1 & _)]%bind_inv.
  - etrans; [by eapply Hm|by eapply Hf].
  - by eapply Hm.
Qed.

Lemma load_metadata_ok engine w meta w1 :
  load_metadata engine w = (Ok meta, w1) →
  meta = reflected w engine ∧ dbs w1 = dbs w.
Proof.
  unfold load_metadata. intros Hrun.
  apply execute_read_ok_inv in Hrun as (db & Hdb & [= <-] & Hd & _);
    [|apply reads_only_reflect].
  split; [|done]. unfold reflected. by rewrite Hdb.
Qed.

Lemma same_rows_keeps_table engine t w w' : same_rows w w' → keeps_table engine t w w'.
Proof. intros Hr. apply Hr. Qed.

Lemma keeps_unselected_intro {A} lu pu incl excl t (m : M A) :
  preserves (both same_reflections same_rows) m →
  preserves (keeps_unselected lu pu incl excl t) m.
Proof.
  intros Hm w r w' Hrun. destruct (Hm w r w' Hrun) as [Hr Hs].
  split; [done|]. intros _ _. by apply same_rows_keeps_table.
Qed.

(** The tasks of the pool leave a table that is not among theirs. *)
Lemma sync_tasks_keep_table le pe lmeta pmeta opts tables t :
  (∀ n table, pmeta !! n = Some table → name table = n) →
  t ∉ tables →
  preserves (keeps_table pe t)
    (for_loop tables (λ _ table_name, sync_task le pe lmeta pmeta opts table_name) tt).
Proof.
  intros Hnames Hnot. apply preserves_for_loop; [apply _|].
  intros [] n Hn. unfold sync_task.
  destruct (lmeta !! n) as [lt|]; [|apply preserves_ret; apply _].
  destruct (pmeta !! n) as [pt|] eqn:Ep; [|apply preserves_ret; apply _].
  apply preserves_try_except; [apply _| |intros e; auto with pres].
  apply sync_table_keeps_table. rewrite (Hnames _ _ Ep). by intros ->.
Qed.

Lemma sync_mysql_keeps_unselected lu pu incl excl bs dry kfk nii a5432 mw cd t :
  preserves (keeps_unselected lu pu incl excl t)
    (sync_mysql lu pu incl excl bs dry kfk nii a5432 mw cd).
Proof.
  unfold sync_mysql.
  destruct (negb (is_mysql_url lu) || negb (is_mysql_url pu));
    [apply keeps_unselected_intro, preserves_both; pres|].
  destruct (bool_decide (get_port pu = Some 5432) && negb a5432);
    [apply keeps_unselected_intro, preserves_both; pres|].
  apply preserves_bind; [apply _| |intros skip].
  { apply keeps_unselected_intro, preserves_both; pres. }
  destruct skip; [apply preserves_ret; apply _|].
  apply preserves_bind; [apply _| |intros []].
  { apply keeps_unselected_intro, preserves_both; pres. }
  apply preserves_bind; [apply _| |intros []].
  { apply keeps_unselected_intro, preserves_both; pres. }
  apply preserves_bind_run; [apply _| |intros w0 lmeta w1 Hl].
  { apply keeps_unselected_intro, preserves_both; pres. }
  apply load_metadata_ok in Hl as [-> Hd1].
  intros r w' Hrun.
  apply bind_inv in Hrun as [(pmeta & w2 & Hp & Hrun)|(e & Hp & _)].
  2:{ revert Hp. apply keeps_unselected_intro, preserves_both; pres. }
  assert (Hq : keeps_unselected lu pu incl excl t w1 w2).
  { revert Hp. apply keeps_unselected_intro, preserves_both; pres. }
  apply load_metadata_ok in Hp as [-> Hd2].
  etrans; [exact Hq|]. split.
  { revert Hrun. match goal with |- ?m w2 = _ → _ =>
      assert (preserves same_reflections m) as Hp by pres; apply Hp end. }
  intros Hwn Hsel. unfold selection in Hsel.
  assert (reflected w0 lu = reflected w2 lu) as Hlu.
  { unfold reflected. by rewrite Hd2, Hd1. }
  assert (reflected w1 pu = reflected w2 pu) as Hpu.
  { unfold reflected. by rewrite Hd2. }
  rewrite Hlu, Hpu in Hrun.
  set (tables := get_common_table_names (reflected w2 lu) (reflected w2 pu)) in *.
  revert Hrun. match goal with |- ?m w2 = _ → _ =>
    assert (preserves (keeps_table pu t) m) as Hp; [|apply Hp] end.
  destruct (is_empty tables); [pres|].
  destruct (is_empty (filter_tables tables incl excl)); [pres|].
  apply preserves_bind; [apply _|auto with pres|intros []].
  apply preserves_bind; [apply _|auto with pres|intros []].
  destruct (decide (resolve_max_workers mw <= 0)); [apply preserves_raise; apply _|].
  apply preserves_bind; [apply _| |intros []].
  { by apply sync_tasks_keep_table. }
  apply preserves_bind; [apply _|auto with pres|intros []].
  apply preserves_impl with (I := same_rows); [apply same_rows_keeps_table|pres].
Qed.

(** X26. [sync_mysql] leaves the tables outside its selection alone: a
    production table that is not among the common tables kept by
    [filter_tables] (it is excluded, it is not included, or the local
    server has no table of that name) holds the same rows afterwards,
    however the run ends.  The production server reflects every table
    under its own name. *)
Theorem sync_mysql_leaves_unselected_tables
    (local_url prod_url : string) (include exclude : option (list string))
    (batch_size : Z) (dry_run keep_fk_checks no_insert_ignore allow_mysql_port_5432 : bool)
    (max_workers : option Z) (change_detector : bool) (w : World) (t : string) :
  well_named w prod_url →
  t ∉ filter_tables
        (get_common_table_names (reflected w local_url) (reflected w prod_url))
        include exclude →
  let run := sync_mysql local_url prod_url include exclude batch_size dry_run
               keep_fk_checks no_insert_ignore allow_mysql_port_5432 max_workers
               change_detector w in
  stored_rows run.2 prod_url t = stored_rows w prod_url t.
Proof.
  intros Hwn Hsel run.
  destruct (sync_mysql local_url prod_url include exclude batch_size dry_run
              keep_fk_checks no_insert_ignore allow_mysql_port_5432 max_workers
              change_detector w) as [r w'] eqn:Hrun.
  by apply (sync_mysql_keeps_unselected _ _ _ _ _ _ _ _ _ _ _ _ _ _ _ Hrun).
Qed.

(** *** The change detector on a server that answers *)

#[local] Hint Extern 2 (preserves (emits (sent_to _)) (execute _ _ _)) =>
  (apply execute_emits; intros ?; reflexivity) : pres.

Lemma has_database_changes_sent_to url state_file st :
  preserves (both same_data (emits (sent_to url))) (has_database_changes url state_file st).
Proof. apply preserves_both; pres. Qed.

(** X27. When the change detector finds the local signature unchanged,
    a real run of [sync_mysql] returns without a single statement to
    the production server, whatever the production database holds: the
    statements it sends are those of the signature, to the local
    server, and no database or state file changes. *)
Theorem sync_mysql_skips_when_unchanged
    (local_url prod_url : string) (include exclude : option (list string))
    (batch_size : Z) (keep_fk_checks no_insert_ignore allow_mysql_port_5432 : bool)
    (max_workers : option Z) (w : World) :
  is_mysql_url local_url = true → is_mysql_url prod_url = true →
  (get_port prod_url = Some 5432 → allow_mysql_port_5432 = true) →
  (has_database_changes local_url None None w).1 = Ok false →
  let run := sync_mysql local_url prod_url include exclude batch_size false
               keep_fk_checks no_insert_ignore allow_mysql_port_5432 max_workers true w in
  run.1 = Ok tt ∧ dbs run.2 = dbs w ∧ files run.2 = files w ∧
  ∃ evs, trace run.2 = trace w ++ evs ∧ Forall (λ e, ev_url e = local_url) evs.
Proof.
  intros Hl Hp Hport Hsame run. subst run. unfold sync_mysql.
  rewrite Hl, Hp. simpl.
  assert (bool_decide (get_port prod_url = Some 5432) && negb allow_mysql_port_5432 = false)
    as ->.
  { destruct (decide (get_port prod_url = Some 5432)) as [E|E].
    - rewrite (Hport E). by rewrite andb_false_r.
    - by rewrite (bool_decide_eq_false_2 _ E). }
  destruct (has_database_changes local_url None None w) as [r w1] eqn:Hrun.
  simpl in Hsame. subst r.
  destruct (has_database_changes_sent_to _ _ _ _ _ _ Hrun) as [[Hd Hf] (evs & Ht & HF)].
  rewrite bind_run. unfold try_except. rewrite bind_run, Hrun. simpl.
  split; [done|]. split; [done|]. split; [done|]. by exists evs.
Qed.

(** *** Signatures on a server that answers *)

Lemma binlog_signature_no_fault engine w db :
  dbs w !! engine = Some db → faults w = [] →
  (get_binlog_signature engine w).1 = Ok (binlog_value db).
Proof.
  intros Hdb Hf. unfold get_binlog_signature, try_except, binlog_value.
  rewrite bind_run. unfold connect at 1. rewrite Hdb. rewrite bind_run.
  pose proof (execute_no_fault engine ShowMasterStatus sem_show_master_status w db Hdb Hf)
    as H1.
  unfold sem_show_master_status in *.
  destruct (master_status db) as [| |file_name position].
  - by destruct H1 as (w1 & ->).
  - by destruct H1 as (w1 & -> & _).
  - by destruct H1 as (w1 & -> & _).
Qed.

Lemma signature_no_server engine st w :
  dbs w !! engine = None →
  (get_quick_signature engine st w).1 = quick_result st None.
Proof.
  intros Hdb. unfold get_quick_signature, quick_result.
  assert (Hc : (content_dynamic_signature engine w).1 = Ok "").
  { unfold content_dynamic_signature, try_except. rewrite bind_run.
    unfold connect at 1. by rewrite Hdb. }
  assert (Hb : (get_binlog_signature engine w).1 = Raise OperationalError).
  { unfold get_binlog_signature. rewrite bind_run. unfold connect at 1. by rewrite Hdb. }
  destruct (decide (st = Some "content")); [done|].
  destruct (decide (st = Some "binlog")); [done|].
  rewrite bind_run. by destruct (get_binlog_signature engine w) as [[s|e] w1]; simplify_eq/=.
Qed.

(** On a server that answers, the signature is a function of the
    database. *)
Lemma get_quick_signature_no_fault engine st w :
  faults w = [] →
  (get_quick_signature engine st w).1 = quick_result st (dbs w !! engine).
Proof.
  intros Hf. destruct (dbs w !! engine) as [db|] eqn:Hdb; [|by apply signature_no_server].
  unfold get_quick_signature, quick_result.
  destruct (decide (st = Some "content")); [by apply content_signature_no_fault|].
  destruct (decide (st = Some "binlog")); [by apply binlog_signature_no_fault|].
  rewrite bind_run.
  pose proof (binlog_signature_no_fault engine w db Hdb Hf) as Hb.
  destruct (get_binlog_signature engine w) as [rb w1] eqn:Eb. simpl in Hb. subst rb.
  destruct (negb (String.eqb (binlog_value db) "")); [done|].
  assert (Hq : both same_data (λ w w', faults w = [] → faults w' = []) w w1).
  { split.
    - by apply binlog_signature_cases in Eb as [? _].
    - revert Eb. unfold get_binlog_signature, try_except, connect. rewrite bind_run.
      destruct (dbs w !! engine); [|by intros [= _ <-]].
      rewrite bind_run.
      destruct (execute engine ShowMasterStatus sem_show_master_status w) as [r2 w2] eqn:Ex.
      assert (faults w2 = []) as Hf2.
      { apply execute_inv in Ex as [(_ & -> & _)|(? & ? & _ & _ & _ & _ & Hfa & _)];
          [done|]. by rewrite Hfa, Hf. }
      destruct r2 as [[[? ?]|]|e]; simpl.
      + by intros [= _ <-].
      + by intros [= _ <-].
      + destruct (is_Exception e); by intros [= _ <-]. }
  destruct Hq as [[Hd1 _] Hf1].
  rewrite bind_run.
  assert (Hdb1 : dbs w1 !! engine = Some db) by (by rewrite Hd1).
  pose proof (content_signature_no_fault engine w1 db Hdb1 (Hf1 Hf)) as Hc.
  destruct (content_dynamic_signature engine w1) as [rc w2]. simpl in Hc. subst rc.
  by destruct (negb (String.eqb (content_value db) "")).
Qed.

(** X28. No false alarm: once [write_current_signature] has returned,
    [has_database_changes] reports no change for as long as the
    database and the state file stay as they are, on a server that
    answers every statement. *)
Theorem written_signature_is_current (database_url : string)
    (state_file : option string) (w w1 w2 : World) :
  let f := default (get_state_file_for_database database_url) state_file in
  faults w = [] →
  write_current_signature database_url state_file w = (Ok tt, w1) →
  dbs w2 !! database_url = dbs w1 !! database_url →
  files w2 !! f = files w1 !! f →
  faults w2 = [] →
  (has_database_changes database_url state_file None w2).1 = Ok false.
Proof.
  intros f Hf Hrun Hdb Hfile Hf2.
  unfold write_current_signature in Hrun. fold f in Hrun.
  apply bind_ok_inv in Hrun as (sig & wa & Hsig & Hsave).
  pose proof (get_quick_signature_no_fault database_url None w Hf) as Hq.
  rewrite Hsig in Hq. simpl in Hq.
  apply get_quick_signature_cases in Hsig as ([Hda Hfa] & Hstrip & Hform).
  assert (Hne : sig ≠ "").
  { destruct Hform as [[_ [?|?]]|[[(fn & pos & ->) _]|[(d & ->) _]]]; done. }
  assert (String.eqb sig "" = false) as Heq by (by apply String.eqb_neq).
  rewrite Heq in Hsave. simpl in Hsave.
  unfold save_current_signature in Hsave. simpl in Hsave.
  rewrite bind_run in Hsave. simpl in Hsave. injection Hsave as <-.
  simpl in Hdb, Hfile.
  rewrite lookup_insert_eq in Hfile. rewrite Hda in Hdb.
  rewrite has_database_changes_run. fold f.
  pose proof (get_quick_signature_no_fault database_url None w2 Hf2) as Hq2.
  rewrite Hdb, <- Hq in Hq2.
  destruct (get_quick_signature database_url None w2) as [r2 w3]. simpl in Hq2. subst r2.
  simpl. f_equal. apply bool_decide_eq_false. intros [_ Hdiff]. apply Hdiff.
  unfold last_persisted. by rewrite Hfile.
Qed.

End Sync.

(** ** The theorems on the [orders] scenario *)

Lemma sync_table_skips_without_primary_key_witness :
  sync_table demo_md5 local_url prod_url audit_log audit_log demo_options demo_world =
    (Ok tt,
     mkWorld (dbs demo_world) (files demo_world) (trace demo_world)
       (logs demo_world ++
        [mkLog WARNING
           "Skipping table '%s' – no primary key defined; cannot safely diff rows."
           [AStr "audit_log"]])
       (faults demo_world)).
Proof.
  apply (sync_table_skips_without_primary_key demo_md5 local_url prod_url
           audit_log audit_log demo_options demo_world).
  reflexivity.
Defined.

Lemma fk_checks_restored_witness :
  ∃ pre rest,
    trace (sync_table demo_md5 local_url prod_url orders orders
             (mkOptions false 1000 true true) demo_world).2
      = trace demo_world ++ pre ++ rest ∧
    Forall (λ e, is_mutation (ev_stmt e) = false ∧ is_fk_toggle (ev_stmt e) = false) pre ∧
    ((rest = [] ∧
      ∃ e, (sync_table demo_md5 local_url prod_url orders orders
              (mkOptions false 1000 true true) demo_world).1 = Raise e) ∨
     (rest = [mkEvent prod_url (SetForeignKeyChecks false) false] ∧
      ∃ e, (sync_table demo_md5 local_url prod_url orders orders
              (mkOptions false 1000 true true) demo_world).1 = Raise e) ∨
     (∃ body ok,
        rest = mkEvent prod_url (SetForeignKeyChecks false) true :: body ++
               [mkEvent prod_url (SetForeignKeyChecks true) ok] ∧
        Forall (λ e, is_fk_toggle (ev_stmt e) = false) body ∧
        (ok = true →
         fk_checks <$>
           dbs (sync_table demo_md5 local_url prod_url orders orders
                  (mkOptions false 1000 true true) demo_world).2 !! prod_url
         = Some true) ∧
        (ok = false →
         ∃ e, (sync_table demo_md5 local_url prod_url orders orders
                 (mkOptions false 1000 true true) demo_world).1 = Raise e))).
Proof.
  apply (fk_checks_restored demo_md5 local_url prod_url orders orders 1000 true demo_world).
  discriminate.
Defined.

Lemma computed_columns_never_written_witness :
  ∃ evs,
    trace (sync_table demo_md5 local_url prod_url orders orders demo_options demo_world).2
      = trace demo_world ++ evs ∧
    ∀ e, e ∈ evs →
      match ev_stmt e with
      | InsertStmt _ _ rows =>
          ∀ row c, row ∈ rows → c ∈ get_computed_column_names orders → row !! c = None
      | UpsertStmt _ rows _ =>
          ∀ row c, row ∈ rows → c ∈ get_computed_column_names orders → row !! c = None
      | _ => True
      end.
Proof.
  apply (computed_columns_never_written demo_md5 local_url prod_url orders orders
           demo_options demo_world).
  apply (bool_decide_unpack _). vm_compute. exact I.
Defined.

Lemma hash_gated_updates_witness :
  ∃ evs,
    trace (sync_table demo_md5 local_url prod_url orders orders demo_options demo_world).2
      = trace demo_world ++ evs ∧
    ((∃ e, e ∈ evs ∧ upserts prod_url ["id"] [VInt 3] e) →
     fingerprint_at demo_md5 demo_world local_url "orders" ["id"] ["qty"] [VInt 3] ≠
     fingerprint_at demo_md5 demo_world prod_url "orders" ["id"] ["qty"] [VInt 3]) ∧
    (∀ rl rp,
       last (rows_at ["id"] [VInt 3] (stored_rows demo_world local_url "orders")) = Some rl →
       last (rows_at ["id"] [VInt 3] (stored_rows demo_world prod_url "orders")) = Some rp →
       (∀ c, c ∈ ["qty"] → row_val rl c = row_val rp c) →
       ¬ ∃ e, e ∈ evs ∧ upserts prod_url ["id"] [VInt 3] e) ∧
    ((sync_table demo_md5 local_url prod_url orders orders demo_options demo_world).1
       = Ok tt →
     dry_run demo_options = false → 0 < batch_size demo_options → ["qty"] ≠ [] →
     fingerprint_at demo_md5 demo_world local_url "orders" ["id"] ["qty"] [VInt 3] ≠
     fingerprint_at demo_md5 demo_world prod_url "orders" ["id"] ["qty"] [VInt 3] →
     ∃ e, e ∈ evs ∧ upserts prod_url ["id"] [VInt 3] e).
Proof.
  apply (hash_gated_updates demo_md5 local_url prod_url orders orders demo_options
           demo_world [VInt 3]).
  - discriminate.
  - discriminate.
  - intros c Hc Hin.
    change (c ∈ ["id"]) in Hc. change (c ∈ ["total"]) in Hin.
    apply list_elem_of_singleton in Hc. apply list_elem_of_singleton in Hin.
    congruence.
  - reflexivity.
  - apply (bool_decide_unpack _). vm_compute. exact I.
  - apply (bool_decide_unpack _). vm_compute. exact I.
Defined.

Lemma feedback_guard_witness :
  get_state_file_for_database tail_md5 local_url
    ≠ get_state_file_for_database tail_md5 prod_url ∧
  ∃ new_sig w2 w',
    get_quick_signature tail_md5 prod_url (Some "content")
      (sync_mysql tail_md5 None (λ _, true) (λ _, None) None None
         local_url prod_url None None 1000 false false false true None false
         (print "[%s] Changes detected in source. Syncing to target..."
            [AStr "dev-to-prod"] demo_world).2).2
      = (Ok new_sig, w2) ∧
    locked_sync tail_md5 None (λ _, true) (λ _, None) None None
      "dev-to-prod" local_url prod_url demo_world = (Ok tt, w') ∧
    files w' !! get_state_file_for_database tail_md5 local_url = Some new_sig ∧
    files w' !! get_state_file_for_database tail_md5 prod_url = Some new_sig ∧
    dbs w' =
      dbs (sync_mysql tail_md5 None (λ _, true) (λ _, None) None None
         local_url prod_url None None 1000 false false false true None false
             (print "[%s] Changes detected in source. Syncing to target..."
                [AStr "dev-to-prod"] demo_world).2).2 ∧
    (new_sig ≠ "" →
     (has_database_changes tail_md5 None prod_url None (Some "content") w').1 = Ok false).
Proof.
  split; [vm_compute; discriminate|].
  apply (feedback_guard tail_md5 None (λ _, true) (λ _, None) None None
           "dev-to-prod" local_url prod_url demo_world).
  vm_compute. reflexivity.
Defined.

(** C9 as the spec has it fails: when the server refuses the content
    query that follows a sync that returned, the block writes the empty
    string to the state file of the source and to the state file of the
    target, and the change check on the target right after it answers
    true, although nothing but the sync has touched the target. *)
Lemma feedback_guard_without_signature :
  let synced := sync_mysql tail_md5 None (λ _, true) (λ _, None) None None
                  local_url prod_url None None 1000 false false false true None false
                  (print "[%s] Changes detected in source. Syncing to target..."
                     [AStr "dev-to-prod"] refused_world).2 in
  let block := locked_sync tail_md5 None (λ _, true) (λ _, None) None None
                 "dev-to-prod" local_url prod_url refused_world in
  synced.1 = Ok tt ∧ block.1 = Ok tt ∧
  get_state_file_for_database tail_md5 local_url
    ≠ get_state_file_for_database tail_md5 prod_url ∧
  files block.2 !! get_state_file_for_database tail_md5 local_url = Some "" ∧
  files block.2 !! get_state_file_for_database tail_md5 prod_url = Some "" ∧
  dbs block.2 = dbs synced.2 ∧
  (has_database_changes tail_md5 None prod_url None (Some "content") block.2).1
    = Ok true.
Proof. vm_compute. repeat split. discriminate. Qed.

(** C4. The upsert path of [sync_table] writes a computed column: on a
    production table that generates [total], fed from a local table
    that stores it, the upsert of row 3 carries an entry for [total],
    because the path strips the computed columns of the local table and
    not, as [insert_rows] does, those of the table it writes to. *)
Theorem upsert_carries_generated_column :
  let run := sync_table demo_md5 local_url prod_url orders_plain orders demo_options
               plain_world in
  get_computed_column_names orders = ["total"] ∧
  get_computed_column_names orders_plain = [] ∧
  trace run.2 !! 6%nat
    = Some (mkEvent prod_url
              (UpsertStmt "orders" [order_row 3 3 30] ["qty"; "total"]) true) ∧
  order_row 3 3 30 !! "total" = Some (VInt 30).
Proof. vm_compute. repeat split. Qed.

(** C2 as the spec has it fails: on a server without binary log whose
    content query is refused, both strategies return the empty string
    and [get_quick_signature] raises, although the quick fingerprint of
    the same database can be computed. *)
Lemma quick_fallback_not_taken :
  (get_binlog_signature prod_url flaky_world).1 = Ok "" ∧
  (content_dynamic_signature demo_md5 prod_url
     (get_binlog_signature prod_url flaky_world).2).1 = Ok "" ∧
  (get_quick_signature demo_md5 prod_url None flaky_world).1
    = Raise (ValueError "can't get signature") ∧
  (database_quick_signature demo_md5 demo_crc32 prod_url [orders]
     (get_quick_signature demo_md5 prod_url None flaky_world).2).1
    = Ok "quick:6f72646572733a333a333a35".
Proof. vm_compute. repeat split. Qed.

(** ** The scenario of the spec, run

    Table [orders] with key [id]; local ids 1, 2, 3, 4; remote ids 2, 3,
    5. *)

Example orders_plan :
  diff_keys (key_set demo_world local_url "orders" ["id"])
            (key_set demo_world prod_url "orders" ["id"])
  = mkPlan [[VInt 1]; [VInt 4]] [[VInt 5]] [[VInt 2]; [VInt 3]].
Proof. vm_compute. reflexivity. Qed.

(** Two rows inserted, row 3 alone upserted, one row deleted. *)
Example orders_sync_totals :
  last (logs (sync_table demo_md5 local_url prod_url orders orders
                demo_options demo_world).2)
  = Some (mkLog INFO "[%s] Applied changes | inserted: %d, updated: %d, deleted: %d"
            [AStr "orders"; AInt 2; AInt 1; AInt 1]).
Proof. vm_compute. reflexivity. Qed.

Example orders_sync_upserts :
  omap (λ e, match ev_stmt e with
             | UpsertStmt _ rows _ => Some (map (row_key ["id"]) rows)
             | _ => None
             end)
       (trace (sync_table demo_md5 local_url prod_url orders orders
                 demo_options demo_world).2)
  = [[[VInt 3]]].
Proof. vm_compute. reflexivity. Qed.

Example orders_sync_result :
  map (λ r, (row_val r "id", row_val r "qty"))
      (stored_rows (sync_table demo_md5 local_url prod_url orders orders
                      demo_options demo_world).2 prod_url "orders")
  = [(VInt 2, VInt 2); (VInt 3, VInt 3); (VInt 1, VInt 1); (VInt 4, VInt 4)].
Proof. vm_compute. reflexivity. Qed.

(** The INSERT is refused by the server: [sync_table] raises, and the
    last statement it sent switched the checks back on. *)
Example orders_sync_insert_fails :
  let run := sync_table demo_md5 local_url prod_url orders orders demo_options
               (mkWorld (dbs demo_world) ∅ [] [] [false; false; false; false; true]) in
  run.1 = Raise OperationalError ∧
  last (trace run.2) = Some (mkEvent prod_url (SetForeignKeyChecks true) true) ∧
  fk_checks <$> dbs run.2 !! prod_url = Some true ∧
  stored_rows run.2 prod_url "orders" = stored_rows demo_world prod_url "orders".
Proof. vm_compute. repeat split. Qed.

(** A dry run of the same plan. *)
Example orders_dry_run :
  let run := sync_table demo_md5 local_url prod_url orders orders
               (mkOptions true 1000 true true) demo_world in
  run.1 = Ok tt ∧ dbs run.2 = dbs demo_world ∧
  map ev_stmt (trace run.2) = [SelectPKs "orders" ["id"]; SelectPKs "orders" ["id"]].
Proof. vm_compute. repeat split. Qed.

(** A negative batch size makes every loop of the apply phase empty. *)
Example orders_negative_batch_size :
  let run := sync_table demo_md5 local_url prod_url orders orders
               (mkOptions false (-1) true true) demo_world in
  run.1 = Ok tt ∧
  stored_rows run.2 prod_url "orders" = stored_rows demo_world prod_url "orders".
Proof. vm_compute. repeat split. Qed.

(** ** The further properties on the [orders] scenario *)

Lemma filter_tables_blank_include_witness :
  filter_tables ["orders"; "audit_log"] (Some [" "; ""]) None = [].
Proof.
  apply (filter_tables_blank_include ["orders"; "audit_log"] [" "; ""] None).
  - discriminate.
  - repeat constructor.
Defined.

Lemma nonpositive_batch_size_applies_nothing_witness :
  let options := mkOptions false (-5) true true in
  let w1 := (sync_table demo_md5 local_url prod_url orders orders options demo_world).2 in
  let w2 := (sync_mysql demo_md5 None (λ _, true) (λ _, None) None None
               local_url prod_url None None (-5) false false false true None false
               demo_world).2 in
  ((∀ engine t, stored_rows w1 engine t = stored_rows demo_world engine t) ∧
   ∃ evs, trace w1 = trace demo_world ++ evs ∧
     Forall (λ e, is_mutation (ev_stmt e) = false) evs) ∧
  ((∀ engine t, stored_rows w2 engine t = stored_rows demo_world engine t) ∧
   ∃ evs, trace w2 = trace demo_world ++ evs ∧
     Forall (λ e, is_mutation (ev_stmt e) = false) evs).
Proof.
  apply (nonpositive_batch_size_applies_nothing demo_md5 None (λ _, true) (λ _, None)
           None None local_url prod_url orders orders (mkOptions false (-5) true true)
           None None false false false true None false demo_world).
  simpl. lia.
Defined.

Lemma sync_writes_only_to_prod_witness :
  let w1 := (sync_table demo_md5 local_url prod_url orders orders demo_options
               demo_world).2 in
  let w2 := (sync_mysql demo_md5 None (λ _, true) (λ _, None) None None
               local_url prod_url None None 1000 false false false true None false
               demo_world).2 in
  (dbs w1 !! local_url = dbs demo_world !! local_url ∧
   ∃ evs, trace w1 = trace demo_world ++ evs ∧
     Forall (λ e, is_mutation (ev_stmt e) || is_fk_toggle (ev_stmt e) = true →
                  ev_url e = prod_url) evs) ∧
  (dbs w2 !! local_url = dbs demo_world !! local_url ∧
   ∃ evs, trace w2 = trace demo_world ++ evs ∧
     Forall (λ e, is_mutation (ev_stmt e) || is_fk_toggle (ev_stmt e) = true →
                  ev_url e = prod_url) evs).
Proof.
  apply (sync_writes_only_to_prod demo_md5 None (λ _, true) (λ _, None) None None
           local_url prod_url local_url orders orders demo_options None None 1000
           false false false true None false demo_world).
  discriminate.
Defined.

Lemma sync_mysql_raises_before_writing_witness :
  let run := sync_mysql demo_md5 None (λ _, false) (λ _, None) None None
               local_url prod_url None None 1000 false false false true None false
               demo_world in
  dbs run.2 = dbs demo_world ∧ files run.2 = files demo_world ∧
  (false = false ∨ false = false ∨ (None = Some 5432 ∧ true = false)).
Proof.
  apply (sync_mysql_raises_before_writing demo_md5 None (λ _, false) (λ _, None)
           None None local_url prod_url None None 1000 false false false true None false
           demo_world _ (SystemExit 2)).
  vm_compute. reflexivity.
Defined.

Lemma sync_side_contained_witness :
  let run := sync_side demo_md5 None (λ _, true) (λ _, None) None None
               1 2 "dev-to-prod" local_url prod_url demo_world in
  dbs run.2 !! local_url = dbs demo_world !! local_url ∧
  (∃ evs, trace run.2 = trace demo_world ++ evs ∧
     Forall (λ e, is_mutation (ev_stmt e) || is_fk_toggle (ev_stmt e) = true →
                  ev_url e = prod_url) evs) ∧
  match run.1 with
  | Ok _ => True
  | Raise e => e = SystemExit 1 ∨ e = SystemExit 2 ∧ (true = false ∨ true = false)
  end.
Proof.
  apply (sync_side_contained demo_md5 None (λ _, true) (λ _, None) None None
           1 2 "dev-to-prod" local_url prod_url local_url demo_world).
  discriminate.
Defined.

Lemma auto_sync_run_direction_witness :
  let run := auto_sync_run demo_md5 None (λ _, true) (λ _, None) None None
               (Some local_url) (Some prod_url) 1 2 demo_world in
  dbs run.2 !! prod_url = dbs demo_world !! prod_url ∧
  (∃ evs, trace run.2 = trace demo_world ++ evs ∧
     Forall (λ e, is_mutation (ev_stmt e) || is_fk_toggle (ev_stmt e) = true →
                  ev_url e = local_url) evs) ∧
  (unset (Some local_url) || unset (Some prod_url) = true →
   run.1 = Raise (SystemExit 1) ∧ trace run.2 = trace demo_world).
Proof.
  apply (auto_sync_run_direction demo_md5 None (λ _, true) (λ _, None) None None
           (Some local_url) (Some prod_url) 1 2 prod_url demo_world).
  discriminate.
Defined.

Lemma run_default_sync_direction_witness :
  let run := run_default_sync demo_md5 None (λ _, true) (λ _, None) None None
               (Some local_url) (Some prod_url) demo_world in
  dbs run.2 !! local_url = dbs demo_world !! local_url ∧
  (∃ evs, trace run.2 = trace demo_world ++ evs ∧
     Forall (λ e, is_mutation (ev_stmt e) || is_fk_toggle (ev_stmt e) = true →
                  ev_url e = prod_url) evs) ∧
  (unset (Some local_url) || unset (Some prod_url) = true →
   run.1 = Raise (SystemExit 1) ∧ trace run.2 = trace demo_world).
Proof.
  apply (run_default_sync_direction demo_md5 None (λ _, true) (λ _, None) None None
           (Some local_url) (Some prod_url) local_url demo_world).
  discriminate.
Defined.

Lemma signature_reads_back_witness :
  let f := get_state_file_for_database demo_md5 prod_url in
  let sig := "content:6f72646572733a3132" in
  let w1 := (save_current_signature demo_md5 None sig (Some f) demo_world).2 in
  load_last_signature demo_md5 None (Some f) w1 = (Ok sig, w1).
Proof.
  apply (signature_reads_back demo_md5 None prod_url
           (get_state_file_for_database demo_md5 prod_url)
           "content:6f72646572733a3132" (Some "content") demo_world demo_world).
  vm_compute. reflexivity.
Defined.
Lemma content_signature_counts_bytes_witness :
  (content_dynamic_signature demo_md5 prod_url (one_server prod_url demo_prod)).1
  = (content_dynamic_signature demo_md5 prod_url (one_server prod_url demo_prod_swapped)).1.
Proof.
  apply (content_signature_counts_bytes demo_md5 prod_url
           (one_server prod_url demo_prod) (one_server prod_url demo_prod_swapped)
           demo_prod demo_prod_swapped).
  - reflexivity.
  - reflexivity.
  - reflexivity.
  - reflexivity.
  - reflexivity.
  - intros t td td' H1 H2.
    change (db_tables demo_prod) with
      ({[ "orders" := mkTableData orders
            [order_row 2 2 20; order_row 3 9 90; order_row 5 5 50] ]} : gmap string TableData)
      in H1.
    change (db_tables demo_prod_swapped) with
      ({[ "orders" := mkTableData orders
            [order_row 2 2 20; order_row 3 90 9; order_row 5 5 50] ]} : gmap string TableData)
      in H2.
    apply lookup_singleton_Some in H1 as [<- <-].
    apply lookup_singleton_Some in H2 as [_ <-]. reflexivity.
Defined.

Lemma delete_rows_by_pks_removes_witness :
  let w' := (delete_rows_by_pks prod_url orders ["id"] [[VInt 5]; [VInt 7]] demo_world).2 in
  let before := stored_rows demo_world prod_url "orders" in
  let after := stored_rows w' prod_url "orders" in
  after = List.filter (λ r, negb (bool_decide (row_key ["id"] r ∈ [[VInt 5]; [VInt 7]])))
            before ∧
  ∀ e t, (e, t) ≠ (prod_url, "orders") → stored_rows w' e t = stored_rows demo_world e t.
Proof.
  apply (delete_rows_by_pks_removes prod_url orders ["id"] [[VInt 5]; [VInt 7]] demo_world
           (delete_rows_by_pks prod_url orders ["id"] [[VInt 5]; [VInt 7]] demo_world).2 1).
  - intros k Hk. repeat (apply elem_of_cons in Hk as [->|Hk]; [reflexivity|]).
    by apply elem_of_nil in Hk.
  - reflexivity.
  - vm_compute. reflexivity.
  - vm_compute. reflexivity.
Defined.

Lemma sync_table_missing_key_column_witness :
  let run := sync_table demo_md5 local_url prod_url orders audit_log demo_options
               demo_world in
  dbs run.2 = dbs demo_world ∧ files run.2 = files demo_world ∧
  (trace run.2 = trace demo_world ∨
   ∃ ok, trace run.2 = trace demo_world ++
     [mkEvent local_url (SelectPKs "orders" ["id"]) ok]) ∧
  ∃ e, run.1 = Raise e ∧
    ((∃ s, (fetch_pk_values local_url orders ["id"] demo_world).1 = Ok s) →
     ∃ n, e = KeyError n ∧ n ∈ ["id"] ∧ n ∉ map col_name (columns audit_log)).
Proof.
  apply (sync_table_missing_key_column demo_md5 local_url prod_url orders audit_log
           demo_options demo_world "id").
  - apply (bool_decide_unpack _). vm_compute. exact I.
  - apply (bool_decide_unpack _). vm_compute. exact I.
Defined.

Lemma rendering_hides_differences_witness :
  let run := sync_table demo_md5 local_url prod_url orders orders demo_options null_world in
  row_fingerprint demo_md5 ["qty"] null_row = row_fingerprint demo_md5 ["qty"] token_row ∧
  ∃ evs, trace run.2 = trace null_world ++ evs ∧
    ¬ ∃ e, e ∈ evs ∧ upserts prod_url ["id"] [VInt 1] e.
Proof.
  apply (rendering_hides_differences demo_md5 local_url prod_url orders orders
           demo_options null_world [VInt 1] null_row token_row).
  - discriminate.
  - discriminate.
  - intros c Hc Hin.
    change (c ∈ ["id"]) in Hc. change (c ∈ ["total"]) in Hin.
    apply list_elem_of_singleton in Hc. apply list_elem_of_singleton in Hin.
    congruence.
  - reflexivity.
  - reflexivity.
  - reflexivity.
  - reflexivity.
Defined.

Lemma sync_table_brings_keys_witness :
  let w' := (sync_table demo_md5 local_url prod_url orders orders plain_insert_options
               demo_world).2 in
  key_set w' prod_url "orders" ["id"] ⊆ key_set demo_world local_url "orders" ["id"] ∧
  (use_insert_ignore plain_insert_options = false →
   key_set w' prod_url "orders" ["id"] = key_set demo_world local_url "orders" ["id"]) ∧
  dbs w' !! local_url = dbs demo_world !! local_url.
Proof.
  apply (sync_table_brings_keys demo_md5 local_url prod_url orders orders
           plain_insert_options demo_world).
  - vm_compute. reflexivity.
  - reflexivity.
  - reflexivity.
  - discriminate.
  - discriminate.
  - intros c Hc Hin.
    change (c ∈ ["id"]) in Hc. change (c ∈ ["total"]) in Hin.
    apply list_elem_of_singleton in Hc. apply list_elem_of_singleton in Hin.
    congruence.
  - intros c Hc Hin.
    change (c ∈ ["id"]) in Hc. change (c ∈ ["total"]) in Hin.
    apply list_elem_of_singleton in Hc. apply list_elem_of_singleton in Hin.
    congruence.
  - reflexivity.
  - vm_compute. reflexivity.
  - vm_compute. reflexivity.
Defined.

Lemma sync_table_brings_data_witness :
  let w' := (sync_table demo_md5 local_url prod_url orders orders plain_insert_options
               demo_world).2 in
  fingerprint_at demo_md5 w' prod_url "orders" ["id"] ["qty"] [VInt 3]
  = fingerprint_at demo_md5 demo_world local_url "orders" ["id"] ["qty"] [VInt 3].
Proof.
  apply (sync_table_brings_data demo_md5 local_url prod_url orders orders
           plain_insert_options demo_world).
  - vm_compute. reflexivity.
  - reflexivity.
  - reflexivity.
  - reflexivity.
  - discriminate.
  - discriminate.
  - intros c Hc Hin.
    change (c ∈ ["id"]) in Hc. change (c ∈ ["total"]) in Hin.
    apply list_elem_of_singleton in Hc. apply list_elem_of_singleton in Hin.
    congruence.
  - intros c Hc Hin.
    change (c ∈ ["id"]) in Hc. change (c ∈ ["total"]) in Hin.
    apply list_elem_of_singleton in Hc. apply list_elem_of_singleton in Hin.
    congruence.
  - intros c Hc. change (c ∈ ["qty"]) in Hc. change (c ∈ ["id"; "qty"]).
    apply list_elem_of_singleton in Hc. rewrite Hc. right. left.
  - reflexivity.
  - change (NoDup [[VInt 1]; [VInt 2]; [VInt 3]; [VInt 4]]).
    apply (bool_decide_unpack (NoDup [[VInt 1]; [VInt 2]; [VInt 3]; [VInt 4]])).
    vm_compute. exact I.
  - vm_compute. reflexivity.
  - vm_compute. reflexivity.
Defined.

Lemma sync_table_in_step_sends_nothing_witness :
  in_step demo_md5 local_url prod_url orders orders null_world ∧
  let run := sync_table demo_md5 local_url prod_url orders orders demo_options
               null_world in
  (∀ engine t, stored_rows run.2 engine t = stored_rows null_world engine t) ∧
  ∃ evs, trace run.2 = trace null_world ++ evs ∧
    Forall (λ e, is_mutation (ev_stmt e) = false) evs.
Proof.
  assert (Hs : in_step demo_md5 local_url prod_url orders orders null_world).
  { intros k.
    change (row_fingerprint demo_md5 ["qty"] <$> last (rows_at ["id"] k [token_row])
            = row_fingerprint demo_md5 ["qty"] <$> last (rows_at ["id"] k [null_row])).
    unfold rows_at. simpl.
    change (row_val token_row "id") with (VInt 1).
    change (row_val null_row "id") with (VInt 1).
    destruct (bool_decide ([VInt 1] = k)); [vm_compute|]; reflexivity. }
  split; [exact Hs|].
  apply (sync_table_in_step_sends_nothing demo_md5 local_url prod_url orders orders
           demo_options null_world Hs).
Defined.

Lemma sync_table_twice_witness :
  let w' := (sync_table demo_md5 local_url prod_url orders orders plain_insert_options
               demo_world).2 in
  let second := sync_table demo_md5 local_url prod_url orders orders demo_options w' in
  (∀ engine t, stored_rows second.2 engine t = stored_rows w' engine t) ∧
  ∃ evs, trace second.2 = trace w' ++ evs ∧
    Forall (λ e, is_mutation (ev_stmt e) = false) evs.
Proof.
  apply (sync_table_twice demo_md5 local_url prod_url orders orders plain_insert_options
           demo_options demo_world).
  - vm_compute. reflexivity.
  - reflexivity.
  - reflexivity.
  - reflexivity.
  - discriminate.
  - discriminate.
  - intros c Hc Hin.
    change (c ∈ ["id"]) in Hc. change (c ∈ ["total"]) in Hin.
    apply list_elem_of_singleton in Hc. apply list_elem_of_singleton in Hin.
    congruence.
  - intros c Hc Hin.
    change (c ∈ ["id"]) in Hc. change (c ∈ ["total"]) in Hin.
    apply list_elem_of_singleton in Hc. apply list_elem_of_singleton in Hin.
    congruence.
  - intros c Hc. change (c ∈ ["qty"]) in Hc. change (c ∈ ["id"; "qty"]).
    apply list_elem_of_singleton in Hc. rewrite Hc. right. left.
  - reflexivity.
  - change (NoDup [[VInt 1]; [VInt 2]; [VInt 3]; [VInt 4]]).
    apply (bool_decide_unpack (NoDup [[VInt 1]; [VInt 2]; [VInt 3]; [VInt 4]])).
    vm_compute. exact I.
  - vm_compute. reflexivity.
  - vm_compute. reflexivity.
Defined.

Lemma sync_mysql_leaves_unselected_tables_witness :
  let run := sync_mysql demo_md5 None (λ _, true) (λ _, None) None None
               local_url prod_url None (Some ["customers"]) 1000 false false false true
               None false shop_world in
  stored_rows run.2 prod_url "customers" = stored_rows shop_world prod_url "customers" ∧
  run.1 = Ok tt ∧
  map (row_key ["id"]) (stored_rows shop_world prod_url "orders")
    = [[VInt 2]; [VInt 3]; [VInt 5]] ∧
  map (row_key ["id"]) (stored_rows run.2 prod_url "orders")
    = [[VInt 2]; [VInt 3]; [VInt 1]; [VInt 4]].
Proof.
  split; [|vm_compute; repeat split].
  apply (sync_mysql_leaves_unselected_tables demo_md5 None (λ _, true) (λ _, None)
           None None local_url prod_url None (Some ["customers"]) 1000 false false false
           true None false shop_world "customers").
  - apply (bool_decide_unpack
             (map_Forall (λ n table, name table = n) (reflected shop_world prod_url))).
    vm_compute. exact I.
  - apply (bool_decide_unpack
             ("customers" ∉ filter_tables
                (get_common_table_names (reflected shop_world local_url)
                   (reflected shop_world prod_url)) None (Some ["customers"]))).
    vm_compute. exact I.
Defined.

Lemma state_file_round_trip_witness :
  let sig := "  content:6f72  " in
  let f := ".state/.sync_db_6f72.state" in
  let w1 := (save_current_signature demo_md5 None sig (Some f) demo_world).2 in
  let w2 := (save_last_local_signature sig demo_world).2 in
  load_last_signature demo_md5 None (Some f) w1 = (Ok "content:6f72", w1) ∧
  (∀ g, g ≠ f →
     (load_last_signature demo_md5 None (Some g) w1).1
     = (load_last_signature demo_md5 None (Some g) demo_world).1) ∧
  load_last_local_signature w2 = (Ok "content:6f72", w2) ∧
  strip "content:6f72" = "content:6f72".
Proof.
  apply (state_file_round_trip demo_md5 None "  content:6f72  "
           ".state/.sync_db_6f72.state" demo_world).
  reflexivity.
Defined.

Lemma sync_mysql_skips_when_unchanged_witness :
  let w := (write_current_signature demo_md5 None local_url None demo_world).2 in
  let run := sync_mysql demo_md5 None (λ _, true) (λ _, None) None None
               local_url prod_url None None 1000 false false false true None true w in
  run.1 = Ok tt ∧ dbs run.2 = dbs w ∧ files run.2 = files w ∧
  ∃ evs, trace run.2 = trace w ++ evs ∧ Forall (λ e, ev_url e = local_url) evs.
Proof.
  apply (sync_mysql_skips_when_unchanged demo_md5 None (λ _, true) (λ _, None)
           None None local_url prod_url None None 1000 false false true None
           (write_current_signature demo_md5 None local_url None demo_world).2).
  - reflexivity.
  - reflexivity.
  - discriminate.
  - vm_compute. reflexivity.
Defined.

Lemma written_signature_is_current_witness :
  let w1 := (write_current_signature demo_md5 None prod_url None demo_world).2 in
  (has_database_changes demo_md5 None prod_url None None w1).1 = Ok false.
Proof.
  apply (written_signature_is_current demo_md5 None prod_url None demo_world
           (write_current_signature demo_md5 None prod_url None demo_world).2
           (write_current_signature demo_md5 None prod_url None demo_world).2).
  - reflexivity.
  - vm_compute. reflexivity.
  - reflexivity.
  - reflexivity.
  - vm_compute. reflexivity.
Defined.
